(** * Relay substrate of the Chrome bridge: a shallow embedding

    The development follows the JavaScript sources file by file:

    - [JS]               the fragment of JavaScript values the relay inspects
                         (truthiness, [===], [String(v)] and the values on
                         which it throws, Number rounding and printing,
                         property access);
    - [NativeMessaging]  class [NativeMessaging] of
                         windows-host/src/native-messaging.js, the
                         length-prefixed stdio codec;
    - [Ws]               the [ws] package's socket as the wrappers see it (a
                         ready state and the frames handed to the wire);
    - [WSClient]         class [WSClient] of the host's [websocket-server]
                         module, the per-client wrapper;
    - [Target], [CDPClient]
                         class [CDPClient] of the host's [cdp-client] module,
                         the DevTools client with its pending-command table;
    - [CDPHost]          class [CDPHost] (the multi-client one), the relay
                         with its request-to-client routes;
    - [WebSocketClient]  class [WebSocketClient] of the bridge's
                         [websocket-client] module, the uplink with its
                         reconnect loop;
    - [UnixSocketClient] class [UnixSocketClient] of
                         wsl-bridge/src/unix-socket-server.js;
    - [WSLBridge]        class [WSLBridge], the two forwarding functions.

    Objects mutated in place become records threaded through the functions;
    callbacks that the code invokes ([messageHandler], [resolve], [reject],
    [console.warn], socket writes) become entries of an effect list returned
    next to the new state, in the order the code performs them. *)

From Stdlib Require Import ZArith NArith List String Lia.
From Stdlib.Strings Require Import Byte.
From stdpp Require Import list gmap strings pretty.

Local Open Scope Z_scope.
Set Warnings "-register-all".

(** ** JavaScript values *)

Module JS.

(** JSON documents after [JSON.parse], plus [undefined] for absent
    properties.  Numbers are the integers: the relay only compares and prints
    ids, counters and timestamps.  A number is given by the integer its
    numeral denotes; what the runtime holds is the Number nearest to it
    ([to_Number]), which is the integer itself up to 2^53 in magnitude. *)
Inductive value : Type :=
  | Undefined
  | Null
  | Bool (b : bool)
  | Num (n : Z)
  | Str (s : string)
  | Arr (items : list value)
  | Obj (fields : list (string * value)).

(** ToBoolean: [if (v)], [!v], [v ? a : b]. *)
Definition truthy (v : value) : bool :=
  match v with
  | Undefined | Null => false
  | Bool b => b
  | Num n => negb (n =? 0)
  | Str s => negb (String.eqb s "")
  | Arr _ | Obj _ => true
  end.

(** [a === b] between a value read from a parsed document and another one:
    primitives compare by content, two distinct objects are never equal. *)
Definition strict_eq (a b : value) : bool :=
  match a, b with
  | Undefined, Undefined => true
  | Null, Null => true
  | Bool x, Bool y => Bool.eqb x y
  | Num x, Num y => x =? y
  | Str x, Str y => String.eqb x y
  | _, _ => false
  end.

(** The Number nearest to the integer [n]: [n] itself up to 2^53 in
    magnitude; beyond that the significand keeps 53 bits, rounded to nearest
    with ties going to the even significand; [None] is an infinity, past the
    largest finite Number. *)
Definition to_Number (n : Z) : option Z :=
  let a := Z.abs n in
  if a <=? 2 ^ 53 then Some n
  else
    let e := Z.log2 a - 52 in
    let q := a / 2 ^ e in
    let r := a mod 2 ^ e in
    let half := 2 ^ (e - 1) in
    let q' := if r <? half then q
              else if half <? r then q + 1
              else if Z.even q then q else q + 1 in
    if 2 ^ 1024 <=? q' * 2 ^ e then None else Some (Z.sgn n * (q' * 2 ^ e)).

(** Number::toString for a Number [a] above 2^53: the digits are those of the
    decimal with the fewest significant digits that reads back as [a], the
    nearest to [a] if several do (then the even one). *)
Definition reads_as (a x : Z) : bool :=
  match to_Number x with
  | Some y => y =? a
  | None => false
  end.

(** The multiple of [p] that reads back as [a], if one does. *)
Definition shortest_at (a p : Z) : option Z :=
  let lo := a / p * p in
  let hi := lo + p in
  match reads_as a lo, reads_as a hi with
  | true, true =>
      Some (if a - lo <? hi - a then lo
            else if hi - a <? a - lo then hi
            else if Z.even (a / p) then lo else hi)
  | true, false => Some lo
  | false, true => Some hi
  | false, false => None
  end.

(** The number of decimal digits. *)
Definition width (a : Z) : Z := Z.of_nat (String.length (pretty a)).

(** Seventeen significant digits always read back. *)
Definition shortest (a : Z) : Z :=
  let d := width a in
  match omap (fun k => shortest_at a (10 ^ (d - Z.of_nat k))) (seq 1 17) with
  | v :: _ => v
  | [] => a
  end.

Fixpoint strip_zeros (turns : nat) (v : Z) : Z :=
  match turns with
  | O => v
  | S turns' =>
      if (v mod 10 =? 0) && negb (v =? 0) then strip_zeros turns' (v / 10) else v
  end.

(** [d.ddde+x], for a decimal of more than 21 digits. *)
Definition exponent_form (v : Z) : string :=
  let d := width v in
  match pretty (strip_zeros (Z.to_nat d) v) with
  | String c rest =>
      String c (match rest with
                | EmptyString => ""
                | _ => "." ++ rest
                end) ++ "e+" ++ pretty (d - 1)
  | EmptyString => ""
  end.

(** [String(n)] of a number: the decimal numeral up to 2^53; beyond that the
    shortest digits followed by zeros, up to 21 digits in all, and the
    exponent form from 1e21 on. *)
Definition number_text (n : Z) : string :=
  match to_Number n with
  | None => if n <? 0 then "-Infinity" else "Infinity"
  | Some v =>
      let a := Z.abs v in
      if a <=? 2 ^ 53 then pretty v
      else
        let t := shortest a in
        let sign := if v <? 0 then "-" else "" in
        let digits := if width t <=? 21 then pretty t else exponent_form t in
        (sign ++ digits)%string
  end.

(** The text [String(v)] returns when it returns (see [stringifies]); an
    array prints its items separated by commas, [null] and [undefined] items
    as nothing. *)
Fixpoint to_String (v : value) : string :=
  match v with
  | Undefined => "undefined"
  | Null => "null"
  | Bool true => "true"
  | Bool false => "false"
  | Num n => number_text n
  | Str s => s
  | Arr items =>
      (fix join (l : list value) : string :=
         match l with
         | [] => ""
         | x :: rest =>
             let head := match x with
                         | Undefined | Null => ""
                         | _ => to_String x
                         end in
             match rest with
             | [] => head
             | _ :: _ => (head ++ "," ++ join rest)%string
             end
         end) items
  | Obj _ => "[object Object]"
  end.

(** Own-property lookup in a field list (the last write of a key wins in an
    object literal; parsed documents are stored with the winning binding
    first). *)
Fixpoint assoc (k : string) (fields : list (string * value)) : value :=
  match fields with
  | [] => Undefined
  | (k', v) :: rest => if String.eqb k k' then v else assoc k rest
  end.

(** [Object.hasOwn(v, k)] on the fields of an object. *)
Definition has_own (k : string) (fields : list (string * value)) : bool :=
  existsb (fun field => String.eqb k field.1) fields.

(** Whether [String(v)], and so a template literal [`${v}`], returns.  The
    conversion of an object asks for its [toString] method and then for
    [valueOf].  An object read from a JSON document inherits both, and
    [Object.prototype.toString] answers; but an own property [toString] of
    such an object is not a function and is passed over, the inherited
    [valueOf] returns the object itself, and the conversion ends in a
    TypeError.  An array converts its items one by one. *)
Fixpoint stringifies (v : value) : bool :=
  match v with
  | Obj fields => negb (has_own "toString" fields)
  | Arr items =>
      (fix all (l : list value) : bool :=
         match l with
         | [] => true
         | x :: rest => stringifies x && all rest
         end) items
  | _ => true
  end.

(** [v.k] on a value that is not [null] or [undefined], for the property
    names the relay reads ([id], [payload], [direction], [error], ...): absent
    on primitives and on arrays. *)
Definition get (v : value) (k : string) : value :=
  match v with
  | Obj fields => assoc k fields
  | _ => Undefined
  end.

(** [v?.k]: [undefined] when [v] is [null] or [undefined]. *)
Definition opt_get (v : value) (k : string) : value := get v k.

(** [a || b]. *)
Definition or_else (a b : value) : value := if truthy a then a else b.

(** What a call does: return or throw. *)
Inductive exn : Type :=
  | Error (message : string)
  | TypeError (message : string)
  | SyntaxError (message : string).

Inductive completion (A : Type) : Type :=
  | Normal (a : A)
  | Throw (e : exn).

Arguments Normal {A} a.
Arguments Throw {A} e.

(** [error.message]. *)
Definition message_of (e : exn) : string :=
  match e with
  | Error message | TypeError message | SyntaxError message => message
  end.

(** [String(v)] and [`${v}`] as expressions. *)
Definition ToString (v : value) : completion string :=
  if stringifies v then Normal (to_String v)
  else Throw (TypeError "Cannot convert object to primitive value").

(** [v.k] as an expression: a [TypeError] on [null] and [undefined]. *)
Definition prop (v : value) (k : string) : completion value :=
  match v with
  | Undefined | Null =>
      Throw (TypeError ("Cannot read properties of " ++ to_String v
                        ++ " (reading '" ++ k ++ "')"))
  | _ => Normal (get v k)
  end.

End JS.

(** ** Class [NativeMessaging] (windows-host/src/native-messaging.js) *)

Module NativeMessaging.

(** [Buffer] contents are byte lists. *)
Definition byte_of_N (n : N) : byte :=
  match Byte.of_N (n mod 256)%N with
  | Some b => b
  | None => x00
  end.

(** [buf.writeUInt32LE(n, 0)] on a fresh 4-byte buffer. *)
Definition writeUInt32LE (n : N) : list byte :=
  [ byte_of_N n;
    byte_of_N (n / 256)%N;
    byte_of_N (n / 65536)%N;
    byte_of_N (n / 16777216)%N ].

(** [buf.readUInt32LE(0)]; the caller guarantees four bytes. *)
Definition readUInt32LE (buf : list byte) : N :=
  match buf with
  | b0 :: b1 :: b2 :: b3 :: _ =>
      (Byte.to_N b0 + 256 * Byte.to_N b1 + 65536 * Byte.to_N b2
       + 16777216 * Byte.to_N b3)%N
  | _ => 0%N
  end.

(** [buf.slice(from, to)]. *)
Definition slice (from to : nat) (buf : list byte) : list byte :=
  take (to - from) (drop from buf).

(** Chrome's limit, [1024 * 1024]. *)
Definition MAX_MESSAGE_SIZE : nat := 1024 * 1024.

Inductive error : Type :=
  | MessageTooLarge (bytes : nat)   (* `Message too large: ${n} bytes (max 1MB)` *)
  | FailedToParse.                  (* `Failed to parse message: ...` *)

Section Codec.
(** The message type with [JSON.stringify] followed by
    [Buffer.from(json, 'utf8')], and [JSON.parse] of
    [buf.toString('utf8')], which throws ([None]) on malformed text. *)
Context {message : Type}.
Variable stringify : message -> list byte.
Variable parse : list byte -> option message.

(** What a call does to the outside: handler invocations and writes to
    [process.stdout]. *)
Inductive effect : Type :=
  | CallMessageHandler (m : message)
  | CallErrorHandler (e : error)
  | StdoutWrite (bytes : list byte).

(** The object's fields; a handler is either [null] or installed. *)
Record t : Type := mk {
  messageHandler : bool;
  errorHandler : bool;
  buffer : list byte
}.

(** [new NativeMessaging()]. *)
Definition create : t :=
  {| messageHandler := false; errorHandler := false; buffer := [] |}.

Definition onMessage (self : t) : t :=
  {| messageHandler := true; errorHandler := errorHandler self;
     buffer := buffer self |}.

Definition onError (self : t) : t :=
  {| messageHandler := messageHandler self; errorHandler := true;
     buffer := buffer self |}.

(** The [try { ... } catch] around one extracted frame. *)
Definition dispatch (self : t) (messageBuffer : list byte) : list effect :=
  match parse messageBuffer with
  | Some m => if messageHandler self then [CallMessageHandler m] else []
  | None => if errorHandler self then [CallErrorHandler FailedToParse] else []
  end.

(** The [while (this.buffer.length >= 4)] loop of [handleData]; every turn
    that does not [break] removes at least four bytes, so the buffer length
    bounds the number of turns. *)
Fixpoint drain (turns : nat) (self : t) (buf : list byte)
  : list byte * list effect :=
  match turns with
  | O => (buf, [])
  | S turns' =>
      if (length buf <? 4)%nat then (buf, [])
      else
        let messageLength := N.to_nat (readUInt32LE buf) in
        if (length buf <? 4 + messageLength)%nat then (buf, [])
        else
          let messageBuffer := slice 4 (4 + messageLength) buf in
          let buf' := drop (4 + messageLength) buf in
          let '(rest, effs) := drain turns' self buf' in
          (rest, dispatch self messageBuffer ++ effs)
  end.

(** [handleData(chunk)]. *)
Definition handleData (chunk : list byte) (self : t) : t * list effect :=
  let buf := buffer self ++ chunk in
  let '(rest, effs) := drain (length buf) self buf in
  ({| messageHandler := messageHandler self;
      errorHandler := errorHandler self;
      buffer := rest |}, effs).

(** [send(message)]: the object is left as it is; the result is what
    reaches [process.stdout] and the error handler. *)
Definition send (m : message) (self : t) : list effect :=
  let buffer := stringify m in
  if (MAX_MESSAGE_SIZE <? length buffer)%nat then
    if errorHandler self
    then [CallErrorHandler (MessageTooLarge (length buffer))]
    else []
  else
    [StdoutWrite (writeUInt32LE (N.of_nat (length buffer)));
     StdoutWrite buffer].

(** The bytes that reached [process.stdout], in order. *)
Fixpoint stdout_bytes (effs : list effect) : list byte :=
  match effs with
  | [] => []
  | StdoutWrite bs :: rest => bs ++ stdout_bytes rest
  | _ :: rest => stdout_bytes rest
  end.

(** Feeding a stream chunk by chunk, as successive ['data'] events. *)
Fixpoint feed (chunks : list (list byte)) (self : t) : t * list effect :=
  match chunks with
  | [] => (self, [])
  | chunk :: rest =>
      let '(self1, effs1) := handleData chunk self in
      let '(self2, effs2) := feed rest self1 in
      (self2, effs1 ++ effs2)
  end.

(** The frame [send] writes for a message within the cap. *)
Definition frame (m : message) : list byte :=
  writeUInt32LE (N.of_nat (length (stringify m))) ++ stringify m.

(** The size check of [send], read as a property of the message. *)
Definition within_cap (m : message) : Prop :=
  (length (stringify m) <= MAX_MESSAGE_SIZE)%nat.

#[global] Instance within_cap_dec m : Decision (within_cap m).
Proof. unfold within_cap. apply _. Defined.

(** A buffer the loop leaves alone: no complete frame at its head. *)
Definition incomplete (buf : list byte) : Prop :=
  (length buf < 4)%nat \/
  (length buf < 4 + N.to_nat (readUInt32LE buf))%nat.

End Codec.

Arguments effect : clear implicits.

End NativeMessaging.

(** ** The [ws] package's socket, as the wrappers use it *)

Module Ws.

Inductive state : Type := CONNECTING | OPEN | CLOSING | CLOSED.

#[global] Instance state_eq_dec : EqDecision state.
Proof. solve_decision. Defined.

(** A socket: its [readyState] and the text frames it has put on the wire,
    oldest first.  A frame is recorded as the document it carries, that is
    the value [JSON.stringify] was applied to. *)
Record socket : Type := mk {
  readyState : state;
  wire : list JS.value
}.

(** The socket [new WebSocket(address)] returns. *)
Definition create : socket := {| readyState := CONNECTING; wire := [] |}.

(** [new WebSocket(address)].  The constructor parses the address before it
    connects and throws a SyntaxError for one it cannot use ([undefined], a
    text that is no URL, a URL of another protocol or with a fragment);
    [invalid] tells which addresses those are, with the message of the
    error. *)
Definition construct (invalid : JS.value -> option string) (address : JS.value)
  : JS.completion socket :=
  match invalid address with
  | Some message => JS.Throw (JS.SyntaxError message)
  | None => JS.Normal create
  end.

(** [ws.send(data)] of the package: it throws while the socket is still
    connecting, transmits when it is open, and lets the data go (reporting
    only to the optional callback, which no caller here passes) once the
    socket is closing or closed. *)
Definition send (data : JS.value) (s : socket) : JS.completion socket :=
  match readyState s with
  | CONNECTING =>
      JS.Throw (JS.Error "WebSocket is not open: readyState 0 (CONNECTING)")
  | OPEN => JS.Normal {| readyState := OPEN; wire := wire s ++ [data] |}
  | CLOSING | CLOSED => JS.Normal s
  end.

End Ws.

(** ** Class [WSClient] (the host's [websocket-server] module) *)

Module WSClient.

Record t : Type := mk {
  ws : Ws.socket;
  messageHandler : bool;
  closeHandler : bool;
  errorHandler : bool
}.

(** [new WSClient(ws)]. *)
Definition create (ws : Ws.socket) : t :=
  {| ws := ws; messageHandler := false; closeHandler := false;
     errorHandler := false |}.

Definition with_ws (s : Ws.socket) (self : t) : t :=
  {| ws := s; messageHandler := messageHandler self;
     closeHandler := closeHandler self; errorHandler := errorHandler self |}.

(** [send(message)]. *)
Definition send (message : JS.value) (self : t) : JS.completion t :=
  if decide (Ws.readyState (ws self) = Ws.OPEN) then
    match Ws.send message (ws self) with
    | JS.Normal s => JS.Normal (with_ws s self)
    | JS.Throw e => JS.Throw e
    end
  else JS.Normal self.

End WSClient.

(** ** Class [CDPClient] (the host's [cdp-client] module) *)

(** An entry of Chrome's [/json/list] listing. *)
Module Target.

Record t : Type := mk {
  id : JS.value;
  type : JS.value;
  title : JS.value;
  url : JS.value;
  webSocketDebuggerUrl : JS.value
}.

End Target.

Module CDPClient.

(** The delay passed to [setTimeout] in [send]. *)
Definition COMMAND_TIMEOUT : Z := 30000.

(** A timer armed by [send]: its callback closes over [id] and [method]. *)
Record timer : Type := mk_timer {
  due : Z;
  timer_id : Z;
  timer_method : string
}.

(** The object's fields, followed by what its methods have created in the
    runtime: the number of promises handed out so far (a promise is named by
    its rank) and the timers armed and not yet fired, oldest first.  An entry
    of [pendingCommands] holds the [resolve]/[reject] pair of one promise and
    is represented by that promise. *)
Record t : Type := mk {
  port : Z;
  ws : option Ws.socket;
  messageId : Z;
  pendingCommands : gmap Z nat;
  targetId : JS.value;
  sessionId : JS.value;
  promises : nat;
  timers : list timer
}.

Inductive effect : Type :=
  | Resolve (p : nat) (result : JS.value)   (* [resolve(result)] of promise [p] *)
  | Reject (p : nat) (message : string)     (* [reject(new Error(message))] *)
  | NewWebSocket (url : JS.value)           (* [new WebSocket(url)] *)
  | Thrown (e : JS.exn).                    (* an async method ended in [throw] *)

(** [new CDPClient(port)]. *)
Definition create (port : Z) : t :=
  {| port := port; ws := None; messageId := 0; pendingCommands := ∅;
     targetId := JS.Null; sessionId := JS.Null; promises := 0; timers := [] |}.

Definition with_targetId (id : JS.value) (self : t) : t :=
  {| port := port self; ws := ws self; messageId := messageId self;
     pendingCommands := pendingCommands self;
     targetId := id; sessionId := sessionId self;
     promises := promises self; timers := timers self |}.

Definition with_ws (s : option Ws.socket) (self : t) : t :=
  {| port := port self; ws := s; messageId := messageId self;
     pendingCommands := pendingCommands self;
     targetId := targetId self; sessionId := sessionId self;
     promises := promises self; timers := timers self |}.

(** [connectToTarget(targetId)], from the point where [await getTargets()]
    has produced [listing] (a throw of [getTargets] passes through); the
    result is the object as the call leaves it and what the call does.
    [this.targetId] is assigned as soon as a target is chosen.  Then
    [new WebSocket(target.webSocketDebuggerUrl)] either throws, which rejects
    the promise the method returns and leaves [this.ws] as it was, or gives
    the new, still connecting socket, which the object then holds; the
    promise resolves with the chosen target once that socket opens. *)
Definition connectToTarget (invalid : JS.value -> option string)
    (targetId : JS.value) (listing : JS.completion (list Target.t)) (self : t)
  : t * JS.completion (Target.t * list effect) :=
  match listing with
  | JS.Throw e => (self, JS.Throw e)
  | JS.Normal targets =>
      let target :=
        if JS.truthy targetId
        then List.find (fun t => JS.strict_eq (Target.id t) targetId) targets
        else List.find (fun t => JS.strict_eq (Target.type t) (JS.Str "page")) targets in
      match target with
      | None => (self, JS.Throw (JS.Error "No suitable target found"))
      | Some target =>
          let self1 := with_targetId (Target.id target) self in
          match Ws.construct invalid (Target.webSocketDebuggerUrl target) with
          | JS.Throw e => (self1, JS.Throw e)
          | JS.Normal s =>
              (with_ws (Some s) self1,
               JS.Normal
                 (target, [NewWebSocket (Target.webSocketDebuggerUrl target)]))
          end
      end
  end.

(** The socket's ['open'] event. *)
Definition on_open (self : t) : t :=
  {| port := port self;
     ws := match ws self with
           | Some s => Some {| Ws.readyState := Ws.OPEN; Ws.wire := Ws.wire s |}
           | None => None
           end;
     messageId := messageId self; pendingCommands := pendingCommands self;
     targetId := targetId self; sessionId := sessionId self;
     promises := promises self; timers := timers self |}.

(** The ['close'] listener installed by [connectToTarget]. *)
Definition on_close (self : t) : t :=
  {| port := port self; ws := None;
     messageId := messageId self; pendingCommands := pendingCommands self;
     targetId := JS.Null; sessionId := sessionId self;
     promises := promises self; timers := timers self |}.

(** The message of [new Error(v)]. *)
Definition error_text (v : JS.value) : string :=
  match v with
  | JS.Undefined => ""
  | _ => JS.to_String v
  end.

(** [handleMessage(message)].  The table is keyed by the numbers [send]
    allocates, so [message.id !== undefined && pendingCommands.has(message.id)]
    holds exactly for a numeric id with an entry. *)
Definition handleMessage (message : JS.value) (self : t)
  : JS.completion (t * list effect) :=
  match JS.prop message "id" with
  | JS.Throw e => JS.Throw e
  | JS.Normal (JS.Num id) =>
      match pendingCommands self !! id with
      | Some p =>
          let self' :=
            {| port := port self; ws := ws self; messageId := messageId self;
               pendingCommands := delete id (pendingCommands self);
               targetId := targetId self; sessionId := sessionId self;
               promises := promises self; timers := timers self |} in
          let error := JS.get message "error" in
          JS.Normal
            (self',
             [ if JS.truthy error
               then Reject p (error_text (JS.get error "message"))
               else Resolve p (JS.get message "result") ])
      | None => JS.Normal (self, [])
      end
  | JS.Normal _ => JS.Normal (self, [])
  end.

(** [send(method, params)] called at time [now]; the result is the new object
    and the promise returned to the caller. *)
Definition send (now : Z) (method : string) (params : JS.value) (self : t)
  : JS.completion (t * nat) :=
  match ws self with
  | Some s =>
      if decide (Ws.readyState s = Ws.OPEN) then
        let id := messageId self + 1 in
        let p := promises self in
        match Ws.send (JS.Obj [ ("id", JS.Num id);
                                ("method", JS.Str method);
                                ("params", params) ]) s with
        | JS.Normal s' =>
            JS.Normal
              ({| port := port self; ws := Some s'; messageId := id;
                  pendingCommands := <[id := p]> (pendingCommands self);
                  targetId := targetId self; sessionId := sessionId self;
                  promises := S p;
                  timers := timers self
                            ++ [mk_timer (now + COMMAND_TIMEOUT) id method] |},
               p)
        | JS.Throw e => JS.Throw e
        end
      else JS.Throw (JS.Error "Not connected to Chrome")
  | None => JS.Throw (JS.Error "Not connected to Chrome")
  end.

(** The callback [send] hands to [setTimeout]. *)
Definition on_timeout (tm : timer) (self : t) : t * list effect :=
  match pendingCommands self !! timer_id tm with
  | Some p =>
      ({| port := port self; ws := ws self; messageId := messageId self;
          pendingCommands := delete (timer_id tm) (pendingCommands self);
          targetId := targetId self; sessionId := sessionId self;
          promises := promises self; timers := timers self |},
       [Reject p ("Command " ++ timer_method tm ++ " timed out")])
  | None => (self, [])
  end.

(** The callbacks of [tms] run one after the other. *)
Fixpoint expire (tms : list timer) (self : t) : t * list effect :=
  match tms with
  | [] => (self, [])
  | tm :: rest =>
      let '(self1, effs1) := on_timeout tm self in
      let '(self2, effs2) := expire rest self1 in
      (self2, effs1 ++ effs2)
  end.

Definition is_due (now : Z) (tm : timer) : bool := due tm <=? now.

(** The event loop reaches time [now]: every armed timer that is due fires,
    in the order they were armed, and is gone. *)
Definition tick (now : Z) (self : t) : t * list effect :=
  expire (List.filter (is_due now) (timers self))
    {| port := port self; ws := ws self; messageId := messageId self;
       pendingCommands := pendingCommands self;
       targetId := targetId self; sessionId := sessionId self;
       promises := promises self;
       timers := List.filter (fun tm => negb (is_due now tm)) (timers self) |}.

(** What can happen to a client: a caller invokes [send]; the socket delivers
    a JSON object; time passes; [connectToTarget] is called, with a socket
    constructor that refuses the addresses [invalid] names; the socket opens
    or closes. *)
Inductive event : Type :=
  | Invoke (now : Z) (method : string) (params : JS.value)
  | Message (fields : list (string * JS.value))
  | Tick (now : Z)
  | Connect (invalid : JS.value -> option string) (targetId : JS.value)
      (listing : JS.completion (list Target.t))
  | SocketOpen
  | SocketClose.

Definition step (ev : event) (self : t) : t * list effect :=
  match ev with
  | Invoke now method params =>
      match send now method params self with
      | JS.Normal (self', _) => (self', [])
      | JS.Throw e => (self, [Thrown e])
      end
  | Message fields =>
      match handleMessage (JS.Obj fields) self with
      | JS.Normal r => r
      | JS.Throw e => (self, [Thrown e])
      end
  | Tick now => tick now self
  | Connect invalid targetId listing =>
      match connectToTarget invalid targetId listing self with
      | (self', JS.Normal (_, effs)) => (self', effs)
      | (self', JS.Throw e) => (self', [Thrown e])
      end
  | SocketOpen => (on_open self, [])
  | SocketClose => (on_close self, [])
  end.

Fixpoint run (tr : list event) (self : t) : t * list effect :=
  match tr with
  | [] => (self, [])
  | ev :: rest =>
      let '(self1, effs1) := step ev self in
      let '(self2, effs2) := run rest self1 in
      (self2, effs1 ++ effs2)
  end.

(** The states a client can be in. *)
Definition reachable (self : t) : Prop :=
  exists port tr, self = (run tr (create port)).1.

(** The calls of [resolve] and [reject] on promise [p] among [effs]. *)
Definition settles (p : nat) (e : effect) : bool :=
  match e with
  | Resolve q _ | Reject q _ => Nat.eqb q p
  | _ => false
  end.

Definition settlements (p : nat) (effs : list effect) : list effect :=
  List.filter (settles p) effs.

(** What [handleMessage] does to the promise of the entry a frame matches. *)
Definition outcome (p : nat) (fields : list (string * JS.value)) : effect :=
  if JS.truthy (JS.assoc "error" fields)
  then Reject p (error_text (JS.get (JS.assoc "error" fields) "message"))
  else Resolve p (JS.assoc "result" fields).

(** The two stages in the life of the command that [send] stored under [id]
    with promise [p] and timer [tm].  Before its entry is destroyed: the
    entry is in the table and nobody has called the promise's [resolve] or
    [reject].  After: the entry is gone, no entry holds the promise, and the
    promise was settled by exactly one call, for one of the two causes
    below. *)
Definition still_pending (id : Z) (p : nat) (self : t) (effs : list effect)
  : Prop :=
  pendingCommands self !! id = Some p /\ settlements p effs = [].

(** Why a call [e] on the promise was made, given the events [seen]: the
    timer fired, time having reached its due date; or a frame bearing [id]
    arrived, before time had reached the due date. *)
Definition cause (id : Z) (p : nat) (tm : timer)
    (seen : list event) (e : effect) : Prop :=
  (e = Reject p ("Command " ++ timer_method tm ++ " timed out")
   /\ exists now, Tick now ∈ seen /\ due tm <= now)
  \/ (exists before fields after,
        seen = before ++ Message fields :: after
        /\ JS.assoc "id" fields = JS.Num id
        /\ e = outcome p fields
        /\ forall now, Tick now ∈ before -> now < due tm).

Definition destroyed (id : Z) (p : nat) (tm : timer)
    (self : t) (seen : list event) (effs : list effect) : Prop :=
  pendingCommands self !! id = None
  /\ (forall i, pendingCommands self !! i <> Some p)
  /\ exists e, settlements p effs = [e] /\ cause id p tm seen e.

(** The table and the runtime agree: entries are stored under ids already
    allocated, hold promises already created, no promise sits under two ids,
    and timers carry allocated ids. *)
Record wf (self : t) : Prop := mk_wf {
  wf_id : forall i p, pendingCommands self !! i = Some p -> i <= messageId self;
  wf_handle : forall i p,
    pendingCommands self !! i = Some p -> (p < promises self)%nat;
  wf_inj : forall i j p,
    pendingCommands self !! i = Some p -> pendingCommands self !! j = Some p ->
    i = j;
  wf_timers : forall tm, tm ∈ timers self -> timer_id tm <= messageId self
}.

(** The command's timer is the only one armed for its id, and while the
    command is pending the timer is armed and time has not reached it. *)
Definition timer_armed (id : Z) (p : nat) (tm : timer)
    (self : t) (seen : list event) (effs : list effect) : Prop :=
  (forall tm', tm' ∈ timers self -> timer_id tm' = id -> tm' = tm)
  /\ (still_pending id p self effs ->
        tm ∈ timers self /\ forall now, Tick now ∈ seen -> now < due tm).

(** What holds of that command whatever happens. *)
Definition followed (id : Z) (p : nat) (tm : timer)
    (self : t) (seen : list event) (effs : list effect) : Prop :=
  wf self /\ id <= messageId self /\ (p < promises self)%nat
  /\ (still_pending id p self effs \/ destroyed id p tm self seen effs).

End CDPClient.

(** ** Class [CDPHost] (the host serving several bridges) *)

Module CDPHost.

(** Log lines, and the start of a tool handler.  The handlers drive Chrome
    through the [CDPClient] and finish later, at which point
    [handleToolCall] passes their result to [sendResponse] or the message of
    what they threw to [sendError].  [Uncaught]: the promise of an
    asynchronous callback was rejected with nobody handling it, on which
    Node ends the process. *)
Inductive effect : Type :=
  | Log (level : string) (text : string)
  | StartTool (toolName : string) (args : JS.value) (id : JS.value)
  | Uncaught (e : JS.exn).

(** The fields of the host that the relay logic uses; [wsServer] and [cdp]
    are reached only through the handlers. *)
Record t : Type := mk {
  clients : gmap Z WSClient.t;        (* clientId -> client *)
  requestToClient : gmap string Z;    (* requestId -> clientId *)
  clientCounter : Z;
  chromeConnected : bool
}.

(** [new CDPHost()]. *)
Definition create : t :=
  {| clients := ∅; requestToClient := ∅; clientCounter := 0;
     chromeConnected := false |}.

(** The [wsServer.onConnection] callback of [start]. *)
Definition onConnection (client : WSClient.t) (self : t) : t * list effect :=
  let clientId := clientCounter self + 1 in
  let clients' := <[clientId := client]> (clients self) in
  ({| clients := clients'; requestToClient := requestToClient self;
      clientCounter := clientId; chromeConnected := chromeConnected self |},
   [Log "info" ("WSL bridge connected (client " ++ pretty clientId
                ++ ", total: " ++ pretty (size clients') ++ ")")]).

(** The envelope of a response: [payload] is [{requestId: id, result}] or
    [{requestId: id, error}]. *)
Definition envelope (now : Z) (id : JS.value) (slot : string) (content : JS.value)
  : JS.value :=
  JS.Obj [ ("id", id);
           ("direction", JS.Str "from-chrome");
           ("timestamp", JS.Num now);
           ("payload", JS.Obj [("requestId", id); (slot, content)]) ].

(** [clientId ? this.clients.get(clientId) : null], for the [clientId] read
    from the route table. *)
Definition client_of (route : option Z) (self : t) : option WSClient.t :=
  match route with
  | Some clientId =>
      if JS.truthy (JS.Num clientId) then clients self !! clientId else None
  | None => None
  end.

Definition client_text (route : option Z) : string :=
  match route with
  | Some clientId => pretty clientId
  | None => "undefined"
  end.

(** The common tail of [sendResponse] and [sendError]: drop the route, hand
    the envelope to the client. *)
Definition deliver (clientId : Z) (client : WSClient.t) (id : JS.value)
    (message : JS.value) (self : t) : JS.completion t :=
  match WSClient.send message client with
  | JS.Normal client' =>
      JS.Normal
        {| clients := <[clientId := client']> (clients self);
           requestToClient := delete (JS.to_String id) (requestToClient self);
           clientCounter := clientCounter self;
           chromeConnected := chromeConnected self |}
  | JS.Throw e => JS.Throw e
  end.

(** [sendResponse(id, result)], at time [now].  The method is called by
    [handleToolCall] with the id of a message that the [client.onMessage]
    callback has let through, for which [String(id)] has returned. *)
Definition sendResponse (now : Z) (id : JS.value) (result : JS.value) (self : t)
  : JS.completion (t * list effect) :=
  let route := requestToClient self !! JS.to_String id in
  let debug :=
    Log "debug" ("Sending response for " ++ JS.to_String id
                 ++ " to client " ++ client_text route) in
  match route, client_of route self with
  | Some clientId, Some client =>
      match deliver clientId client id (envelope now id "result" result) self with
      | JS.Normal self' => JS.Normal (self', [debug])
      | JS.Throw e => JS.Throw e
      end
  | _, _ =>
      JS.Normal
        (self, [debug; Log "warn" ("No client found for request " ++ JS.to_String id)])
  end.

(** [sendError(id, error)], at time [now], called like [sendResponse]. *)
Definition sendError (now : Z) (id : JS.value) (error : string) (self : t)
  : JS.completion (t * list effect) :=
  let route := requestToClient self !! JS.to_String id in
  match route, client_of route self with
  | Some clientId, Some client =>
      match deliver clientId client id
              (envelope now id "error" (JS.Str error)) self with
      | JS.Normal self' => JS.Normal (self', [])
      | JS.Throw e => JS.Throw e
      end
  | _, _ =>
      JS.Normal
        (self, [Log "warn" ("No client found for error response " ++ JS.to_String id)])
  end.

(** The cases of the [switch] in [handleToolCall]. *)
Definition tools : list string :=
  [ "tabs_context_mcp"; "tabs_create_mcp"; "navigate"; "computer"; "read_page";
    "get_page_text"; "javascript_tool"; "find"; "form_input"; "console_logs" ].

(** [payload?.params?.name || payload?.tool]. *)
Definition tool_name (payload : JS.value) : JS.value :=
  JS.or_else (JS.opt_get (JS.opt_get payload "params") "name")
             (JS.opt_get payload "tool").

(** [payload?.params?.arguments || payload?.arguments || {}]. *)
Definition tool_args (payload : JS.value) : JS.value :=
  JS.or_else (JS.opt_get (JS.opt_get payload "params") "arguments")
             (JS.or_else (JS.opt_get payload "arguments") (JS.Obj [])).

(** The [case] a tool name selects, if any ([switch] compares with [===]). *)
Definition known_tool (toolName : JS.value) : option string :=
  match toolName with
  | JS.Str name => if bool_decide (name ∈ tools) then Some name else None
  | _ => None
  end.

(** [handleToolCall(bridgeMessage)] up to its first suspension.  The
    template of the first log line, which stands before the [try], converts
    the tool name to a string: a throw there ends the method.  After it a
    known tool starts its handler; an unknown one throws inside the [try],
    and the [catch] sends the error at once. *)
Definition handleToolCall (now : Z) (bridgeMessage : JS.value) (self : t)
  : JS.completion (t * list effect) :=
  let payload := JS.get bridgeMessage "payload" in
  let toolName := tool_name payload in
  let args := tool_args payload in
  match JS.ToString toolName with
  | JS.Throw e => JS.Throw e
  | JS.Normal shown =>
      let debug := Log "debug" ("Tool call: " ++ shown) in
      match known_tool toolName with
      | Some name =>
          JS.Normal (self, [debug; StartTool name args (JS.get bridgeMessage "id")])
      | None =>
          let text := ("Unknown tool: " ++ shown)%string in
          match sendError now (JS.get bridgeMessage "id") text self with
          | JS.Normal (self', effs) =>
              JS.Normal
                (self',
                 [debug;
                  Log "error" ("Tool " ++ shown ++ " failed: " ++ text)]
                 ++ effs)
          | JS.Throw e => JS.Throw e
          end
      end
  end.

(** The [client.onMessage] callback installed for [clientId].  It is an
    asynchronous function with no [try] of its own: a throw, of [message.id]
    on [null], of [String(message.id)] or out of [handleToolCall], rejects
    its promise (the lines logged before the throw are not kept here). *)
Definition onMessage (clientId : Z) (now : Z) (message : JS.value) (self : t)
  : JS.completion (t * list effect) :=
  match JS.prop message "id" with
  | JS.Throw e => JS.Throw e
  | JS.Normal id =>
      match JS.ToString id with
      | JS.Throw e => JS.Throw e
      | JS.Normal requestId =>
          let self1 :=
            {| clients := clients self;
               requestToClient := <[requestId := clientId]> (requestToClient self);
               clientCounter := clientCounter self;
               chromeConnected := chromeConnected self |} in
          match handleToolCall now message self1 with
          | JS.Normal (self2, effs) =>
              JS.Normal (self2, Log "debug" "Received from WSL" :: effs)
          | JS.Throw e => JS.Throw e
          end
      end
  end.

(** The end of [handleToolCall]: [sendResponse(bridgeMessage.id, result)]
    after the handler returned, [sendError(bridgeMessage.id, error.message)]
    after it threw. *)
Definition complete (now : Z) (id : JS.value) (outcome : JS.value + string)
    (self : t) : JS.completion (t * list effect) :=
  match outcome with
  | inl result => sendResponse now id result self
  | inr error => sendError now id error self
  end.

(** The envelope that goes with it. *)
Definition response (now : Z) (id : JS.value) (outcome : JS.value + string)
  : JS.value :=
  match outcome with
  | inl result => envelope now id "result" result
  | inr error => envelope now id "error" (JS.Str error)
  end.

(** The loop of [client.onClose]: every entry whose client is [clientId] is
    deleted while the table is iterated. *)
Definition purge (clientId : Z) (routes : gmap string Z) : gmap string Z :=
  foldr (fun '(reqId, cId) table =>
           if decide (cId = clientId) then delete reqId table else table)
        routes (map_to_list routes).

(** The [client.onClose] callback installed for [clientId]. *)
Definition onClose (clientId : Z) (self : t) : t * list effect :=
  ({| clients := delete clientId (clients self);
      requestToClient := purge clientId (requestToClient self);
      clientCounter := clientCounter self;
      chromeConnected := chromeConnected self |},
   [Log "info" ("WSL bridge disconnected (client " ++ pretty clientId
                ++ ", remaining: "
                ++ pretty (Z.of_nat (size (clients self)) - 1) ++ ")")]).

(** What can happen to the host: a bridge connects; a connected bridge sends
    a message, closes, or its socket changes state underneath the wrapper; a
    tool handler returns or throws.  The [ws] package delivers no message for
    a socket whose ['close'] it has emitted, so a message event for a client
    that is not registered does nothing. *)
Inductive event : Type :=
  | Connection (ws : Ws.socket)
  | Message (clientId : Z) (now : Z) (message : JS.value)
  | Close (clientId : Z)
  | SocketState (clientId : Z) (state : Ws.state)
  | Completed (now : Z) (id : JS.value) (result : JS.value)
  | Failed (now : Z) (id : JS.value) (error : string).

(** What a callback leaves behind: its result, or, when it throws, the
    state as it was with the rejection nobody handles. *)
Definition settle (self : t) (r : JS.completion (t * list effect))
  : t * list effect :=
  match r with
  | JS.Normal r => r
  | JS.Throw e => (self, [Uncaught e])
  end.

Definition step (ev : event) (self : t) : t * list effect :=
  match ev with
  | Connection ws => onConnection (WSClient.create ws) self
  | Message clientId now message =>
      match clients self !! clientId with
      | Some _ => settle self (onMessage clientId now message self)
      | None => (self, [])
      end
  | Close clientId => onClose clientId self
  | SocketState clientId state =>
      ({| clients :=
            alter (fun client =>
                     WSClient.with_ws
                       {| Ws.readyState := state;
                          Ws.wire := Ws.wire (WSClient.ws client) |} client)
                  clientId (clients self);
          requestToClient := requestToClient self;
          clientCounter := clientCounter self;
          chromeConnected := chromeConnected self |}, [])
  | Completed now id result => settle self (sendResponse now id result self)
  | Failed now id error => settle self (sendError now id error self)
  end.

(** The process ends with the event whose effects hold an [Uncaught]. *)
Definition exits (effs : list effect) : bool :=
  existsb (fun e => match e with
                    | Uncaught _ => true
                    | _ => false
                    end) effs.

(** The events of [tr] one after the other, for as long as the process
    lives. *)
Fixpoint run (tr : list event) (self : t) : t * list effect :=
  match tr with
  | [] => (self, [])
  | ev :: rest =>
      let '(self1, effs1) := step ev self in
      if exits effs1 then (self1, effs1)
      else
        let '(self2, effs2) := run rest self1 in
        (self2, effs1 ++ effs2)
  end.

Definition reachable (self : t) : Prop :=
  exists tr, self = (run tr create).1.

(** The frames a client's socket has transmitted. *)
Definition wire_of (clientId : Z) (self : t) : list JS.value :=
  match clients self !! clientId with
  | Some client => Ws.wire (WSClient.ws client)
  | None => []
  end.

(** Effects that are diagnostics and nothing else. *)
Definition only_logs (effs : list effect) : Prop :=
  forall e, e ∈ effs -> exists level text, e = Log level text.

(** A message the [client.onMessage] callback handles without throwing:
    it has an id (it is not [null]), and the id and the tool name convert to
    strings. *)
Definition handled (message : JS.value) (id : JS.value) : Prop :=
  JS.prop message "id" = JS.Normal id
  /\ JS.stringifies id = true
  /\ JS.stringifies (tool_name (JS.get message "payload")) = true.

(** An event that neither submits a request under the id string [reqId],
    nor closes client [clientId], nor completes a call under [reqId], nor
    ends the process: a message is one that is handled, under another
    id. *)
Definition quiet (reqId : string) (clientId : Z) (ev : event) : Prop :=
  match ev with
  | Message _ _ message =>
      exists id, handled message id /\ JS.to_String id <> reqId
  | Close c => c <> clientId
  | Completed _ id _ | Failed _ id _ => JS.to_String id <> reqId
  | Connection _ | SocketState _ _ => True
  end.

(** The calls in flight: for the id string of each tool handler that has
    been started and has not ended, the client whose message started it.
    A message from a registered client that names a tool of the table
    starts a call under its id; [Completed] and [Failed] are the end of the
    call under their id. *)
Definition track (ev : event) (self : t) (calls : gmap string Z)
  : gmap string Z :=
  match ev with
  | Message clientId _ message =>
      match clients self !! clientId,
            known_tool (tool_name (JS.get message "payload")) with
      | Some _, Some _ => <[JS.to_String (JS.get message "id") := clientId]> calls
      | _, _ => calls
      end
  | Completed _ id _ | Failed _ id _ => delete (JS.to_String id) calls
  | Connection _ | Close _ | SocketState _ _ => calls
  end.

(** An event that keeps ids apart: a message comes from a registered client,
    is handled, and bears an id under which no call is in flight; a call that
    ends is one that is in flight. *)
Definition orderly (ev : event) (self : t) (calls : gmap string Z) : Prop :=
  match ev with
  | Message clientId _ message =>
      is_Some (clients self !! clientId)
      /\ exists id, handled message id /\ calls !! JS.to_String id = None
  | Completed _ id _ | Failed _ id _ => is_Some (calls !! JS.to_String id)
  | Connection _ | Close _ | SocketState _ _ => True
  end.

(** A history in which no request arrives under the id of a call still in
    flight, from the state [self] with the calls [calls] in flight. *)
Fixpoint collision_free (tr : list event) (self : t) (calls : gmap string Z)
  : Prop :=
  match tr with
  | [] => True
  | ev :: rest =>
      orderly ev self calls
      /\ collision_free rest (step ev self).1 (track ev self calls)
  end.

(** The calls in flight after the history [tr]. *)
Fixpoint in_flight (tr : list event) (self : t) (calls : gmap string Z)
  : gmap string Z :=
  match tr with
  | [] => calls
  | ev :: rest => in_flight rest (step ev self).1 (track ev self calls)
  end.

(** The routes and the calls in flight tally: every route is that of a call
    in flight, to the client that started it; the call of a client that is
    still registered has its route; and calls were started by clients the
    counter has passed. *)
Record tallies (self : t) (calls : gmap string Z) : Prop := mk_tallies {
  tally_route : forall reqId clientId,
    requestToClient self !! reqId = Some clientId ->
    calls !! reqId = Some clientId;
  tally_call : forall reqId clientId,
    calls !! reqId = Some clientId ->
    is_Some (clients self !! clientId) ->
    requestToClient self !! reqId = Some clientId;
  tally_owner : forall reqId clientId,
    calls !! reqId = Some clientId -> 0 < clientId <= clientCounter self
}.

(** Every route names a registered client, and client ids are the positive
    numbers handed out so far. *)
Record wf (self : t) : Prop := mk_wf {
  wf_routes : forall reqId clientId,
    requestToClient self !! reqId = Some clientId ->
    is_Some (clients self !! clientId);
  wf_clients : forall clientId,
    is_Some (clients self !! clientId) -> 0 < clientId <= clientCounter self;
  wf_counter : 0 <= clientCounter self
}.

End CDPHost.

(** ** Class [WebSocketClient] (the bridge's [websocket-client] module) *)

Module WebSocketClient.

Definition RECONNECT_DELAY : Z := 2000.
Definition MAX_RECONNECT_ATTEMPTS : Z := 50.

Record t : Type := mk {
  url : string;
  ws : option Ws.socket;
  reconnectAttempts : Z;
  shouldReconnect : bool;
  connected : bool;
  openHandler : bool;
  messageHandler : bool;
  closeHandler : bool;
  errorHandler : bool
}.

(** Handler calls, console output, timers and sockets let go of. *)
Inductive effect : Type :=
  | CallOpenHandler
  | CallMessageHandler (message : JS.value)
  | CallCloseHandler
  | CallErrorHandler (code : string)
  | ConsoleLog (text : string)
  | ConsoleError (text : string)
  | SetTimeout (delay : Z)            (* the reconnect callback, after [delay] ms *)
  | DiscardSocket (old : Ws.socket).  (* [removeAllListeners(); close()] *)

(** [new WebSocketClient(url)]. *)
Definition create (url : string) : t :=
  {| url := url; ws := None; reconnectAttempts := 0; shouldReconnect := true;
     connected := false; openHandler := false; messageHandler := false;
     closeHandler := false; errorHandler := false |}.

Definition with_ws (s : option Ws.socket) (self : t) : t :=
  {| url := url self; ws := s; reconnectAttempts := reconnectAttempts self;
     shouldReconnect := shouldReconnect self; connected := connected self;
     openHandler := openHandler self; messageHandler := messageHandler self;
     closeHandler := closeHandler self; errorHandler := errorHandler self |}.

Definition with_connected (b : bool) (self : t) : t :=
  {| url := url self; ws := ws self; reconnectAttempts := reconnectAttempts self;
     shouldReconnect := shouldReconnect self; connected := b;
     openHandler := openHandler self; messageHandler := messageHandler self;
     closeHandler := closeHandler self; errorHandler := errorHandler self |}.

Definition with_reconnectAttempts (n : Z) (self : t) : t :=
  {| url := url self; ws := ws self; reconnectAttempts := n;
     shouldReconnect := shouldReconnect self; connected := connected self;
     openHandler := openHandler self; messageHandler := messageHandler self;
     closeHandler := closeHandler self; errorHandler := errorHandler self |}.

Definition with_shouldReconnect (b : bool) (self : t) : t :=
  {| url := url self; ws := ws self; reconnectAttempts := reconnectAttempts self;
     shouldReconnect := b; connected := connected self;
     openHandler := openHandler self; messageHandler := messageHandler self;
     closeHandler := closeHandler self; errorHandler := errorHandler self |}.

(** [isConnected()]: [this.connected && this.ws && this.ws.readyState === OPEN]. *)
Definition isConnected (self : t) : bool :=
  connected self &&
  match ws self with
  | Some s => bool_decide (Ws.readyState s = Ws.OPEN)
  | None => false
  end.

(** [connect()]. *)
Definition connect (self : t) : t * list effect :=
  let discard := match ws self with
                 | Some old => [DiscardSocket old]
                 | None => []
                 end in
  (with_ws (Some Ws.create) self,
   discard ++ [ConsoleLog ("[Bridge] Connecting to Windows host at " ++ url self ++ "...")]).

(** [attemptReconnect()]. *)
Definition attemptReconnect (self : t) : t * list effect :=
  if negb (shouldReconnect self) then (self, [])
  else if MAX_RECONNECT_ATTEMPTS <=? reconnectAttempts self then
    (self,
     [ConsoleError ("[Bridge] Max reconnection attempts (" ++ pretty MAX_RECONNECT_ATTEMPTS ++ ") reached");
      ConsoleError "[Bridge] Please ensure the Windows host is running and try again"])
  else
    let attempts := reconnectAttempts self + 1 in
    let delay := RECONNECT_DELAY * Z.min attempts 5 in
    let logs :=
      if attempts =? 1 then
        [ConsoleLog "[Bridge] Windows host not available, waiting for connection..."]
      else if attempts mod 5 =? 0 then
        [ConsoleLog ("[Bridge] Still waiting for Windows host... (attempt " ++ pretty attempts ++ ")")]
      else [] in
    (with_reconnectAttempts attempts self, logs ++ [SetTimeout delay]).

(** The callback handed to [setTimeout] by [attemptReconnect]. *)
Definition reconnect_timer (self : t) : t * list effect :=
  if shouldReconnect self then connect self else (self, []).

(** The ['open'] listener installed by [connect]. *)
Definition on_open (self : t) : t * list effect :=
  let s := match ws self with
           | Some s => Some {| Ws.readyState := Ws.OPEN; Ws.wire := Ws.wire s |}
           | None => None
           end in
  (with_reconnectAttempts 0 (with_connected true (with_ws s self)),
   if openHandler self then [CallOpenHandler] else []).

(** The ['close'] listener installed by [connect]. *)
Definition on_close (self : t) : t * list effect :=
  let s := match ws self with
           | Some s => Some {| Ws.readyState := Ws.CLOSED; Ws.wire := Ws.wire s |}
           | None => None
           end in
  let self1 := with_connected false (with_ws s self) in
  let '(self2, effs) := attemptReconnect self1 in
  (self2, (if closeHandler self then [CallCloseHandler] else []) ++ effs).

(** The ['error'] listener: refused connections are kept quiet. *)
Definition on_error (code : string) (self : t) : t * list effect :=
  (self,
   if negb (String.eqb code "ECONNREFUSED") && errorHandler self
   then [CallErrorHandler code] else []).

(** [send(message)]. *)
Definition send (message : JS.value) (self : t) : JS.completion t :=
  if isConnected self then
    match ws self with
    | Some s =>
        match Ws.send message s with
        | JS.Normal s' => JS.Normal (with_ws (Some s') self)
        | JS.Throw e => JS.Throw e
        end
    | None => JS.Throw (JS.TypeError "Cannot read properties of null (reading 'send')")
    end
  else JS.Normal self.

(** [close()]. *)
Definition close (self : t) : t :=
  let self1 := with_shouldReconnect false self in
  match ws self with
  | Some s =>
      with_ws (Some {| Ws.readyState :=
                         match Ws.readyState s with
                         | Ws.CLOSED => Ws.CLOSED
                         | _ => Ws.CLOSING
                         end;
                       Ws.wire := Ws.wire s |}) self1
  | None => self1
  end.

(** The delay of the timer an effect list sets, if it sets one. *)
Fixpoint scheduled (effs : list effect) : option Z :=
  match effs with
  | [] => None
  | SetTimeout delay :: _ => Some delay
  | _ :: rest => scheduled rest
  end.

(** [n] connection failures in a row.  A failed connection ends in the
    socket's ['close'] event (after a refused-connection ['error'], which is
    suppressed); if that arms the reconnect timer, the timer fires, [connect]
    opens the next socket, and that one fails in turn.  If no timer is armed
    there is no further socket and hence no further event.  The result is the
    final object and the delays of the timers armed, in order. *)
Fixpoint failures (n : nat) (self : t) : t * list Z :=
  match n with
  | O => (self, [])
  | S n' =>
      let '(self1, effs) := on_close (on_error "ECONNREFUSED" self).1 in
      match scheduled effs with
      | None => (self1, [])
      | Some delay =>
          let '(self2, delays) := failures n' (reconnect_timer self1).1 in
          (self2, delay :: delays)
      end
  end.

(** The delays of attempts [a + 1], ..., [a + len], as line 556 computes
    them. *)
Definition expected_delays (a : Z) (len : nat) : list Z :=
  map (fun k => RECONNECT_DELAY * Z.min (a + Z.of_nat k + 1) 5) (seq 0 len).

End WebSocketClient.

(** ** Class [UnixSocketClient] (wsl-bridge/src/unix-socket-server.js) *)

Module UnixSocketClient.

(** The socket is represented by what has been written to it: one entry per
    [socket.write(json + '\n')], recorded as the document of the line. *)
Record t : Type := mk {
  written : list JS.value;
  ended : bool
}.

Definition create : t := {| written := []; ended := false |}.

(** [send(message)]. *)
Definition send (message : JS.value) (self : t) : t :=
  {| written := written self ++ [message]; ended := ended self |}.

(** [close()]: [this.socket.end()]. *)
Definition close (self : t) : t :=
  {| written := written self; ended := true |}.

End UnixSocketClient.

(** ** Class [WSLBridge] *)

Module WSLBridge.

Record t : Type := mk {
  wsClient : WebSocketClient.t;
  claudeClient : option UnixSocketClient.t
}.

Inductive effect : Type :=
  | ConsoleLog (text : string)
  | ConsoleWarn (text : string)
  | Evicted (old : UnixSocketClient.t).   (* the previous peer, after [close()] *)

(** [new WSLBridge()], for the uplink address [url]. *)
Definition create (url : string) : t :=
  {| wsClient := WebSocketClient.create url; claudeClient := None |}.

(** The [unixServer.onConnection] callback of [start]. *)
Definition onConnection (client : UnixSocketClient.t) (self : t)
  : t * list effect :=
  ({| wsClient := wsClient self; claudeClient := Some client |},
   match claudeClient self with
   | Some old =>
       [ConsoleLog "[Bridge] Warning: New Claude Code connection replacing existing one";
        Evicted (UnixSocketClient.close old)]
   | None => []
   end ++ [ConsoleLog "[Bridge] Claude Code connected"]).

(** The [client.onClose] callback of [start]. *)
Definition onClientClose (self : t) : t * list effect :=
  ({| wsClient := wsClient self; claudeClient := None |},
   [ConsoleLog "[Bridge] Claude Code disconnected"]).

(** The envelope id, [`${Date.now()}-${Math.random().toString(36).substring(2, 9)}`],
    from the clock reading and the random suffix. *)
Definition envelope_id (now : Z) (suffix : string) : string :=
  pretty now ++ "-" ++ suffix.

(** [forwardToWindows(message)].  [now_id] and [now_ts] are the two readings
    of [Date.now()], [suffix] the text drawn from [Math.random()]. *)
Definition forwardToWindows (now_id : Z) (suffix : string) (now_ts : Z)
    (message : JS.value) (self : t) : JS.completion (t * list effect) :=
  if negb (WebSocketClient.isConnected (wsClient self)) then
    JS.Normal (self, [ConsoleWarn "[Bridge] Cannot forward to Windows: not connected"])
  else
    let bridgeMessage :=
      JS.Obj [ ("id", JS.Str (envelope_id now_id suffix));
               ("direction", JS.Str "to-chrome");
               ("timestamp", JS.Num now_ts);
               ("payload", message) ] in
    match WebSocketClient.send bridgeMessage (wsClient self) with
    | JS.Normal c =>
        JS.Normal ({| wsClient := c; claudeClient := claudeClient self |}, [])
    | JS.Throw e => JS.Throw e
    end.

(** [forwardToClaudeCode(bridgeMessage)]. *)
Definition forwardToClaudeCode (bridgeMessage : JS.value) (self : t)
  : JS.completion (t * list effect) :=
  match claudeClient self with
  | None =>
      JS.Normal (self, [ConsoleWarn "[Bridge] Cannot forward to Claude Code: not connected"])
  | Some client =>
      match JS.prop bridgeMessage "direction" with
      | JS.Throw e => JS.Throw e
      | JS.Normal direction =>
          if negb (JS.strict_eq direction (JS.Str "from-chrome")) then
            match JS.ToString direction with
            | JS.Throw e => JS.Throw e
            | JS.Normal shown =>
                JS.Normal (self,
                  [ConsoleWarn ("[Bridge] Received message with unexpected direction: "
                                ++ shown)])
            end
          else
            JS.Normal
              ({| wsClient := wsClient self;
                  claudeClient :=
                    Some (UnixSocketClient.send (JS.get bridgeMessage "payload") client) |},
               [])
      end
  end.

(** The frames the uplink socket has transmitted so far. *)
Definition upstream_wire (self : t) : list JS.value :=
  match WebSocketClient.ws (wsClient self) with
  | Some s => Ws.wire s
  | None => []
  end.

(** The lines written to the local peer so far. *)
Definition peer_written (self : t) : list JS.value :=
  match claudeClient self with
  | Some client => UnixSocketClient.written client
  | None => []
  end.

End WSLBridge.

(* ================================================================== *)
(** * Further parts of the sources *)

(** ** The bridge's wiring of the uplink's ['message'] listener *)

Module WSLBridgeEvents.

Inductive effect : Type :=
  | Bridge (e : WSLBridge.effect)
  | ConsoleError (text : string).

(** [error.message]. *)
Definition exn_message (e : JS.exn) : string := JS.message_of e.

(** The ['message'] listener that [WebSocketClient.connect] installs, with
    the message handler that [WSLBridge.start] registers
    ([forwardToClaudeCode]).  [parsed] is [JSON.parse(data.toString())], a
    throw standing for the parse error by its message.  The handler runs
    inside the listener's [try], so what it throws ends in the same
    [catch]. *)
Definition onUpstreamData (parsed : JS.completion JS.value) (self : WSLBridge.t)
  : WSLBridge.t * list effect :=
  match parsed with
  | JS.Throw e =>
      (self,
       [ConsoleError ("[Bridge] Failed to parse WebSocket message: " ++ exn_message e)])
  | JS.Normal message =>
      match WSLBridge.forwardToClaudeCode message self with
      | JS.Normal (self', effs) => (self', map Bridge effs)
      | JS.Throw e =>
          (self,
           [ConsoleError ("[Bridge] Failed to parse WebSocket message: "
                          ++ exn_message e)])
      end
  end.

End WSLBridgeEvents.

(** ** The pending table and the timers, taken together *)

Module CDPClientTimers.

(** Every entry of the table has its timer armed. *)
Definition all_armed (self : CDPClient.t) : Prop :=
  forall id p,
    CDPClient.pendingCommands self !! id = Some p ->
    exists tm, tm ∈ CDPClient.timers self /\ CDPClient.timer_id tm = id.

End CDPClientTimers.

(** ** Class [UnixSocketClient], the receiving side
       (wsl-bridge/src/unix-socket-server.js) *)

Module UnixSocketInput.

(** A JavaScript string as the list of its UTF-16 code units. *)
Definition newline : N := 10%N.

(** The characters [String.prototype.trim] removes: white space and line
    terminators. *)
Definition is_space (c : N) : bool :=
  bool_decide
    (c ∈ [ 9; 10; 11; 12; 13; 32; 160; 5760; 8192; 8193; 8194; 8195; 8196;
           8197; 8198; 8199; 8200; 8201; 8202; 8232; 8233; 8239; 8287; 12288;
           65279 ]%N).

(** [line.trim()] as a condition: some character is not white space. *)
Definition trim_truthy (line : list N) : bool :=
  existsb (fun c => negb (is_space c)) line.

(** [buf.indexOf('\n')], [None] for [-1]. *)
Fixpoint indexOf_newline (buf : list N) : option nat :=
  match buf with
  | [] => None
  | c :: rest =>
      if (c =? newline)%N then Some O
      else match indexOf_newline rest with
           | Some i => Some (S i)
           | None => None
           end
  end.

Inductive effect {message : Type} : Type :=
  | CallMessageHandler (m : message)
  | ConsoleError.   (* `[Bridge] Failed to parse Unix socket message: ...` *)

Arguments effect : clear implicits.

Record t : Type := mk {
  buffer : list N;
  messageHandler : bool
}.

(** The fields right after [new UnixSocketClient(socket)]. *)
Definition create : t := {| buffer := []; messageHandler := false |}.

Definition onMessage (self : t) : t :=
  {| buffer := buffer self; messageHandler := true |}.

Section Lines.
(** [JSON.parse(line)], [None] when it throws; and whether the installed
    handler throws on a message: its call sits inside the [try], so the
    [catch] logs that as well. *)
Context {message : Type}.
Variable parse : list N -> option message.
Variable throws : message -> bool.

(** The body of the loop for one line. *)
Definition dispatch (self : t) (line : list N) : list (effect message) :=
  if trim_truthy line then
    match parse line with
    | Some m =>
        if messageHandler self
        then CallMessageHandler m :: (if throws m then [ConsoleError] else [])
        else []
    | None => [ConsoleError]
    end
  else [].

(** The [while ((newlineIndex = this.buffer.indexOf('\n')) !== -1)] loop;
    every turn removes at least the newline, so the buffer length bounds the
    number of turns. *)
Fixpoint lines (turns : nat) (self : t) (buf : list N)
  : list N * list (effect message) :=
  match turns with
  | O => (buf, [])
  | S turns' =>
      match indexOf_newline buf with
      | None => (buf, [])
      | Some newlineIndex =>
          let line := take newlineIndex buf in
          let buf' := drop (newlineIndex + 1) buf in
          let '(rest, effs) := lines turns' self buf' in
          (rest, dispatch self line ++ effs)
      end
  end.

(** [handleData(data)], [data] standing for [data.toString()]. *)
Definition handleData (data : list N) (self : t) : t * list (effect message) :=
  let buf := buffer self ++ data in
  let '(rest, effs) := lines (length buf) self buf in
  ({| buffer := rest; messageHandler := messageHandler self |}, effs).

(** Successive ['data'] events. *)
Fixpoint feed (chunks : list (list N)) (self : t) : t * list (effect message) :=
  match chunks with
  | [] => (self, [])
  | chunk :: rest =>
      let '(self1, effs1) := handleData chunk self in
      let '(self2, effs2) := feed rest self1 in
      (self2, effs1 ++ effs2)
  end.

End Lines.

(** What [send(message)] writes: [JSON.stringify(message) + '\n']. *)
Definition frame {message : Type} (stringify : message -> list N)
    (m : message) : list N :=
  stringify m ++ [newline].

End UnixSocketInput.

(** ** Class [CDPClient]: the awaited calls and the browser operations *)

Module CDPCalls.

(** What the browser side does while one asynchronous method runs: the
    listing [getTargets()] obtains (or the error it rejects with); the
    debugger addresses the socket constructor refuses, each with the message
    of the SyntaxError; what becomes of a debugger socket ([None]: it
    neither opens nor fails; [Some None]: it opens; [Some (Some message)]:
    it fails with that error); what becomes of the request of
    [createTab(url)] ([None]: it never ends); and the reply to the command
    that bears a given id: a result, an error message, or no reply at
    all. *)
Record chrome : Type := mk_chrome {
  listing : JS.completion (list Target.t);
  refused : JS.value -> option string;
  opening : option (option string);
  creates : JS.value -> option (JS.completion JS.value);
  answer : Z -> string -> JS.value -> option (JS.value + string)
}.

(** The client and the clock. *)
Record world : Type := mk_world {
  client : CDPClient.t;
  clock : Z
}.

(** An asynchronous method run to its end with nothing else interleaved:
    from a world to what its promise settles to ([None] if it never does)
    and the world then. *)
Definition M (A : Type) : Type := world -> option (JS.completion A) * world.

Definition ret {A} (a : A) : M A := fun w => (Some (JS.Normal a), w).

Definition throw {A} (e : JS.exn) : M A := fun w => (Some (JS.Throw e), w).

(** A synchronous expression that may throw. *)
Definition lift {A} (c : JS.completion A) : M A := fun w => (Some c, w).

(** [const x = await m; k x]. *)
Definition bind {A B} (m : M A) (k : A -> M B) : M B :=
  fun w =>
    match m w with
    | (Some (JS.Normal a), w') => k a w'
    | (Some (JS.Throw e), w') => (Some (JS.Throw e), w')
    | (None, w') => (None, w')
    end.

Notation "x <- m ;; k" := (bind m (fun x => k))
  (at level 100, m at next level, right associativity).

(** What the calls [effs] made of promise [p]: the first call decides. *)
Definition settled (p : nat) (effs : list CDPClient.effect)
  : option (JS.completion JS.value) :=
  match List.find (CDPClient.settles p) effs with
  | Some (CDPClient.Resolve _ result) => Some (JS.Normal result)
  | Some (CDPClient.Reject _ message) => Some (JS.Throw (JS.Error message))
  | _ => None
  end.

(** The frame with which the browser answers command [id]. *)
Definition reply_frame (id : Z) (reply : JS.value + string)
  : list (string * JS.value) :=
  match reply with
  | inl result => [("id", JS.Num id); ("result", result)]
  | inr message =>
      [("id", JS.Num id); ("error", JS.Obj [("message", JS.Str message)])]
  end.

Section Calls.
Variable browser : chrome.

(** [await this.connectToTarget(targetId)]: the selection and the
    construction of the socket, then the socket's ['open'] (the promise
    resolves with the target) or its ['error'] (the promise rejects)
    followed by its ['close']. *)
Definition connectToTarget (targetId : JS.value) : M Target.t :=
  fun w =>
    match CDPClient.connectToTarget (refused browser) targetId
            (listing browser) (client w) with
    | (c1, JS.Throw e) =>
        (Some (JS.Throw e), {| client := c1; clock := clock w |})
    | (c1, JS.Normal (target, _)) =>
        match opening browser with
        | Some None =>
            (Some (JS.Normal target),
             {| client := CDPClient.on_open c1; clock := clock w |})
        | Some (Some message) =>
            (Some (JS.Throw (JS.Error message)),
             {| client := CDPClient.on_close c1; clock := clock w |})
        | None => (None, {| client := c1; clock := clock w |})
        end
    end.

(** [await this.send(method, params)]: the call, then the browser's frame
    for the id through [handleMessage], or, with no reply, the passing of
    time up to the deadline. *)
Definition send (method : string) (params : JS.value) : M JS.value :=
  fun w =>
    match CDPClient.send (clock w) method params (client w) with
    | JS.Throw e => (Some (JS.Throw e), w)
    | JS.Normal (c1, p) =>
        let id := CDPClient.messageId c1 in
        match answer browser id method params with
        | Some reply =>
            match CDPClient.handleMessage (JS.Obj (reply_frame id reply)) c1 with
            | JS.Normal (c2, effs) =>
                (settled p effs, {| client := c2; clock := clock w |})
            | JS.Throw _ => (None, {| client := c1; clock := clock w |})
            end
        | None =>
            let deadline := clock w + CDPClient.COMMAND_TIMEOUT in
            let '(c2, effs) := CDPClient.tick deadline c1 in
            (settled p effs, {| client := c2; clock := deadline |})
        end
    end.

(** [if (!this.ws) { await this.connectToTarget(); }]. *)
Definition attach_unless_attached : M unit :=
  fun w =>
    match CDPClient.ws (client w) with
    | None => (_ <- connectToTarget JS.Undefined ;; ret tt) w
    | Some _ => ret tt w
    end.

(** [getTabsInfo()]. *)
Definition getTabsInfo : M (list JS.value) :=
  fun w =>
    match listing browser with
    | JS.Throw e => (Some (JS.Throw e), w)
    | JS.Normal targets =>
        (Some (JS.Normal
                 (map (fun t => JS.Obj [ ("id", Target.id t);
                                         ("title", Target.title t);
                                         ("url", Target.url t) ])
                    (List.filter
                       (fun t => JS.strict_eq (Target.type t) (JS.Str "page"))
                       targets))), w)
    end.

(** [navigate(url)]. *)
Definition navigate (url : JS.value) : M JS.value :=
  _ <- attach_unless_attached ;;
  send "Page.navigate" (JS.Obj [("url", url)]).

(** [takeScreenshot(options = {})]. *)
Definition takeScreenshot (options : JS.value) : M JS.value :=
  let options := match options with
                 | JS.Undefined => JS.Obj []
                 | _ => options
                 end in
  _ <- attach_unless_attached ;;
  format <- lift (JS.prop options "format") ;;
  quality <- lift (JS.prop options "quality") ;;
  result <- send "Page.captureScreenshot"
              (JS.Obj [ ("format", JS.or_else format (JS.Str "png"));
                        ("quality", JS.or_else quality (JS.Num 80)) ]) ;;
  lift (JS.prop result "data").

(** [getPageContent()]. *)
Definition getPageContent : M JS.value :=
  _ <- attach_unless_attached ;;
  result <- send "Runtime.evaluate"
              (JS.Obj [("expression", JS.Str "document.documentElement.outerHTML")]) ;;
  inner <- lift (JS.prop result "result") ;;
  lift (JS.prop inner "value").

(** What [throw new Error(v)] throws: the error, whose message is the text
    of [v], or the TypeError of a [v] that does not convert. *)
Definition new_Error (v : JS.value) : JS.exn :=
  if JS.stringifies v then JS.Error (CDPClient.error_text v)
  else JS.TypeError "Cannot convert object to primitive value".

(** [executeScript(script)]. *)
Definition executeScript (script : JS.value) : M JS.value :=
  _ <- attach_unless_attached ;;
  result <- send "Runtime.evaluate"
              (JS.Obj [("expression", script); ("returnByValue", JS.Bool true)]) ;;
  details <- lift (JS.prop result "exceptionDetails") ;;
  if JS.truthy details then
    throw (new_Error (JS.get details "text"))
  else
    inner <- lift (JS.prop result "result") ;;
    lift (JS.prop inner "value").

Definition mouse_event (type : string) (x y : JS.value) : JS.value :=
  JS.Obj [ ("type", JS.Str type); ("x", x); ("y", y);
           ("button", JS.Str "left"); ("clickCount", JS.Num 1) ].

(** [click(x, y)]. *)
Definition click (x y : JS.value) : M JS.value :=
  _ <- attach_unless_attached ;;
  _ <- send "Input.dispatchMouseEvent" (mouse_event "mousePressed" x y) ;;
  _ <- send "Input.dispatchMouseEvent" (mouse_event "mouseReleased" x y) ;;
  ret JS.Undefined.

Definition key_event (type : string) (char : JS.value) : JS.value :=
  JS.Obj [("type", JS.Str type); ("text", char)].

(** The body of [for (const char of text)], over the characters the iterator
    yields. *)
Fixpoint type_chars (chars : list JS.value) : M JS.value :=
  match chars with
  | [] => ret JS.Undefined
  | char :: rest =>
      _ <- send "Input.dispatchKeyEvent" (key_event "keyDown" char) ;;
      _ <- send "Input.dispatchKeyEvent" (key_event "keyUp" char) ;;
      type_chars rest
  end.

(** What [for (const char of text)] iterates over: the characters of a
    string ([code_points] splits a string the way its iterator does), the
    items of an array; anything else that can come out of a JSON document is
    not iterable. *)
Definition iterate (code_points : string -> list string) (text : JS.value)
  : JS.completion (list JS.value) :=
  match text with
  | JS.Str s => JS.Normal (map JS.Str (code_points s))
  | JS.Arr items => JS.Normal items
  | _ => JS.Throw (JS.TypeError "text is not iterable")
  end.

(** [type(text)]. *)
Definition type (code_points : string -> list string) (text : JS.value)
  : M JS.value :=
  _ <- attach_unless_attached ;;
  chars <- lift (iterate code_points text) ;;
  type_chars chars.

(** [createTab(url)]. *)
Definition createTab (url : JS.value) : M JS.value :=
  fun w => (creates browser url, w).

End Calls.

(** The frames the client's socket has transmitted. *)
Definition wire (w : world) : list JS.value :=
  match CDPClient.ws (client w) with
  | Some s => Ws.wire s
  | None => []
  end.

(** The frame [send] transmits for a command. *)
Definition command (id : Z) (method : string) (params : JS.value) : JS.value :=
  JS.Obj [("id", JS.Num id); ("method", JS.Str method); ("params", params)].

(** The client is attached: it holds a socket, and the socket is open. *)
Definition attached (w : world) : Prop :=
  exists s, CDPClient.ws (client w) = Some s /\ Ws.readyState s = Ws.OPEN.

(** What the caller of [send] gets for a reply, or for none. *)
Definition result_of (method : string) (reply : option (JS.value + string))
  : JS.completion JS.value :=
  match reply with
  | Some (inl result) => JS.Normal result
  | Some (inr message) => JS.Throw (JS.Error message)
  | None => JS.Throw (JS.Error ("Command " ++ method ++ " timed out"))
  end.

(** The key events of a text, in the order [type] sends them. *)
Definition keystrokes (chars : list JS.value) : list JS.value :=
  flat_map (fun char => [key_event "keyDown" char; key_event "keyUp" char]) chars.

(** Commands of one method numbered from [id] on. *)
Fixpoint numbered (id : Z) (method : string) (ps : list JS.value)
  : list JS.value :=
  match ps with
  | [] => []
  | params :: rest => command id method params :: numbered (id + 1) method rest
  end.

(** A method that settles from every state whose table is in order, and
    leaves the table in order. *)
Definition terminates {A} (m : M A) : Prop :=
  forall w, CDPClient.wf (client w) ->
    exists r w', m w = (Some r, w') /\ CDPClient.wf (client w').

(** The browser side lets every connection attempt and every request end. *)
Definition responsive (browser : chrome) : Prop :=
  opening browser <> None /\ forall url, creates browser url <> None.

End CDPCalls.

(** ** Class [CDPHost]: the tool handlers *)

Module ToolHandlers.
Import CDPCalls.

(** What the handlers take from the JavaScript runtime and leave to it here:
    how a string splits into the characters its iterator yields and into
    the code units that indexing and [slice] see, the delay [setTimeout]
    makes of an argument that is not a number, and the text of the scripts
    that [handleFind], [handleFormInput] and [handleConsoleLogs] build by
    interpolating [JSON.stringify] of their arguments into a template. *)
Record runtime : Type := mk_runtime {
  code_points : string -> list string;
  code_units : string -> list string;
  delay_of : JS.value -> Z;
  find_script : JS.value -> string;
  form_script : JS.value -> JS.value -> string;
  logs_script : JS.value -> JS.value -> JS.value -> JS.value -> string
}.

(** [error.message]. *)
Definition message_of (e : JS.exn) : string := JS.message_of e.

(** A handler: an asynchronous method of the host, which may also assign
    the host's fields. *)
Definition H (A : Type) : Type :=
  CDPHost.t -> world -> option (JS.completion A) * CDPHost.t * world.

(** A handler that only drives the client. *)
Definition plain {A} (m : M A) : H A :=
  fun self w => let '(r, w') := m w in (r, self, w').

Definition with_chromeConnected (b : bool) (self : CDPHost.t) : CDPHost.t :=
  {| CDPHost.clients := CDPHost.clients self;
     CDPHost.requestToClient := CDPHost.requestToClient self;
     CDPHost.clientCounter := CDPHost.clientCounter self;
     CDPHost.chromeConnected := b |}.

(** Two states of the host with the same sessions and routes. *)
Definition same_relay (self self' : CDPHost.t) : Prop :=
  CDPHost.clients self' = CDPHost.clients self
  /\ CDPHost.requestToClient self' = CDPHost.requestToClient self
  /\ CDPHost.clientCounter self' = CDPHost.clientCounter self.

Section Handlers.
Variable rt : runtime.
Variable browser : chrome.

(** [v[i]]. *)
Definition index (v : JS.value) (i : nat) : JS.completion JS.value :=
  match v with
  | JS.Undefined | JS.Null =>
      JS.Throw (JS.TypeError ("Cannot read properties of " ++ JS.to_String v
                              ++ " (reading '" ++ pretty i ++ "')"))
  | JS.Arr items => JS.Normal (nth i items JS.Undefined)
  | JS.Obj fields => JS.Normal (JS.assoc (pretty i) fields)
  | JS.Str s =>
      JS.Normal (match code_units rt s !! i with
                 | Some unit => JS.Str unit
                 | None => JS.Undefined
                 end)
  | _ => JS.Normal JS.Undefined
  end.

(** [v?.[i]]. *)
Definition opt_index (v : JS.value) (i : nat) : JS.value :=
  match index v i with
  | JS.Normal x => x
  | JS.Throw _ => JS.Undefined
  end.

(** The opening of most handlers:
    [if (args.tabId) await this.cdp.connectToTarget(args.tabId);
     else if (!this.cdp.ws) await this.cdp.connectToTarget();]. *)
Definition attach (args : JS.value) : M unit :=
  tabId <- lift (JS.prop args "tabId") ;;
  if JS.truthy tabId then
    _ <- connectToTarget browser tabId ;; ret tt
  else attach_unless_attached browser.

(** The message of the error [handleTabsContext] throws from its [catch]. *)
Definition unavailable (e : JS.exn) : JS.exn :=
  JS.Error ("Chrome not available: " ++ message_of e
            ++ ". Start Chrome with --remote-debugging-port=9222").

(** The [try] block of [handleTabsContext] after [chromeConnected = true]. *)
Definition tabs_context (args : JS.value) (tabs : list JS.value) : M JS.value :=
  let listed :=
    JS.Obj [ ("tabs", JS.Arr tabs);
             ("activeTabId", JS.opt_get (nth 0 tabs JS.Undefined) "id") ] in
  match tabs with
  | [] =>
      createIfEmpty <- lift (JS.prop args "createIfEmpty") ;;
      if JS.truthy createIfEmpty then
        newTab <- createTab browser JS.Undefined ;;
        id <- lift (JS.prop newTab "id") ;;
        ret (JS.Obj
               [ ("tabs",
                  JS.Arr [JS.Obj
                            [ ("id", id);
                              ("title", JS.or_else (JS.get newTab "title")
                                                   (JS.Str "New Tab"));
                              ("url", JS.or_else (JS.get newTab "url")
                                                 (JS.Str "about:blank")) ]]);
                 ("activeTabId", id) ])
      else ret listed
  | _ :: _ => ret listed
  end.

(** [handleTabsContext(args)]. *)
Definition handleTabsContext (args : JS.value) : H JS.value :=
  fun self w =>
    match getTabsInfo browser w with
    | (Some (JS.Normal tabs), w1) =>
        let self1 := with_chromeConnected true self in
        match tabs_context args tabs w1 with
        | (Some (JS.Normal result), w2) => (Some (JS.Normal result), self1, w2)
        | (Some (JS.Throw e), w2) =>
            (Some (JS.Throw (unavailable e)),
             with_chromeConnected false self1, w2)
        | (None, w2) => (None, self1, w2)
        end
    | (Some (JS.Throw e), w1) =>
        (Some (JS.Throw (unavailable e)), with_chromeConnected false self, w1)
    | (None, w1) => (None, self, w1)
    end.

(** [handleCreateTab(args)]. *)
Definition handleCreateTab (args : JS.value) : M JS.value :=
  url <- lift (JS.prop args "url") ;;
  tab <- createTab browser url ;;
  id <- lift (JS.prop tab "id") ;;
  ret (JS.Obj [ ("id", id); ("url", JS.get tab "url");
                ("title", JS.get tab "title") ]).

(** [handleNavigate(args)]. *)
Definition handleNavigate (args : JS.value) : M JS.value :=
  tabId <- lift (JS.prop args "tabId") ;;
  _ <- (if JS.truthy tabId
        then _ <- connectToTarget browser tabId ;; ret tt
        else ret tt) ;;
  result <- navigate browser (JS.get args "url") ;;
  frameId <- lift (JS.prop result "frameId") ;;
  ret (JS.Obj [("success", JS.Bool true); ("frameId", frameId)]).

Definition success : JS.value := JS.Obj [("success", JS.Bool true)].

(** [setTimeout(resolve, delay)] awaited: Node takes a number between 1 and
    2^31 - 1 as it is and 1 for any other number. *)
Definition sleep (delay : JS.value) : M unit :=
  fun w =>
    let ms := match delay with
              | JS.Num n => if (1 <=? n) && (n <=? 2147483647) then n else 1
              | _ => delay_of rt delay
              end in
    (Some (JS.Normal tt),
     {| client := (CDPClient.tick (clock w + ms) (client w)).1;
        clock := clock w + ms |}).

(** A [case] of the [switch (action)]: the comparison is [===]. *)
Definition action_is (action : JS.value) (name : string) : bool :=
  JS.strict_eq action (JS.Str name).

(** [handleComputer(args)]. *)
Definition handleComputer (args : JS.value) : M JS.value :=
  action <- lift (JS.prop args "action") ;;
  let coordinate := JS.get args "coordinate" in
  if action_is action "screenshot" then
    _ <- attach args ;;
    screenshot <- takeScreenshot browser JS.Undefined ;;
    ret (JS.Obj [ ("type", JS.Str "image"); ("data", screenshot);
                  ("mediaType", JS.Str "image/png") ])
  else if action_is action "left_click" || action_is action "click" then
    _ <- attach args ;;
    x <- lift (index coordinate 0) ;;
    y <- lift (index coordinate 1) ;;
    _ <- click browser x y ;;
    ret success
  else if action_is action "double_click" then
    _ <- attach args ;;
    x <- lift (index coordinate 0) ;;
    y <- lift (index coordinate 1) ;;
    _ <- click browser x y ;;
    _ <- click browser x y ;;
    ret success
  else if action_is action "type" then
    _ <- attach args ;;
    _ <- type browser (code_points rt) (JS.get args "text") ;;
    ret success
  else if action_is action "key" then
    _ <- attach args ;;
    _ <- send browser "Input.dispatchKeyEvent"
           (JS.Obj [("type", JS.Str "keyDown"); ("key", JS.get args "text")]) ;;
    _ <- send browser "Input.dispatchKeyEvent"
           (JS.Obj [("type", JS.Str "keyUp"); ("key", JS.get args "text")]) ;;
    ret success
  else if action_is action "scroll" then
    _ <- attach args ;;
    _ <- send browser "Input.dispatchMouseEvent"
           (JS.Obj [ ("type", JS.Str "mouseWheel");
                     ("x", JS.or_else (opt_index coordinate 0) (JS.Num 0));
                     ("y", JS.or_else (opt_index coordinate 1) (JS.Num 0));
                     ("deltaX", JS.Num 0);
                     ("deltaY", JS.or_else (JS.get args "delta") (JS.Num (-100))) ]) ;;
    ret success
  else if action_is action "wait" then
    _ <- sleep (JS.or_else (JS.get args "duration") (JS.Num 1000)) ;;
    ret success
  else
    shown <- lift (JS.ToString action) ;;
    throw (JS.Error ("Unknown action: " ++ shown)).

(** [result.nodes?.slice(0, 100) || []]: arrays and strings have [slice]. *)
Definition first_nodes (nodes : JS.value) : JS.completion JS.value :=
  match nodes with
  | JS.Undefined | JS.Null => JS.Normal (JS.Arr [])
  | JS.Arr items => JS.Normal (JS.Arr (take 100 items))
  | JS.Str s =>
      JS.Normal (JS.or_else
                   (JS.Str (String.concat "" (take 100 (code_units rt s))))
                   (JS.Arr []))
  | _ => JS.Throw (JS.TypeError "result.nodes?.slice is not a function")
  end.

(** [handleReadPage(args)]. *)
Definition handleReadPage (args : JS.value) : M JS.value :=
  _ <- attach args ;;
  result <- send browser "Accessibility.getFullAXTree" (JS.Obj []) ;;
  nodes <- lift (JS.prop result "nodes") ;;
  tree <- lift (first_nodes nodes) ;;
  ret (JS.Obj [("tree", tree)]).

(** [handleGetPageText(args)]. *)
Definition handleGetPageText (args : JS.value) : M JS.value :=
  _ <- attach args ;;
  text <- executeScript browser (JS.Str "document.body.innerText") ;;
  ret (JS.Obj [("text", text)]).

(** [handleJavaScript(args)]. *)
Definition handleJavaScript (args : JS.value) : M JS.value :=
  _ <- attach args ;;
  result <- executeScript browser (JS.get args "text") ;;
  ret (JS.Obj [("result", result)]).

(** [handleFind(args)]. *)
Definition handleFind (args : JS.value) : M JS.value :=
  _ <- attach args ;;
  result <- executeScript browser
              (JS.Str (find_script rt (JS.get args "query"))) ;;
  ret (JS.Obj [("elements", JS.or_else result (JS.Arr []))]).

(** [handleFormInput(args)]. *)
Definition handleFormInput (args : JS.value) : M JS.value :=
  _ <- attach args ;;
  result <- executeScript browser
              (JS.Str (form_script rt (JS.get args "ref") (JS.get args "value"))) ;;
  ret (JS.Obj [("success", result)]).

(** [handleConsoleLogs(args)]. *)
Definition handleConsoleLogs (args : JS.value) : M JS.value :=
  _ <- attach args ;;
  let limit := JS.or_else (JS.get args "limit") (JS.Num 50) in
  let types :=
    JS.or_else (JS.get args "types")
      (JS.Arr [JS.Str "log"; JS.Str "warn"; JS.Str "error"; JS.Str "info"]) in
  let clear := JS.or_else (JS.get args "clear") (JS.Bool false) in
  let since := JS.or_else (JS.get args "since") JS.Null in
  executeScript browser (JS.Str (logs_script rt types since limit clear)).

(** The [switch] of [handleToolCall]. *)
Definition handler (toolName : string) (args : JS.value) : H JS.value :=
  if String.eqb toolName "tabs_context_mcp" then handleTabsContext args
  else if String.eqb toolName "tabs_create_mcp" then plain (handleCreateTab args)
  else if String.eqb toolName "navigate" then plain (handleNavigate args)
  else if String.eqb toolName "computer" then plain (handleComputer args)
  else if String.eqb toolName "read_page" then plain (handleReadPage args)
  else if String.eqb toolName "get_page_text" then plain (handleGetPageText args)
  else if String.eqb toolName "javascript_tool" then plain (handleJavaScript args)
  else if String.eqb toolName "find" then plain (handleFind args)
  else if String.eqb toolName "form_input" then plain (handleFormInput args)
  else if String.eqb toolName "console_logs" then plain (handleConsoleLogs args)
  else plain (throw (JS.Error ("Unknown tool: " ++ toolName))).

(** The host with its client. *)
Record system : Type := mk_system {
  host : CDPHost.t;
  cdp : world
}.

(** The handler [handleToolCall] has started, if any. *)
Fixpoint started (effs : list CDPHost.effect)
  : option (string * JS.value * JS.value) :=
  match effs with
  | [] => None
  | CDPHost.StartTool toolName args id :: _ => Some (toolName, args, id)
  | _ :: rest => started rest
  end.

(** A message from client [clientId], from the [client.onMessage] callback to
    the end of [handleToolCall], with nothing else interleaved: the route is
    recorded, the handler runs, its result goes to [sendResponse] or the
    message of what it threw to [sendError].  [None]: the handler never
    finishes. *)
Definition serve (clientId : Z) (message : JS.value) (s : system)
  : option (JS.completion system) :=
  match CDPHost.onMessage clientId (clock (cdp s)) message (host s) with
  | JS.Throw e => Some (JS.Throw e)
  | JS.Normal (host1, effs) =>
      match started effs with
      | None => Some (JS.Normal {| host := host1; cdp := cdp s |})
      | Some (toolName, args, id) =>
          match handler toolName args host1 (cdp s) with
          | (None, _, _) => None
          | (Some r, host2, w2) =>
              let outcome := match r with
                             | JS.Normal result => inl result
                             | JS.Throw e => inr (message_of e)
                             end in
              match CDPHost.complete (clock w2) id outcome host2 with
              | JS.Normal (host3, _) =>
                  Some (JS.Normal {| host := host3; cdp := w2 |})
              | JS.Throw e => Some (JS.Throw e)
              end
          end
      end
  end.

End Handlers.

End ToolHandlers.

(** ** Class [MCPServer] (the stdio server in front of the host) *)

Module MCPServer.

(** [parseInt(s, 10)] on a string given by the UTF-8 bytes of its text:
    leading white space is skipped, a sign is read, then decimal digits up
    to the first other character; the result is the Number nearest to the
    integer read.  [None] stands for [NaN] and for the infinities, none of
    which is an integer. *)
Definition digit_of (c : Ascii.ascii) : option N :=
  let n := Ascii.N_of_ascii c in
  if (48 <=? n)%N && (n <=? 57)%N then Some (n - 48)%N else None.

Fixpoint digits (acc : option N) (s : string) : option N :=
  match s with
  | EmptyString => acc
  | String c rest =>
      match digit_of c with
      | Some d => digits (Some (10 * default 0 acc + d)%N) rest
      | None => acc
      end
  end.

(** The white space and line terminators of ECMAScript, as byte sequences:
    U+0009 to U+000D, U+0020, U+00A0, U+1680, U+2000 to U+200A, U+2028,
    U+2029, U+202F, U+205F, U+3000, U+FEFF. *)
Fixpoint skip_white_space (s : string) : string :=
  match s with
  | EmptyString => s
  | String c rest =>
      let n := Ascii.N_of_ascii c in
      if ((9 <=? n) && (n <=? 13) || (n =? 32))%N then skip_white_space rest
      else
        match rest with
        | String c2 rest2 =>
            let n2 := Ascii.N_of_ascii c2 in
            if ((n =? 194) && (n2 =? 160))%N then skip_white_space rest2
            else
              match rest2 with
              | String c3 rest3 =>
                  let n3 := Ascii.N_of_ascii c3 in
                  if ((n =? 225) && (n2 =? 154) && (n3 =? 128)
                      || (n =? 226) && (n2 =? 128)
                         && ((128 <=? n3) && (n3 <=? 138)
                             || (n3 =? 168) || (n3 =? 169) || (n3 =? 175))
                      || (n =? 226) && (n2 =? 129) && (n3 =? 159)
                      || (n =? 227) && (n2 =? 128) && (n3 =? 128)
                      || (n =? 239) && (n2 =? 187) && (n3 =? 191))%N
                  then skip_white_space rest3
                  else s
              | EmptyString => s
              end
        | EmptyString => s
        end
  end.

Definition parseInt (s : string) : option Z :=
  let read :=
    match skip_white_space s with
    | EmptyString => None
    | String c rest =>
        let n := Ascii.N_of_ascii c in
        if (n =? 45)%N then                    (* a minus sign *)
          option_map (fun m => - Z.of_N m) (digits None rest)
        else if (n =? 43)%N then               (* a plus sign *)
          option_map Z.of_N (digits None rest)
        else option_map Z.of_N (digits None (String c rest))
    end in
  match read with
  | Some n => JS.to_Number n
  | None => None
  end.

(** The calls of [log], by the statement that makes them and the values it
    interpolates, and the lines written to [process.stdout], by the object
    handed to [JSON.stringify]. *)
Inductive log_line : Type :=
  | McpRequest (method id : JS.value)
  | ClientInitialized
  | HandlingInitialize
  | HandlingToolsList
  | UnknownMethod (method : JS.value)
  | ToolCall (toolName : JS.value)
  | NotConnectedReconnecting
  | ConnectedToHost
  | DisconnectedFromHost
  | ReconnectionFailed (message : string)
  | SendingToWindows (payload : JS.value)
  | ReceivedFromWindows (bridgeMessage : JS.value)
  | FailedToParse (message : string).

(** [Unhandled]: the promise of [handleToolCall], which nobody awaits, was
    rejected, on which Node ends the process. *)
Inductive effect : Type :=
  | Log (line : log_line)
  | Stdout (response : JS.value)
  | Unhandled (e : JS.exn).

(** The fields the handlers use.  [pendingRequests] is a [Map] whose values
    repeat their key, so it is the list of its keys in insertion order; keys
    are compared as [Map] does, which on parsed values is [===]. *)
Record t : Type := mk {
  ws : option Ws.socket;
  connected : bool;
  pendingRequests : list JS.value
}.

(** [new MCPServer()]. *)
Definition create : t := {| ws := None; connected := false; pendingRequests := [] |}.

Definition has (key : JS.value) (m : list JS.value) : bool :=
  existsb (JS.strict_eq key) m.

Definition set (key : JS.value) (m : list JS.value) : list JS.value :=
  if has key m then m else m ++ [key].

Definition delete (key : JS.value) (m : list JS.value) : list JS.value :=
  List.filter (fun k => negb (JS.strict_eq key k)) m.

(** [sendResponse(id, result)] and [sendError(id, code, message)]. *)
Definition sendResponse (id result : JS.value) : effect :=
  Stdout (JS.Obj [("jsonrpc", JS.Str "2.0"); ("id", id); ("result", result)]).

Definition sendError (id : JS.value) (code : Z) (message : JS.value) : effect :=
  Stdout (JS.Obj [ ("jsonrpc", JS.Str "2.0"); ("id", id);
                   ("error", JS.Obj [("code", JS.Num code); ("message", message)]) ]).

(** What becomes of the socket [connectWebSocket] creates: it opens; it
    fails with an error, and closes; or neither happens within the five
    seconds of the timer. *)
Inductive attempt : Type :=
  | Opens
  | Fails (message : string)
  | Silent.

(** [await this.connectWebSocket()].  The ['error'] listener clears the
    timer and rejects only while [connected] is false, so an error that
    arrives while the flag is still set leaves the promise pending for ever
    ([None]); the ['close'] listener then clears the flag. *)
Definition connectWebSocket (a : attempt) (self : t)
  : option (JS.completion unit) * t * list effect :=
  match a with
  | Opens =>
      (Some (JS.Normal tt),
       {| ws := Some {| Ws.readyState := Ws.OPEN; Ws.wire := [] |};
          connected := true; pendingRequests := pendingRequests self |},
       [Log ConnectedToHost])
  | Fails message =>
      (if connected self then None else Some (JS.Throw (JS.Error message)),
       {| ws := Some {| Ws.readyState := Ws.CLOSED; Ws.wire := [] |};
          connected := false; pendingRequests := pendingRequests self |},
       [Log DisconnectedFromHost])
  | Silent =>
      (Some (JS.Throw (JS.Error "Connection timeout")),
       {| ws := Some Ws.create; connected := connected self;
          pendingRequests := pendingRequests self |},
       [])
  end.

Definition not_connected_text : string :=
  "Not connected to Chrome extension. Make sure the Windows host is running (click Claude in Chrome extension).".

(** The envelope [handleToolCall] builds at time [now]. *)
Definition bridgeMessage_of (now : Z) (message : JS.value) : JS.value :=
  let params := JS.get message "params" in
  JS.Obj [ ("id", JS.Str (JS.to_String (JS.get message "id")));
           ("direction", JS.Str "to-chrome");
           ("timestamp", JS.Num now);
           ("payload",
            JS.Obj [ ("jsonrpc", JS.Str "2.0");
                     ("method", JS.Str "tools/call");
                     ("params",
                      JS.Obj [ ("name", JS.opt_get params "name");
                               ("arguments",
                                JS.or_else (JS.opt_get params "arguments")
                                           (JS.Obj [])) ]);
                     ("id", JS.get message "id") ]) ].

(** The part of [handleToolCall] after the connection check: the request
    becomes pending, the envelope is built, which converts the id to a
    string, and is sent.  A throw on the way rejects the promise of the
    method. *)
Definition forward (now : Z) (message : JS.value) (self : t)
  : t * list effect :=
  let bridgeMessage := bridgeMessage_of now message in
  let sending := Log (SendingToWindows (JS.get bridgeMessage "payload")) in
  let pending := set (JS.get message "id") (pendingRequests self) in
  let self1 := {| ws := ws self; connected := connected self;
                  pendingRequests := pending |} in
  match JS.ToString (JS.get message "id") with
  | JS.Throw e => (self1, [Unhandled e])
  | JS.Normal _ =>
      match ws self with
      | Some s =>
          match Ws.send bridgeMessage s with
          | JS.Normal s' =>
              ({| ws := Some s'; connected := connected self;
                  pendingRequests := pending |}, [sending])
          | JS.Throw e => (self1, [sending; Unhandled e])
          end
      | None =>
          (self1,
           [sending;
            Unhandled (JS.TypeError "Cannot read properties of null (reading 'send')")])
      end
  end.

(** [handleToolCall(message)] for a message that is not [null] (it comes
    from [handleMCPMessage], which has read [message.method]), at time
    [now]; [a] is what becomes of a reconnection attempt, should one be
    made.  The template of the first log line converts the tool name to a
    string; a throw there rejects the promise of the method before anything
    else is done.  [None]: the method never gets past its [await]. *)
Definition handleToolCall (now : Z) (a : attempt) (message : JS.value) (self : t)
  : option (t * list effect) :=
  let toolName := JS.opt_get (JS.get message "params") "name" in
  let is_open :=
    match ws self with
    | Some s => bool_decide (Ws.readyState s = Ws.OPEN)
    | None => false
    end in
  match JS.ToString toolName with
  | JS.Throw e => Some (self, [Unhandled e])
  | JS.Normal _ =>
      if connected self && is_open then
        let '(self', effs) := forward now message self in
        Some (self', Log (ToolCall toolName) :: effs)
      else
        match connectWebSocket a self with
        | (Some (JS.Normal _), self1, effs1) =>
            let '(self2, effs2) := forward now message self1 in
            Some (self2,
                  [Log (ToolCall toolName); Log NotConnectedReconnecting]
                  ++ effs1 ++ effs2)
        | (Some (JS.Throw e), self1, effs1) =>
            Some (self1,
                  [Log (ToolCall toolName); Log NotConnectedReconnecting]
                  ++ effs1
                  ++ [ Log (ReconnectionFailed (JS.message_of e));
                       sendError (JS.get message "id") (-32000)
                         (JS.Str not_connected_text) ])
        | (None, _, _) => None
        end
  end.

Section Server.
(** [JSON.stringify] of a parsed value, and the constant [BROWSER_TOOLS]. *)
Variable stringify : JS.value -> string.
Variable BROWSER_TOOLS : JS.value.

(** [typeof reqId === 'string' ? parseInt(reqId, 10) : reqId], [None] for
    [NaN]. *)
Definition numReqId_of (reqId : JS.value) : option JS.value :=
  match reqId with
  | JS.Str s =>
      match parseInt s with
      | Some n => Some (JS.Num n)
      | None => None
      end
  | _ => Some reqId
  end.

Definition has_opt (key : option JS.value) (m : list JS.value) : bool :=
  match key with
  | Some k => has k m
  | None => false
  end.

(** The line for a response that matched a pending request. *)
Definition answer_line (payload : JS.value) : effect :=
  let result := JS.get payload "result" in
  if JS.truthy (JS.get payload "error") then
    sendError (JS.get payload "requestId") (-32000) (JS.get payload "error")
  else if JS.strict_eq (JS.opt_get result "type") (JS.Str "image") then
    sendResponse (JS.get payload "requestId")
      (JS.Obj [("content",
                JS.Arr [JS.Obj [ ("type", JS.Str "image");
                                 ("data", JS.get result "data");
                                 ("mimeType", JS.get result "mediaType") ]])])
  else
    sendResponse (JS.get payload "requestId")
      (JS.Obj [("content",
                JS.Arr [JS.Obj [ ("type", JS.Str "text");
                                 ("text",
                                  JS.Str (stringify (JS.or_else result payload))) ]])]).

(** [handleWebSocketMessage(data)]; [parsed] is [JSON.parse(data.toString())],
    a throw standing for the parse error. *)
Definition handleWebSocketMessage (parsed : JS.completion JS.value) (self : t)
  : t * list effect :=
  match parsed with
  | JS.Throw e =>
      (self, [Log (FailedToParse (JS.message_of e))])
  | JS.Normal bridgeMessage =>
      let received := Log (ReceivedFromWindows bridgeMessage) in
      match JS.prop bridgeMessage "direction" with
      | JS.Throw e =>
          (self, [received; Log (FailedToParse (JS.message_of e))])
      | JS.Normal direction =>
          let payload := JS.get bridgeMessage "payload" in
          if JS.strict_eq direction (JS.Str "from-chrome") && JS.truthy payload
          then
            let reqId := JS.get payload "requestId" in
            let numReqId := numReqId_of reqId in
            let pending := pendingRequests self in
            if JS.truthy reqId && (has reqId pending || has_opt numReqId pending)
            then
              let pending' :=
                if has reqId pending then delete reqId pending
                else match numReqId with
                     | Some key => delete key pending
                     | None => pending
                     end in
              ({| ws := ws self; connected := connected self;
                  pendingRequests := pending' |},
               [received; answer_line payload])
            else (self, [received])
          else (self, [received])
      end
  end.

(** [handleMCPMessage(message)] at time [now].  A throw, of [message.method]
    on [null] or of the template of the first log line, which converts the
    method and the id to strings, is what the caller, [processBuffer],
    catches and logs; [None] is a tool call that never gets past its
    reconnection attempt. *)
Definition handleMCPMessage (now : Z) (a : attempt) (message : JS.value)
    (self : t) : JS.completion (option (t * list effect)) :=
  match JS.prop message "method" with
  | JS.Throw e => JS.Throw e
  | JS.Normal method =>
      let id := JS.get message "id" in
      let request := Log (McpRequest method id) in
      let case m := JS.strict_eq method (JS.Str m) in
      if negb (JS.stringifies method && JS.stringifies id) then
        JS.Throw (JS.TypeError "Cannot convert object to primitive value")
      else if case "initialize" then
        JS.Normal
          (Some (self,
                 [ request; Log HandlingInitialize;
                   sendResponse id
                     (JS.Obj [ ("protocolVersion", JS.Str "2024-11-05");
                               ("capabilities", JS.Obj [("tools", JS.Obj [])]);
                               ("serverInfo",
                                JS.Obj [ ("name", JS.Str "claude-in-chrome-bridge");
                                         ("version", JS.Str "1.0.0") ]) ]) ]))
      else if case "initialized" then
        JS.Normal (Some (self, [request; Log ClientInitialized]))
      else if case "tools/list" then
        JS.Normal
          (Some (self,
                 [ request; Log HandlingToolsList;
                   sendResponse id (JS.Obj [("tools", BROWSER_TOOLS)]) ]))
      else if case "tools/call" then
        JS.Normal
          match handleToolCall now a message self with
          | Some (self', effs) => Some (self', request :: effs)
          | None => None
          end
      else if case "ping" then
        JS.Normal (Some (self, [request; sendResponse id (JS.Obj [])]))
      else
        JS.Normal
          (Some (self,
                 [ request; Log (UnknownMethod method);
                   sendError id (-32601)
                     (JS.Str ("Method not found: " ++ JS.to_String method)) ]))
  end.

End Server.

(** The lines written to [process.stdout]. *)
Definition stdout (effs : list effect) : list JS.value :=
  omap (fun e => match e with
                 | Stdout response => Some response
                 | Log _ | Unhandled _ => None
                 end) effs.

(** The frames the server's socket has transmitted. *)
Definition wire (self : t) : list JS.value :=
  match ws self with
  | Some s => Ws.wire s
  | None => []
  end.

(** The process ends with the call whose effects hold an [Unhandled]. *)
Definition exits (effs : list effect) : bool :=
  existsb (fun e => match e with
                    | Unhandled _ => true
                    | _ => false
                    end) effs.

End MCPServer.

(** ** Sample data for the runs of the client and of the handlers *)

Module Samples.

Definition accepted_socket : Ws.socket :=
  {| Ws.readyState := Ws.OPEN; Ws.wire := [] |}.

Definition page : Target.t :=
  Target.mk (JS.Str "T1") (JS.Str "page") (JS.Str "Example")
    (JS.Str "https://example.com/")
    (JS.Str "ws://localhost:9222/devtools/page/T1").

Definition worker : Target.t :=
  Target.mk (JS.Str "W1") (JS.Str "service_worker") (JS.Str "sw")
    (JS.Str "https://example.com/sw.js")
    (JS.Str "ws://localhost:9222/devtools/page/W1").

(** A socket constructor that refuses a missing address and nothing else. *)
Definition no_address (address : JS.value) : option string :=
  match address with
  | JS.Undefined => Some "Invalid URL: undefined"
  | _ => None
  end.


(** A client attached to [page], at time 1000. *)
Definition attached_world : CDPCalls.world :=
  {| CDPCalls.client :=
       (CDPClient.run [ CDPClient.Connect no_address JS.Undefined (JS.Normal [worker; page]);
                        CDPClient.SocketOpen ]
          (CDPClient.create 9222)).1;
     CDPCalls.clock := 1000 |}.

(** A client that has never attached, at time 1000. *)
Definition detached_world : CDPCalls.world :=
  {| CDPCalls.client := CDPClient.create 9222; CDPCalls.clock := 1000 |}.

(** A browser that answers the commands with ids up to [answered] with the
    [reply] and the later ones not at all. *)
Definition browser_answering (answered : Z) (reply : JS.value + string)
  : CDPCalls.chrome :=
  {| CDPCalls.listing := JS.Normal [worker; page];
     CDPCalls.refused := no_address;
     CDPCalls.opening := Some None;
     CDPCalls.creates := fun _ => Some (JS.Normal (JS.Obj [("id", JS.Str "T2")]));
     CDPCalls.answer := fun id _ _ =>
                          if id <=? answered then Some reply else None |}.

(** A browser that is not running: the listing request fails. *)
Definition browser_down : CDPCalls.chrome :=
  {| CDPCalls.listing := JS.Throw (JS.Error "connect ECONNREFUSED");
     CDPCalls.refused := no_address;
     CDPCalls.opening := Some (Some "connect ECONNREFUSED");
     CDPCalls.creates := fun _ => Some (JS.Throw (JS.Error "connect ECONNREFUSED"));
     CDPCalls.answer := fun _ _ _ => None |}.

(** A runtime for texts of ASCII characters. *)
Definition ascii_runtime : ToolHandlers.runtime :=
  {| ToolHandlers.code_points :=
       fun s => map (fun a => String a EmptyString) (list_ascii_of_string s);
     ToolHandlers.code_units :=
       fun s => map (fun a => String a EmptyString) (list_ascii_of_string s);
     ToolHandlers.delay_of := fun _ => 1;
     ToolHandlers.find_script := fun _ => "find";
     ToolHandlers.form_script := fun _ _ => "form";
     ToolHandlers.logs_script := fun _ _ _ _ => "logs" |}.

(** A [javascript_tool] request under correlation id [id]. *)
Definition javascript_request (id : string) (text : string) : JS.value :=
  JS.Obj [ ("id", JS.Str id);
           ("direction", JS.Str "to-chrome");
           ("timestamp", JS.Num 1700000000000);
           ("payload",
            JS.Obj [ ("tool", JS.Str "javascript_tool");
                     ("arguments", JS.Obj [("text", JS.Str text)]) ]) ].

(** A [tools/call] request of an MCP client, under the number 7. *)
Definition mcp_navigate_call : JS.value :=
  JS.Obj [ ("jsonrpc", JS.Str "2.0");
           ("id", JS.Num 7);
           ("method", JS.Str "tools/call");
           ("params",
            JS.Obj [ ("name", JS.Str "navigate");
                     ("arguments",
                      JS.Obj [("url", JS.Str "https://example.org/")]) ]) ].

(** A server whose connection to the host is open. *)
Definition mcp_connected : MCPServer.t :=
  {| MCPServer.ws := Some accepted_socket;
     MCPServer.connected := true;
     MCPServer.pendingRequests := [] |}.

(** A server whose socket is closing while the close event has not arrived. *)
Definition mcp_closing : MCPServer.t :=
  {| MCPServer.ws := Some {| Ws.readyState := Ws.CLOSING; Ws.wire := [] |};
     MCPServer.connected := true;
     MCPServer.pendingRequests := [] |}.

End Samples.

(** ** Sample data for the concrete runs *)

(** A socket as the server hands it to the connection callback. *)
Definition accepted : Ws.socket := {| Ws.readyState := Ws.OPEN; Ws.wire := [] |}.

(** A [navigate] request under correlation id [id]. *)
Definition navigate_request (id : string) (url : string) : JS.value :=
  JS.Obj [ ("id", JS.Str id);
           ("direction", JS.Str "to-chrome");
           ("timestamp", JS.Num 1700000000000);
           ("payload",
            JS.Obj [ ("tool", JS.Str "navigate");
                     ("arguments", JS.Obj [("url", JS.Str url)]) ]) ].

(* ================================================================== *)
(** * Properties *)

Section NativeMessagingFacts.
Import NativeMessaging.
Context {message : Type}.
Variable stringify : message -> list byte.
Variable parse : list byte -> option message.

Lemma byte_of_N_to_N (n : N) : Byte.to_N (byte_of_N n) = (n mod 256)%N.
Proof.
  unfold byte_of_N.
  destruct (Byte.of_N (n mod 256)%N) as [b|] eqn:E.
  - now apply Byte.to_of_N.
  - apply Byte.of_N_None_iff in E.
    pose proof (N.mod_upper_bound n 256). lia.
Qed.

Lemma readUInt32LE_writeUInt32LE (n : N) (rest : list byte) :
  (n < 4294967296)%N ->
  readUInt32LE (writeUInt32LE n ++ rest) = n.
Proof.
  intros Hn. unfold writeUInt32LE, readUInt32LE. simpl.
  rewrite !byte_of_N_to_N.
  rewrite (N.mod_small (n / 16777216) 256)
    by (apply N.Div0.div_lt_upper_bound; lia).
  pose proof (N.div_mod n 256 ltac:(lia)).
  pose proof (N.div_mod (n / 256) 256 ltac:(lia)).
  pose proof (N.div_mod (n / 65536) 256 ltac:(lia)).
  assert (n / 65536 = n / 256 / 256)%N by (rewrite N.Div0.div_div; reflexivity).
  assert (n / 16777216 = n / 65536 / 256)%N by (rewrite N.Div0.div_div; reflexivity).
  lia.
Qed.


Implicit Types (self : t) (buf rest : list byte).

Lemma length_writeUInt32LE (n : N) : length (writeUInt32LE n) = 4%nat.
Proof. reflexivity. Qed.

Lemma readUInt32LE_app buf rest :
  (4 <= length buf)%nat -> readUInt32LE (buf ++ rest) = readUInt32LE buf.
Proof.
  destruct buf as [|b0 [|b1 [|b2 [|b3 buf]]]]; simpl; intros;
    first [lia | reflexivity].
Qed.

Lemma drain_S turns self buf :
  drain parse (S turns) self buf =
    if (length buf <? 4)%nat then (buf, [])
    else
      if (length buf <? 4 + N.to_nat (readUInt32LE buf))%nat then (buf, [])
      else
        let '(rest, effs) :=
          drain parse turns self (drop (4 + N.to_nat (readUInt32LE buf)) buf) in
        (rest,
         dispatch parse self (slice 4 (4 + N.to_nat (readUInt32LE buf)) buf)
           ++ effs).
Proof. reflexivity. Qed.

(** The handlers, not the buffer, decide what a frame triggers. *)
Lemma dispatch_handlers self self' bs :
  messageHandler self = messageHandler self' ->
  errorHandler self = errorHandler self' ->
  dispatch parse self bs = dispatch parse self' bs.
Proof. intros H1 H2. unfold dispatch. now rewrite H1, H2. Qed.

Lemma drain_handlers turns self self' buf :
  messageHandler self = messageHandler self' ->
  errorHandler self = errorHandler self' ->
  drain parse turns self buf = drain parse turns self' buf.
Proof.
  intros H1 H2. revert buf.
  induction turns as [|turns IH]; intros buf; [reflexivity|].
  rewrite !drain_S.
  destruct (length buf <? 4)%nat; [reflexivity|].
  destruct (length buf <? 4 + N.to_nat (readUInt32LE buf))%nat; [reflexivity|].
  rewrite IH. now rewrite (dispatch_handlers self self').
Qed.

(** The loop leaves a buffer without a complete frame untouched. *)
Lemma drain_incomplete turns self buf :
  incomplete buf -> drain parse turns self buf = (buf, []).
Proof.
  intros Hinc. destruct turns as [|turns]; [reflexivity|].
  rewrite drain_S.
  destruct (Nat.ltb_spec (length buf) 4); [reflexivity|].
  destruct (Nat.ltb_spec (length buf) (4 + N.to_nat (readUInt32LE buf)));
    [reflexivity|].
  destruct Hinc; lia.
Qed.

(** The turn bound is never what stops the loop: any bound from the buffer
    length on gives the same result. *)
Lemma drain_enough turns self buf :
  (length buf <= turns)%nat ->
  drain parse turns self buf = drain parse (length buf) self buf.
Proof.
  revert turns.
  induction buf as [buf IH] using (induction_ltof1 _ (@length byte)).
  unfold ltof in IH. intros turns Hle.
  destruct (Nat.ltb_spec (length buf) 4) as [Hlt|Hge].
  { rewrite !drain_incomplete by (left; exact Hlt). reflexivity. }
  destruct turns as [|turns]; [lia|].
  destruct (length buf) as [|n] eqn:Hlen; [lia|].
  rewrite !drain_S, Hlen.
  destruct (Nat.ltb_spec (S n) 4); [lia|].
  destruct (Nat.ltb_spec (S n) (4 + N.to_nat (readUInt32LE buf)));
    [reflexivity|].
  set (buf' := drop (4 + N.to_nat (readUInt32LE buf)) buf).
  assert (Hlen' : (length buf' < S n)%nat).
  { subst buf'. rewrite length_drop. lia. }
  rewrite (IH buf') by lia.
  rewrite (IH buf' ltac:(lia) n) by lia.
  reflexivity.
Qed.

(** When the loop stops, no complete frame is left. *)
Lemma drain_exit self buf :
  incomplete (drain parse (length buf) self buf).1.
Proof.
  induction buf as [buf IH] using (induction_ltof1 _ (@length byte)).
  unfold ltof in IH.
  destruct (Nat.ltb_spec (length buf) 4) as [Hlt|Hge].
  { rewrite drain_incomplete by (left; exact Hlt). left. exact Hlt. }
  destruct (length buf) as [|n] eqn:Hlen; [lia|].
  rewrite drain_S, Hlen.
  destruct (Nat.ltb_spec (S n) 4); [lia|].
  destruct (Nat.ltb_spec (S n) (4 + N.to_nat (readUInt32LE buf))) as [Hs|Hs].
  { right. simpl. lia. }
  set (buf' := drop (4 + N.to_nat (readUInt32LE buf)) buf).
  assert (Hlen' : (length buf' < S n)%nat).
  { subst buf'. rewrite length_drop. lia. }
  specialize (IH buf' Hlen').
  rewrite <- (drain_enough n) in IH by lia.
  destruct (drain parse n self buf') as [rest effs]. exact IH.
Qed.

(** One complete frame at the head is consumed in one turn. *)
Lemma drain_step turns self buf :
  (4 + N.to_nat (readUInt32LE buf) <= length buf)%nat ->
  drain parse (S turns) self buf =
    let messageLength := N.to_nat (readUInt32LE buf) in
    let '(rest, effs) := drain parse turns self (drop (4 + messageLength) buf) in
    (rest, dispatch parse self (slice 4 (4 + messageLength) buf) ++ effs).
Proof.
  intros Hle. rewrite drain_S.
  destruct (Nat.ltb_spec (length buf) 4); [lia|].
  destruct (Nat.ltb_spec (length buf) (4 + N.to_nat (readUInt32LE buf)));
    [lia|reflexivity].
Qed.

(** Bytes that arrive later change nothing about the frames already
    complete: draining [buf ++ chunk] is draining [buf], then draining what
    that left followed by [chunk]. *)
Lemma drain_app self buf chunk :
  drain parse (length (buf ++ chunk)) self (buf ++ chunk) =
    let '(rest1, effs1) := drain parse (length buf) self buf in
    let '(rest2, effs2) :=
      drain parse (length (rest1 ++ chunk)) self (rest1 ++ chunk) in
    (rest2, effs1 ++ effs2).
Proof.
  induction buf as [buf IH] using (induction_ltof1 _ (@length byte)).
  unfold ltof in IH.
  destruct (Nat.ltb_spec (length buf) 4) as [Hlt|Hge].
  { rewrite (drain_incomplete (length buf)) by (left; exact Hlt).
    now destruct (drain parse _ self (buf ++ chunk)). }
  destruct (Nat.ltb_spec (length buf) (4 + N.to_nat (readUInt32LE buf)))
    as [Hs|Hs].
  { rewrite (drain_incomplete (length buf)) by (right; exact Hs).
    now destruct (drain parse _ self (buf ++ chunk)). }
  set (k := (4 + N.to_nat (readUInt32LE buf))%nat) in *.
  assert (Hk : (4 <= k)%nat) by (subst k; lia).
  destruct (length buf) as [|n] eqn:Hlen; [lia|].
  rewrite length_app, Hlen. simpl Nat.add.
  rewrite !drain_step;
    try (rewrite ?readUInt32LE_app, ?length_app by lia; fold k; lia).
  rewrite readUInt32LE_app by lia. cbv zeta. fold k.
  rewrite (drop_app_le buf chunk k) by lia.
  assert (Hsl : slice 4 k (buf ++ chunk) = slice 4 k buf).
  { unfold slice. rewrite drop_app_le by lia.
    rewrite take_app_le; [reflexivity|]. rewrite length_drop. lia. }
  rewrite Hsl.
  set (buf' := drop k buf).
  assert (Hlen' : (length buf' < S n)%nat).
  { subst buf'. rewrite length_drop. lia. }
  rewrite (drain_enough (n + length chunk)) by (rewrite length_app; lia).
  rewrite (drain_enough n self buf') by lia.
  rewrite (IH buf' Hlen').
  destruct (drain parse (length buf') self buf') as [rest1 effs1].
  destruct (drain parse (length (rest1 ++ chunk)) self (rest1 ++ chunk))
    as [rest2 effs2].
  now rewrite app_assoc.
Qed.


(** [handleData] keeps the handlers and leaves an incomplete buffer. *)
Lemma handleData_spec chunk self :
  handleData parse chunk self =
    (let r := drain parse (length (buffer self ++ chunk)) self
                (buffer self ++ chunk) in
     ({| messageHandler := messageHandler self;
         errorHandler := errorHandler self;
         buffer := r.1 |}, r.2)).
Proof.
  unfold handleData.
  now destruct (drain parse _ self (buffer self ++ chunk)).
Qed.

(** Chunk boundaries are invisible: feeding chunks one by one is one pass
    of the loop over their concatenation. *)
Lemma feed_concat chunks self :
  incomplete (buffer self) ->
  feed parse chunks self =
    (let r := drain parse (length (buffer self ++ concat chunks)) self
                (buffer self ++ concat chunks) in
     ({| messageHandler := messageHandler self;
         errorHandler := errorHandler self;
         buffer := r.1 |}, r.2)).
Proof.
  revert self. induction chunks as [|chunk chunks IH]; intros self Hinc.
  - simpl. rewrite app_nil_r, drain_incomplete by exact Hinc.
    now destruct self.
  - simpl feed. rewrite handleData_spec. cbv beta iota zeta.
    pose proof (drain_exit self (buffer self ++ chunk)) as Hexit.
    rewrite IH by exact Hexit. cbn [buffer messageHandler errorHandler].
    simpl concat. rewrite (app_assoc (buffer self) chunk (concat chunks)).
    rewrite (drain_app self (buffer self ++ chunk) (concat chunks)).
    destruct (drain parse (length (buffer self ++ chunk)) self
                (buffer self ++ chunk)) as [rest1 effs1].
    cbn [fst snd].
    erewrite (drain_handlers _ _ self); [|reflexivity..].
    now destruct (drain parse (length (rest1 ++ concat chunks)) self
                    (rest1 ++ concat chunks)).
Qed.

(** A frame written by [send] at the head of the buffer is consumed whole
    and its body is what gets parsed. *)
Lemma drain_frame_head self (m : message) rest :
  (length (stringify m) <= MAX_MESSAGE_SIZE)%nat ->
  drain parse (length (frame stringify m ++ rest)) self
    (frame stringify m ++ rest) =
    (let r := drain parse (length rest) self rest in
     (r.1, dispatch parse self (stringify m) ++ r.2)).
Proof.
  intros Hcap. unfold frame.
  set (body := stringify m) in *.
  set (hdr := writeUInt32LE (N.of_nat (length body))).
  assert (Hhdr : length hdr = 4%nat) by reflexivity.
  rewrite <- app_assoc.
  assert (Hread : readUInt32LE (hdr ++ body ++ rest) = N.of_nat (length body)).
  { apply readUInt32LE_writeUInt32LE.
    unfold MAX_MESSAGE_SIZE in Hcap. lia. }
  assert (Hlen : length (hdr ++ body ++ rest)
                 = S (3 + length body + length rest)).
  { rewrite !length_app, Hhdr. lia. }
  rewrite Hlen, drain_step by (rewrite Hread, Nat2N.id, Hlen; lia).
  rewrite Hread, Nat2N.id. cbv zeta.
  assert (Hdrop : drop (4 + length body) (hdr ++ body ++ rest) = rest).
  { rewrite app_assoc. apply drop_app_length'.
    rewrite length_app, Hhdr. lia. }
  assert (Hsl : slice 4 (4 + length body) (hdr ++ body ++ rest) = body).
  { unfold slice. rewrite (drop_app_length' hdr) by exact Hhdr.
    replace (4 + length body - 4)%nat with (length body) by lia.
    apply take_app_length. }
  rewrite Hdrop, Hsl.
  rewrite (drain_enough (3 + length body + length rest)) by lia.
  now destruct (drain parse (length rest) self rest).
Qed.

Lemma drain_frames self (ms : list message) tail :
  Forall (fun m => (length (stringify m) <= MAX_MESSAGE_SIZE)%nat) ms ->
  incomplete tail ->
  drain parse (length (concat (map (frame stringify) ms) ++ tail)) self
    (concat (map (frame stringify) ms) ++ tail) =
    (tail, concat (map (fun m => dispatch parse self (stringify m)) ms)).
Proof.
  intros Hcap Htail. induction Hcap as [|m ms Hm Hms IH]; cbn [map concat].
  - apply drain_incomplete, Htail.
  - rewrite <- app_assoc, drain_frame_head by exact Hm.
    now rewrite IH.
Qed.

Lemma stdout_bytes_app (e1 e2 : list (effect message)) :
  stdout_bytes (e1 ++ e2) = stdout_bytes e1 ++ stdout_bytes e2.
Proof.
  induction e1 as [|[m|e|bs] e1 IH]; simpl; [reflexivity|exact IH|exact IH|].
  now rewrite IH, app_assoc.
Qed.

(** What [send] puts on the stream: the frame, or nothing at all. *)
Lemma stdout_send (m : message) self :
  stdout_bytes (send stringify m self) =
    if (MAX_MESSAGE_SIZE <? length (stringify m))%nat then []
    else frame stringify m.
Proof.
  unfold send, frame.
  destruct (MAX_MESSAGE_SIZE <? length (stringify m))%nat.
  - now destruct (errorHandler self).
  - simpl. now rewrite app_nil_r.
Qed.

Lemma stdout_sends (ms : list message) self :
  stdout_bytes (concat (map (fun m => send stringify m self) ms)) =
    concat (map (frame stringify) (filter (within_cap stringify) ms)).
Proof.
  induction ms as [|m ms IH]; [reflexivity|].
  simpl. rewrite stdout_bytes_app, stdout_send, IH.
  rewrite filter_cons. unfold within_cap at 2.
  destruct (Nat.ltb_spec MAX_MESSAGE_SIZE (length (stringify m)));
    case_decide; try lia; reflexivity.
Qed.


(** C6. Messages sent through [send] and read back through [handleData]:
    whatever the sizes of the messages and however the written stream is
    cut into chunks, the receiving side hands its message handler exactly
    the messages that were within the 1 MiB cap, in order and unchanged,
    and keeps the trailing incomplete frame in its buffer.  A message above
    the cap writes nothing to the stream; the size error goes to the error
    handler (when one is installed) and the other sends are decoded as if
    the oversize one had never been attempted. *)
Theorem length_prefixed_roundtrip
    (sender receiver : t) (ms : list message)
    (tail : list byte) (chunks : list (list byte)) :
  messageHandler receiver = true ->
  buffer receiver = [] ->
  Forall (fun m => within_cap stringify m -> parse (stringify m) = Some m) ms ->
  incomplete tail ->
  concat chunks =
    stdout_bytes (concat (map (fun m => send stringify m sender) ms)) ++ tail ->
  feed parse chunks receiver =
    ({| messageHandler := true;
        errorHandler := errorHandler receiver;
        buffer := tail |},
     map CallMessageHandler (filter (within_cap stringify) ms))
  /\ (forall m, ~ within_cap stringify m ->
        send stringify m sender =
          (if errorHandler sender
           then [CallErrorHandler (MessageTooLarge (length (stringify m)))]
           else [])
        /\ stdout_bytes (send stringify m sender) = []).
Proof.
  intros Hmh Hbuf Hjson Htail Hstream. split.
  - rewrite feed_concat by (rewrite Hbuf; left; simpl; lia).
    rewrite Hbuf, app_nil_l, Hstream, stdout_sends, Hmh.
    rewrite drain_frames; [|apply Forall_forall; intros m Hm;
      apply list_elem_of_filter in Hm; tauto | exact Htail].
    cbn [fst snd]. f_equal.
    clear Hstream. induction Hjson as [|m ms Hm Hms IH]; [reflexivity|].
    rewrite filter_cons. case_decide; [|exact IH].
    cbn [map concat]. unfold dispatch at 1.
    rewrite Hm, Hmh by assumption. simpl. now rewrite IH.
  - intros m Hm. unfold within_cap in Hm.
    rewrite stdout_send. unfold send.
    destruct (Nat.ltb_spec MAX_MESSAGE_SIZE (length (stringify m)));
      [split; reflexivity | lia].
Qed.

End NativeMessagingFacts.

(** The round trip on a concrete stream: the body [{}] framed, cut inside its
    length prefix and inside its body, followed by two bytes of a next
    prefix. *)
Lemma length_prefixed_roundtrip_witness :
  let stringify := fun m : list byte => m in
  let parse := fun bs : list byte => Some bs in
  let ms := [[x7b; x7d]] in
  NativeMessaging.feed parse [[x02; x00]; [x00; x00; x7b]; [x7d; x05; x00]]
    (NativeMessaging.onMessage NativeMessaging.create) =
    ({| NativeMessaging.messageHandler := true;
        NativeMessaging.errorHandler := false;
        NativeMessaging.buffer := [x05; x00] |},
     map NativeMessaging.CallMessageHandler
       (filter (NativeMessaging.within_cap stringify) ms))
  /\ (forall m, ~ NativeMessaging.within_cap stringify m ->
        NativeMessaging.send stringify m NativeMessaging.create =
          (if NativeMessaging.errorHandler NativeMessaging.create
           then [NativeMessaging.CallErrorHandler
                   (NativeMessaging.MessageTooLarge (length (stringify m)))]
           else [])
        /\ NativeMessaging.stdout_bytes
             (NativeMessaging.send stringify m NativeMessaging.create) = []).
Proof.
  intros stringify parse ms.
  apply (length_prefixed_roundtrip stringify parse
           NativeMessaging.create
           (NativeMessaging.onMessage NativeMessaging.create)
           ms [x05; x00]
           [[x02; x00]; [x00; x00; x7b]; [x7d; x05; x00]]).
  - reflexivity.
  - reflexivity.
  - repeat constructor.
  - left. simpl. lia.
  - vm_compute. reflexivity.
Defined.

(** ** The reconnect loop *)

Section ReconnectFacts.
Import WebSocketClient.

Lemma expected_delays_S a len :
  expected_delays a (S len) =
    RECONNECT_DELAY * Z.min (a + 1) 5 :: expected_delays (a + 1) len.
Proof.
  unfold expected_delays. cbn [seq map]. f_equal.
  - f_equal. f_equal. lia.
  - rewrite <- seq_shift, map_map. apply map_ext. intros k.
    f_equal. f_equal. lia.
Qed.

Lemma attemptReconnect_exhausted self :
  shouldReconnect self = true ->
  MAX_RECONNECT_ATTEMPTS <= reconnectAttempts self ->
  (attemptReconnect self).1 = self /\ scheduled (attemptReconnect self).2 = None.
Proof.
  intros Hs Ha. unfold attemptReconnect. rewrite Hs. simpl negb. cbv iota.
  destruct (Z.leb_spec MAX_RECONNECT_ATTEMPTS (reconnectAttempts self)); [|lia].
  split; reflexivity.
Qed.

Lemma attemptReconnect_retry self :
  shouldReconnect self = true ->
  reconnectAttempts self < MAX_RECONNECT_ATTEMPTS ->
  (attemptReconnect self).1 =
    with_reconnectAttempts (reconnectAttempts self + 1) self
  /\ scheduled (attemptReconnect self).2 =
       Some (RECONNECT_DELAY * Z.min (reconnectAttempts self + 1) 5).
Proof.
  intros Hs Ha. unfold attemptReconnect. rewrite Hs. simpl negb. cbv iota.
  destruct (Z.leb_spec MAX_RECONNECT_ATTEMPTS (reconnectAttempts self)); [lia|].
  cbv zeta. split; [reflexivity|]. cbn [snd].
  destruct (reconnectAttempts self + 1 =? 1); [reflexivity|].
  destruct ((reconnectAttempts self + 1) mod 5 =? 0); reflexivity.
Qed.

Lemma scheduled_after_close_handler (b : bool) effs :
  scheduled ((if b then [CallCloseHandler] else []) ++ effs) = scheduled effs.
Proof. now destruct b. Qed.

(** One failure: what [on_close] leaves behind and which timer it arms. *)
Lemma on_close_spec self :
  shouldReconnect self = true ->
  let r := on_close (on_error "ECONNREFUSED" self).1 in
  shouldReconnect r.1 = true
  /\ (reconnectAttempts self < MAX_RECONNECT_ATTEMPTS ->
        reconnectAttempts r.1 = reconnectAttempts self + 1
        /\ scheduled r.2 =
             Some (RECONNECT_DELAY * Z.min (reconnectAttempts self + 1) 5))
  /\ (MAX_RECONNECT_ATTEMPTS <= reconnectAttempts self ->
        reconnectAttempts r.1 = reconnectAttempts self
        /\ scheduled r.2 = None).
Proof.
  intros Hs. cbn [on_error fst]. unfold on_close.
  set (self1 := with_connected false _).
  assert (Hs1 : shouldReconnect self1 = true) by exact Hs.
  assert (Ha1 : reconnectAttempts self1 = reconnectAttempts self) by reflexivity.
  destruct (attemptReconnect self1) as [self2 effs] eqn:E.
  cbn [fst snd]. rewrite scheduled_after_close_handler.
  split; [|split].
  - destruct (Z.le_gt_cases MAX_RECONNECT_ATTEMPTS (reconnectAttempts self1)) as [H|H].
    + destruct (attemptReconnect_exhausted self1 Hs1 H) as [H1 _].
      rewrite E in H1. cbn [fst] in H1. now subst self2.
    + destruct (attemptReconnect_retry self1 Hs1 H) as [H1 _].
      rewrite E in H1. cbn [fst] in H1. now subst self2.
  - intros H. rewrite <- Ha1 in H.
    destruct (attemptReconnect_retry self1 Hs1 H) as [H1 H2].
    rewrite E in H1, H2. cbn [fst snd] in H1, H2. subst self2.
    now rewrite <- Ha1.
  - intros H. rewrite <- Ha1 in H.
    destruct (attemptReconnect_exhausted self1 Hs1 H) as [H1 H2].
    rewrite E in H1, H2. cbn [fst snd] in H1, H2. now subst self2.
Qed.

Lemma reconnect_timer_spec self :
  shouldReconnect self = true ->
  shouldReconnect (reconnect_timer self).1 = true
  /\ reconnectAttempts (reconnect_timer self).1 = reconnectAttempts self.
Proof. intros Hs. unfold reconnect_timer. rewrite Hs. split; [exact Hs|reflexivity]. Qed.

(** The delays armed over [n] failures in a row, starting from any attempt
    count below the cap. *)
Lemma failures_delays (n : nat) self :
  shouldReconnect self = true ->
  0 <= reconnectAttempts self <= MAX_RECONNECT_ATTEMPTS ->
  let len := Nat.min n (Z.to_nat (MAX_RECONNECT_ATTEMPTS - reconnectAttempts self)) in
  (failures n self).2 = expected_delays (reconnectAttempts self) len
  /\ shouldReconnect (failures n self).1 = true
  /\ reconnectAttempts (failures n self).1 = reconnectAttempts self + Z.of_nat len.
Proof.
  revert self. induction n as [|n IH]; intros self Hs Ha.
  - cbn. repeat split; [exact Hs | lia].
  - cbn [failures].
    pose proof (on_close_spec self Hs) as Hclose. cbv zeta in Hclose.
    destruct (on_close (on_error "ECONNREFUSED" self).1) as [self1 effs].
    cbn [fst snd] in Hclose. destruct Hclose as (Hs1 & Hretry & Hstop).
    destruct (Z.le_gt_cases MAX_RECONNECT_ATTEMPTS (reconnectAttempts self)) as [H|H].
    + destruct (Hstop H) as [Ha1 Hsch]. rewrite Hsch. cbn [fst snd].
      replace (Z.to_nat _) with 0%nat by lia.
      rewrite Nat.min_0_r. repeat split; [exact Hs1 | lia].
    + destruct (Hretry H) as [Ha1 Hsch]. rewrite Hsch.
      destruct (reconnect_timer_spec self1 Hs1) as [Hs2 Ha2].
      specialize (IH (reconnect_timer self1).1 Hs2).
      rewrite Ha2, Ha1 in IH. specialize (IH ltac:(lia)). cbv zeta in IH.
      destruct (failures n (reconnect_timer self1).1) as [self3 delays].
      cbn [fst snd] in IH |- *. destruct IH as (Hd & Hs3 & Ha3).
      replace (Z.to_nat (MAX_RECONNECT_ATTEMPTS - reconnectAttempts self))
        with (S (Z.to_nat
                   (MAX_RECONNECT_ATTEMPTS - (reconnectAttempts self + 1))))
        by lia.
      rewrite <- Nat.succ_min_distr, expected_delays_S, Hd.
      repeat split; [exact Hs3 | lia].
Qed.

(** C7. Facing [n] connection failures in a row (from a fresh client or
    right after a successful open, when the attempt counter is 0), the
    reconnect loop arms [min n 50] timers, never more than
    [MAX_RECONNECT_ATTEMPTS]; the delay of the k-th retry is
    [RECONNECT_DELAY * min k 5], hence non-decreasing in k and at most
    [5 * RECONNECT_DELAY]; and once the cap is reached, no number of
    further failures arms another timer. *)
Theorem reconnect_loop_bounded (n : nat) (self : t) :
  shouldReconnect self = true ->
  reconnectAttempts self = 0 ->
  let delays := (failures n self).2 in
  (length delays <= Z.to_nat MAX_RECONNECT_ATTEMPTS)%nat
  /\ length delays = Nat.min n (Z.to_nat MAX_RECONNECT_ATTEMPTS)
  /\ (forall k d, delays !! k = Some d ->
        d = RECONNECT_DELAY * Z.min (Z.of_nat k + 1) 5)
  /\ (forall j k dj dk, (j <= k)%nat ->
        delays !! j = Some dj -> delays !! k = Some dk -> dj <= dk)
  /\ (forall d, d ∈ delays -> d <= 5 * RECONNECT_DELAY)
  /\ ((Z.to_nat MAX_RECONNECT_ATTEMPTS <= n)%nat ->
        reconnectAttempts (failures n self).1 = MAX_RECONNECT_ATTEMPTS
        /\ scheduled (attemptReconnect (failures n self).1).2 = None
        /\ forall m, (failures m (failures n self).1).2 = []).
Proof.
  intros Hs Ha.
  destruct (failures_delays n self Hs) as (Hd & Hs' & Ha');
    [rewrite Ha; unfold MAX_RECONNECT_ATTEMPTS; lia|].
  rewrite Ha in Hd, Ha'. rewrite Z.sub_0_r in Hd, Ha'.
  cbv zeta. rewrite Hd.
  assert (Hlook : forall k d,
             expected_delays 0 (Nat.min n (Z.to_nat MAX_RECONNECT_ATTEMPTS)) !! k
               = Some d ->
             d = RECONNECT_DELAY * Z.min (Z.of_nat k + 1) 5).
  { intros k d Hk. unfold expected_delays in Hk.
    rewrite list_lookup_fmap in Hk.
    destruct (seq 0 _ !! k) as [i|] eqn:Hi; [|discriminate].
    apply lookup_seq in Hi. destruct Hi as [-> _].
    cbn in Hk. injection Hk as <-. f_equal. }
  assert (Hlen : length (expected_delays 0
                           (Nat.min n (Z.to_nat MAX_RECONNECT_ATTEMPTS)))
                 = Nat.min n (Z.to_nat MAX_RECONNECT_ATTEMPTS)).
  { unfold expected_delays. now rewrite length_map, length_seq. }
  split; [rewrite Hlen; lia|].
  split; [exact Hlen|].
  split; [exact Hlook|].
  split.
  { intros j k dj dk Hjk Hj Hk.
    rewrite (Hlook j dj Hj), (Hlook k dk Hk).
    unfold RECONNECT_DELAY. lia. }
  split.
  { intros d Hin. apply list_elem_of_lookup in Hin as [k Hk].
    rewrite (Hlook k d Hk). unfold RECONNECT_DELAY. lia. }
  intros Hn.
  assert (Hcap : reconnectAttempts (failures n self).1 = MAX_RECONNECT_ATTEMPTS).
  { rewrite Ha'. unfold MAX_RECONNECT_ATTEMPTS in *. lia. }
  split; [exact Hcap|].
  split.
  { apply attemptReconnect_exhausted; [exact Hs' | lia]. }
  intros m.
  destruct (failures_delays m (failures n self).1 Hs') as (Hd2 & _);
    [rewrite Hcap; unfold MAX_RECONNECT_ATTEMPTS; lia|].
  rewrite Hd2, Hcap, Z.sub_diag. cbn. now rewrite Nat.min_0_r.
Qed.

End ReconnectFacts.

(** Three failures from a fresh client: delays 2 s, 4 s, 6 s. *)
Lemma reconnect_loop_bounded_witness :
  let self := WebSocketClient.create "ws://127.0.0.1:19222" in
  let delays := (WebSocketClient.failures 3 self).2 in
  (length delays <= Z.to_nat WebSocketClient.MAX_RECONNECT_ATTEMPTS)%nat
  /\ length delays = Nat.min 3 (Z.to_nat WebSocketClient.MAX_RECONNECT_ATTEMPTS)
  /\ (forall k d, delays !! k = Some d ->
        d = WebSocketClient.RECONNECT_DELAY * Z.min (Z.of_nat k + 1) 5)
  /\ (forall j k dj dk, (j <= k)%nat ->
        delays !! j = Some dj -> delays !! k = Some dk -> dj <= dk)
  /\ (forall d, d ∈ delays -> d <= 5 * WebSocketClient.RECONNECT_DELAY)
  /\ ((Z.to_nat WebSocketClient.MAX_RECONNECT_ATTEMPTS <= 3)%nat ->
        WebSocketClient.reconnectAttempts (WebSocketClient.failures 3 self).1
          = WebSocketClient.MAX_RECONNECT_ATTEMPTS
        /\ WebSocketClient.scheduled
             (WebSocketClient.attemptReconnect
                (WebSocketClient.failures 3 self).1).2 = None
        /\ forall m,
             (WebSocketClient.failures m (WebSocketClient.failures 3 self).1).2 = []).
Proof.
  intros self.
  apply (reconnect_loop_bounded 3 self); reflexivity.
Defined.


(** ** Sending on a socket that is not open *)

(** C10. [send] on the host's per-client wrapper and on the bridge's uplink
    client, called while the underlying socket is not [OPEN] (connecting,
    closing, closed, or for the uplink not yet created): the call returns
    normally and the object, its socket and the socket's wire are exactly as
    before, so nothing was transmitted and nothing was kept for later. *)
Theorem send_not_open_discards
    (message : JS.value) (client : WSClient.t) (uplink : WebSocketClient.t) :
  Ws.readyState (WSClient.ws client) <> Ws.OPEN ->
  Ws.readyState <$> WebSocketClient.ws uplink <> Some Ws.OPEN ->
  WSClient.send message client = JS.Normal client
  /\ WebSocketClient.send message uplink = JS.Normal uplink.
Proof.
  intros Hc Hu. split.
  - unfold WSClient.send. now case_decide.
  - unfold WebSocketClient.send, WebSocketClient.isConnected.
    destruct (WebSocketClient.ws uplink) as [s|]; cbn in Hu |- *.
    + rewrite bool_decide_eq_false_2 by congruence.
      now rewrite andb_false_r.
    + now rewrite andb_false_r.
Qed.

(** A wrapper around a socket that is still connecting, where the package's
    own [send] would throw, and an uplink whose socket has closed. *)
Lemma send_not_open_discards_witness :
  let message := JS.Obj [("id", JS.Num 1)] in
  let client := WSClient.create Ws.create in
  let uplink :=
    (WebSocketClient.on_close
       (WebSocketClient.on_open
          (WebSocketClient.connect (WebSocketClient.create "ws://127.0.0.1:19222")).1).1).1 in
  WSClient.send message client = JS.Normal client
  /\ WebSocketClient.send message uplink = JS.Normal uplink.
Proof.
  intros message client uplink.
  apply (send_not_open_discards message client uplink).
  - vm_compute. discriminate.
  - vm_compute. discriminate.
Defined.

(** ** Forwarding in the bridge *)

Section BridgeFacts.
Import WSLBridge.

Lemma isConnected_socket (c : WebSocketClient.t) :
  WebSocketClient.isConnected c = true ->
  exists s, WebSocketClient.ws c = Some s /\ Ws.readyState s = Ws.OPEN.
Proof.
  unfold WebSocketClient.isConnected. intros H.
  apply andb_true_iff in H as [_ H].
  destruct (WebSocketClient.ws c) as [s|]; [|discriminate].
  apply bool_decide_eq_true in H. eauto.
Qed.

(** C9, as the code has it.  A frame from the local peer is wrapped in an
    envelope whose id is built from the clock and a random suffix, with
    direction [to-chrome], a timestamp and the frame as payload, and that
    envelope is the one frame sent upstream, provided the uplink is
    connected; with the uplink not connected the frame is dropped with a
    warning and nothing is kept.  A [from-chrome] envelope from upstream is
    unwrapped and exactly its payload is written to the attached local
    peer; with no local peer attached it is dropped with a warning and
    nothing is kept. *)
Theorem bridge_forwarding
    (self : t) (now_id : Z) (suffix : string) (now_ts : Z)
    (message bridgeMessage : JS.value) :
  (WebSocketClient.isConnected (wsClient self) = true ->
     exists self',
       forwardToWindows now_id suffix now_ts message self = JS.Normal (self', [])
       /\ upstream_wire self' =
            upstream_wire self ++
              [JS.Obj [ ("id", JS.Str (envelope_id now_id suffix));
                        ("direction", JS.Str "to-chrome");
                        ("timestamp", JS.Num now_ts);
                        ("payload", message) ]]
       /\ claudeClient self' = claudeClient self)
  /\ (WebSocketClient.isConnected (wsClient self) = false ->
        forwardToWindows now_id suffix now_ts message self =
          JS.Normal (self, [ConsoleWarn "[Bridge] Cannot forward to Windows: not connected"]))
  /\ (is_Some (claudeClient self) ->
      JS.prop bridgeMessage "direction" = JS.Normal (JS.Str "from-chrome") ->
        exists self',
          forwardToClaudeCode bridgeMessage self = JS.Normal (self', [])
          /\ peer_written self' =
               peer_written self ++ [JS.get bridgeMessage "payload"]
          /\ wsClient self' = wsClient self)
  /\ (claudeClient self = None ->
        forwardToClaudeCode bridgeMessage self =
          JS.Normal (self, [ConsoleWarn "[Bridge] Cannot forward to Claude Code: not connected"])).
Proof.
  repeat split.
  - intros Hc. unfold forwardToWindows, upstream_wire.
    rewrite Hc. cbn [negb]. unfold WebSocketClient.send. rewrite Hc.
    destruct (isConnected_socket _ Hc) as (s & Hs & Hopen).
    rewrite Hs. unfold Ws.send. rewrite Hopen.
    eexists. split; [reflexivity|]. cbn. split; reflexivity.
  - intros Hc. unfold forwardToWindows. now rewrite Hc.
  - intros [client Hclient] Hdir. unfold forwardToClaudeCode, peer_written.
    rewrite Hclient, Hdir. cbn.
    eexists. split; [reflexivity|]. cbn. split; reflexivity.
  - intros Hnone. unfold forwardToClaudeCode. now rewrite Hnone.
Qed.

End BridgeFacts.

(** A bridge with the uplink open and a local peer attached (both forwarding
    directions deliver), and a bridge with neither (both directions drop). *)
Lemma bridge_forwarding_witness :
  let url := "ws://127.0.0.1:19222" in
  let linked :=
    (WSLBridge.onConnection UnixSocketClient.create
       {| WSLBridge.wsClient :=
            (WebSocketClient.on_open
               (WebSocketClient.connect (WebSocketClient.create url)).1).1;
          WSLBridge.claudeClient := None |}).1 in
  let message := JS.Obj [("tool", JS.Str "navigate")] in
  let reply :=
    JS.Obj [ ("id", JS.Str "r1"); ("direction", JS.Str "from-chrome");
             ("timestamp", JS.Num 1700000000001);
             ("payload", JS.Obj [("requestId", JS.Str "r1")]) ] in
  (exists self',
     WSLBridge.forwardToWindows 1700000000000 "k3j2h1g" 1700000000000 message linked
       = JS.Normal (self', [])
     /\ WSLBridge.upstream_wire self' =
          WSLBridge.upstream_wire linked ++
            [JS.Obj [ ("id", JS.Str (WSLBridge.envelope_id 1700000000000 "k3j2h1g"));
                      ("direction", JS.Str "to-chrome");
                      ("timestamp", JS.Num 1700000000000);
                      ("payload", message) ]]
     /\ WSLBridge.claudeClient self' = WSLBridge.claudeClient linked)
  /\ (exists self',
        WSLBridge.forwardToClaudeCode reply linked = JS.Normal (self', [])
        /\ WSLBridge.peer_written self' =
             WSLBridge.peer_written linked ++ [JS.get reply "payload"]
        /\ WSLBridge.wsClient self' = WSLBridge.wsClient linked)
  /\ WSLBridge.forwardToWindows 1700000000000 "k3j2h1g" 1700000000000 message
       (WSLBridge.create url) =
       JS.Normal (WSLBridge.create url,
                  [WSLBridge.ConsoleWarn "[Bridge] Cannot forward to Windows: not connected"])
  /\ WSLBridge.forwardToClaudeCode reply (WSLBridge.create url) =
       JS.Normal (WSLBridge.create url,
                  [WSLBridge.ConsoleWarn "[Bridge] Cannot forward to Claude Code: not connected"]).
Proof.
  intros url linked message reply.
  destruct (bridge_forwarding linked 1700000000000 "k3j2h1g" 1700000000000 message reply)
    as (Hup & _ & Hdown & _).
  destruct (bridge_forwarding (WSLBridge.create url) 1700000000000 "k3j2h1g"
              1700000000000 message reply)
    as (_ & Hup' & _ & Hdown').
  split; [apply Hup; reflexivity|].
  split; [apply Hdown; [eexists; reflexivity | reflexivity]|].
  split; [apply Hup'; reflexivity | apply Hdown'; reflexivity].
Defined.

(** C9 as stated fails for a frame that arrives from the local peer while the
    uplink is not connected: no envelope is sent upstream. *)
Lemma forward_upstream_dropped_when_disconnected :
  let self :=
    (WSLBridge.onConnection UnixSocketClient.create
       (WSLBridge.create "ws://127.0.0.1:19222")).1 in
  let message := JS.Obj [("tool", JS.Str "navigate")] in
  ~ (exists self' effs envelope,
       WSLBridge.forwardToWindows 1700000000000 "k3j2h1g" 1700000000000 message self
         = JS.Normal (self', effs)
       /\ WSLBridge.upstream_wire self' = WSLBridge.upstream_wire self ++ [envelope]).
Proof.
  intros self message (self' & effs & envelope & Hrun & Hwire).
  vm_compute in Hrun. injection Hrun as <- <-.
  vm_compute in Hwire. discriminate.
Qed.


(** ** The pending-command table *)

Section CDPClientFacts.
Import CDPClient.

Lemma wf_create port : wf (create port).
Proof.
  constructor; cbn; intros *; try rewrite lookup_empty; try discriminate.
  intros H. apply elem_of_nil in H. destruct H.
Qed.

(** What a successful [send] changes. *)
Lemma send_Normal now method params self self' p :
  send now method params self = JS.Normal (self', p) ->
  p = promises self
  /\ messageId self' = messageId self + 1
  /\ pendingCommands self' = <[messageId self + 1 := p]> (pendingCommands self)
  /\ promises self' = S (promises self)
  /\ timers self' =
       timers self ++ [mk_timer (now + COMMAND_TIMEOUT) (messageId self + 1) method].
Proof.
  unfold send. destruct (ws self) as [s|]; [|discriminate].
  case_decide as Hopen; [|discriminate].
  unfold Ws.send. rewrite Hopen. intros H. injection H as <- <-.
  cbn. repeat split.
Qed.

Lemma wf_send now method params self self' p :
  wf self -> send now method params self = JS.Normal (self', p) -> wf self'.
Proof.
  intros [Hid Hh Hinj Htm] Hsend.
  apply send_Normal in Hsend as (-> & Hm & Hp & Hpr & Ht).
  constructor; rewrite ?Hm, ?Hp, ?Hpr, ?Ht.
  - intros i q. rewrite lookup_insert. case_decide; [lia|].
    intros Hq. apply Hid in Hq. lia.
  - intros i q. rewrite lookup_insert. case_decide.
    + intros [= <-]. lia.
    + intros Hq. apply Hh in Hq. lia.
  - intros i j q. rewrite !lookup_insert.
    repeat case_decide; intros Hq1 Hq2; simplify_eq; try reflexivity.
    + apply Hh in Hq2. lia.
    + apply Hh in Hq1. lia.
    + eauto.
  - intros tm Hin. apply elem_of_app in Hin as [Hin|Hin].
    + apply Htm in Hin. lia.
    + apply list_elem_of_singleton in Hin. subst tm. cbn. lia.
Qed.

(** Removing an entry keeps the table well formed. *)
Lemma wf_delete self self' k :
  wf self ->
  messageId self' = messageId self ->
  promises self' = promises self ->
  timers self' = timers self ->
  pendingCommands self' = delete k (pendingCommands self) ->
  wf self'.
Proof.
  intros [Hid Hh Hinj Htm] Hm Hpr Ht Hp.
  constructor; rewrite ?Hm, ?Hp, ?Hpr, ?Ht; try assumption.
  - intros i q H. apply lookup_delete_Some in H as [_ H]. eauto.
  - intros i q H. apply lookup_delete_Some in H as [_ H]. eauto.
  - intros i j q H1 H2.
    apply lookup_delete_Some in H1 as [_ H1].
    apply lookup_delete_Some in H2 as [_ H2]. eauto.
Qed.

(** Changes outside the table and the runtime keep it well formed. *)
Lemma wf_same self self' :
  wf self ->
  messageId self' = messageId self ->
  promises self' = promises self ->
  timers self' = timers self ->
  pendingCommands self' = pendingCommands self ->
  wf self'.
Proof.
  intros [Hid Hh Hinj Htm] Hm Hpr Ht Hp.
  constructor; rewrite ?Hm, ?Hp, ?Hpr, ?Ht; assumption.
Qed.

(** [connectToTarget] touches [targetId] and [ws] and nothing else. *)
Lemma connectToTarget_fields invalid tid listing self :
  let self' := (connectToTarget invalid tid listing self).1 in
  messageId self' = messageId self
  /\ promises self' = promises self
  /\ timers self' = timers self
  /\ pendingCommands self' = pendingCommands self
  /\ port self' = port self.
Proof.
  cbv zeta. unfold connectToTarget.
  destruct listing as [targets|e]; [|now repeat split].
  destruct (if JS.truthy tid then _ else _) as [target|]; [|now repeat split].
  destruct (Ws.construct invalid _); now repeat split.
Qed.

(** [handleMessage] on an object: either the frame's numeric id has an entry,
    which is removed and whose promise is settled with the frame's content,
    or nothing at all happens. *)
Lemma handleMessage_Obj fields self :
  (exists id p,
      JS.assoc "id" fields = JS.Num id
      /\ pendingCommands self !! id = Some p
      /\ handleMessage (JS.Obj fields) self =
           JS.Normal
             ({| port := port self; ws := ws self; messageId := messageId self;
                 pendingCommands := delete id (pendingCommands self);
                 targetId := targetId self; sessionId := sessionId self;
                 promises := promises self; timers := timers self |},
              [outcome p fields]))
  \/ ((forall id, JS.assoc "id" fields = JS.Num id ->
         pendingCommands self !! id = None)
      /\ handleMessage (JS.Obj fields) self = JS.Normal (self, [])).
Proof.
  unfold handleMessage. cbn [JS.prop JS.get].
  destruct (JS.assoc "id" fields) as [| |b|id|s0|items|fs] eqn:Hkey;
    try (right; split; [intros ? [=] | reflexivity]).
  destruct (pendingCommands self !! id) as [p|] eqn:Hp.
  - left. exists id, p. repeat split; try assumption.
  - right. split; [intros ? [= <-]; assumption | reflexivity].
Qed.

Lemma on_timeout_cases tm self :
  (exists p,
      pendingCommands self !! timer_id tm = Some p
      /\ on_timeout tm self =
           ({| port := port self; ws := ws self; messageId := messageId self;
               pendingCommands := delete (timer_id tm) (pendingCommands self);
               targetId := targetId self; sessionId := sessionId self;
               promises := promises self; timers := timers self |},
            [Reject p ("Command " ++ timer_method tm ++ " timed out")]))
  \/ (pendingCommands self !! timer_id tm = None /\ on_timeout tm self = (self, [])).
Proof.
  unfold on_timeout. destruct (pendingCommands self !! timer_id tm) as [p|].
  - left. exists p. split; reflexivity.
  - right. split; reflexivity.
Qed.

Lemma wf_on_timeout tm self : wf self -> wf (on_timeout tm self).1.
Proof.
  intros Hwf. destruct (on_timeout_cases tm self) as [(p & _ & ->)|[_ ->]];
    [|exact Hwf].
  eapply wf_delete; [exact Hwf|reflexivity..].
Qed.

Lemma wf_expire tms self : wf self -> wf (expire tms self).1.
Proof.
  revert self. induction tms as [|tm tms IH]; intros self Hwf; [exact Hwf|].
  cbn [expire]. pose proof (wf_on_timeout tm self Hwf) as H1.
  destruct (on_timeout tm self) as [self1 effs1]. cbn [fst] in H1.
  specialize (IH self1 H1).
  destruct (expire tms self1) as [self2 effs2]. exact IH.
Qed.

Lemma list_filter_elem {A} (f : A -> bool) (l : list A) (x : A) :
  x ∈ List.filter f l <-> x ∈ l /\ f x = true.
Proof. rewrite !list_elem_of_In. apply filter_In. Qed.

Lemma wf_step ev self : wf self -> wf (step ev self).1.
Proof.
  intros Hwf.
  destruct ev as [now method params|fields|now|invalid tid listing| |];
    cbn [step].
  - destruct (send now method params self) as [[self' p]|e] eqn:Hsend;
      [|exact Hwf].
    eapply wf_send; eassumption.
  - destruct (handleMessage_Obj fields self) as [(id & p & _ & _ & ->)|[_ ->]];
      [|exact Hwf].
    eapply wf_delete; [exact Hwf|reflexivity..].
  - unfold tick. apply wf_expire.
    destruct Hwf as [Hid Hh Hinj Htm]. constructor; cbn; try assumption.
    intros tm Hin. apply list_filter_elem in Hin as [Hin _]. auto.
  - destruct (connectToTarget_fields invalid tid listing self)
      as (Hm & Hp & Ht & Hc & _).
    destruct (connectToTarget invalid tid listing self) as [self' [[tg effs]|e]];
      cbn [fst] in *; eapply wf_same; eassumption.
  - eapply wf_same; [exact Hwf|reflexivity..].
  - eapply wf_same; [exact Hwf|reflexivity..].
Qed.

Lemma wf_run tr self : wf self -> wf (run tr self).1.
Proof.
  revert self. induction tr as [|ev tr IH]; intros self Hwf; [exact Hwf|].
  cbn [run]. pose proof (wf_step ev self Hwf) as H1.
  destruct (step ev self) as [self1 effs1]. cbn [fst] in H1.
  specialize (IH self1 H1). destruct (run tr self1) as [self2 effs2]. exact IH.
Qed.

Lemma reachable_wf self : reachable self -> wf self.
Proof. intros (port & tr & ->). apply wf_run, wf_create. Qed.


Lemma settlements_app p effs1 effs2 :
  settlements p (effs1 ++ effs2) = settlements p effs1 ++ settlements p effs2.
Proof. apply List.filter_app. Qed.

Lemma settlements_outcome_other p q fields :
  q <> p -> settlements p [outcome q fields] = [].
Proof.
  intros Hne. unfold outcome, settlements.
  destruct (JS.truthy _); cbn; destruct (Nat.eqb_spec q p);
    first [contradiction | reflexivity].
Qed.

Lemma settlements_outcome p fields :
  settlements p [outcome p fields] = [outcome p fields].
Proof.
  unfold outcome, settlements.
  destruct (JS.truthy _); cbn; now rewrite Nat.eqb_refl.
Qed.

Lemma settlements_reject p q text :
  settlements p [Reject q text] = if Nat.eqb q p then [Reject q text] else [].
Proof. reflexivity. Qed.

(** *** One command, followed through every event *)

Section OneCommand.
Variables (id : Z) (p : nat) (tm : timer).
Hypothesis tm_id : timer_id tm = id.

Local Abbreviation followed := (CDPClient.followed id p tm).

Lemma cause_seen seen seen' e :
  cause id p tm seen e -> cause id p tm (seen ++ seen') e.
Proof.
  intros [[-> (now & Hin & Hdue)]|(before & fields & after & -> & Hid & -> & Hb)].
  - left. split; [reflexivity|]. exists now. split; [|exact Hdue].
    apply elem_of_app. now left.
  - right. exists before, fields, (after ++ seen').
    split; [now rewrite <- app_assoc|]. auto.
Qed.

Lemma destroyed_seen self seen seen' effs :
  destroyed id p tm self seen effs -> destroyed id p tm self (seen ++ seen') effs.
Proof.
  intros (H1 & H2 & e & He & Hcause).
  split; [assumption|]. split; [assumption|].
  exists e. split; [assumption|]. now apply cause_seen.
Qed.

Lemma followed_seen self seen seen' effs :
  followed self seen effs -> followed self (seen ++ seen') effs.
Proof.
  intros (Hwf & Hid & Hp & [H|H]);
    (split; [assumption|]; split; [assumption|]; split; [assumption|]).
  - now left.
  - right. now apply destroyed_seen.
Qed.

(** Another entry [k] holds another promise. *)
Lemma other_entry self seen effs k q :
  followed self seen effs -> k <> id ->
  pendingCommands self !! k = Some q -> q <> p.
Proof.
  intros (Hwf & _ & _ & [[Hp _]|(_ & Hnone & _)]) Hk Hq ->.
  - apply Hk. eapply wf_inj; eassumption.
  - eapply Hnone; eassumption.
Qed.

(** Removing another entry and settling its promise changes nothing for the
    command followed. *)
Lemma followed_delete_other self self' seen effs effs' k q :
  followed self seen effs -> k <> id ->
  pendingCommands self !! k = Some q ->
  messageId self' = messageId self ->
  promises self' = promises self ->
  timers self' = timers self ->
  pendingCommands self' = delete k (pendingCommands self) ->
  settlements p effs' = [] ->
  followed self' seen (effs ++ effs')
  /\ (still_pending id p self effs -> still_pending id p self' (effs ++ effs')).
Proof.
  intros Hf Hk Hq Hm Hpr Ht Hpend Heffs.
  destruct Hf as (Hwf & Hid & Hp & Hcase).
  assert (Hstill : still_pending id p self effs ->
                   still_pending id p self' (effs ++ effs')).
  { intros [H1 H2]. split.
    - rewrite Hpend, lookup_delete_ne by exact Hk. exact H1.
    - now rewrite settlements_app, H2, Heffs. }
  split; [|exact Hstill].
  split; [eapply wf_delete; eassumption|].
  split; [lia|]. split; [lia|].
  destruct Hcase as [H|(H1 & H2 & e & He & Hcause)]; [left; auto|right].
  split; [|split].
  - rewrite Hpend. apply lookup_delete_None. now right.
  - intros i Hi. rewrite Hpend in Hi.
    apply lookup_delete_Some in Hi as [_ Hi]. eapply H2; eassumption.
  - exists e. split; [|exact Hcause].
    now rewrite settlements_app, He, Heffs.
Qed.

(** Removing the command's own entry with one call on its promise moves it
    from pending to destroyed. *)
Lemma followed_delete_own self self' seen effs e :
  followed self seen effs ->
  pendingCommands self !! id = Some p ->
  messageId self' = messageId self ->
  promises self' = promises self ->
  timers self' = timers self ->
  pendingCommands self' = delete id (pendingCommands self) ->
  settlements p [e] = [e] ->
  cause id p tm seen e ->
  followed self' seen (effs ++ [e])
  /\ destroyed id p tm self' seen (effs ++ [e]).
Proof.
  intros (Hwf & Hid & Hp & Hcase) Hown Hm Hpr Ht Hpend He Hcause.
  assert (Hd : destroyed id p tm self' seen (effs ++ [e])).
  { destruct Hcase as [[_ Hnone]|(H1 & _)]; [|congruence].
    split; [|split].
    - rewrite Hpend. apply lookup_delete_eq.
    - intros i Hi. rewrite Hpend in Hi.
      apply lookup_delete_Some in Hi as [Hne Hi].
      apply Hne. eapply wf_inj; eassumption.
    - exists e. split; [|exact Hcause].
      now rewrite settlements_app, Hnone, He. }
  split; [|exact Hd].
  split; [eapply wf_delete; eassumption|].
  split; [lia|]. split; [lia|]. now right.
Qed.

Lemma followed_gone self seen effs :
  followed self seen effs -> pendingCommands self !! id = None ->
  destroyed id p tm self seen effs.
Proof. intros (_ & _ & _ & [[H _]|H]) Hnone; [congruence|exact H]. Qed.

(** Anything that leaves the table and the runtime alone and calls nothing
    on the promise. *)
Lemma followed_same self self' seen effs effs' :
  followed self seen effs ->
  messageId self' = messageId self ->
  promises self' = promises self ->
  timers self' = timers self ->
  pendingCommands self' = pendingCommands self ->
  settlements p effs' = [] ->
  followed self' seen (effs ++ effs')
  /\ (still_pending id p self' (effs ++ effs') <-> still_pending id p self effs).
Proof.
  intros (Hwf & Hid & Hp & Hcase) Hm Hpr Ht Hpend Heffs.
  assert (Hiff : still_pending id p self' (effs ++ effs')
                 <-> still_pending id p self effs).
  { unfold still_pending. now rewrite Hpend, settlements_app, Heffs, app_nil_r. }
  split; [|exact Hiff].
  split; [eapply wf_same; eassumption|].
  split; [lia|]. split; [lia|].
  destruct Hcase as [H|(H1 & H2 & e & He & Hcause)]; [left; now apply Hiff|right].
  split; [|split].
  - now rewrite Hpend.
  - intros i. rewrite Hpend. apply H2.
  - exists e. split; [|exact Hcause].
    now rewrite settlements_app, He, Heffs.
Qed.

(** One timer callback. *)
Lemma on_timeout_followed tm' self seen effs :
  followed self seen effs ->
  (timer_id tm' = id -> tm' = tm) ->
  (tm' = tm -> exists now, Tick now ∈ seen /\ due tm <= now) ->
  followed (on_timeout tm' self).1 seen (effs ++ (on_timeout tm' self).2)
  /\ timers (on_timeout tm' self).1 = timers self
  /\ (pendingCommands self !! id = None ->
        pendingCommands (on_timeout tm' self).1 !! id = None)
  /\ (tm' = tm -> pendingCommands (on_timeout tm' self).1 !! id = None)
  /\ (tm' <> tm -> still_pending id p self effs ->
        still_pending id p (on_timeout tm' self).1 (effs ++ (on_timeout tm' self).2)).
Proof.
  intros Hf Huniq Hfired.
  destruct (on_timeout_cases tm' self) as [(q & Hq & ->)|[Hnone ->]]; cbn [fst snd].
  - destruct (decide (timer_id tm' = id)) as [Heq|Hne].
    + specialize (Huniq Heq). subst tm'. rewrite tm_id in *.
      specialize (Hfired eq_refl).
      assert (Hown : pendingCommands self !! id = Some p).
      { destruct Hf as (_ & _ & _ & [[H _]|(H & _)]); [exact H|congruence]. }
      assert (q = p) by congruence. subst q.
      destruct (followed_delete_own self
                  {| port := port self; ws := ws self; messageId := messageId self;
                     pendingCommands := delete id (pendingCommands self);
                     targetId := targetId self; sessionId := sessionId self;
                     promises := promises self; timers := timers self |}
                  seen effs
                  (Reject p ("Command " ++ timer_method tm ++ " timed out")))
        as [Hf' Hd]; try reflexivity; try assumption.
      { rewrite settlements_reject. now rewrite Nat.eqb_refl. }
      { left. split; [reflexivity|exact Hfired]. }
      split; [exact Hf'|]. split; [reflexivity|].
      split; [intros _; apply lookup_delete_eq|].
      split; [intros _; apply lookup_delete_eq|].
      intros Hcontra. now contradiction Hcontra.
    + assert (Hqp : q <> p) by (eapply other_entry; eassumption).
      destruct (followed_delete_other self
                  {| port := port self; ws := ws self; messageId := messageId self;
                     pendingCommands := delete (timer_id tm') (pendingCommands self);
                     targetId := targetId self; sessionId := sessionId self;
                     promises := promises self; timers := timers self |}
                  seen effs
                  [Reject q ("Command " ++ timer_method tm' ++ " timed out")]
                  (timer_id tm') q)
        as [Hf' Hstill]; try reflexivity; try assumption.
      { rewrite settlements_reject. destruct (Nat.eqb_spec q p); [contradiction|reflexivity]. }
      split; [exact Hf'|]. split; [reflexivity|].
      split; [intros H; cbn; now rewrite lookup_delete_ne|].
      split; [intros ->; congruence|].
      intros _. exact Hstill.
  - rewrite app_nil_r.
    split; [exact Hf|]. split; [reflexivity|].
    split; [auto|].
    split; [intros ->; now rewrite <- tm_id|].
    auto.
Qed.

(** A batch of timer callbacks. *)
Lemma expire_followed tms self seen effs :
  followed self seen effs ->
  (forall tm', tm' ∈ tms -> timer_id tm' = id -> tm' = tm) ->
  (tm ∈ tms -> exists now, Tick now ∈ seen /\ due tm <= now) ->
  followed (expire tms self).1 seen (effs ++ (expire tms self).2)
  /\ timers (expire tms self).1 = timers self
  /\ (pendingCommands self !! id = None ->
        pendingCommands (expire tms self).1 !! id = None)
  /\ (tm ∈ tms -> pendingCommands (expire tms self).1 !! id = None)
  /\ (tm ∉ tms -> still_pending id p self effs ->
        still_pending id p (expire tms self).1 (effs ++ (expire tms self).2)).
Proof.
  revert self effs.
  induction tms as [|tm' tms IH]; intros self effs Hf Huniq Hfired.
  - cbn [expire fst snd]. rewrite app_nil_r.
    split; [exact Hf|]. split; [reflexivity|]. split; [auto|].
    split; [intros H; apply elem_of_nil in H; destruct H|auto].
  - cbn [expire].
    destruct (on_timeout_followed tm' self seen effs Hf) as (Hf1 & Ht1 & Hn1 & Hown1 & Hs1).
    { intros Heq. apply Huniq; [apply list_elem_of_here|exact Heq]. }
    { intros ->. apply Hfired. apply list_elem_of_here. }
    destruct (on_timeout tm' self) as [self1 effs1]. cbn [fst snd] in *.
    destruct (IH self1 (effs ++ effs1) Hf1) as (Hf2 & Ht2 & Hn2 & Hown2 & Hs2).
    { intros tm'' Hin. apply Huniq. now apply list_elem_of_further. }
    { intros Hin. apply Hfired. now apply list_elem_of_further. }
    destruct (expire tms self1) as [self2 effs2]. cbn [fst snd] in *.
    rewrite app_assoc.
    split; [exact Hf2|]. split; [congruence|].
    split; [auto|].
    split.
    + intros Hin. apply elem_of_cons in Hin as [<-|Hin]; auto.
    + intros Hnot Hstill.
      apply Hs2; [intros Hin; apply Hnot; now apply list_elem_of_further|].
      apply Hs1; [intros ->; apply Hnot; apply list_elem_of_here|exact Hstill].
Qed.

Local Abbreviation timer_armed := (CDPClient.timer_armed id p tm).

Lemma tick_seen_before (ev : event) seen now :
  (forall t, ev <> Tick t) -> Tick now ∈ seen ++ [ev] -> Tick now ∈ seen.
Proof.
  intros Hev Hin. apply elem_of_app in Hin as [Hin|Hin]; [exact Hin|].
  apply list_elem_of_singleton in Hin. symmetry in Hin. now apply Hev in Hin.
Qed.

(** An event that leaves the table and the runtime alone. *)
Lemma same_traced ev self self' seen effs effs' :
  followed self seen effs -> timer_armed self seen effs ->
  messageId self' = messageId self ->
  promises self' = promises self ->
  timers self' = timers self ->
  pendingCommands self' = pendingCommands self ->
  settlements p effs' = [] ->
  (forall t, ev <> Tick t) ->
  followed self' (seen ++ [ev]) (effs ++ effs')
  /\ timer_armed self' (seen ++ [ev]) (effs ++ effs').
Proof.
  intros Hf [Huniq Harmed] Hm Hpr Ht Hpend Heffs Hev.
  destruct (followed_same self self' seen effs effs' Hf Hm Hpr Ht Hpend Heffs)
    as [Hf' Hiff].
  split; [now apply followed_seen|].
  split.
  - rewrite Ht. exact Huniq.
  - intros Hstill. apply Hiff in Hstill. destruct (Harmed Hstill) as [Hin Hticks].
    rewrite Ht. split; [exact Hin|].
    intros now Hnow. apply Hticks. eapply tick_seen_before; eassumption.
Qed.

(** A further [send]. *)
Lemma send_traced now method params self self' q seen effs :
  followed self seen effs -> timer_armed self seen effs ->
  send now method params self = JS.Normal (self', q) ->
  followed self' (seen ++ [Invoke now method params]) effs
  /\ timer_armed self' (seen ++ [Invoke now method params]) effs.
Proof.
  intros Hf [Huniq Harmed] Hsend.
  pose proof Hf as (Hwf & Hid & Hp & Hcase).
  pose proof (wf_send _ _ _ _ _ _ Hwf Hsend) as Hwf'.
  apply send_Normal in Hsend as (-> & Hm & Hpend & Hpr & Ht).
  assert (Hlook : pendingCommands self' !! id = pendingCommands self !! id).
  { rewrite Hpend. apply lookup_insert_ne. lia. }
  assert (Hiff : still_pending id p self' effs <-> still_pending id p self effs).
  { unfold still_pending. now rewrite Hlook. }
  split.
  - apply followed_seen.
    split; [exact Hwf'|]. split; [lia|]. split; [lia|].
    destruct Hcase as [H|(H1 & H2 & Hcause)]; [left; now apply Hiff|right].
    split; [now rewrite Hlook|]. split; [|exact Hcause].
    intros i. rewrite Hpend, lookup_insert. case_decide.
    + intros [= Heq]. lia.
    + apply H2.
  - split.
    + intros tm' Hin Hid'. rewrite Ht in Hin.
      apply elem_of_app in Hin as [Hin|Hin]; [now apply Huniq|].
      apply list_elem_of_singleton in Hin. subst tm'. cbn in Hid'. lia.
    + intros Hstill. apply Hiff in Hstill.
      destruct (Harmed Hstill) as [Hin Hticks].
      split; [rewrite Ht; apply elem_of_app; now left|].
      intros t Hin'. apply Hticks. eapply tick_seen_before; [|exact Hin'].
      intros t' [=].
Qed.

(** A frame from the socket. *)
Lemma message_traced fields self seen effs :
  followed self seen effs -> timer_armed self seen effs ->
  followed (step (Message fields) self).1 (seen ++ [Message fields])
    (effs ++ (step (Message fields) self).2)
  /\ timer_armed (step (Message fields) self).1 (seen ++ [Message fields])
       (effs ++ (step (Message fields) self).2).
Proof.
  intros Hf Ha. cbn [step].
  destruct (handleMessage_Obj fields self)
    as [(k & q & Hkey & Hq & ->)|[_ ->]]; cbn [fst snd].
  - pose proof (followed_seen self seen [Message fields] effs Hf) as Hf'.
    destruct (decide (k = id)) as [->|Hne].
    + assert (Hown : pendingCommands self !! id = Some p).
      { destruct Hf as (_ & _ & _ & [[H _]|(H & _)]); [exact H|congruence]. }
      assert (q = p) by congruence. subst q.
      edestruct (followed_delete_own self) as [Hf2 Hd];
        [exact Hf'|exact Hown|..|split; [exact Hf2|]];
        try reflexivity.
      { apply settlements_outcome. }
      { right. exists seen, fields, [].
        split; [reflexivity|]. split; [exact Hkey|]. split; [reflexivity|].
        destruct Ha as [_ Harmed]. apply Harmed.
        destruct Hf as (_ & _ & _ & [H|(H & _)]); [exact H|congruence]. }
      destruct Ha as [Huniq _]. split; [exact Huniq|].
      intros [Hstill _]. destruct Hd as [Hnone _]. cbn in Hstill, Hnone. congruence.
    + assert (Hqp : q <> p) by (eapply other_entry; eassumption).
      edestruct (followed_delete_other self) as [Hf2 Hstill];
        [exact Hf'|exact Hne|exact Hq|..|split; [exact Hf2|]];
        try reflexivity.
      { now apply settlements_outcome_other. }
      destruct Ha as [Huniq Harmed]. split; [exact Huniq|].
      intros [Hs1 Hs2]. cbn in Hs1. rewrite lookup_delete_ne in Hs1 by exact Hne.
      rewrite settlements_app, settlements_outcome_other, app_nil_r in Hs2
        by exact Hqp.
      destruct (Harmed (conj Hs1 Hs2)) as [Hin Hticks].
      split; [exact Hin|]. intros t Hin'. apply Hticks.
      eapply tick_seen_before; [|exact Hin']. intros t' [=].
  - eapply same_traced; try eassumption; try reflexivity. intros t [=].
Qed.

(** Time passing. *)
Lemma tick_traced now self seen effs :
  followed self seen effs -> timer_armed self seen effs ->
  followed (tick now self).1 (seen ++ [Tick now]) (effs ++ (tick now self).2)
  /\ timer_armed (tick now self).1 (seen ++ [Tick now]) (effs ++ (tick now self).2).
Proof.
  intros Hf [Huniq Harmed]. unfold tick.
  set (self0 := {| port := port self; ws := ws self; messageId := messageId self;
                   pendingCommands := pendingCommands self;
                   targetId := targetId self; sessionId := sessionId self;
                   promises := promises self;
                   timers := List.filter (fun tm' => negb (is_due now tm'))
                               (timers self) |}).
  assert (Hf0 : followed self0 seen effs).
  { destruct Hf as (Hwf & Hid & Hp & Hcase).
    split; [|split; [exact Hid|split; [exact Hp|exact Hcase]]].
    destruct Hwf as [H1 H2 H3 H4]. constructor; try assumption.
    intros tm' Hin. apply list_filter_elem in Hin as [Hin _]. now apply H4. }
  apply (followed_seen _ _ [Tick now]) in Hf0.
  destruct (expire_followed (List.filter (is_due now) (timers self)) self0
              (seen ++ [Tick now]) effs Hf0)
    as (Hf1 & Ht1 & Hn1 & Hown1 & Hs1).
  { intros tm' Hin. apply list_filter_elem in Hin as [Hin _]. now apply Huniq. }
  { intros Hin. apply list_filter_elem in Hin as [_ Hdue].
    exists now. split; [apply elem_of_app; right; apply list_elem_of_here|].
    unfold is_due in Hdue. lia. }
  split; [exact Hf1|].
  split.
  - intros tm' Hin. rewrite Ht1 in Hin.
    apply list_filter_elem in Hin as [Hin _]. now apply Huniq.
  - intros [Hs Hs']. rewrite Ht1.
    assert (Hstill0 : still_pending id p self effs).
    { destruct Hf as (_ & _ & _ & [H|(H & _)]); [exact H|].
      specialize (Hn1 H). congruence. }
    destruct (Harmed Hstill0) as [Hin Hticks].
    assert (Hdue : is_due now tm = false).
    { destruct (is_due now tm) eqn:E; [|reflexivity].
      assert (Hgone : pendingCommands
                        (expire (List.filter (is_due now) (timers self)) self0).1
                        !! id = None).
      { apply Hown1. apply list_filter_elem. split; assumption. }
      congruence. }
    split.
    + apply list_filter_elem. split; [exact Hin|]. now rewrite Hdue.
    + intros t Hin'. apply elem_of_app in Hin' as [Hin'|Hin'];
        [now apply Hticks|].
      apply list_elem_of_singleton in Hin'. injection Hin' as ->.
      unfold is_due in Hdue. lia.
Qed.

(** Every event keeps the command's account in order. *)
Lemma step_traced ev self seen effs :
  followed self seen effs -> timer_armed self seen effs ->
  followed (step ev self).1 (seen ++ [ev]) (effs ++ (step ev self).2)
  /\ timer_armed (step ev self).1 (seen ++ [ev]) (effs ++ (step ev self).2).
Proof.
  intros Hf Ha.
  destruct ev as [now method params|fields|now|invalid tid listing| |].
  - cbn [step].
    destruct (send now method params self) as [[self' q]|e] eqn:Hsend;
      cbn [fst snd].
    + rewrite app_nil_r. eapply send_traced; eassumption.
    + eapply same_traced; try eassumption; try reflexivity. intros t [=].
  - now apply message_traced.
  - now apply tick_traced.
  - cbn [step].
    destruct (connectToTarget_fields invalid tid listing self)
      as (Hm & Hp & Ht & Hc & _).
    assert (Heffs : forall effs',
               (exists tg, (connectToTarget invalid tid listing self).2
                           = JS.Normal (tg, effs')) ->
               settlements p effs' = []).
    { intros effs' [tg Heq]. unfold connectToTarget in Heq.
      destruct listing as [targets|e]; [|discriminate].
      destruct (if JS.truthy tid then _ else _) as [target|]; [|discriminate].
      destruct (Ws.construct invalid _); [|discriminate].
      injection Heq as _ <-. reflexivity. }
    destruct (connectToTarget invalid tid listing self)
      as [self' [[tg effs']|e]]; cbn [fst snd] in *;
      eapply same_traced; try eassumption; try reflexivity;
      try (intros t [=]).
    apply Heffs. eauto.
  - cbn [step fst snd].
    eapply same_traced; try eassumption; try reflexivity; intros t [=].
  - cbn [step fst snd].
    eapply same_traced; try eassumption; try reflexivity; intros t [=].
Qed.

Lemma run_traced tr self seen effs :
  followed self seen effs -> timer_armed self seen effs ->
  followed (run tr self).1 (seen ++ tr) (effs ++ (run tr self).2)
  /\ timer_armed (run tr self).1 (seen ++ tr) (effs ++ (run tr self).2).
Proof.
  revert self seen effs.
  induction tr as [|ev tr IH]; intros self seen effs Hf Ha.
  - cbn [run fst snd]. rewrite !app_nil_r. now split.
  - cbn [run].
    destruct (step_traced ev self seen effs Hf Ha) as [Hf1 Ha1].
    destruct (step ev self) as [self1 effs1]. cbn [fst snd] in Hf1, Ha1.
    destruct (IH self1 (seen ++ [ev]) (effs ++ effs1) Hf1 Ha1) as [Hf2 Ha2].
    destruct (run tr self1) as [self2 effs2]. cbn [fst snd] in Hf2, Ha2 |- *.
    rewrite <- !app_assoc in Hf2, Ha2. cbn [app] in Hf2, Ha2.
    now split.
Qed.

End OneCommand.

(** Right after [send]: the command is pending and its timer armed. *)
Lemma send_starts now method params self self1 p :
  wf self ->
  send now method params self = JS.Normal (self1, p) ->
  let tm := mk_timer (now + COMMAND_TIMEOUT) (messageId self1) method in
  followed (messageId self1) p tm self1 [] []
  /\ timer_armed (messageId self1) p tm self1 [] [].
Proof.
  intros Hwf Hsend. pose proof (wf_send _ _ _ _ _ _ Hwf Hsend) as Hwf1.
  apply send_Normal in Hsend as (-> & Hm & Hpend & Hpr & Ht).
  cbv zeta. rewrite Hm.
  assert (Hstill : still_pending (messageId self + 1) (promises self) self1 []).
  { split; [|reflexivity]. rewrite Hpend. apply lookup_insert_eq. }
  split.
  - split; [exact Hwf1|]. split; [lia|]. split; [lia|]. now left.
  - split.
    + intros tm' Hin Hid. rewrite Ht in Hin.
      apply elem_of_app in Hin as [Hin|Hin].
      * apply (wf_timers _ Hwf) in Hin. lia.
      * now apply list_elem_of_singleton in Hin.
    + intros _. split.
      * rewrite Ht. apply elem_of_app. right. apply list_elem_of_here.
      * intros t Hin. apply elem_of_nil in Hin. destruct Hin.
Qed.

(** The account of one command after any sequence of events. *)
Lemma command_account self now method params self1 p tr :
  reachable self ->
  send now method params self = JS.Normal (self1, p) ->
  let tm := mk_timer (now + COMMAND_TIMEOUT) (messageId self1) method in
  followed (messageId self1) p tm (run tr self1).1 tr (run tr self1).2
  /\ timer_armed (messageId self1) p tm (run tr self1).1 tr (run tr self1).2.
Proof.
  intros Hreach Hsend. cbv zeta.
  destruct (send_starts _ _ _ _ _ _ (reachable_wf _ Hreach) Hsend) as [Hf Ha].
  exact (run_traced (messageId self1) p
           (mk_timer (now + COMMAND_TIMEOUT) (messageId self1) method)
           eq_refl tr self1 [] [] Hf Ha).
Qed.

(** C1. A caller's [send] returned promise [p] and allocated an id.  Let any
    events follow (further calls by other callers, frames answering other
    ids in any order, sockets closing and reopening, time passing short of
    the deadline) as long as no frame bearing that id has arrived.  Then
    nothing has been called on [p]; and the frame bearing the id, whenever it
    arrives, removes that one entry and makes exactly one call, on [p]: a
    rejection with the frame's error message if the frame carries an error,
    the resolution with the frame's result otherwise. *)
Theorem response_matched_by_id
    (self : t) (now : Z) (method : string) (params : JS.value)
    (self1 : t) (p : nat) (tr : list event)
    (fields : list (string * JS.value)) :
  reachable self ->
  send now method params self = JS.Normal (self1, p) ->
  (forall fields', Message fields' ∈ tr ->
     JS.assoc "id" fields' <> JS.Num (messageId self1)) ->
  (forall t, Tick t ∈ tr -> t < now + COMMAND_TIMEOUT) ->
  JS.assoc "id" fields = JS.Num (messageId self1) ->
  let self2 := (run tr self1).1 in
  settlements p (run tr self1).2 = []
  /\ exists self3,
       handleMessage (JS.Obj fields) self2 =
         JS.Normal
           (self3,
            [ if JS.truthy (JS.assoc "error" fields)
              then Reject p (error_text (JS.get (JS.assoc "error" fields) "message"))
              else Resolve p (JS.assoc "result" fields) ])
       /\ pendingCommands self3 = delete (messageId self1) (pendingCommands self2)
       /\ messageId self3 = messageId self2.
Proof.
  intros Hreach Hsend Hothers Hticks Hkey. cbv zeta.
  destruct (command_account _ _ _ _ _ _ tr Hreach Hsend) as [Hf _].
  destruct Hf as (_ & _ & _ & [[Hown Hnone]|(_ & _ & e & _ & Hcause)]).
  - split; [exact Hnone|].
    destruct (handleMessage_Obj fields (run tr self1).1)
      as [(k & q & Hk & Hq & ->)|[Hno _]].
    + rewrite Hkey in Hk. injection Hk as <-.
      assert (q = p) by congruence. subst q.
      eexists. split; [reflexivity|]. split; reflexivity.
    + rewrite (Hno _ Hkey) in Hown. discriminate.
  - exfalso.
    destruct Hcause as [[_ (t & Hin & Hdue)]|(before & fields' & after & -> & Hid & _)].
    + apply Hticks in Hin. cbn in Hdue. lia.
    + apply (Hothers fields'); [|exact Hid].
      apply elem_of_app. right. apply list_elem_of_here.
Qed.


End CDPClientFacts.

(** Membership in a list written out: one case per element. *)
Ltac elem_cases H :=
  repeat (apply elem_of_cons in H as [H|H]; [try discriminate H|]);
  try (apply elem_of_nil in H; destruct H).

(** Ids 1, 2, 3 answered 3, 1, 2: each promise (0, 1, 2 in call order) gets
    the result of the frame bearing its own id. *)
Example answered_out_of_order :
  let page :=
    Target.mk (JS.Str "T1") (JS.Str "page") (JS.Str "tab") (JS.Str "about:blank")
      (JS.Str "ws://localhost:9222/devtools/page/T1") in
  (CDPClient.run
     [ CDPClient.Connect Samples.no_address JS.Undefined (JS.Normal [page]);
       CDPClient.SocketOpen;
       CDPClient.Invoke 1000 "A.a" (JS.Obj []);
       CDPClient.Invoke 1001 "B.b" (JS.Obj []);
       CDPClient.Invoke 1002 "C.c" (JS.Obj []);
       CDPClient.Message [("id", JS.Num 3); ("result", JS.Str "c")];
       CDPClient.Message [("id", JS.Num 1); ("result", JS.Str "a")];
       CDPClient.Message [("id", JS.Num 2);
                          ("error", JS.Obj [("message", JS.Str "b failed")])] ]
     (CDPClient.create 9222)).2 =
    [ CDPClient.NewWebSocket (JS.Str "ws://localhost:9222/devtools/page/T1");
      CDPClient.Resolve 2 (JS.Str "c");
      CDPClient.Resolve 0 (JS.Str "a");
      CDPClient.Reject 1 "b failed" ].
Proof. vm_compute. reflexivity. Qed.

(** The first of three calls, answered after the third and the second. *)
Lemma response_matched_by_id_witness :
  let page :=
    Target.mk (JS.Str "T1") (JS.Str "page") (JS.Str "tab") (JS.Str "about:blank")
      (JS.Str "ws://localhost:9222/devtools/page/T1") in
  let self :=
    (CDPClient.run [CDPClient.Connect Samples.no_address JS.Undefined (JS.Normal [page]);
                    CDPClient.SocketOpen] (CDPClient.create 9222)).1 in
  let tr :=
    [ CDPClient.Invoke 1001 "B.b" (JS.Obj []);
      CDPClient.Invoke 1002 "C.c" (JS.Obj []);
      CDPClient.Message [("id", JS.Num 3); ("result", JS.Str "c")];
      CDPClient.Tick 5000;
      CDPClient.Message [("id", JS.Num 2); ("result", JS.Str "b")] ] in
  let fields := [("id", JS.Num 1); ("result", JS.Str "a")] in
  exists self1 p,
    CDPClient.send 1000 "A.a" (JS.Obj []) self = JS.Normal (self1, p)
    /\ CDPClient.settlements p (CDPClient.run tr self1).2 = []
    /\ exists self3,
         CDPClient.handleMessage (JS.Obj fields) (CDPClient.run tr self1).1 =
           JS.Normal
             (self3,
              [ if JS.truthy (JS.assoc "error" fields)
                then CDPClient.Reject p
                       (CDPClient.error_text
                          (JS.get (JS.assoc "error" fields) "message"))
                else CDPClient.Resolve p (JS.assoc "result" fields) ])
         /\ CDPClient.pendingCommands self3 =
              delete (CDPClient.messageId self1)
                (CDPClient.pendingCommands (CDPClient.run tr self1).1)
         /\ CDPClient.messageId self3 =
              CDPClient.messageId (CDPClient.run tr self1).1.
Proof.
  intros page self tr fields.
  eexists _, _. split; [vm_compute; reflexivity|].
  apply (response_matched_by_id self 1000 "A.a" (JS.Obj []) _ _ tr fields).
  - exists 9222, [CDPClient.Connect Samples.no_address JS.Undefined (JS.Normal [page]);
                  CDPClient.SocketOpen]. reflexivity.
  - vm_compute. reflexivity.
  - intros fields' Hin. elem_cases Hin; injection Hin as ->; vm_compute; discriminate.
  - intros t Hin. elem_cases Hin. injection Hin as ->. vm_compute. reflexivity.
  - reflexivity.
Defined.


(** ** Attaching to a target *)

Lemma strict_eq_true (a b : JS.value) : JS.strict_eq a b = true -> a = b.
Proof.
  destruct a, b; cbn; try discriminate; try reflexivity.
  - intros H. f_equal. now apply Bool.eqb_prop.
  - intros H. f_equal. now apply Z.eqb_eq.
  - intros H. f_equal. now apply String.eqb_eq.
Qed.

(** [Array.prototype.find]: the first element that passes the test. *)
Lemma find_first {A} (f : A -> bool) (l : list A) (x : A) :
  List.find f l = Some x ->
  f x = true
  /\ exists before after,
       l = before ++ x :: after /\ Forall (fun y => f y = false) before.
Proof.
  induction l as [|y l IH]; cbn; [discriminate|].
  destruct (f y) eqn:Hy.
  - intros [= <-]. split; [exact Hy|]. exists [], l. split; [reflexivity|constructor].
  - intros H. destruct (IH H) as (Hx & before & after & -> & Hall).
    split; [exact Hx|]. exists (y :: before), after.
    split; [reflexivity|]. now constructor.
Qed.

Lemma find_none {A} (f : A -> bool) (l : list A) :
  List.find f l = None -> Forall (fun y => f y = false) l.
Proof.
  induction l as [|y l IH]; cbn; [constructor|].
  destruct (f y) eqn:Hy; [discriminate|]. intros H. constructor; auto.
Qed.

(** [connectToTarget] on a discovery listing.  With a target id named the
    call selects the first target whose id is that id; with none named, the
    first target of type [page].  If it gets as far as a socket, the object
    is attached to the selected target: its id is recorded and the object
    holds a new socket to its debugger address, which the constructor has
    accepted.  If it fails, then either the listing has no target with the
    named id, respectively no target of type [page], and the call fails at
    once with the no-target error and changes nothing; or the constructor
    has refused the address the listing gives for the selected target, and
    the call fails with the constructor's error, the id of the target
    recorded and the socket of the object as it was.  An empty listing always
    fails with the no-target error. *)
Theorem connectToTarget_selects
    (invalid : JS.value -> option string)
    (self : CDPClient.t) (targetId : JS.value) (targets : list Target.t) :
  let selected (target : Target.t) : Prop :=
    exists before after,
      targets = before ++ target :: after
      /\ if JS.truthy targetId
         then Target.id target = targetId
              /\ Forall (fun t => JS.strict_eq (Target.id t) targetId = false)
                   before
         else Target.type target = JS.Str "page"
              /\ Forall (fun t =>
                           JS.strict_eq (Target.type t) (JS.Str "page") = false)
                   before in
  match CDPClient.connectToTarget invalid targetId (JS.Normal targets) self with
  | (self', JS.Normal (target, effs)) =>
      selected target
      /\ invalid (Target.webSocketDebuggerUrl target) = None
      /\ CDPClient.targetId self' = Target.id target
      /\ CDPClient.ws self' = Some Ws.create
      /\ effs = [CDPClient.NewWebSocket (Target.webSocketDebuggerUrl target)]
      /\ CDPClient.pendingCommands self' = CDPClient.pendingCommands self
      /\ CDPClient.messageId self' = CDPClient.messageId self
  | (self', JS.Throw e) =>
      (e = JS.Error "No suitable target found"
       /\ self' = self
       /\ if JS.truthy targetId
          then Forall (fun t => JS.strict_eq (Target.id t) targetId = false) targets
          else Forall (fun t => JS.strict_eq (Target.type t) (JS.Str "page") = false)
                 targets)
      \/ (exists target message,
            selected target
            /\ invalid (Target.webSocketDebuggerUrl target) = Some message
            /\ e = JS.SyntaxError message
            /\ CDPClient.targetId self' = Target.id target
            /\ CDPClient.ws self' = CDPClient.ws self
            /\ CDPClient.pendingCommands self' = CDPClient.pendingCommands self
            /\ CDPClient.messageId self' = CDPClient.messageId self)
  end
  /\ CDPClient.connectToTarget invalid targetId (JS.Normal []) self =
       (self, JS.Throw (JS.Error "No suitable target found")).
Proof.
  cbv zeta.
  split; [|unfold CDPClient.connectToTarget; now destruct (JS.truthy targetId)].
  unfold CDPClient.connectToTarget, Ws.construct.
  destruct (JS.truthy targetId).
  - destruct (List.find _ targets) as [target|] eqn:Hfind.
    + apply find_first in Hfind as (Hid & before & after & -> & Hall).
      apply strict_eq_true in Hid.
      destruct (invalid (Target.webSocketDebuggerUrl target)) as [message|]
        eqn:Hurl.
      * right. exists target, message.
        split; [exists before, after; auto|]. now repeat split.
      * split; [exists before, after; auto|]. now repeat split.
    + left. split; [reflexivity|]. split; [reflexivity|]. now apply find_none.
  - destruct (List.find _ targets) as [target|] eqn:Hfind.
    + apply find_first in Hfind as (Hty & before & after & -> & Hall).
      apply strict_eq_true in Hty.
      destruct (invalid (Target.webSocketDebuggerUrl target)) as [message|]
        eqn:Hurl.
      * right. exists target, message.
        split; [exists before, after; auto|]. now repeat split.
      * split; [exists before, after; auto|]. now repeat split.
    + left. split; [reflexivity|]. split; [reflexivity|]. now apply find_none.
Qed.

(** A listing with a service worker, a page and another page: unnamed, the
    first page is chosen; named, the target with that id. *)
Example connectToTarget_listing :
  let sw := Target.mk (JS.Str "S0") (JS.Str "service_worker") (JS.Str "sw")
              (JS.Str "chrome-extension://x") (JS.Str "ws://h/S0") in
  let p1 := Target.mk (JS.Str "T1") (JS.Str "page") (JS.Str "one")
              (JS.Str "http://one") (JS.Str "ws://h/T1") in
  let p2 := Target.mk (JS.Str "T2") (JS.Str "page") (JS.Str "two")
              (JS.Str "http://two") (JS.Str "ws://h/T2") in
  let self := CDPClient.create 9222 in
  let connect := CDPClient.connectToTarget Samples.no_address in
  (exists self',
      connect JS.Undefined (JS.Normal [sw; p1; p2]) self =
        (self', JS.Normal (p1, [CDPClient.NewWebSocket (JS.Str "ws://h/T1")])))
  /\ (exists self',
        connect (JS.Str "T2") (JS.Normal [sw; p1; p2]) self =
          (self', JS.Normal (p2, [CDPClient.NewWebSocket (JS.Str "ws://h/T2")])))
  /\ connect (JS.Str "T9") (JS.Normal [sw; p1; p2]) self =
       (self, JS.Throw (JS.Error "No suitable target found"))
  /\ connect JS.Undefined (JS.Normal [sw]) self =
       (self, JS.Throw (JS.Error "No suitable target found")).
Proof.
  cbv zeta. repeat split; try (eexists; vm_compute; reflexivity);
    vm_compute; reflexivity.
Qed.



(** ** The request-to-client routes *)

Section CDPHostFacts.
Import CDPHost.

(** The wrapper's [send] always returns: it reaches the package's [send] only
    on an open socket. *)
Lemma WSClient_send_Normal (message : JS.value) (client : WSClient.t) :
  exists client',
    WSClient.send message client = JS.Normal client'
    /\ Ws.wire (WSClient.ws client') =
         Ws.wire (WSClient.ws client)
         ++ (if decide (Ws.readyState (WSClient.ws client) = Ws.OPEN)
             then [message] else [])
    /\ Ws.readyState (WSClient.ws client') = Ws.readyState (WSClient.ws client).
Proof.
  unfold WSClient.send. case_decide as Hopen.
  - unfold Ws.send. rewrite Hopen. eexists. split; [reflexivity|].
    cbn. split; reflexivity.
  - exists client. rewrite app_nil_r. repeat split.
Qed.

(** What the deleting loop leaves: the routes of the other clients. *)
Lemma purge_fold clientId (entries : list (string * Z)) (table : gmap string Z) reqId :
  foldr (fun '(r, cId) acc =>
           if decide (cId = clientId) then delete r acc else acc)
        table entries !! reqId =
    if bool_decide ((reqId, clientId) ∈ entries) then None else table !! reqId.
Proof.
  induction entries as [|[r cId] entries IH]; cbn [foldr].
  - rewrite bool_decide_eq_false_2; [reflexivity|]. apply not_elem_of_nil.
  - destruct (decide (cId = clientId)) as [->|Hc].
    + destruct (decide (r = reqId)) as [->|Hne].
      * rewrite lookup_delete_eq, bool_decide_eq_true_2;
          [reflexivity|apply list_elem_of_here].
      * rewrite lookup_delete_ne, IH by exact Hne.
        apply (f_equal (fun b : bool => if b then None else table !! reqId)).
        apply bool_decide_ext. rewrite elem_of_cons. split; [auto|].
        intros [[= ? ]|H]; [congruence|exact H].
    + rewrite IH.
      apply (f_equal (fun b : bool => if b then None else table !! reqId)).
      apply bool_decide_ext. rewrite elem_of_cons. split; [auto|].
      intros [[= ? ?]|H]; [congruence|exact H].
Qed.

Lemma lookup_purge clientId (routes : gmap string Z) reqId :
  purge clientId routes !! reqId =
    match routes !! reqId with
    | Some c => if decide (c = clientId) then None else Some c
    | None => None
    end.
Proof.
  unfold purge. rewrite purge_fold.
  destruct (routes !! reqId) as [c|] eqn:Hr.
  - destruct (decide (c = clientId)) as [->|Hc].
    + rewrite bool_decide_eq_true_2; [reflexivity|].
      now apply elem_of_map_to_list.
    + rewrite bool_decide_eq_false_2; [reflexivity|].
      intros Hin. apply elem_of_map_to_list in Hin. congruence.
  - rewrite bool_decide_eq_false_2; [reflexivity|].
    intros Hin. apply elem_of_map_to_list in Hin. congruence.
Qed.

Lemma host_wf_create : wf create.
Proof.
  constructor; cbn; [intros *; rewrite lookup_empty..|lia].
  - discriminate.
  - intros [? [=]].
Qed.

Lemma only_logs_cons level text effs :
  only_logs effs -> only_logs (Log level text :: effs).
Proof.
  intros H e Hin. apply elem_of_cons in Hin as [->|Hin]; [eauto|auto].
Qed.

Lemma only_logs_nil : only_logs [].
Proof. intros e Hin. apply elem_of_nil in Hin. destruct Hin. Qed.

(** The end of a tool call on a well-formed host: either the id has a route,
    the route is dropped and the envelope handed to that client's [send]; or
    it has none and nothing changes. *)
Lemma complete_cases now id outcome self :
  wf self ->
  (exists S client client' logs,
      requestToClient self !! JS.to_String id = Some S
      /\ clients self !! S = Some client
      /\ WSClient.send (response now id outcome) client = JS.Normal client'
      /\ complete now id outcome self =
           JS.Normal
             ({| clients := <[S := client']> (clients self);
                 requestToClient := delete (JS.to_String id) (requestToClient self);
                 clientCounter := clientCounter self;
                 chromeConnected := chromeConnected self |}, logs)
      /\ only_logs logs)
  \/ (requestToClient self !! JS.to_String id = None
      /\ exists logs,
           complete now id outcome self = JS.Normal (self, logs)
           /\ only_logs logs).
Proof.
  intros [Hroutes Hclients _].
  destruct (requestToClient self !! JS.to_String id) as [S|] eqn:Hroute.
  - left. destruct (Hroutes _ _ Hroute) as [client Hclient].
    assert (HS : 0 < S) by (apply Hclients; eauto).
    destruct (WSClient_send_Normal (response now id outcome) client)
      as (client' & Hsend & _).
    assert (Htruthy : JS.truthy (JS.Num S) = true).
    { cbn. destruct (Z.eqb_spec S 0); [lia|reflexivity]. }
    exists S, client, client'.
    destruct outcome as [result|error]; cbn [complete response] in *.
    + eexists. split; [reflexivity|]. split; [exact Hclient|].
      split; [exact Hsend|].
      unfold sendResponse, client_of, deliver. rewrite Hroute, Htruthy, Hclient, Hsend.
      split; [reflexivity|]. apply only_logs_cons, only_logs_nil.
    + eexists. split; [reflexivity|]. split; [exact Hclient|].
      split; [exact Hsend|].
      unfold sendError, client_of, deliver. rewrite Hroute, Htruthy, Hclient, Hsend.
      split; [reflexivity|]. apply only_logs_nil.
  - right. split; [reflexivity|].
    destruct outcome as [result|error]; cbn [complete].
    + unfold sendResponse. rewrite Hroute. cbn. eexists. split; [reflexivity|].
      apply only_logs_cons, only_logs_cons, only_logs_nil.
    + unfold sendError. rewrite Hroute. cbn. eexists. split; [reflexivity|].
      apply only_logs_cons, only_logs_nil.
Qed.

(** The route table after a tool call has ended. *)
Lemma wf_complete now id outcome self self' effs :
  wf self -> complete now id outcome self = JS.Normal (self', effs) -> wf self'.
Proof.
  intros Hwf Hc.
  destruct (complete_cases now id outcome self Hwf)
    as [(S & client & client' & logs & Hroute & Hclient & _ & Heq & _)
       |(_ & logs & Heq & _)];
    rewrite Heq in Hc; injection Hc as <- <-; [|exact Hwf].
  destruct Hwf as [Hroutes Hclients Hcounter]. constructor; cbn; [| |exact Hcounter].
  - intros reqId c Hr. apply lookup_delete_Some in Hr as [_ Hr].
    rewrite lookup_insert. case_decide; [eauto|]. eauto.
  - intros c Hc. rewrite lookup_insert in Hc. case_decide.
    + subst c. apply Hclients. eauto.
    + auto.
Qed.

Lemma complete_Normal now id outcome self :
  wf self -> exists r, complete now id outcome self = JS.Normal r.
Proof.
  intros Hwf.
  destruct (complete_cases now id outcome self Hwf)
    as [(S & client & client' & logs & _ & _ & _ & Heq & _)|(_ & logs & Heq & _)];
    eauto.
Qed.

Lemma complete_only_logs now id outcome self :
  wf self ->
  exists self' logs,
    complete now id outcome self = JS.Normal (self', logs) /\ only_logs logs.
Proof.
  intros Hwf.
  destruct (complete_cases now id outcome self Hwf)
    as [(S & client & client' & logs & _ & _ & _ & Heq & Hlogs)
       |(_ & logs & Heq & Hlogs)]; eauto.
Qed.

(** Log lines do not end the process. *)
Lemma only_logs_exits effs : only_logs effs -> exits effs = false.
Proof.
  induction effs as [|e effs IH]; intros Hlogs; [reflexivity|].
  destruct (Hlogs e (list_elem_of_here _ _)) as (level & text & ->).
  cbn. apply IH. intros e He. apply Hlogs. now apply list_elem_of_further.
Qed.

Lemma prop_get (v : JS.value) (k : string) (x : JS.value) :
  JS.prop v k = JS.Normal x -> JS.get v k = x.
Proof. destruct v; cbn; congruence. Qed.

(** Recording a route for a registered client. *)
Lemma wf_record self S reqId :
  wf self -> is_Some (clients self !! S) ->
  wf {| clients := clients self;
        requestToClient := <[reqId := S]> (requestToClient self);
        clientCounter := clientCounter self;
        chromeConnected := chromeConnected self |}.
Proof.
  intros [Hroutes Hclients Hcounter] HS.
  constructor; cbn; [|exact Hclients|exact Hcounter].
  intros r c. rewrite lookup_insert. case_decide.
  - intros [= <-]. exact HS.
  - apply Hroutes.
Qed.

(** A tool of the table is named by a string. *)
Lemma known_tool_stringifies (toolName : JS.value) (name : string) :
  known_tool toolName = Some name -> JS.stringifies toolName = true.
Proof. destruct toolName; cbn; congruence. Qed.

Lemma known_handled (message id : JS.value) (name : string) :
  JS.prop message "id" = JS.Normal id ->
  JS.stringifies id = true ->
  known_tool (tool_name (JS.get message "payload")) = Some name ->
  handled message id.
Proof.
  intros Hid Hstr Hknown. split; [exact Hid|]. split; [exact Hstr|].
  eapply known_tool_stringifies, Hknown.
Qed.

(** The callback returns exactly on the messages that are [handled]. *)
Lemma onMessage_Normal S now message self r :
  onMessage S now message self = JS.Normal r ->
  exists id, handled message id.
Proof.
  unfold onMessage, handleToolCall, JS.ToString.
  destruct (JS.prop message "id") as [id|e] eqn:Hid; [|discriminate].
  destruct (JS.stringifies id) eqn:Hstr; [|discriminate].
  destruct (JS.stringifies (tool_name (JS.get message "payload"))) eqn:Htool;
    [|discriminate].
  intros _. exists id. now repeat split.
Qed.

Lemma onMessage_Throw S now message self :
  (forall id, ~ handled message id) ->
  exists e, onMessage S now message self = JS.Throw e.
Proof.
  intros Hnot. destruct (onMessage S now message self) as [r|e] eqn:Hm; [|eauto].
  apply onMessage_Normal in Hm as [id Hh]. destruct (Hnot id Hh).
Qed.

(** [onMessage] for a registered client, on a message it handles: the route
    is recorded, whatever was recorded before; then a known tool is started,
    and an unknown one is answered at once with the error. *)
Lemma onMessage_cases S now message id self :
  wf self -> is_Some (clients self !! S) ->
  handled message id ->
  let self1 :=
    {| clients := clients self;
       requestToClient := <[JS.to_String id := S]> (requestToClient self);
       clientCounter := clientCounter self;
       chromeConnected := chromeConnected self |} in
  let toolName := tool_name (JS.get message "payload") in
  (exists name,
      known_tool toolName = Some name
      /\ onMessage S now message self =
           JS.Normal
             (self1,
              [Log "debug" "Received from WSL";
               Log "debug" ("Tool call: " ++ JS.to_String toolName);
               StartTool name (tool_args (JS.get message "payload")) id]))
  \/ (known_tool toolName = None
      /\ exists self2 effs logs,
           onMessage S now message self = JS.Normal (self2, effs)
           /\ complete now id (inr ("Unknown tool: " ++ JS.to_String toolName)%string)
                self1 = JS.Normal (self2, logs)
           /\ only_logs effs).
Proof.
  intros Hwf HS (Hid & Hstr & Htool). cbv zeta.
  unfold onMessage, JS.ToString. rewrite Hid, Hstr.
  unfold handleToolCall, JS.ToString. rewrite Htool, (prop_get _ _ _ Hid).
  destruct (known_tool (tool_name (JS.get message "payload"))) as [name|].
  - left. exists name. split; reflexivity.
  - right. split; [reflexivity|].
    pose proof (wf_record self S (JS.to_String id) Hwf HS) as Hwf1.
    destruct (complete_only_logs now id
                (inr ("Unknown tool: "
                      ++ JS.to_String (tool_name (JS.get message "payload")))%string)
                _ Hwf1) as (self2 & logs & Hc & Hlogs).
    cbn [complete] in Hc. rewrite Hc.
    eexists _, _, _. split; [reflexivity|].
    split; [cbn [complete]; exact Hc|].
    cbn [app]. repeat apply only_logs_cons. exact Hlogs.
Qed.

Lemma wf_onMessage S now message self self' effs :
  wf self -> is_Some (clients self !! S) ->
  onMessage S now message self = JS.Normal (self', effs) -> wf self'.
Proof.
  intros Hwf HS Hm.
  destruct (onMessage_Normal _ _ _ _ _ Hm) as [id Hh].
  destruct (onMessage_cases S now message id self Hwf HS Hh)
    as [(name & _ & Heq)|(_ & self2 & effs2 & logs & Heq & Hc & _)];
    rewrite Heq in Hm; injection Hm as <- <-.
  - now apply wf_record.
  - eapply wf_complete; [|exact Hc]. now apply wf_record.
Qed.

Lemma wf_onConnection client self : wf self -> wf (onConnection client self).1.
Proof.
  intros [Hroutes Hclients Hcounter]. constructor; cbn; [| |lia].
  - intros r c Hr. rewrite lookup_insert. case_decide; [eauto|]. eauto.
  - intros c Hc. rewrite lookup_insert in Hc. case_decide as Heq.
    + subst c. lia.
    + apply Hclients in Hc. lia.
Qed.

Lemma wf_onClose S self : wf self -> wf (onClose S self).1.
Proof.
  intros [Hroutes Hclients Hcounter]. constructor; cbn; [| |exact Hcounter].
  - intros r c. rewrite lookup_purge.
    destruct (requestToClient self !! r) as [c'|] eqn:Hr; [|discriminate].
    case_decide as Hc; [discriminate|]. intros [= <-].
    rewrite lookup_delete_ne by congruence. eauto.
  - intros c [client Hc]. apply lookup_delete_Some in Hc as [_ Hc]. eauto.
Qed.

Lemma wf_step_host ev self : wf self -> wf (step ev self).1.
Proof.
  intros Hwf.
  destruct ev as [ws|S now message|S|S state|now id result|now id error];
    cbn [step].
  - now apply wf_onConnection.
  - destruct (clients self !! S) as [client|] eqn:HS; [|exact Hwf].
    destruct (onMessage S now message self) as [[self' effs]|e] eqn:Hm;
      [|exact Hwf].
    eapply wf_onMessage; [exact Hwf| |exact Hm]. eauto.
  - now apply wf_onClose.
  - destruct Hwf as [Hroutes Hclients Hcounter].
    constructor; cbn; [| |exact Hcounter].
    + intros r c Hr. apply Hroutes in Hr as [client Hc].
      rewrite lookup_alter. case_decide; [subst; rewrite Hc|rewrite Hc]; eauto.
    + intros c [client Hc]. apply Hclients.
      rewrite lookup_alter in Hc. case_decide.
      * subst. destruct (clients self !! c); [eauto|discriminate].
      * eauto.
  - destruct (sendResponse now id result self) as [[self' effs]|e] eqn:Hc;
      [|exact Hwf].
    exact (wf_complete now id (inl result) self self' effs Hwf Hc).
  - destruct (sendError now id error self) as [[self' effs]|e] eqn:Hc;
      [|exact Hwf].
    exact (wf_complete now id (inr error) self self' effs Hwf Hc).
Qed.

(** What every event keeps holds after a run, wherever the run ends. *)
Lemma run_invariant (P : t -> Prop) tr self :
  (forall ev s, P s -> P (step ev s).1) -> P self -> P (run tr self).1.
Proof.
  intros Hstep. revert self.
  induction tr as [|ev tr IH]; intros self HP; [exact HP|].
  cbn [run]. pose proof (Hstep ev self HP) as H1.
  destruct (step ev self) as [self1 effs1]. cbn [fst] in H1.
  destruct (exits effs1); [exact H1|].
  specialize (IH self1 H1). destruct (run tr self1) as [self2 effs2]. exact IH.
Qed.

Lemma wf_run_host tr self : wf self -> wf (run tr self).1.
Proof. apply run_invariant. intros ev s. apply wf_step_host. Qed.

Lemma reachable_wf_host self : reachable self -> wf self.
Proof. intros (tr & ->). apply wf_run_host, host_wf_create. Qed.

(** The one event that ends the process: a message from a registered
    client that the callback does not handle. *)
Lemma step_exits ev self :
  wf self ->
  exits (step ev self).2 = true ->
  exists c now message,
    ev = Message c now message
    /\ is_Some (clients self !! c)
    /\ forall id, ~ handled message id.
Proof.
  intros Hwf.
  destruct ev as [ws|c now message|c|c state|now id result|now id error];
    cbn [step]; try (cbn; discriminate).
  - destruct (clients self !! c) as [client|] eqn:Hc; [|cbn; discriminate].
    assert (HS : is_Some (clients self !! c)) by eauto.
    destruct (onMessage c now message self) as [r|e] eqn:Hm.
    + destruct (onMessage_Normal _ _ _ _ _ Hm) as [id Hh].
      destruct (onMessage_cases c now message id self Hwf HS Hh)
        as [(name & _ & Heq)|(_ & self2 & effs & logs & Heq & _ & Hlogs)];
        rewrite Heq in Hm; injection Hm as <-; cbn [settle snd].
      * cbn. discriminate.
      * rewrite (only_logs_exits _ Hlogs). discriminate.
    + intros _. exists c, now, message. split; [reflexivity|].
      split; [exact HS|]. intros id Hh.
      destruct (onMessage_cases c now message id self Hwf HS Hh)
        as [(name & _ & Heq)|(_ & self2 & effs & logs & Heq & _)];
        congruence.
  - destruct (complete_only_logs now id (inl result) self Hwf)
      as (self' & logs & Heq & Hlogs).
    cbn [complete] in Heq. rewrite Heq. cbn [settle snd].
    rewrite (only_logs_exits _ Hlogs). discriminate.
  - destruct (complete_only_logs now id (inr error) self Hwf)
      as (self' & logs & Heq & Hlogs).
    cbn [complete] in Heq. rewrite Heq. cbn [settle snd].
    rewrite (only_logs_exits _ Hlogs). discriminate.
Qed.

(** Where a route in the table after an event comes from: it was there
    before, or the event is a message from a registered client bearing that
    id. *)
Lemma route_origin ev self reqId S :
  wf self ->
  requestToClient (step ev self).1 !! reqId = Some S ->
  requestToClient self !! reqId = Some S
  \/ exists now message id,
       ev = Message S now message
       /\ is_Some (clients self !! S)
       /\ JS.prop message "id" = JS.Normal id
       /\ JS.to_String id = reqId.
Proof.
  intros Hwf.
  destruct ev as [ws|c now message|c|c state|now id result|now id error];
    cbn [step].
  - cbn. auto.
  - destruct (clients self !! c) as [client|] eqn:Hc; [|cbn; auto].
    destruct (onMessage c now message self) as [r|e] eqn:Hm; [|cbn; auto].
    destruct (onMessage_Normal _ _ _ _ _ Hm) as [id Hh].
    pose proof Hh as (Hid & _).
    assert (HS : is_Some (clients self !! c)) by eauto.
    destruct (onMessage_cases c now message id self Hwf HS Hh)
      as [(name & _ & Heq)|(_ & self2 & effs & logs & Heq & Hcomp & _)];
      rewrite Heq in Hm; injection Hm as <-; cbn [settle fst].
    + cbn. rewrite lookup_insert. case_decide as Hkey.
      * intros [= <-]. right. exists now, message, id. auto.
      * auto.
    + destruct (complete_cases now id
                  (inr ("Unknown tool: "
                        ++ JS.to_String (tool_name (JS.get message "payload")))%string)
                  _ (wf_record self c (JS.to_String id) Hwf HS))
        as [(S' & cl & cl' & logs' & Hroute & _ & _ & Heq' & _)|(Hnone & _)].
      * rewrite Heq' in Hcomp. injection Hcomp as <- _. cbn.
        intros Hr. apply lookup_delete_Some in Hr as [Hne Hr].
        rewrite lookup_insert_ne in Hr by exact Hne. auto.
      * cbn in Hnone. rewrite lookup_insert_eq in Hnone. discriminate.
  - cbn. rewrite lookup_purge.
    destruct (requestToClient self !! reqId) as [c'|]; [|discriminate].
    case_decide; [discriminate|]. auto.
  - cbn. auto.
  - destruct (complete_cases now id (inl result) self Hwf)
      as [(S' & cl & cl' & logs' & _ & _ & _ & Heq & _)|(_ & logs' & Heq & _)];
      cbn [complete] in Heq; rewrite Heq; cbn; [|auto].
    intros Hr. apply lookup_delete_Some in Hr as [_ Hr]. auto.
  - destruct (complete_cases now id (inr error) self Hwf)
      as [(S' & cl & cl' & logs' & _ & _ & _ & Heq & _)|(_ & logs' & Heq & _)];
      cbn [complete] in Heq; rewrite Heq; cbn; [|auto].
    intros Hr. apply lookup_delete_Some in Hr as [_ Hr]. auto.
Qed.

Lemma response_shape now id outcome :
  response now id outcome =
    JS.Obj [ ("id", id);
             ("direction", JS.Str "from-chrome");
             ("timestamp", JS.Num now);
             ("payload",
              JS.Obj [ ("requestId", id);
                       match outcome with
                       | inl result => ("result", result)
                       | inr error => ("error", JS.Str error)
                       end ]) ].
Proof. now destruct outcome. Qed.

(** Delivery of a response whose id has a route: the route is dropped, the
    envelope goes on the wire of the routed client if its socket is open, and
    no other client is touched. *)
Lemma complete_delivery now id outcome self S :
  wf self ->
  requestToClient self !! JS.to_String id = Some S ->
  exists client self' logs,
    clients self !! S = Some client
    /\ complete now id outcome self = JS.Normal (self', logs)
    /\ only_logs logs
    /\ requestToClient self' = delete (JS.to_String id) (requestToClient self)
    /\ wire_of S self' =
         wire_of S self
         ++ (if decide (Ws.readyState (WSClient.ws client) = Ws.OPEN)
             then [response now id outcome] else [])
    /\ (forall c, c <> S -> clients self' !! c = clients self !! c).
Proof.
  intros Hwf Hroute.
  destruct (complete_cases now id outcome self Hwf)
    as [(S' & client & client' & logs & Hroute' & Hclient & Hsend & Heq & Hlogs)
       |(Hnone & _)]; [|congruence].
  assert (S' = S) by congruence. subst S'.
  eexists client, _, logs. split; [exact Hclient|]. split; [exact Heq|].
  split; [exact Hlogs|]. split; [reflexivity|].
  destruct (WSClient_send_Normal (response now id outcome) client)
    as (client'' & Hsend' & Hwire & _).
  assert (client'' = client') by congruence. subst client''.
  split.
  - unfold wire_of. cbn. now rewrite lookup_insert_eq, Hclient.
  - intros c Hne. cbn. now apply lookup_insert_ne.
Qed.

(** C5. In every reachable state of the host each route names a registered
    (live) client.  A route enters the table only through a message from a
    registered client, under the id of that message.  The delivery of the
    response to an id that has a route hands the envelope to the client the
    route names and deletes that route, and no other.  And the close callback
    of a client unregisters it and, in the same step, removes every route
    that names it and no other route. *)
Theorem routes_point_to_live_sessions (self : t) :
  reachable self ->
  (forall reqId S,
      requestToClient self !! reqId = Some S -> is_Some (clients self !! S))
  /\ (forall ev reqId S,
        requestToClient (step ev self).1 !! reqId = Some S ->
        requestToClient self !! reqId = Some S
        \/ exists now message id,
             ev = Message S now message
             /\ is_Some (clients self !! S)
             /\ JS.prop message "id" = JS.Normal id
             /\ JS.to_String id = reqId)
  /\ (forall now id outcome S,
        requestToClient self !! JS.to_String id = Some S ->
        exists client self' logs,
          clients self !! S = Some client
          /\ complete now id outcome self = JS.Normal (self', logs)
          /\ wire_of S self' =
               wire_of S self
               ++ (if decide (Ws.readyState (WSClient.ws client) = Ws.OPEN)
                   then [response now id outcome] else [])
          /\ requestToClient self' !! JS.to_String id = None
          /\ (forall reqId, reqId <> JS.to_String id ->
                requestToClient self' !! reqId = requestToClient self !! reqId))
  /\ (forall S,
        clients (onClose S self).1 !! S = None
        /\ (forall reqId, requestToClient (onClose S self).1 !! reqId <> Some S)
        /\ (forall reqId S', S' <> S ->
              requestToClient (onClose S self).1 !! reqId = Some S'
              <-> requestToClient self !! reqId = Some S')).
Proof.
  intros Hreach. pose proof (reachable_wf_host self Hreach) as Hwf.
  split; [exact (wf_routes self Hwf)|].
  split; [intros ev reqId S; now apply route_origin|].
  split.
  { intros now id outcome S Hroute.
    destruct (complete_delivery now id outcome self S Hwf Hroute)
      as (client & self' & logs & Hclient & Heq & _ & Hr & Hwire & _).
    exists client, self', logs. split; [exact Hclient|]. split; [exact Heq|].
    split; [exact Hwire|]. rewrite Hr.
    split; [apply lookup_delete_eq|].
    intros reqId Hne. now apply lookup_delete_ne. }
  intros S. cbn. split; [apply lookup_delete_eq|]. split.
  - intros reqId. rewrite lookup_purge.
    destruct (requestToClient self !! reqId) as [c|]; [|discriminate].
    case_decide; congruence.
  - intros reqId S' Hne. rewrite lookup_purge.
    destruct (requestToClient self !! reqId) as [c|]; [|tauto].
    case_decide; split; intros [= ->]; congruence.
Qed.

(** C3. A tool call with correlation id [id] has ended with [outcome], on a
    reachable host.  The call to [sendResponse] or [sendError] returns;
    afterwards the id has no route and every other route is as before; its
    effects are log lines only.  If the id had a route to client [S], then
    [S] is registered, the envelope
    [{id, direction: 'from-chrome', timestamp, payload: {requestId: id, result | error}}]
    is the one frame added to the wire of [S] (provided its socket is open;
    the wrapper discards it otherwise) and no other client is touched.  If
    the id had no route, nothing changes.  In particular, once the client the
    id was routed to has closed, the response changes nothing and is only
    logged. *)
Theorem response_routed_to_origin
    (self : t) (now : Z) (id : JS.value) (outcome : JS.value + string) :
  reachable self ->
  let envelope :=
    JS.Obj [ ("id", id);
             ("direction", JS.Str "from-chrome");
             ("timestamp", JS.Num now);
             ("payload",
              JS.Obj [ ("requestId", id);
                       match outcome with
                       | inl result => ("result", result)
                       | inr error => ("error", JS.Str error)
                       end ]) ] in
  (exists self' logs,
      complete now id outcome self = JS.Normal (self', logs)
      /\ only_logs logs
      /\ requestToClient self' !! JS.to_String id = None
      /\ (forall reqId, reqId <> JS.to_String id ->
            requestToClient self' !! reqId = requestToClient self !! reqId)
      /\ match requestToClient self !! JS.to_String id with
         | Some owner =>
             exists client,
               clients self !! owner = Some client
               /\ wire_of owner self' =
                    wire_of owner self
                    ++ (if decide (Ws.readyState (WSClient.ws client) = Ws.OPEN)
                        then [envelope] else [])
               /\ (forall c, c <> owner ->
                     clients self' !! c = clients self !! c)
         | None => self' = self
         end)
  /\ (forall S,
        requestToClient self !! JS.to_String id = Some S ->
        exists logs,
          complete now id outcome (onClose S self).1 =
            JS.Normal ((onClose S self).1, logs)
          /\ only_logs logs).
Proof.
  intros Hreach. cbv zeta. rewrite <- response_shape.
  pose proof (reachable_wf_host self Hreach) as Hwf.
  split.
  - destruct (requestToClient self !! JS.to_String id) as [S|] eqn:Hroute.
    + destruct (complete_delivery now id outcome self S Hwf Hroute)
        as (client & self' & logs & Hclient & Heq & Hlogs & Hr & Hwire & Hothers).
      exists self', logs. split; [exact Heq|]. split; [exact Hlogs|].
      split; [rewrite Hr; apply lookup_delete_eq|].
      split; [intros reqId Hne; rewrite Hr; now apply lookup_delete_ne|].
      exists client. auto.
    + destruct (complete_cases now id outcome self Hwf)
        as [(S' & _ & _ & _ & Hroute' & _)|(_ & logs & Heq & Hlogs)];
        [congruence|].
      exists self, logs. split; [exact Heq|]. split; [exact Hlogs|].
      split; [exact Hroute|]. split; [reflexivity|reflexivity].
  - intros S Hroute.
    destruct (complete_cases now id outcome (onClose S self).1 (wf_onClose S self Hwf))
      as [(S' & _ & _ & _ & Hroute' & _)|(_ & logs & Heq & Hlogs)]; [|eauto].
    cbn in Hroute'. rewrite lookup_purge, Hroute in Hroute'.
    case_decide; [discriminate|congruence].
Qed.

(** A route survives every event that is quiet for it. *)
Lemma route_stable ev self reqId S :
  wf self ->
  requestToClient self !! reqId = Some S ->
  quiet reqId S ev ->
  requestToClient (step ev self).1 !! reqId = Some S.
Proof.
  intros Hwf Hroute Hquiet.
  destruct ev as [ws|c now message|c|c state|now id result|now id error];
    cbn [step quiet] in *.
  - exact Hroute.
  - destruct (clients self !! c) as [client|] eqn:Hc; [|exact Hroute].
    destruct Hquiet as (id & Hh & Hquiet).
    assert (HS : is_Some (clients self !! c)) by eauto.
    destruct (onMessage_cases c now message id self Hwf HS Hh)
      as [(name & _ & ->)|(_ & self2 & effs & logs & -> & Hcomp & _)];
      cbn [settle fst].
    + cbn. now rewrite lookup_insert_ne.
    + destruct (complete_cases now id
                  (inr ("Unknown tool: "
                        ++ JS.to_String (tool_name (JS.get message "payload")))%string)
                  _ (wf_record self c (JS.to_String id) Hwf HS))
        as [(S' & cl & cl' & logs' & _ & _ & _ & Heq & _)|(Hnone & _)].
      * rewrite Heq in Hcomp. injection Hcomp as <- _. cbn.
        rewrite lookup_delete_ne, lookup_insert_ne by exact Hquiet. exact Hroute.
      * cbn in Hnone. rewrite lookup_insert_eq in Hnone. discriminate.
  - cbn. rewrite lookup_purge, Hroute. case_decide; [congruence|reflexivity].
  - exact Hroute.
  - destruct (complete_cases now id (inl result) self Hwf)
      as [(S' & cl & cl' & logs' & _ & _ & _ & Heq & _)|(_ & logs' & Heq & _)];
      cbn [complete] in Heq; rewrite Heq; cbn; [|exact Hroute].
    now rewrite lookup_delete_ne.
  - destruct (complete_cases now id (inr error) self Hwf)
      as [(S' & cl & cl' & logs' & _ & _ & _ & Heq & _)|(_ & logs' & Heq & _)];
      cbn [complete] in Heq; rewrite Heq; cbn; [|exact Hroute].
    now rewrite lookup_delete_ne.
Qed.

(** A quiet event does not end the process. *)
Lemma quiet_survives ev self reqId S :
  wf self -> quiet reqId S ev -> exits (step ev self).2 = false.
Proof.
  intros Hwf Hquiet.
  destruct (exits (step ev self).2) eqn:Hexit; [|reflexivity].
  destruct (step_exits ev self Hwf Hexit) as (c & now & message & -> & _ & Hnot).
  destruct Hquiet as (id & Hh & _). destruct (Hnot id Hh).
Qed.

(** Over quiet events the process lives on and the route stays. *)
Lemma route_stable_run tr self reqId S :
  wf self ->
  requestToClient self !! reqId = Some S ->
  Forall (quiet reqId S) tr ->
  wf (run tr self).1
  /\ requestToClient (run tr self).1 !! reqId = Some S
  /\ exits (run tr self).2 = false.
Proof.
  revert self. induction tr as [|ev tr IH]; intros self Hwf Hroute Hquiet.
  - cbn. auto.
  - apply Forall_cons in Hquiet as [Hev Hquiet]. cbn [run].
    pose proof (wf_step_host ev self Hwf) as Hwf1.
    pose proof (route_stable ev self reqId S Hwf Hroute Hev) as Hroute1.
    pose proof (quiet_survives ev self reqId S Hwf Hev) as Hlive.
    destruct (step ev self) as [self1 effs1]. cbn [fst snd] in Hwf1, Hroute1, Hlive.
    rewrite Hlive.
    specialize (IH self1 Hwf1 Hroute1 Hquiet).
    destruct (run tr self1) as [self2 effs2]. cbn [fst snd] in *.
    destruct IH as (Hwf2 & Hroute2 & Hlive2).
    split; [exact Hwf2|]. split; [exact Hroute2|].
    unfold exits in *. rewrite existsb_app, Hlive, Hlive2. reflexivity.
Qed.

(** *** Calls in flight *)

Lemma tallies_create : tallies create ∅.
Proof.
  constructor; cbn; intros reqId clientId; rewrite lookup_empty; discriminate.
Qed.

(** An orderly event keeps the routes and the calls in flight in step. *)
Lemma tallies_step ev self calls :
  wf self -> tallies self calls -> orderly ev self calls ->
  tallies (step ev self).1 (track ev self calls).
Proof.
  intros Hwf [Hroute Hcall Howner] Hord.
  pose proof Hwf as [_ Hclients _].
  destruct ev as [ws|c now message|c|c state|now id result|now id error];
    cbn [step track orderly] in *.
  - (* a bridge connects *)
    constructor; cbn.
    + exact Hroute.
    + intros r c' Hc' Hreg. apply Hcall; [exact Hc'|].
      rewrite lookup_insert_ne in Hreg; [exact Hreg|].
      apply Howner in Hc'. lia.
    + intros r c' Hc'. apply Howner in Hc'. lia.
  - (* a request *)
    destruct Hord as ([client Hc] & id & Hh & Hfree). rewrite Hc.
    pose proof Hh as (Hid & _). rewrite (prop_get _ _ _ Hid).
    assert (HS : is_Some (clients self !! c)) by eauto.
    destruct (onMessage_cases c now message id self Hwf HS Hh)
      as [(name & Hname & ->)|(Hnone & self2 & effs & logs & -> & Hcomp & _)];
      cbn [settle fst].
    + rewrite Hname. constructor; cbn.
      * intros r c'. rewrite !lookup_insert. case_decide; [auto|apply Hroute].
      * intros r c'. rewrite !lookup_insert. case_decide; [auto|apply Hcall].
      * intros r c'. rewrite lookup_insert. case_decide.
        -- intros [= <-]. now apply Hclients.
        -- apply Howner.
    + rewrite Hnone.
      destruct (complete_cases now id
                  (inr ("Unknown tool: "
                        ++ JS.to_String (tool_name (JS.get message "payload")))%string)
                  _ (wf_record self c (JS.to_String id) Hwf HS))
        as [(S' & cl & cl' & logs' & Hr & Hcl & _ & Heq & _)|(Hnone' & _)].
      2: { cbn in Hnone'. rewrite lookup_insert_eq in Hnone'. discriminate. }
      rewrite Heq in Hcomp. injection Hcomp as <- _.
      cbn in Hr, Hcl. rewrite lookup_insert_eq in Hr. injection Hr as <-.
      constructor; cbn.
      * intros r c' Hr'. apply lookup_delete_Some in Hr' as [Hne Hr'].
        rewrite lookup_insert_ne in Hr' by exact Hne. now apply Hroute.
      * intros r c' Hc' Hreg.
        assert (Hne : JS.to_String id <> r) by congruence.
        rewrite lookup_delete_ne, lookup_insert_ne by exact Hne.
        apply Hcall; [exact Hc'|].
        rewrite lookup_insert in Hreg. case_decide; [subst; eauto|exact Hreg].
      * exact Howner.
  - (* a bridge closes *)
    constructor; cbn.
    + intros r c'. rewrite lookup_purge.
      destruct (requestToClient self !! r) as [c''|] eqn:Hr; [|discriminate].
      case_decide; [discriminate|]. intros [= <-]. now apply Hroute.
    + intros r c' Hc' [cl Hreg]. apply lookup_delete_Some in Hreg as [Hne Hreg].
      rewrite lookup_purge, (Hcall r c' Hc' (ex_intro _ _ Hreg)).
      case_decide; congruence.
    + exact Howner.
  - (* a socket changes state *)
    constructor; cbn.
    + exact Hroute.
    + intros r c' Hc' [cl Hreg]. apply Hcall; [exact Hc'|].
      rewrite lookup_alter in Hreg. case_decide.
      * subst. destruct (clients self !! c'); [eauto|discriminate].
      * eauto.
    + exact Howner.
  - (* a call ends with a result *)
    destruct (complete_cases now id (inl result) self Hwf)
      as [(S' & cl & cl' & logs' & Hr & Hcl & _ & Heq & _)|(Hnone & logs' & Heq & _)];
      cbn [complete] in Heq; rewrite Heq; cbn [settle fst]; constructor; cbn.
    + intros r c' Hr'. apply lookup_delete_Some in Hr' as [Hne Hr'].
      rewrite lookup_delete_ne by exact Hne. now apply Hroute.
    + intros r c' Hc' Hreg. apply lookup_delete_Some in Hc' as [Hne Hc'].
      rewrite lookup_delete_ne by exact Hne. apply Hcall; [exact Hc'|].
      rewrite lookup_insert in Hreg. case_decide; [subst; eauto|exact Hreg].
    + intros r c' Hc'. apply lookup_delete_Some in Hc' as [_ Hc']. eauto.
    + intros r c' Hr'. rewrite lookup_delete_ne by congruence. now apply Hroute.
    + intros r c' Hc' Hreg. apply lookup_delete_Some in Hc' as [_ Hc']. auto.
    + intros r c' Hc'. apply lookup_delete_Some in Hc' as [_ Hc']. eauto.
  - (* a call ends with an error *)
    destruct (complete_cases now id (inr error) self Hwf)
      as [(S' & cl & cl' & logs' & Hr & Hcl & _ & Heq & _)|(Hnone & logs' & Heq & _)];
      cbn [complete] in Heq; rewrite Heq; cbn [settle fst]; constructor; cbn.
    + intros r c' Hr'. apply lookup_delete_Some in Hr' as [Hne Hr'].
      rewrite lookup_delete_ne by exact Hne. now apply Hroute.
    + intros r c' Hc' Hreg. apply lookup_delete_Some in Hc' as [Hne Hc'].
      rewrite lookup_delete_ne by exact Hne. apply Hcall; [exact Hc'|].
      rewrite lookup_insert in Hreg. case_decide; [subst; eauto|exact Hreg].
    + intros r c' Hc'. apply lookup_delete_Some in Hc' as [_ Hc']. eauto.
    + intros r c' Hr'. rewrite lookup_delete_ne by congruence. now apply Hroute.
    + intros r c' Hc' Hreg. apply lookup_delete_Some in Hc' as [_ Hc']. auto.
    + intros r c' Hc'. apply lookup_delete_Some in Hc' as [_ Hc']. eauto.
Qed.

(** An orderly event does not end the process. *)
Lemma orderly_survives ev self calls :
  wf self -> orderly ev self calls -> exits (step ev self).2 = false.
Proof.
  intros Hwf Hord.
  destruct (exits (step ev self).2) eqn:Hexit; [|reflexivity].
  destruct (step_exits ev self Hwf Hexit) as (c & now & message & -> & _ & Hnot).
  destruct Hord as (_ & id & Hh & _). destruct (Hnot id Hh).
Qed.

(** Through a collision-free history the process lives on, and the routes
    and the calls in flight stay in step. *)
Lemma tallies_run tr self calls :
  wf self -> tallies self calls -> collision_free tr self calls ->
  wf (run tr self).1
  /\ tallies (run tr self).1 (in_flight tr self calls)
  /\ exits (run tr self).2 = false.
Proof.
  revert self calls.
  induction tr as [|ev tr IH]; intros self calls Hwf Htally Hfree.
  - cbn. auto.
  - destruct Hfree as [Hord Hfree]. cbn [run in_flight].
    pose proof (wf_step_host ev self Hwf) as Hwf1.
    pose proof (tallies_step ev self calls Hwf Htally Hord) as Htally1.
    pose proof (orderly_survives ev self calls Hwf Hord) as Hlive.
    specialize (IH (step ev self).1 (track ev self calls) Hwf1 Htally1 Hfree).
    destruct (step ev self) as [self1 effs1]. cbn [fst snd] in *.
    rewrite Hlive.
    destruct (run tr self1) as [self2 effs2]. cbn [fst snd] in *.
    destruct IH as (Hwf2 & Htally2 & Hlive2).
    split; [exact Hwf2|]. split; [exact Htally2|].
    unfold exits in *. rewrite existsb_app, Hlive, Hlive2. reflexivity.
Qed.

(** The end of a call in flight: the response goes to the client that
    started the call, if it is still registered, and to nobody else. *)
Lemma flight_delivery now id outcome self calls owner :
  wf self -> tallies self calls ->
  calls !! JS.to_String id = Some owner ->
  exists self' logs,
    complete now id outcome self = JS.Normal (self', logs)
    /\ only_logs logs
    /\ (forall c, c <> owner -> clients self' !! c = clients self !! c)
    /\ match clients self !! owner with
       | Some client =>
           wire_of owner self' =
             wire_of owner self
             ++ (if decide (Ws.readyState (WSClient.ws client) = Ws.OPEN)
                 then [response now id outcome] else [])
       | None => self' = self
       end.
Proof.
  intros Hwf [Hroute Hcall _] Hflight.
  destruct (clients self !! owner) as [client|] eqn:Hclient.
  - assert (Hr : requestToClient self !! JS.to_String id = Some owner)
      by (apply Hcall; eauto).
    destruct (complete_delivery now id outcome self owner Hwf Hr)
      as (client' & self' & logs & Hclient' & Heq & Hlogs & _ & Hwire & Hothers).
    assert (client' = client) by congruence. subst client'.
    exists self', logs. auto.
  - destruct (complete_cases now id outcome self Hwf)
      as [(S' & cl & cl' & logs & Hr & Hcl & _)|(_ & logs & Heq & Hlogs)].
    + apply Hroute in Hr. congruence.
    + exists self, logs. auto.
Qed.

(** C4, as the code has it.  A request from registered client [S] bearing
    [id] and naming a known tool is never rejected: its route is recorded
    over whatever route the id had, to whichever client, and the tool is
    started.  What keeps responses apart is that ids do not collide: in a
    history of the host in which no request arrives under the id string of a
    call still in flight, the process lives on, and the response of the call
    in flight under [id'], started by client [owner], is handed to [owner]
    and touches no other client; if [owner] has closed in the meantime it is
    dropped and nothing changes. *)
Theorem route_last_writer_wins
    (self : t) (S now : Z) (message id : JS.value) (name : string)
    (tr : list event) (id' : JS.value) (owner now' : Z)
    (outcome : JS.value + string) :
  reachable self ->
  is_Some (clients self !! S) ->
  JS.prop message "id" = JS.Normal id ->
  JS.stringifies id = true ->
  known_tool (tool_name (JS.get message "payload")) = Some name ->
  collision_free tr create ∅ ->
  in_flight tr create ∅ !! JS.to_String id' = Some owner ->
  (exists self1 effs,
      onMessage S now message self = JS.Normal (self1, effs)
      /\ StartTool name (tool_args (JS.get message "payload")) id ∈ effs
      /\ requestToClient self1 = <[JS.to_String id := S]> (requestToClient self)
      /\ clients self1 = clients self)
  /\ exits (run tr create).2 = false
  /\ exists host' logs,
       complete now' id' outcome (run tr create).1 = JS.Normal (host', logs)
       /\ only_logs logs
       /\ (forall c, c <> owner ->
             clients host' !! c = clients (run tr create).1 !! c)
       /\ match clients (run tr create).1 !! owner with
          | Some client =>
              wire_of owner host' =
                wire_of owner (run tr create).1
                ++ (if decide (Ws.readyState (WSClient.ws client) = Ws.OPEN)
                    then [response now' id' outcome] else [])
          | None => host' = (run tr create).1
          end.
Proof.
  intros Hreach HS Hid Hstr Hknown Hfree Hflight.
  pose proof (reachable_wf_host self Hreach) as Hwf.
  split.
  - destruct (onMessage_cases S now message id self Hwf HS
                (known_handled message id name Hid Hstr Hknown))
      as [(name' & Hname & Heq)|(Hnone & _)]; [|congruence].
    assert (name' = name) by congruence. subst name'.
    eexists _, _. split; [exact Heq|].
    split; [do 2 apply list_elem_of_further; apply list_elem_of_here|].
    split; reflexivity.
  - destruct (tallies_run tr create ∅ host_wf_create tallies_create Hfree)
      as (Hwf' & Htally & Hlive).
    split; [exact Hlive|].
    exact (flight_delivery now' id' outcome _ _ owner Hwf' Htally Hflight).
Qed.

End CDPHostFacts.

(** *** The host on concrete runs *)

(** One bridge, one request in flight, and its tool call ending. *)
Lemma response_routed_to_origin_witness :
  let self :=
    (CDPHost.run [ CDPHost.Connection accepted;
                   CDPHost.Message 1 1000 (navigate_request "r1" "http://x") ]
       CDPHost.create).1 in
  let id := JS.Str "r1" in
  let outcome : JS.value + string := inl (JS.Obj [("success", JS.Bool true)]) in
  let envelope :=
    JS.Obj [ ("id", id);
             ("direction", JS.Str "from-chrome");
             ("timestamp", JS.Num 2000);
             ("payload",
              JS.Obj [ ("requestId", id);
                       match outcome with
                       | inl result => ("result", result)
                       | inr error => ("error", JS.Str error)
                       end ]) ] in
  (exists self' logs,
      CDPHost.complete 2000 id outcome self = JS.Normal (self', logs)
      /\ CDPHost.only_logs logs
      /\ CDPHost.requestToClient self' !! JS.to_String id = None
      /\ (forall reqId, reqId <> JS.to_String id ->
            CDPHost.requestToClient self' !! reqId =
              CDPHost.requestToClient self !! reqId)
      /\ match CDPHost.requestToClient self !! JS.to_String id with
         | Some owner =>
             exists client,
               CDPHost.clients self !! owner = Some client
               /\ CDPHost.wire_of owner self' =
                    CDPHost.wire_of owner self
                    ++ (if decide (Ws.readyState (WSClient.ws client) = Ws.OPEN)
                        then [envelope] else [])
               /\ (forall c, c <> owner ->
                     CDPHost.clients self' !! c = CDPHost.clients self !! c)
         | None => self' = self
         end)
  /\ (forall S,
        CDPHost.requestToClient self !! JS.to_String id = Some S ->
        exists logs,
          CDPHost.complete 2000 id outcome (CDPHost.onClose S self).1 =
            JS.Normal ((CDPHost.onClose S self).1, logs)
          /\ CDPHost.only_logs logs).
Proof.
  intros self id outcome.
  apply (response_routed_to_origin self 2000 id outcome).
  exists [ CDPHost.Connection accepted;
           CDPHost.Message 1 1000 (navigate_request "r1" "http://x") ].
  reflexivity.
Defined.

(** Two bridges, a request in flight for each. *)
Lemma routes_point_to_live_sessions_witness :
  let self :=
    (CDPHost.run [ CDPHost.Connection accepted;
                   CDPHost.Connection accepted;
                   CDPHost.Message 1 1000 (navigate_request "r1" "http://x");
                   CDPHost.Message 2 1001 (navigate_request "r2" "http://y") ]
       CDPHost.create).1 in
  (forall reqId S,
      CDPHost.requestToClient self !! reqId = Some S ->
      is_Some (CDPHost.clients self !! S))
  /\ (forall ev reqId S,
        CDPHost.requestToClient (CDPHost.step ev self).1 !! reqId = Some S ->
        CDPHost.requestToClient self !! reqId = Some S
        \/ exists now message id,
             ev = CDPHost.Message S now message
             /\ is_Some (CDPHost.clients self !! S)
             /\ JS.prop message "id" = JS.Normal id
             /\ JS.to_String id = reqId)
  /\ (forall now id outcome S,
        CDPHost.requestToClient self !! JS.to_String id = Some S ->
        exists client self' logs,
          CDPHost.clients self !! S = Some client
          /\ CDPHost.complete now id outcome self = JS.Normal (self', logs)
          /\ CDPHost.wire_of S self' =
               CDPHost.wire_of S self
               ++ (if decide (Ws.readyState (WSClient.ws client) = Ws.OPEN)
                   then [CDPHost.response now id outcome] else [])
          /\ CDPHost.requestToClient self' !! JS.to_String id = None
          /\ (forall reqId, reqId <> JS.to_String id ->
                CDPHost.requestToClient self' !! reqId =
                  CDPHost.requestToClient self !! reqId))
  /\ (forall S,
        CDPHost.clients (CDPHost.onClose S self).1 !! S = None
        /\ (forall reqId,
              CDPHost.requestToClient (CDPHost.onClose S self).1 !! reqId <> Some S)
        /\ (forall reqId S', S' <> S ->
              CDPHost.requestToClient (CDPHost.onClose S self).1 !! reqId = Some S'
              <-> CDPHost.requestToClient self !! reqId = Some S')).
Proof.
  intros self.
  apply (routes_point_to_live_sessions self).
  exists [ CDPHost.Connection accepted;
           CDPHost.Connection accepted;
           CDPHost.Message 1 1000 (navigate_request "r1" "http://x");
           CDPHost.Message 2 1001 (navigate_request "r2" "http://y") ].
  reflexivity.
Defined.

(** The teardown on that run: after bridge 1 closes, its route is gone and
    the route of bridge 2 is still there. *)
Example teardown_purges_routes :
  let self :=
    (CDPHost.run [ CDPHost.Connection accepted;
                   CDPHost.Connection accepted;
                   CDPHost.Message 1 1000 (navigate_request "r1" "http://x");
                   CDPHost.Message 2 1001 (navigate_request "r2" "http://y");
                   CDPHost.Close 1 ]
       CDPHost.create).1 in
  CDPHost.requestToClient self !! "r1" = None
  /\ CDPHost.requestToClient self !! "r2" = Some 2
  /\ CDPHost.clients self !! 1 = None.
Proof. vm_compute. repeat split. Qed.

(** C4 as stated fails when two live bridges use the same correlation id.
    Bridge 1 submits [r1]; bridge 2 submits [r1] while that route exists: the
    request is not rejected, its tool is started, and the route now names
    bridge 2.  When the call of bridge 1 ends, its response goes out on the
    socket of bridge 2 and bridge 1 receives nothing. *)
Lemma colliding_ids_cross_deliver :
  let before :=
    (CDPHost.run [ CDPHost.Connection accepted;
                   CDPHost.Connection accepted;
                   CDPHost.Message 1 1000 (navigate_request "r1" "http://one") ]
       CDPHost.create).1 in
  let second := CDPHost.step
                  (CDPHost.Message 2 1001 (navigate_request "r1" "http://two"))
                  before in
  let after :=
    (CDPHost.step
       (CDPHost.Completed 2000 (JS.Str "r1")
          (JS.Obj [("success", JS.Bool true); ("frameId", JS.Str "of-one")]))
       second.1).1 in
  CDPHost.requestToClient before !! "r1" = Some 1
  /\ is_Some (CDPHost.clients before !! 1)
  /\ CDPHost.requestToClient second.1 !! "r1" = Some 2
  /\ CDPHost.StartTool "navigate" (JS.Obj [("url", JS.Str "http://two")])
       (JS.Str "r1") ∈ second.2
  /\ CDPHost.wire_of 1 after = []
  /\ CDPHost.wire_of 2 after =
       [ JS.Obj [ ("id", JS.Str "r1");
                  ("direction", JS.Str "from-chrome");
                  ("timestamp", JS.Num 2000);
                  ("payload",
                   JS.Obj [ ("requestId", JS.Str "r1");
                            ("result",
                             JS.Obj [("success", JS.Bool true);
                                     ("frameId", JS.Str "of-one")]) ]) ] ].
Proof.
  cbv zeta. split; [vm_compute; reflexivity|].
  split; [vm_compute; eauto|].
  split; [vm_compute; reflexivity|].
  split; [vm_compute; do 2 apply list_elem_of_further; apply list_elem_of_here|].
  split; vm_compute; reflexivity.
Qed.

(** The amended claim on concrete runs.  The colliding request of bridge 2
    is accepted and takes the route of bridge 1.  In the history where the
    two bridges use different ids, the failure of the call of bridge 1 is
    written to bridge 1 and bridge 2 is left alone. *)
Lemma route_last_writer_wins_witness :
  let self :=
    (CDPHost.run [ CDPHost.Connection accepted;
                   CDPHost.Connection accepted;
                   CDPHost.Message 1 1000 (navigate_request "r1" "http://one") ]
       CDPHost.create).1 in
  let message := navigate_request "r1" "http://two" in
  let id := JS.Str "r1" in
  let tr := [ CDPHost.Connection accepted;
              CDPHost.Connection accepted;
              CDPHost.Message 1 1000 (navigate_request "r1" "http://one");
              CDPHost.Message 2 1001 (navigate_request "r2" "http://two") ] in
  let outcome : JS.value + string := inr "Navigation failed" in
  let host := (CDPHost.run tr CDPHost.create).1 in
  (exists self1 effs,
      CDPHost.onMessage 2 1001 message self = JS.Normal (self1, effs)
      /\ CDPHost.StartTool "navigate"
           (CDPHost.tool_args (JS.get message "payload")) id ∈ effs
      /\ CDPHost.requestToClient self1 =
           <[JS.to_String id := 2]> (CDPHost.requestToClient self)
      /\ CDPHost.clients self1 = CDPHost.clients self)
  /\ CDPHost.exits (CDPHost.run tr CDPHost.create).2 = false
  /\ exists host' logs,
       CDPHost.complete 2000 id outcome host = JS.Normal (host', logs)
       /\ CDPHost.only_logs logs
       /\ (forall c, c <> 1 -> CDPHost.clients host' !! c = CDPHost.clients host !! c)
       /\ match CDPHost.clients host !! 1 with
          | Some client =>
              CDPHost.wire_of 1 host' =
                CDPHost.wire_of 1 host
                ++ (if decide (Ws.readyState (WSClient.ws client) = Ws.OPEN)
                    then [CDPHost.response 2000 id outcome] else [])
          | None => host' = host
          end.
Proof.
  intros self message id tr outcome host.
  apply (route_last_writer_wins self 2 1001 message id "navigate" tr id 1 2000
           outcome).
  - exists [ CDPHost.Connection accepted;
             CDPHost.Connection accepted;
             CDPHost.Message 1 1000 (navigate_request "r1" "http://one") ].
    reflexivity.
  - vm_compute. eauto.
  - reflexivity.
  - reflexivity.
  - vm_compute. reflexivity.
  - split; [exact I|]. split; [exact I|].
    split.
    { split; [vm_compute; eauto|]. exists (JS.Str "r1").
      split; [repeat split|vm_compute; reflexivity]. }
    split; [|exact I].
    split; [vm_compute; eauto|]. exists (JS.Str "r2").
    split; [repeat split|vm_compute; reflexivity].
  - vm_compute. reflexivity.
Defined.

(** *** More concrete runs *)

(** A request whose id is an object with a [toString] property of its own:
    [String(message.id)] throws in the callback, no route is recorded and no
    tool started, and the host is gone before the next bridge connects. *)
Example unconvertible_id_ends_the_host :
  let message :=
    JS.Obj [ ("id", JS.Obj [("toString", JS.Num 1)]);
             ("payload", JS.Obj [("tool", JS.Str "navigate")]) ] in
  let r := CDPHost.run [ CDPHost.Connection accepted;
                         CDPHost.Message 1 1000 message;
                         CDPHost.Connection accepted ]
             CDPHost.create in
  CDPHost.exits r.2 = true
  /\ CDPHost.Uncaught (JS.TypeError "Cannot convert object to primitive value")
       ∈ r.2
  /\ CDPHost.requestToClient r.1 = ∅
  /\ CDPHost.clientCounter r.1 = 1.
Proof.
  cbv zeta. split; [vm_compute; reflexivity|].
  split; [vm_compute; apply list_elem_of_further, list_elem_of_here|].
  split; vm_compute; reflexivity.
Qed.

(** [String] of numbers: decimal up to 2^53, the shortest digits that read
    back beyond, the exponent form from 1e21 on; and [parseInt] of the
    exponent form stops at the first character that is no digit. *)
Example String_of_numbers :
  JS.to_String (JS.Num 7) = "7"
  /\ JS.to_String (JS.Num (2 ^ 53)) = "9007199254740992"
  /\ JS.to_String (JS.Num (2 ^ 64)) = "18446744073709552000"
  /\ JS.to_String (JS.Num (10 ^ 21)) = "1e+21"
  /\ JS.to_String (JS.Num (2 ^ 70)) = "1.1805916207174113e+21"
  /\ MCPServer.parseInt "1e+21" = Some 1
  /\ MCPServer.parseInt "9007199254740993" = Some 9007199254740992
  /\ JS.stringifies (JS.Arr [JS.Num 1; JS.Obj [("toString", JS.Num 1)]]) = false.
Proof. vm_compute. repeat split. Qed.

(** Sixty failures in a row: fifty timers, the delays growing from 2 s to the
    10 s cap, and nothing after the fiftieth. *)
Example sixty_failures :
  (WebSocketClient.failures 60 (WebSocketClient.create "ws://127.0.0.1:19222")).2
  = [2000; 4000; 6000; 8000] ++ repeat 10000 46.
Proof. vm_compute. reflexivity. Qed.

(** A body one byte over the cap: nothing is written, the error handler gets
    the size error. *)
Example oversize_send_writes_nothing :
  let body := repeat x61 (S NativeMessaging.MAX_MESSAGE_SIZE) in
  NativeMessaging.send (fun m : list byte => m) body
    (NativeMessaging.onError NativeMessaging.create)
  = [NativeMessaging.CallErrorHandler
       (NativeMessaging.MessageTooLarge (S NativeMessaging.MAX_MESSAGE_SIZE))].
Proof.
  intros body. unfold NativeMessaging.send.
  assert (Hlen : length body = S NativeMessaging.MAX_MESSAGE_SIZE)
    by apply List.repeat_length.
  rewrite Hlen.
  rewrite (proj2 (Nat.ltb_lt _ _)) by apply Nat.lt_succ_diag_r.
  reflexivity.
Qed.

(** A command nobody answers: its promise is rejected by the timer, once, and
    the answer that comes after that is ignored. *)
Example unanswered_command_times_out :
  let page :=
    Target.mk (JS.Str "T1") (JS.Str "page") (JS.Str "tab") (JS.Str "about:blank")
      (JS.Str "ws://localhost:9222/devtools/page/T1") in
  (CDPClient.run
     [ CDPClient.Connect Samples.no_address JS.Undefined (JS.Normal [page]);
       CDPClient.SocketOpen;
       CDPClient.Invoke 1000 "Page.navigate" (JS.Obj []);
       CDPClient.Tick 30999;
       CDPClient.Tick 31000;
       CDPClient.Message [("id", JS.Num 1); ("result", JS.Str "late")];
       CDPClient.Tick 90000 ]
     (CDPClient.create 9222)).2 =
    [ CDPClient.NewWebSocket (JS.Str "ws://localhost:9222/devtools/page/T1");
      CDPClient.Reject 0 "Command Page.navigate timed out" ].
Proof. vm_compute. reflexivity. Qed.

(** A response for a bridge that has gone: nothing is sent, the table is as
    it was, and the only effects are the two log lines. *)
Example response_after_disconnect_dropped :
  let self :=
    (CDPHost.run [ CDPHost.Connection accepted;
                   CDPHost.Connection accepted;
                   CDPHost.Message 1 1000 (navigate_request "r1" "http://x");
                   CDPHost.Close 1 ]
       CDPHost.create).1 in
  CDPHost.sendResponse 2000 (JS.Str "r1") (JS.Obj [("success", JS.Bool true)]) self
  = JS.Normal
      (self,
       [ CDPHost.Log "debug" "Sending response for r1 to client undefined";
         CDPHost.Log "warn" "No client found for request r1" ])
  /\ CDPHost.wire_of 2 self = [].
Proof. vm_compute. split; reflexivity. Qed.

Example to_String_array :
  JS.to_String (JS.Arr [JS.Num 1; JS.Null; JS.Str "a"]) = "1,,a".
Proof. vm_compute. reflexivity. Qed.

(* ================================================================== *)
(** * Further properties of the sources *)

(** ** The length-prefixed decoder on arbitrary input *)

Section DecoderFacts.
Import NativeMessaging.
Context {message : Type}.
Variable parse : list byte -> option message.

(** The four prefix bytes and the number they carry determine each other. *)
Theorem uint32le_round_trip :
  (forall n : N, (n < 4294967296)%N ->
     readUInt32LE (writeUInt32LE n) = n)
  /\ (forall b0 b1 b2 b3 : byte,
        let n := readUInt32LE [b0; b1; b2; b3] in
        (n < 4294967296)%N /\ writeUInt32LE n = [b0; b1; b2; b3]).
Proof.
  split.
  - intros n Hn. rewrite <- (app_nil_r (writeUInt32LE n)).
    now apply readUInt32LE_writeUInt32LE.
  - intros b0 b1 b2 b3. cbv zeta. unfold readUInt32LE, writeUInt32LE.
    pose proof (Byte.to_N_bounded b0) as Hr0.
    pose proof (Byte.to_N_bounded b1) as Hr1.
    pose proof (Byte.to_N_bounded b2) as Hr2.
    pose proof (Byte.to_N_bounded b3) as Hr3.
    split; [lia|].
    set (n := (Byte.to_N b0 + 256 * Byte.to_N b1 + 65536 * Byte.to_N b2
               + 16777216 * Byte.to_N b3)%N).
    assert (H0 : (n mod 256 = Byte.to_N b0)%N).
    { subst n.
      replace (Byte.to_N b0 + 256 * Byte.to_N b1 + 65536 * Byte.to_N b2
               + 16777216 * Byte.to_N b3)%N
        with (Byte.to_N b0
              + (Byte.to_N b1 + 256 * Byte.to_N b2 + 65536 * Byte.to_N b3) * 256)%N
        by lia.
      rewrite N.Div0.mod_add. apply N.mod_small. lia. }
    assert (H1 : (n / 256 = Byte.to_N b1 + 256 * Byte.to_N b2
                            + 65536 * Byte.to_N b3)%N).
    { subst n. symmetry. apply (N.div_unique _ 256 _ (Byte.to_N b0)); lia. }
    assert (H2 : (n / 65536 = Byte.to_N b2 + 256 * Byte.to_N b3)%N).
    { subst n. symmetry.
      apply (N.div_unique _ 65536 _ (Byte.to_N b0 + 256 * Byte.to_N b1)); lia. }
    assert (H3 : (n / 16777216 = Byte.to_N b3)%N).
    { subst n. symmetry.
      apply (N.div_unique _ 16777216 _
               (Byte.to_N b0 + 256 * Byte.to_N b1 + 65536 * Byte.to_N b2)); lia. }
    assert (Hb : forall (b : byte) (k : N),
               (k mod 256 = Byte.to_N b)%N -> byte_of_N k = b).
    { intros b k Hk. unfold byte_of_N. rewrite Hk, Byte.of_to_N. reflexivity. }
    f_equal; [now apply Hb|]. f_equal.
    { apply Hb. rewrite H1.
      replace (Byte.to_N b1 + 256 * Byte.to_N b2 + 65536 * Byte.to_N b3)%N
        with (Byte.to_N b1 + (Byte.to_N b2 + 256 * Byte.to_N b3) * 256)%N by lia.
      rewrite N.Div0.mod_add. apply N.mod_small. lia. }
    f_equal.
    { apply Hb. rewrite H2.
      replace (Byte.to_N b2 + 256 * Byte.to_N b3)%N
        with (Byte.to_N b2 + Byte.to_N b3 * 256)%N by lia.
      rewrite N.Div0.mod_add. apply N.mod_small. lia. }
    f_equal. apply Hb. rewrite H3. apply N.mod_small. lia.
Qed.

(** However the input bytes are cut into chunks, the decoder does what it
    does on the whole input at once, and what it keeps in its buffer never
    starts with a complete frame. *)
Theorem decoder_chunking_invariant (self : t) (chunks : list (list byte)) :
  incomplete (buffer self) ->
  feed parse chunks self = handleData parse (concat chunks) self
  /\ incomplete (buffer (feed parse chunks self).1).
Proof.
  intros Hinc. rewrite feed_concat by exact Hinc.
  rewrite handleData_spec. split; [reflexivity|].
  cbn [fst buffer]. apply drain_exit.
Qed.

(** A frame with an arbitrary body, as a peer may write it. *)
Local Abbreviation raw_frame := (frame (fun body : list byte => body)).

Lemma drain_raw_frame_head self (body rest : list byte) :
  (N.of_nat (length body) < 4294967296)%N ->
  drain parse (length (raw_frame body ++ rest)) self (raw_frame body ++ rest) =
    (let r := drain parse (length rest) self rest in
     (r.1, dispatch parse self body ++ r.2)).
Proof.
  intros Hcap. unfold frame.
  set (hdr := writeUInt32LE (N.of_nat (length body))).
  assert (Hhdr : length hdr = 4%nat) by reflexivity.
  rewrite <- app_assoc.
  assert (Hread : readUInt32LE (hdr ++ body ++ rest) = N.of_nat (length body))
    by now apply readUInt32LE_writeUInt32LE.
  assert (Hlen : length (hdr ++ body ++ rest)
                 = S (3 + length body + length rest)).
  { rewrite !length_app, Hhdr. lia. }
  rewrite Hlen, drain_step by (rewrite Hread, Nat2N.id, Hlen; lia).
  rewrite Hread, Nat2N.id. cbv zeta.
  assert (Hdrop : drop (4 + length body) (hdr ++ body ++ rest) = rest).
  { rewrite app_assoc. apply drop_app_length'.
    rewrite length_app, Hhdr. lia. }
  assert (Hsl : slice 4 (4 + length body) (hdr ++ body ++ rest) = body).
  { unfold slice. rewrite (drop_app_length' hdr) by exact Hhdr.
    replace (4 + length body - 4)%nat with (length body) by lia.
    apply take_app_length. }
  rewrite Hdrop, Hsl.
  rewrite (drain_enough parse (3 + length body + length rest)) by lia.
  now destruct (drain parse (length rest) self rest).
Qed.

(** Frames are handled one by one.  For any sequence of frames (bodies of any
    length a prefix can announce, well formed or not) followed by an
    incomplete tail and cut into chunks in any way, each body that parses
    goes to the message handler, each body that does not parse costs one call
    of the error handler and nothing else, in the order of the frames; the
    tail stays in the buffer. *)
Theorem decoder_frame_by_frame
    (self : t) (bodies : list (list byte)) (tail : list byte)
    (chunks : list (list byte)) :
  buffer self = [] ->
  Forall (fun body => (N.of_nat (length body) < 4294967296)%N) bodies ->
  incomplete tail ->
  concat chunks = concat (map raw_frame bodies) ++ tail ->
  feed parse chunks self =
    ({| messageHandler := messageHandler self;
        errorHandler := errorHandler self;
        buffer := tail |},
     concat
       (map (fun body =>
               match parse body with
               | Some m =>
                   if messageHandler self then [CallMessageHandler m] else []
               | None =>
                   if errorHandler self
                   then [CallErrorHandler FailedToParse] else []
               end) bodies)).
Proof.
  intros Hbuf Hsizes Htail Hstream.
  rewrite feed_concat by (rewrite Hbuf; left; simpl; lia).
  rewrite Hbuf, app_nil_l, Hstream.
  assert (Hdrain :
            drain parse (length (concat (map raw_frame bodies) ++ tail)) self
              (concat (map raw_frame bodies) ++ tail) =
              (tail, concat (map (dispatch parse self) bodies))).
  { clear Hstream. induction Hsizes as [|body bodies Hb Hbs IH]; cbn [map concat].
    - apply drain_incomplete, Htail.
    - rewrite <- app_assoc, drain_raw_frame_head by exact Hb.
      now rewrite IH. }
  rewrite Hdrain. reflexivity.
Qed.

End DecoderFacts.

(** A fresh decoder with both handlers, fed a good frame, a frame whose body
    is not JSON and another good frame, cut in the middle of the bad one. *)
Lemma decoder_frame_by_frame_witness :
  let parse := fun body : list byte =>
                 match body with
                 | [x7b; x7d] => Some body
                 | _ => None
                 end in
  let self := NativeMessaging.onError
                (NativeMessaging.onMessage NativeMessaging.create) in
  NativeMessaging.feed parse
    [ [x02; x00; x00; x00; x7b; x7d; x01; x00];
      [x00; x00; x21; x02; x00; x00; x00; x7b; x7d; x09] ] self =
    ({| NativeMessaging.messageHandler := true;
        NativeMessaging.errorHandler := true;
        NativeMessaging.buffer := [x09] |},
     [ NativeMessaging.CallMessageHandler [x7b; x7d];
       NativeMessaging.CallErrorHandler NativeMessaging.FailedToParse;
       NativeMessaging.CallMessageHandler [x7b; x7d] ]).
Proof.
  intros parse self.
  apply (decoder_frame_by_frame parse self
           [[x7b; x7d]; [x21]; [x7b; x7d]] [x09]).
  - reflexivity.
  - repeat constructor.
  - left. simpl. lia.
  - vm_compute. reflexivity.
Defined.

Lemma decoder_chunking_invariant_witness :
  let parse := fun body : list byte => Some body in
  let self := NativeMessaging.onMessage NativeMessaging.create in
  let chunks := [[x01; x00]; [x00; x00; x41; x05]; [x00]] in
  NativeMessaging.feed parse chunks self =
    NativeMessaging.handleData parse (concat chunks) self
  /\ NativeMessaging.incomplete
       (NativeMessaging.buffer (NativeMessaging.feed parse chunks self).1).
Proof.
  intros parse self chunks.
  apply (decoder_chunking_invariant parse self chunks).
  left. simpl. lia.
Defined.


(** ** The uplink client beyond the reconnect loop *)

Section UplinkFacts.
Import WebSocketClient.

Lemma failures_stopped (n : nat) (self : t) :
  shouldReconnect self = false ->
  (failures n self).2 = [] /\ shouldReconnect (failures n self).1 = false.
Proof.
  intros Hs. destruct n as [|n]; [now split|].
  cbn [failures on_error fst]. unfold on_close, attemptReconnect.
  cbn [shouldReconnect with_connected with_ws]. rewrite Hs. cbn [negb].
  rewrite app_nil_r. destruct (closeHandler self); cbn; now split.
Qed.

(** [close()] ends reconnection for good: a reconnect timer that was already
    armed fires without connecting, and however many sockets close
    afterwards, no further timer is armed and no socket is created. *)
Theorem close_stops_reconnecting (self : t) (n : nat) :
  reconnect_timer (close self) = (close self, [])
  /\ attemptReconnect (close self) = (close self, [])
  /\ (failures n (close self)).2 = []
  /\ shouldReconnect (failures n (close self)).1 = false
  /\ shouldReconnect (on_open (close self)).1 = false.
Proof.
  assert (Hs : shouldReconnect (close self) = false).
  { unfold close. now destruct (ws self). }
  split; [unfold reconnect_timer; now rewrite Hs|].
  split; [unfold attemptReconnect; now rewrite Hs|].
  destruct (failures_stopped n (close self) Hs) as [H1 H2].
  split; [exact H1|]. split; [exact H2|]. exact Hs.
Qed.

(** A successful open gives the next outage the whole budget again: whatever
    the attempt count was, the failures that follow an open arm
    [min n 50] timers, starting over at the base delay. *)
Theorem open_resets_backoff (self : t) (n : nat) :
  shouldReconnect self = true ->
  reconnectAttempts (on_open self).1 = 0
  /\ (failures n (on_open self).1).2 =
       expected_delays 0 (Nat.min n (Z.to_nat MAX_RECONNECT_ATTEMPTS)).
Proof.
  intros Hs. split; [reflexivity|].
  destruct (failures_delays n (on_open self).1) as (Hd & _).
  - exact Hs.
  - cbn. unfold MAX_RECONNECT_ATTEMPTS. lia.
  - rewrite Hd. reflexivity.
Qed.

End UplinkFacts.

(** Forty-nine failed attempts, then an open, then three failures: the delays
    are again 2 s, 4 s, 6 s. *)
Lemma open_resets_backoff_witness :
  let self :=
    (WebSocketClient.failures 49 (WebSocketClient.create "ws://127.0.0.1:19222")).1 in
  WebSocketClient.reconnectAttempts (WebSocketClient.on_open self).1 = 0
  /\ (WebSocketClient.failures 3 (WebSocketClient.on_open self).1).2 =
       WebSocketClient.expected_delays 0
         (Nat.min 3 (Z.to_nat WebSocketClient.MAX_RECONNECT_ATTEMPTS)).
Proof.
  intros self. apply (open_resets_backoff self 3). vm_compute. reflexivity.
Defined.


(** ** The bridge: peers coming and going, frames of every kind *)

Section BridgeEventFacts.
Import WSLBridge.

(** Whatever arrives on the uplink (valid JSON or not, an envelope or not,
    [null] included), the listener returns with the uplink client untouched;
    the local peer is written to only for a [from-chrome] envelope while a
    peer is attached, and then with exactly the envelope's payload; in every
    other case the peer gets nothing and there is exactly one log line. *)
Theorem upstream_data_never_crashes
    (parsed : JS.completion JS.value) (self : t) :
  let r := WSLBridgeEvents.onUpstreamData parsed self in
  wsClient r.1 = wsClient self
  /\ ((exists message,
          parsed = JS.Normal message
          /\ is_Some (claudeClient self)
          /\ JS.prop message "direction" = JS.Normal (JS.Str "from-chrome")
          /\ peer_written r.1 = peer_written self ++ [JS.get message "payload"]
          /\ r.2 = [])
      \/ (r.1 = self /\ exists e, r.2 = [e])).
Proof.
  cbv zeta. unfold WSLBridgeEvents.onUpstreamData.
  destruct parsed as [message|e]; [|split; [reflexivity|right; eauto]].
  unfold forwardToClaudeCode.
  destruct (claudeClient self) as [client|] eqn:Hclient;
    [|split; [reflexivity|right; cbn; eauto]].
  destruct (JS.prop message "direction") as [direction|e] eqn:Hdir;
    [|split; [reflexivity|right; eauto]].
  destruct (JS.strict_eq direction (JS.Str "from-chrome")) eqn:Heq; cbn [negb].
  - apply strict_eq_true in Heq. subst direction.
    split; [reflexivity|]. left. exists message.
    split; [reflexivity|]. split; [eauto|]. split; [exact Hdir|].
    cbn. unfold peer_written. rewrite Hclient. split; reflexivity.
  - destruct (JS.ToString direction) as [shown|e];
      (split; [reflexivity|]); right; cbn; eauto.
Qed.

(** Replacing the local peer.  When a peer connects while another is
    attached, the old one is closed and the new one receives the frames from
    upstream.  But the close callback registered for the old peer clears the
    bridge's peer without looking at which peer is attached: once the old
    socket's close event arrives, the bridge has no peer although the new one
    never closed, and frames from upstream are dropped with the
    not-connected warning. *)
Theorem peer_replacement
    (self : t) (old new : UnixSocketClient.t) (bridgeMessage : JS.value) :
  claudeClient self = Some old ->
  JS.prop bridgeMessage "direction" = JS.Normal (JS.Str "from-chrome") ->
  let replaced := onConnection new self in
  let after_old_close := onClientClose replaced.1 in
  Evicted (UnixSocketClient.close old) ∈ replaced.2
  /\ UnixSocketClient.written (UnixSocketClient.close old)
       = UnixSocketClient.written old
  /\ (exists self',
         forwardToClaudeCode bridgeMessage replaced.1 = JS.Normal (self', [])
         /\ claudeClient self' =
              Some (UnixSocketClient.send (JS.get bridgeMessage "payload") new))
  /\ claudeClient after_old_close.1 = None
  /\ forwardToClaudeCode bridgeMessage after_old_close.1 =
       JS.Normal
         (after_old_close.1,
          [ConsoleWarn "[Bridge] Cannot forward to Claude Code: not connected"]).
Proof.
  intros Hold Hdir. cbv zeta. unfold onConnection. rewrite Hold.
  split; [cbn; apply list_elem_of_further, list_elem_of_here|].
  split; [reflexivity|].
  split.
  - unfold forwardToClaudeCode. cbn [fst claudeClient]. rewrite Hdir. cbn.
    eexists. split; reflexivity.
  - split; reflexivity.
Qed.

End BridgeEventFacts.

Lemma peer_replacement_witness :
  let self :=
    (WSLBridge.onConnection UnixSocketClient.create
       (WSLBridge.create "ws://127.0.0.1:19222")).1 in
  let old := UnixSocketClient.create in
  let new := UnixSocketClient.create in
  let bridgeMessage :=
    JS.Obj [ ("id", JS.Str "r1"); ("direction", JS.Str "from-chrome");
             ("timestamp", JS.Num 1700000000001);
             ("payload", JS.Obj [("requestId", JS.Str "r1")]) ] in
  let replaced := WSLBridge.onConnection new self in
  let after_old_close := WSLBridge.onClientClose replaced.1 in
  WSLBridge.Evicted (UnixSocketClient.close old) ∈ replaced.2
  /\ UnixSocketClient.written (UnixSocketClient.close old)
       = UnixSocketClient.written old
  /\ (exists self',
         WSLBridge.forwardToClaudeCode bridgeMessage replaced.1 = JS.Normal (self', [])
         /\ WSLBridge.claudeClient self' =
              Some (UnixSocketClient.send (JS.get bridgeMessage "payload") new))
  /\ WSLBridge.claudeClient after_old_close.1 = None
  /\ WSLBridge.forwardToClaudeCode bridgeMessage after_old_close.1 =
       JS.Normal
         (after_old_close.1,
          [WSLBridge.ConsoleWarn "[Bridge] Cannot forward to Claude Code: not connected"]).
Proof.
  intros self old new bridgeMessage.
  apply (peer_replacement self old new bridgeMessage); reflexivity.
Defined.

(** ** The host: unknown tools, client ids, and the bridge on the other end *)

Section HostMoreFacts.
Import CDPHost.

(** A request that names no tool of the dispatch table (or none at all) is
    answered at once, provided its id and what it gives for the tool name
    convert to strings: no handler is started, the sender gets the error
    envelope with [Unknown tool: ...] on its own socket, nobody else gets
    anything, and the id is left without a route.  When the id or the name
    does not convert (an object with a [toString] property of its own), the
    callback throws instead and nothing is sent. *)
Theorem unknown_tool_answered_at_once
    (self : t) (S now : Z) (client : WSClient.t) (message id : JS.value) :
  reachable self ->
  clients self !! S = Some client ->
  JS.prop message "id" = JS.Normal id ->
  known_tool (tool_name (JS.get message "payload")) = None ->
  if JS.stringifies id && JS.stringifies (tool_name (JS.get message "payload"))
  then
  exists self' effs,
    onMessage S now message self = JS.Normal (self', effs)
    /\ only_logs effs
    /\ requestToClient self' !! JS.to_String id = None
    /\ (forall reqId, reqId <> JS.to_String id ->
          requestToClient self' !! reqId = requestToClient self !! reqId)
    /\ wire_of S self' =
         wire_of S self
         ++ (if decide (Ws.readyState (WSClient.ws client) = Ws.OPEN)
             then [envelope now id "error"
                     (JS.Str ("Unknown tool: "
                              ++ JS.to_String (tool_name (JS.get message "payload"))))]
             else [])
    /\ (forall c, c <> S -> clients self' !! c = clients self !! c)
  else
    onMessage S now message self =
      JS.Throw (JS.TypeError "Cannot convert object to primitive value").
Proof.
  intros Hreach HS Hid Hunknown.
  pose proof (reachable_wf_host self Hreach) as Hwf.
  destruct (JS.stringifies id) eqn:Hstr; cbn [andb].
  2: { unfold onMessage, JS.ToString. now rewrite Hid, Hstr. }
  destruct (JS.stringifies (tool_name (JS.get message "payload"))) eqn:Htool.
  2: { unfold onMessage, JS.ToString. rewrite Hid, Hstr.
       unfold handleToolCall, JS.ToString. now rewrite Htool. }
  set (text := ("Unknown tool: "
                ++ JS.to_String (tool_name (JS.get message "payload")))%string).
  set (self1 := {| clients := clients self;
                   requestToClient :=
                     <[JS.to_String id := S]> (requestToClient self);
                   clientCounter := clientCounter self;
                   chromeConnected := chromeConnected self |}).
  assert (Hwf1 : wf self1) by (apply wf_record; eauto).
  destruct (complete_delivery now id (inr text) self1 S Hwf1)
    as (client1 & self' & logs & Hclient1 & Hc & Hlogs & Hr & Hwire & Hothers).
  { cbn. apply lookup_insert_eq. }
  cbn in Hclient1. assert (client1 = client) by congruence. subst client1.
  exists self'. eexists. split.
  - unfold onMessage, JS.ToString. rewrite Hid, Hstr. fold self1.
    unfold handleToolCall, JS.ToString.
    rewrite Htool, (prop_get _ _ _ Hid), Hunknown. fold text.
    cbn [complete] in Hc. rewrite Hc. reflexivity.
  - split.
    { repeat apply only_logs_cons. exact Hlogs. }
    split; [rewrite Hr; apply lookup_delete_eq|].
    split.
    { intros reqId Hne. rewrite Hr. cbn.
      rewrite lookup_delete_ne, lookup_insert_ne by congruence. reflexivity. }
    split; [exact Hwire|exact Hothers].
Qed.

Lemma counter_step ev self :
  clientCounter self <= clientCounter (step ev self).1.
Proof.
  destruct ev as [ws|c now message|c|c state|now id result|now id error];
    cbn [step]; try (cbn; lia).
  - destruct (clients self !! c); [|cbn; lia].
    unfold onMessage. destruct (JS.prop message "id"); [|cbn; lia].
    destruct (JS.ToString _); [|cbn; lia].
    unfold handleToolCall. destruct (JS.ToString _); [|cbn; lia].
    destruct (known_tool _); [cbn; lia|].
    unfold sendError, deliver.
    destruct (_ !! _) as [c'|]; [|cbn; lia].
    destruct (client_of _ _) as [cl|]; [|cbn; lia].
    destruct (WSClient.send _ cl); cbn; lia.
  - unfold sendResponse, deliver.
    destruct (_ !! _) as [c'|]; [|cbn; lia].
    destruct (client_of _ _) as [cl|]; [|cbn; lia].
    destruct (WSClient.send _ cl); cbn; lia.
  - unfold sendError, deliver.
    destruct (_ !! _) as [c'|]; [|cbn; lia].
    destruct (client_of _ _) as [cl|]; [|cbn; lia].
    destruct (WSClient.send _ cl); cbn; lia.
Qed.

Lemma counter_run tr self :
  clientCounter self <= clientCounter (run tr self).1.
Proof.
  apply (run_invariant (fun s => clientCounter self <= clientCounter s));
    [|lia].
  intros ev s Hs. pose proof (counter_step ev s). lia.
Qed.

(** A connecting bridge gets an id no client has had and no route names: it
    starts without routes, so responses to requests of an earlier connection
    are never delivered to it.  The counter the ids come from never goes
    back, whatever happens later. *)
Theorem connection_gets_fresh_id
    (self : t) (client : WSClient.t) (tr : list event) :
  reachable self ->
  let clientId := clientCounter self + 1 in
  let self' := (onConnection client self).1 in
  clients self !! clientId = None
  /\ (forall reqId, requestToClient self !! reqId <> Some clientId)
  /\ clients self' !! clientId = Some client
  /\ (forall c, c <> clientId -> clients self' !! c = clients self !! c)
  /\ requestToClient self' = requestToClient self
  /\ clientId <= clientCounter (run tr self').1.
Proof.
  intros Hreach. cbv zeta.
  pose proof (reachable_wf_host self Hreach) as [Hroutes Hclients Hcounter].
  assert (Hnone : clients self !! (clientCounter self + 1) = None).
  { destruct (clients self !! (clientCounter self + 1)) as [c|] eqn:Hc;
      [|reflexivity].
    assert (H : is_Some (clients self !! (clientCounter self + 1))) by eauto.
    apply Hclients in H. lia. }
  split; [exact Hnone|].
  split.
  { intros reqId Hr. apply Hroutes in Hr as [c Hc]. congruence. }
  split; [cbn; apply lookup_insert_eq|].
  split; [intros c Hne; cbn; now apply lookup_insert_ne|].
  split; [reflexivity|].
  pose proof (counter_run tr (onConnection client self).1) as Hmono.
  cbn in Hmono |- *. lia.
Qed.

End HostMoreFacts.

Lemma unknown_tool_answered_at_once_witness :
  let self := (CDPHost.run [CDPHost.Connection accepted] CDPHost.create).1 in
  let message :=
    JS.Obj [ ("id", JS.Str "r7");
             ("payload", JS.Obj [("tool", JS.Str "teleport")]) ] in
  let id := JS.Str "r7" in
  exists self' effs,
    CDPHost.onMessage 1 1000 message self = JS.Normal (self', effs)
    /\ CDPHost.only_logs effs
    /\ CDPHost.requestToClient self' !! JS.to_String id = None
    /\ (forall reqId, reqId <> JS.to_String id ->
          CDPHost.requestToClient self' !! reqId =
            CDPHost.requestToClient self !! reqId)
    /\ CDPHost.wire_of 1 self' =
         CDPHost.wire_of 1 self
         ++ (if decide (Ws.readyState (WSClient.ws (WSClient.create accepted))
                        = Ws.OPEN)
             then [CDPHost.envelope 1000 id "error"
                     (JS.Str ("Unknown tool: "
                              ++ JS.to_String
                                   (CDPHost.tool_name (JS.get message "payload"))))]
             else [])
    /\ (forall c, c <> 1 ->
          CDPHost.clients self' !! c = CDPHost.clients self !! c).
Proof.
  intros self message id.
  apply (unknown_tool_answered_at_once self 1 1000 (WSClient.create accepted)
           message id).
  - exists [CDPHost.Connection accepted]. reflexivity.
  - vm_compute. reflexivity.
  - reflexivity.
  - vm_compute. reflexivity.
Defined.

Lemma connection_gets_fresh_id_witness :
  let self :=
    (CDPHost.run [ CDPHost.Connection accepted;
                   CDPHost.Message 1 1000 (navigate_request "r1" "http://x");
                   CDPHost.Close 1 ]
       CDPHost.create).1 in
  let client := WSClient.create accepted in
  let tr := [CDPHost.Close 2; CDPHost.Connection accepted] in
  let clientId := CDPHost.clientCounter self + 1 in
  let self' := (CDPHost.onConnection client self).1 in
  CDPHost.clients self !! clientId = None
  /\ (forall reqId, CDPHost.requestToClient self !! reqId <> Some clientId)
  /\ CDPHost.clients self' !! clientId = Some client
  /\ (forall c, c <> clientId ->
        CDPHost.clients self' !! c = CDPHost.clients self !! c)
  /\ CDPHost.requestToClient self' = CDPHost.requestToClient self
  /\ clientId <= CDPHost.clientCounter (CDPHost.run tr self').1.
Proof.
  intros self client tr.
  apply (connection_gets_fresh_id self client tr).
  exists [ CDPHost.Connection accepted;
           CDPHost.Message 1 1000 (navigate_request "r1" "http://x");
           CDPHost.Close 1 ].
  reflexivity.
Defined.

(** ** Bridge and host together *)

Section RelayFacts.

(** The two ends agree on the envelope.  A frame from the bridge's local peer
    that names a tool of the table is wrapped by the bridge into an envelope
    which the host accepts: the host starts that tool with the frame's
    arguments under the envelope's id.  Through events that are quiet for
    that id (the messages among them are ones the host handles, under other
    ids; the bridge's connection does not close; no call ends under the id)
    the host lives on, and the end of the call then puts the response
    envelope on the wire of the bridge's connection (if its socket is open)
    and nowhere else; and that response is accepted by the bridge, which
    writes [{requestId, result | error}] to the peer that sent the frame. *)
Theorem bridge_and_host_agree
    (bridge : WSLBridge.t) (host : CDPHost.t) (S : Z)
    (now_id : Z) (suffix : string) (now_ts now now' : Z)
    (frame : JS.value) (name : string)
    (tr : list CDPHost.event) (outcome : JS.value + string) :
  WebSocketClient.isConnected (WSLBridge.wsClient bridge) = true ->
  is_Some (WSLBridge.claudeClient bridge) ->
  CDPHost.reachable host ->
  is_Some (CDPHost.clients host !! S) ->
  CDPHost.known_tool (CDPHost.tool_name frame) = Some name ->
  Forall (CDPHost.quiet (WSLBridge.envelope_id now_id suffix) S) tr ->
  let id := JS.Str (WSLBridge.envelope_id now_id suffix) in
  exists bridge1 envelope host1 effs,
    WSLBridge.forwardToWindows now_id suffix now_ts frame bridge
      = JS.Normal (bridge1, [])
    /\ WSLBridge.upstream_wire bridge1 = WSLBridge.upstream_wire bridge ++ [envelope]
    /\ CDPHost.onMessage S now envelope host = JS.Normal (host1, effs)
    /\ CDPHost.StartTool name (CDPHost.tool_args frame) id ∈ effs
    /\ CDPHost.exits (CDPHost.run tr host1).2 = false
    /\ exists client host3 logs,
         CDPHost.clients (CDPHost.run tr host1).1 !! S = Some client
         /\ CDPHost.complete now' id outcome (CDPHost.run tr host1).1
              = JS.Normal (host3, logs)
         /\ CDPHost.wire_of S host3 =
              CDPHost.wire_of S (CDPHost.run tr host1).1
              ++ (if decide (Ws.readyState (WSClient.ws client) = Ws.OPEN)
                  then [CDPHost.response now' id outcome] else [])
         /\ (forall c, c <> S ->
               CDPHost.clients host3 !! c =
                 CDPHost.clients (CDPHost.run tr host1).1 !! c)
         /\ exists bridge2,
              WSLBridge.forwardToClaudeCode (CDPHost.response now' id outcome) bridge1
                = JS.Normal (bridge2, [])
              /\ WSLBridge.peer_written bridge2 =
                   WSLBridge.peer_written bridge
                   ++ [JS.Obj [ ("requestId", id);
                                match outcome with
                                | inl result => ("result", result)
                                | inr error => ("error", JS.Str error)
                                end ]].
Proof.
  intros Hconn [peer Hpeer] Hreach HS Hknown Hquiet. cbv zeta.
  pose proof (reachable_wf_host host Hreach) as Hwf.
  set (id := JS.Str (WSLBridge.envelope_id now_id suffix)).
  set (envelope :=
         JS.Obj [ ("id", id); ("direction", JS.Str "to-chrome");
                  ("timestamp", JS.Num now_ts); ("payload", frame) ]).
  (* the bridge sends the envelope *)
  destruct (isConnected_socket _ Hconn) as (s & Hs & Hopen).
  assert (Hfw : exists bridge1,
             WSLBridge.forwardToWindows now_id suffix now_ts frame bridge
               = JS.Normal (bridge1, [])
             /\ WSLBridge.upstream_wire bridge1
                  = WSLBridge.upstream_wire bridge ++ [envelope]
             /\ WSLBridge.claudeClient bridge1 = Some peer).
  { unfold WSLBridge.forwardToWindows, WSLBridge.upstream_wire.
    rewrite Hconn. cbn [negb]. unfold WebSocketClient.send.
    rewrite Hconn, Hs. unfold Ws.send. rewrite Hopen.
    eexists. split; [reflexivity|]. cbn. split; [reflexivity|exact Hpeer]. }
  destruct Hfw as (bridge1 & Hfw & Hwire1 & Hpeer1).
  (* the host accepts it *)
  assert (Hid : JS.prop envelope "id" = JS.Normal id) by reflexivity.
  assert (Hpayload : JS.get envelope "payload" = frame) by reflexivity.
  assert (Hh : CDPHost.handled envelope id)
    by (apply (known_handled envelope id name Hid eq_refl); exact Hknown).
  destruct (onMessage_cases S now envelope id host Hwf HS Hh)
    as [(name' & Hname & Heq)|(Hnone & _)];
    rewrite Hpayload in *; [|congruence].
  assert (name' = name) by congruence. subst name'.
  exists bridge1, envelope. eexists _, _.
  split; [exact Hfw|]. split; [exact Hwire1|]. split; [exact Heq|].
  split; [do 2 apply list_elem_of_further; apply list_elem_of_here|].
  (* the route stays, the response is delivered *)
  edestruct (route_stable_run tr) as (Hwf2 & Hroute2 & Hlive);
    [apply (wf_record host S (JS.to_String id) Hwf HS)
    |cbn; apply lookup_insert_eq|exact Hquiet|].
  split; [exact Hlive|].
  destruct (complete_delivery now' id outcome _ S Hwf2 Hroute2)
    as (client & host3 & logs & Hclient & Hc & _ & _ & Hwire & Hothers).
  exists client, host3, logs.
  split; [exact Hclient|]. split; [exact Hc|]. split; [exact Hwire|].
  split; [exact Hothers|].
  (* the bridge accepts the response *)
  unfold WSLBridge.forwardToClaudeCode, WSLBridge.peer_written.
  rewrite Hpeer1, Hpeer, response_shape. cbn.
  eexists. split; reflexivity.
Qed.

End RelayFacts.

Lemma bridge_and_host_agree_witness :
  let bridge :=
    (WSLBridge.onConnection UnixSocketClient.create
       {| WSLBridge.wsClient :=
            (WebSocketClient.on_open
               (WebSocketClient.connect
                  (WebSocketClient.create "ws://127.0.0.1:19222")).1).1;
          WSLBridge.claudeClient := None |}).1 in
  let host := (CDPHost.run [CDPHost.Connection accepted] CDPHost.create).1 in
  let frame :=
    JS.Obj [ ("jsonrpc", JS.Str "2.0"); ("method", JS.Str "tools/call");
             ("params",
              JS.Obj [ ("name", JS.Str "navigate");
                       ("arguments", JS.Obj [("url", JS.Str "http://x")]) ]) ] in
  let tr : list CDPHost.event := [CDPHost.Connection accepted] in
  let outcome : JS.value + string := inl (JS.Obj [("success", JS.Bool true)]) in
  let id := JS.Str (WSLBridge.envelope_id 1700000000000 "k3j2h1g") in
  exists bridge1 envelope host1 effs,
    WSLBridge.forwardToWindows 1700000000000 "k3j2h1g" 1700000000000 frame bridge
      = JS.Normal (bridge1, [])
    /\ WSLBridge.upstream_wire bridge1 = WSLBridge.upstream_wire bridge ++ [envelope]
    /\ CDPHost.onMessage 1 1000 envelope host = JS.Normal (host1, effs)
    /\ CDPHost.StartTool "navigate" (CDPHost.tool_args frame) id ∈ effs
    /\ CDPHost.exits (CDPHost.run tr host1).2 = false
    /\ exists client host3 logs,
         CDPHost.clients (CDPHost.run tr host1).1 !! 1 = Some client
         /\ CDPHost.complete 2000 id outcome (CDPHost.run tr host1).1
              = JS.Normal (host3, logs)
         /\ CDPHost.wire_of 1 host3 =
              CDPHost.wire_of 1 (CDPHost.run tr host1).1
              ++ (if decide (Ws.readyState (WSClient.ws client) = Ws.OPEN)
                  then [CDPHost.response 2000 id outcome] else [])
         /\ (forall c, c <> 1 ->
               CDPHost.clients host3 !! c =
                 CDPHost.clients (CDPHost.run tr host1).1 !! c)
         /\ exists bridge2,
              WSLBridge.forwardToClaudeCode (CDPHost.response 2000 id outcome) bridge1
                = JS.Normal (bridge2, [])
              /\ WSLBridge.peer_written bridge2 =
                   WSLBridge.peer_written bridge
                   ++ [JS.Obj [ ("requestId", id);
                                match outcome with
                                | inl result => ("result", result)
                                | inr error => ("error", JS.Str error)
                                end ]].
Proof.
  intros bridge host frame tr outcome.
  apply (bridge_and_host_agree bridge host 1 1700000000000 "k3j2h1g"
           1700000000000 1000 2000 frame "navigate" tr outcome).
  - reflexivity.
  - eexists. reflexivity.
  - exists [CDPHost.Connection accepted]. reflexivity.
  - vm_compute. eauto.
  - vm_compute. reflexivity.
  - constructor; [exact I|constructor].
Defined.


(** ** Command ids and deadlines over the whole table *)

Section TableFacts.
Import CDPClient.

(** The callbacks of a batch of timers: the entries they name are deleted,
    the others and the rest of the object stay. *)
Lemma expire_table tms self :
  messageId (expire tms self).1 = messageId self
  /\ timers (expire tms self).1 = timers self
  /\ ws (expire tms self).1 = ws self
  /\ forall id,
       pendingCommands (expire tms self).1 !! id =
         if bool_decide (id ∈ map timer_id tms) then None
         else pendingCommands self !! id.
Proof.
  revert self. induction tms as [|tm tms IH]; intros self.
  - cbn [expire fst map]. do 3 (split; [reflexivity|]). intros id.
    rewrite bool_decide_eq_false_2; [reflexivity|apply not_elem_of_nil].
  - cbn [expire].
    destruct (IH (on_timeout tm self).1) as (Hm & Ht & Hw & Hp).
    assert (Hone : messageId (on_timeout tm self).1 = messageId self
                   /\ timers (on_timeout tm self).1 = timers self
                   /\ ws (on_timeout tm self).1 = ws self
                   /\ pendingCommands (on_timeout tm self).1
                      = delete (timer_id tm) (pendingCommands self)).
    { destruct (on_timeout_cases tm self) as [(p & Hq & ->)|[Hnone ->]];
        cbn; repeat split.
      symmetry. now apply delete_id. }
    destruct Hone as (Hm1 & Ht1 & Hw1 & Hp1).
    destruct (on_timeout tm self) as [self1 effs1]. cbn [fst] in *.
    destruct (expire tms self1) as [self2 effs2]. cbn [fst] in *.
    split; [congruence|]. split; [congruence|]. split; [congruence|].
    intros id. rewrite Hp, Hp1. cbn [map].
    destruct (decide (id = timer_id tm)) as [->|Hne].
    + rewrite lookup_delete_eq.
      rewrite (bool_decide_eq_true_2 (timer_id tm ∈ timer_id tm :: _))
        by apply list_elem_of_here.
      now destruct (bool_decide _).
    + rewrite lookup_delete_ne by congruence.
      apply (f_equal (fun b : bool => if b then None else pendingCommands self !! id)).
      apply bool_decide_ext. rewrite elem_of_cons. tauto.
Qed.

(** An entry whose timer is in the batch has its promise rejected with the
    timeout of a timer armed for its id. *)
Lemma expire_rejects tms self id p :
  pendingCommands self !! id = Some p ->
  id ∈ map timer_id tms ->
  exists method, Reject p ("Command " ++ method ++ " timed out") ∈ (expire tms self).2.
Proof.
  revert self. induction tms as [|tm tms IH]; intros self Hp Hin.
  - apply elem_of_nil in Hin. destruct Hin.
  - cbn [expire].
    destruct (decide (timer_id tm = id)) as [Heq|Hne].
    + unfold on_timeout at 1. rewrite Heq, Hp.
      destruct (expire tms _) as [self2 effs2]. cbn [snd].
      exists (timer_method tm). apply list_elem_of_here.
    + cbn [map] in Hin. apply elem_of_cons in Hin as [Hin|Hin]; [congruence|].
      assert (Hp1 : pendingCommands (on_timeout tm self).1 !! id = Some p).
      { destruct (on_timeout_cases tm self) as [(q & Hq & ->)|[Hnone ->]];
          cbn; [|exact Hp].
        rewrite lookup_delete_ne by exact Hne. exact Hp. }
      destruct (IH _ Hp1 Hin) as [method Hm].
      destruct (on_timeout tm self) as [self1 effs1]. cbn [fst] in *.
      destruct (expire tms self1) as [self2 effs2]. cbn [snd] in *.
      exists method. apply elem_of_app. now right.
Qed.

Lemma elem_of_map_timer_id (tms : list timer) (tm : timer) :
  tm ∈ tms -> timer_id tm ∈ map timer_id tms.
Proof. intros H. apply list_elem_of_In, in_map, list_elem_of_In, H. Qed.

Lemma all_armed_step ev self :
  CDPClientTimers.all_armed self -> CDPClientTimers.all_armed (step ev self).1.
Proof.
  unfold CDPClientTimers.all_armed. intros Harmed.
  destruct ev as [now method params|fields|now|invalid tid listing| |]; cbn [step].
  - destruct (send now method params self) as [[self' q]|e] eqn:Hsend;
      [|exact Harmed].
    apply send_Normal in Hsend as (-> & Hm & Hpend & Hpr & Ht).
    cbn [fst]. intros id p. rewrite Hpend, Ht, lookup_insert. case_decide.
    + intros _. eexists. split; [apply elem_of_app; right; apply list_elem_of_here|].
      cbn. congruence.
    + intros Hp. destruct (Harmed _ _ Hp) as (tm & Hin & Hid).
      exists tm. split; [apply elem_of_app; now left|exact Hid].
  - destruct (handleMessage_Obj fields self) as [(k & q & _ & _ & ->)|[_ ->]];
      [|exact Harmed].
    cbn. intros id p Hp. apply lookup_delete_Some in Hp as [_ Hp]. eauto.
  - unfold tick.
    set (self0 := {| port := port self; ws := ws self; messageId := messageId self;
                     pendingCommands := pendingCommands self;
                     targetId := targetId self; sessionId := sessionId self;
                     promises := promises self;
                     timers := List.filter (fun tm => negb (is_due now tm))
                                 (timers self) |}).
    destruct (expire_table (List.filter (is_due now) (timers self)) self0)
      as (_ & Ht & _ & Hp).
    intros id p. rewrite Hp, Ht.
    destruct (bool_decide _) eqn:Hdec; [discriminate|].
    apply bool_decide_eq_false in Hdec.
    intros Hpend. destruct (Harmed _ _ Hpend) as (tm & Hin & Hid).
    exists tm. split; [|exact Hid].
    cbn. apply list_filter_elem. split; [exact Hin|].
    destruct (is_due now tm) eqn:Hdue; [|reflexivity].
    exfalso. apply Hdec. rewrite <- Hid. apply elem_of_map_timer_id.
    apply list_filter_elem. now split.
  - destruct (connectToTarget_fields invalid tid listing self)
      as (_ & _ & Ht & Hc & _).
    destruct (connectToTarget invalid tid listing self) as [self' [[tg effs]|e]];
      cbn [fst] in *; intros id p; rewrite Hc, Ht; apply Harmed.
  - exact Harmed.
  - exact Harmed.
Qed.

Lemma all_armed_run tr self :
  CDPClientTimers.all_armed self -> CDPClientTimers.all_armed (run tr self).1.
Proof.
  revert self. induction tr as [|ev tr IH]; intros self H; [exact H|].
  cbn [run]. pose proof (all_armed_step ev self H) as H1.
  destruct (step ev self) as [self1 effs1]. cbn [fst] in H1.
  specialize (IH self1 H1). destruct (run tr self1) as [self2 effs2]. exact IH.
Qed.

Lemma reachable_all_armed self :
  reachable self -> CDPClientTimers.all_armed self.
Proof.
  intros (port & tr & ->). apply all_armed_run.
  intros id p. cbn. rewrite lookup_empty. discriminate.
Qed.

(** No entry outlives its deadline.  On a reachable client, once time has
    reached the due date of every armed timer, the table is empty and no
    timer is left, and the promise of every entry that was still there has
    been rejected with a timeout. *)
Theorem no_entry_outlives_deadline (self : t) (now : Z) :
  reachable self ->
  (forall tm, tm ∈ timers self -> due tm <= now) ->
  pendingCommands (tick now self).1 = ∅
  /\ timers (tick now self).1 = []
  /\ forall id p,
       pendingCommands self !! id = Some p ->
       exists method,
         Reject p ("Command " ++ method ++ " timed out") ∈ (tick now self).2.
Proof.
  intros Hreach Hdue.
  pose proof (reachable_all_armed self Hreach) as Harmed.
  assert (Hall : List.filter (is_due now) (timers self) = timers self).
  { apply forallb_filter_id. apply forallb_forall. intros tm Hin.
    apply list_elem_of_In, Hdue in Hin. unfold is_due. now apply Z.leb_le. }
  assert (Hnone : List.filter (fun tm => negb (is_due now tm)) (timers self) = []).
  { clear Hall Harmed. induction (timers self) as [|tm tms IH]; [reflexivity|].
    cbn. assert (H : is_due now tm = true).
    { unfold is_due. apply Z.leb_le, Hdue, list_elem_of_here. }
    rewrite H. cbn. apply IH. intros tm' Hin. apply Hdue.
    now apply list_elem_of_further. }
  unfold tick. rewrite Hall, Hnone.
  set (self0 := {| port := port self; ws := ws self; messageId := messageId self;
                   pendingCommands := pendingCommands self;
                   targetId := targetId self; sessionId := sessionId self;
                   promises := promises self; timers := [] |}).
  destruct (expire_table (timers self) self0) as (_ & Ht & _ & Hp).
  split; [|split; [exact Ht|]].
  - apply map_empty. intros id. rewrite Hp.
    destruct (bool_decide _) eqn:Hdec; [reflexivity|].
    apply bool_decide_eq_false in Hdec. cbn.
    destruct (pendingCommands self !! id) as [p|] eqn:Hpend; [|reflexivity].
    destruct (Harmed _ _ Hpend) as (tm & Hin & Hid).
    exfalso. apply Hdec. rewrite <- Hid. now apply elem_of_map_timer_id.
  - intros id p Hpend. destruct (Harmed _ _ Hpend) as (tm & Hin & Hid).
    apply (expire_rejects (timers self) self0 id p Hpend).
    rewrite <- Hid. now apply elem_of_map_timer_id.
Qed.

Lemma messageId_step ev self : messageId self <= messageId (step ev self).1.
Proof.
  destruct ev as [now method params|fields|now|invalid tid listing| |]; cbn [step].
  - destruct (send now method params self) as [[self' q]|e] eqn:Hsend;
      [|cbn; lia].
    apply send_Normal in Hsend as (_ & Hm & _). cbn. lia.
  - destruct (handleMessage_Obj fields self) as [(k & q & _ & _ & ->)|[_ ->]];
      cbn; lia.
  - unfold tick. destruct (expire_table
                  (List.filter (is_due now) (timers self))
                  {| port := port self; ws := ws self; messageId := messageId self;
                     pendingCommands := pendingCommands self;
                     targetId := targetId self; sessionId := sessionId self;
                     promises := promises self;
                     timers := List.filter (fun tm => negb (is_due now tm))
                                 (timers self) |}) as (Hm & _).
    rewrite Hm. cbn. lia.
  - destruct (connectToTarget_fields invalid tid listing self) as (Hm & _).
    destruct (connectToTarget invalid tid listing self) as [self' [[tg effs]|e]];
      cbn [fst] in *; lia.
  - cbn. lia.
  - cbn. lia.
Qed.

Lemma messageId_run tr self : messageId self <= messageId (run tr self).1.
Proof.
  revert self. induction tr as [|ev tr IH]; intros self; [cbn; lia|].
  cbn [run]. pose proof (messageId_step ev self) as H1.
  destruct (step ev self) as [self1 effs1]. cbn [fst] in H1.
  specialize (IH self1). destruct (run tr self1) as [self2 effs2].
  cbn [fst] in *. lia.
Qed.

(** The id of a command is fresh.  On a reachable client a successful [send]
    takes the next integer, which is positive, larger than the id of every
    entry in the table and of every armed timer, and puts exactly one frame
    on the open socket: [{id, method, params}] with that id.  Ids never go
    back: after any further events the counter is at least that id. *)
Theorem send_takes_a_fresh_id
    (self : t) (now : Z) (method : string) (params : JS.value)
    (self1 : t) (p : nat) (tr : list event) :
  reachable self ->
  send now method params self = JS.Normal (self1, p) ->
  let id := messageId self1 in
  id = messageId self + 1
  /\ 0 < id
  /\ (forall i q, pendingCommands self !! i = Some q -> i < id /\ q <> p)
  /\ (forall tm, tm ∈ timers self -> timer_id tm < id)
  /\ (exists s s1,
        ws self = Some s /\ Ws.readyState s = Ws.OPEN
        /\ ws self1 = Some s1
        /\ Ws.wire s1 =
             Ws.wire s ++ [JS.Obj [ ("id", JS.Num id);
                                    ("method", JS.Str method);
                                    ("params", params) ]])
  /\ id <= messageId (run tr self1).1.
Proof.
  intros Hreach Hsend. cbv zeta.
  pose proof (reachable_wf self Hreach) as Hwf.
  assert (Hpos : 0 <= messageId self).
  { destruct Hreach as (port & tr0 & ->).
    apply (messageId_run tr0 (create port)). }
  pose proof Hsend as Hsend'.
  apply send_Normal in Hsend' as (-> & Hm & Hpend & Hpr & Ht).
  split; [exact Hm|]. split; [lia|].
  split.
  { intros i q Hq. split.
    - apply (wf_id _ Hwf) in Hq. lia.
    - apply (wf_handle _ Hwf) in Hq. lia. }
  split.
  { intros tm Hin. apply (wf_timers _ Hwf) in Hin. lia. }
  split.
  { unfold send in Hsend. destruct (ws self) as [s|]; [|discriminate].
    case_decide as Hopen; [|discriminate].
    unfold Ws.send in Hsend. rewrite Hopen in Hsend.
    injection Hsend as <-. exists s. eexists.
    split; [reflexivity|]. split; [exact Hopen|]. split; [reflexivity|].
    reflexivity. }
  apply messageId_run.
Qed.

End TableFacts.

Lemma no_entry_outlives_deadline_witness :
  let page :=
    Target.mk (JS.Str "T1") (JS.Str "page") (JS.Str "tab") (JS.Str "about:blank")
      (JS.Str "ws://localhost:9222/devtools/page/T1") in
  let tr :=
    [ CDPClient.Connect Samples.no_address JS.Undefined (JS.Normal [page]);
      CDPClient.SocketOpen;
      CDPClient.Invoke 1000 "A.a" (JS.Obj []);
      CDPClient.Invoke 2000 "B.b" (JS.Obj []);
      CDPClient.Message [("id", JS.Num 1); ("result", JS.Str "a")];
      CDPClient.Invoke 3000 "C.c" (JS.Obj []);
      CDPClient.SocketClose ] in
  let self := (CDPClient.run tr (CDPClient.create 9222)).1 in
  CDPClient.pendingCommands (CDPClient.tick 33000 self).1 = ∅
  /\ CDPClient.timers (CDPClient.tick 33000 self).1 = []
  /\ forall id p,
       CDPClient.pendingCommands self !! id = Some p ->
       exists method,
         CDPClient.Reject p ("Command " ++ method ++ " timed out")
           ∈ (CDPClient.tick 33000 self).2.
Proof.
  intros page tr self.
  apply (no_entry_outlives_deadline self 33000).
  - exists 9222, tr. reflexivity.
  - intros tm Hin. vm_compute in Hin. elem_cases Hin; subst tm; vm_compute;
      discriminate.
Defined.

Lemma send_takes_a_fresh_id_witness :
  let page :=
    Target.mk (JS.Str "T1") (JS.Str "page") (JS.Str "tab") (JS.Str "about:blank")
      (JS.Str "ws://localhost:9222/devtools/page/T1") in
  let self :=
    (CDPClient.run [ CDPClient.Connect Samples.no_address JS.Undefined (JS.Normal [page]);
                     CDPClient.SocketOpen;
                     CDPClient.Invoke 1000 "A.a" (JS.Obj []) ]
       (CDPClient.create 9222)).1 in
  let tr := [CDPClient.Tick 50000; CDPClient.Invoke 60000 "C.c" (JS.Obj [])] in
  exists self1 p,
    CDPClient.send 2000 "B.b" (JS.Obj []) self = JS.Normal (self1, p)
    /\ let id := CDPClient.messageId self1 in
       id = CDPClient.messageId self + 1
       /\ 0 < id
       /\ (forall i q,
             CDPClient.pendingCommands self !! i = Some q -> i < id /\ q <> p)
       /\ (forall tm, tm ∈ CDPClient.timers self -> CDPClient.timer_id tm < id)
       /\ (exists s s1,
             CDPClient.ws self = Some s /\ Ws.readyState s = Ws.OPEN
             /\ CDPClient.ws self1 = Some s1
             /\ Ws.wire s1 =
                  Ws.wire s ++ [JS.Obj [ ("id", JS.Num id);
                                         ("method", JS.Str "B.b");
                                         ("params", JS.Obj []) ]])
       /\ id <= CDPClient.messageId (CDPClient.run tr self1).1.
Proof.
  intros page self tr.
  eexists _, _. split; [vm_compute; reflexivity|].
  apply (send_takes_a_fresh_id self 2000 "B.b" (JS.Obj []) _ _ tr).
  - eexists 9222, _. reflexivity.
  - vm_compute. reflexivity.
Defined.


(** ** Newline-delimited input *)

Section LineFacts.
Import UnixSocketInput.
Context {message : Type}.
Variable parse : list N -> option message.
Variable throws : message -> bool.

Implicit Types (self : t) (buf line rest data : list N).

Lemma indexOf_none buf : indexOf_newline buf = None <-> newline ∉ buf.
Proof.
  induction buf as [|c buf IH]; cbn.
  - split; [intros _; apply not_elem_of_nil|reflexivity].
  - destruct (N.eqb_spec c newline) as [->|Hne].
    + split; [discriminate|]. intros H. exfalso. apply H, list_elem_of_here.
    + rewrite not_elem_of_cons. destruct (indexOf_newline buf).
      * split; [discriminate|]. intros [_ H]. apply IH in H. discriminate.
      * split; [|reflexivity]. intros _. split; [congruence|now apply IH].
Qed.

(** The first newline splits the buffer into a line without newline and the
    rest. *)
Lemma indexOf_some buf i :
  indexOf_newline buf = Some i ->
  buf = take i buf ++ newline :: drop (i + 1) buf
  /\ (newline ∉ take i buf) /\ (i < length buf)%nat.
Proof.
  revert i. induction buf as [|c buf IH]; cbn; [discriminate|].
  intros i. destruct (N.eqb_spec c newline) as [->|Hne].
  - intros [= <-]. cbn. rewrite drop_0.
    split; [reflexivity|]. split; [apply not_elem_of_nil|lia].
  - destruct (indexOf_newline buf) as [j|]; [|discriminate].
    intros [= <-]. destruct (IH j eq_refl) as (Heq & Hnl & Hlt). cbn.
    split; [now rewrite <- Heq|].
    split; [rewrite not_elem_of_cons; split; [congruence|exact Hnl]|lia].
Qed.

Lemma indexOf_line line rest :
  newline ∉ line -> indexOf_newline (line ++ newline :: rest) = Some (length line).
Proof.
  induction line as [|c line IH]; cbn; intros Hnl.
  - reflexivity.
  - apply not_elem_of_cons in Hnl as [Hc Hnl].
    destruct (N.eqb_spec c newline); [congruence|]. now rewrite IH.
Qed.

Lemma lines_S turns self buf :
  lines parse throws (S turns) self buf =
    match indexOf_newline buf with
    | None => (buf, [])
    | Some newlineIndex =>
        let '(rest, effs) :=
          lines parse throws turns self (drop (newlineIndex + 1) buf) in
        (rest, dispatch parse throws self (take newlineIndex buf) ++ effs)
    end.
Proof. reflexivity. Qed.

Lemma lines_no_newline turns self buf :
  newline ∉ buf -> lines parse throws turns self buf = (buf, []).
Proof.
  intros H. apply indexOf_none in H. destruct turns; [reflexivity|].
  now rewrite lines_S, H.
Qed.

(** The turn bound never stops the loop. *)
Lemma lines_enough turns self buf :
  (length buf <= turns)%nat ->
  lines parse throws turns self buf = lines parse throws (length buf) self buf.
Proof.
  revert turns.
  induction buf as [buf IH] using (induction_ltof1 _ (@length N)).
  unfold ltof in IH. intros turns Hle.
  destruct (indexOf_newline buf) as [i|] eqn:Hi.
  - destruct (indexOf_some buf i Hi) as (_ & _ & Hlt).
    destruct turns as [|turns]; [lia|].
    destruct (length buf) as [|n] eqn:Hlen; [lia|].
    rewrite !lines_S, Hi.
    assert (Hlen' : (length (drop (i + 1) buf) < S n)%nat)
      by (rewrite length_drop; lia).
    rewrite (IH _ Hlen' turns) by lia.
    rewrite (IH _ Hlen' n) by lia. reflexivity.
  - apply indexOf_none in Hi. now rewrite !lines_no_newline.
Qed.

(** One complete line at the head is handled and removed. *)
Lemma lines_head self line rest :
  newline ∉ line ->
  lines parse throws (length (line ++ newline :: rest)) self (line ++ newline :: rest) =
    (let r := lines parse throws (length rest) self rest in
     (r.1, dispatch parse throws self line ++ r.2)).
Proof.
  intros Hnl. rewrite length_app. cbn [length].
  replace (length line + S (length rest))%nat
    with (S (length line + length rest)) by lia.
  rewrite lines_S, indexOf_line by exact Hnl.
  rewrite take_app_length.
  replace (line ++ newline :: rest) with ((line ++ [newline]) ++ rest)
    by now rewrite <- app_assoc.
  rewrite drop_app_length' by (rewrite length_app; cbn; lia).
  rewrite (lines_enough (length line + length rest)) by lia.
  now destruct (lines parse throws (length rest) self rest).
Qed.

(** What is left when the loop stops has no newline. *)
Lemma lines_exit self buf :
  newline ∉ (lines parse throws (length buf) self buf).1.
Proof.
  induction buf as [buf IH] using (induction_ltof1 _ (@length N)).
  unfold ltof in IH.
  destruct (indexOf_newline buf) as [i|] eqn:Hi.
  - destruct (indexOf_some buf i Hi) as (Heq & Hnl & Hlt).
    rewrite Heq at 1 2. rewrite lines_head by exact Hnl. cbn [fst].
    apply IH. rewrite length_drop. lia.
  - apply indexOf_none in Hi. now rewrite lines_no_newline.
Qed.

(** Text that arrives later does not change the lines already complete. *)
Lemma lines_app self buf data :
  lines parse throws (length (buf ++ data)) self (buf ++ data) =
    let '(rest1, effs1) := lines parse throws (length buf) self buf in
    let '(rest2, effs2) :=
      lines parse throws (length (rest1 ++ data)) self (rest1 ++ data) in
    (rest2, effs1 ++ effs2).
Proof.
  induction buf as [buf IH] using (induction_ltof1 _ (@length N)).
  unfold ltof in IH.
  destruct (indexOf_newline buf) as [i|] eqn:Hi.
  - destruct (indexOf_some buf i Hi) as (Heq & Hnl & Hlt).
    set (line := take i buf) in *. set (rest := drop (i + 1) buf) in *.
    rewrite Heq. rewrite <- app_assoc. cbn [app].
    rewrite (lines_head self line (rest ++ data)) by exact Hnl.
    rewrite (lines_head self line rest) by exact Hnl. cbv zeta.
    rewrite (IH rest) by (subst rest; rewrite length_drop; lia).
    destruct (lines parse throws (length rest) self rest) as [rest1 effs1].
    cbn [fst snd].
    destruct (lines parse throws (length (rest1 ++ data)) self (rest1 ++ data))
      as [rest2 effs2].
    cbn [fst snd]. now rewrite app_assoc.
  - apply indexOf_none in Hi. rewrite (lines_no_newline _ _ buf) by exact Hi.
    now destruct (lines parse throws _ self (buf ++ data)).
Qed.

Lemma lines_handlers turns self self' buf :
  messageHandler self = messageHandler self' ->
  lines parse throws turns self buf = lines parse throws turns self' buf.
Proof.
  intros H. revert buf. induction turns as [|turns IH]; intros buf;
    [reflexivity|].
  rewrite !lines_S. destruct (indexOf_newline buf); [|reflexivity].
  rewrite IH. unfold dispatch. now rewrite H.
Qed.

Lemma line_feed_concat chunks self :
  newline ∉ buffer self ->
  feed parse throws chunks self =
    (let r := lines parse throws (length (buffer self ++ concat chunks)) self
                (buffer self ++ concat chunks) in
     ({| buffer := r.1; messageHandler := messageHandler self |}, r.2)).
Proof.
  revert self. induction chunks as [|chunk chunks IH]; intros self Hnl.
  - cbn [feed concat]. rewrite app_nil_r, lines_no_newline by exact Hnl.
    now destruct self.
  - cbn [feed]. unfold handleData at 1.
    pose proof (lines_exit self (buffer self ++ chunk)) as Hexit.
    pose proof (lines_app self (buffer self ++ chunk) (concat chunks)) as Happ.
    destruct (lines parse throws (length (buffer self ++ chunk)) self
                (buffer self ++ chunk)) as [rest1 effs1].
    cbn [fst] in Hexit.
    rewrite IH by exact Hexit. cbn [buffer messageHandler concat].
    rewrite app_assoc, Happ.
    erewrite (lines_handlers _ _ self); [|reflexivity].
    now destruct (lines parse throws (length (rest1 ++ concat chunks)) self
                    (rest1 ++ concat chunks)).
Qed.

Lemma lines_all self (ls : list (list N)) (tail : list N) :
  Forall (fun line => newline ∉ line) ls ->
  newline ∉ tail ->
  lines parse throws
    (length (concat (map (fun line => line ++ [newline]) ls) ++ tail))
    self (concat (map (fun line => line ++ [newline]) ls) ++ tail) =
    (tail, concat (map (dispatch parse throws self) ls)).
Proof.
  intros Hls Htail. induction Hls as [|line ls Hl Hls IH]; cbn [map concat].
  - now apply lines_no_newline.
  - rewrite <- !app_assoc. cbn [app].
    rewrite lines_head by exact Hl. now rewrite IH.
Qed.

(** However the text is cut into ['data'] events, the outcome is that of the
    whole text in one event, and the buffer kept never contains a newline. *)
Theorem line_chunking_invariant (self : t) (chunks : list (list N)) :
  newline ∉ buffer self ->
  feed parse throws chunks self = handleData parse throws (concat chunks) self
  /\ newline ∉ buffer (feed parse throws chunks self).1.
Proof.
  intros Hnl. rewrite line_feed_concat by exact Hnl.
  unfold handleData.
  pose proof (lines_exit self (buffer self ++ concat chunks)) as Hexit.
  destruct (lines parse throws _ self (buffer self ++ concat chunks)) as [rest effs].
  split; [reflexivity|exact Hexit].
Qed.

(** Lines are handled one by one, in order.  A line of white space only is
    skipped without a trace; a line that parses goes to the message handler,
    and a handler that throws is logged like a parse failure; a line that
    does not parse costs one error log and nothing else; in every case the
    lines after it are handled as usual; text after the last newline waits in
    the buffer. *)
Theorem lines_one_by_one
    (self : t) (ls : list (list N)) (tail : list N) (chunks : list (list N)) :
  buffer self = [] ->
  Forall (fun line => newline ∉ line) ls ->
  newline ∉ tail ->
  concat chunks = concat (map (fun line => line ++ [newline]) ls) ++ tail ->
  feed parse throws chunks self =
    ({| buffer := tail; messageHandler := messageHandler self |},
     concat
       (map (fun line =>
               if forallb is_space line then []
               else match parse line with
                    | Some m =>
                        if messageHandler self
                        then CallMessageHandler m
                             :: (if throws m then [ConsoleError] else [])
                        else []
                    | None => [ConsoleError]
                    end) ls)).
Proof.
  intros Hbuf Hls Htail Hstream.
  rewrite line_feed_concat by (rewrite Hbuf; apply not_elem_of_nil).
  rewrite Hbuf, app_nil_l, Hstream.
  rewrite (lines_all self ls tail Hls Htail).
  cbn [fst snd]. f_equal. f_equal. apply map_ext.
  intros line. unfold dispatch, trim_truthy.
  assert (Hdual : existsb (fun c => negb (is_space c)) line
                  = negb (forallb is_space line)).
  { induction line as [|c line IH]; [reflexivity|]. cbn. rewrite IH.
    now destruct (is_space c). }
  rewrite Hdual. now destruct (forallb is_space line).
Qed.

(** What one peer sends, the other receives, as far as the text goes.
    [handleData] works on the text [data.toString()] makes of each chunk of
    bytes; the chunks here are those texts.  When the texts [JSON.stringify]
    produces hold no raw newline, are not blank, and parse back to the
    message they encode, and the texts of the ['data'] events, put end to
    end, are the lines [send] writes for a sequence of messages, wherever in
    the text the cuts fall, the messages reach the message handler of the
    receiving [UnixSocketClient] as the same messages in the same order, once
    each, and its buffer is left empty.  A cut of the byte stream inside the
    bytes of one character is not a cut of the text: each half decodes to
    replacement characters, and such events are not covered. *)
Theorem newline_framing_round_trip
    (stringify : message -> list N) (self : t) (ms : list message)
    (chunks : list (list N)) :
  buffer self = [] ->
  messageHandler self = true ->
  Forall (fun m => (newline ∉ stringify m)
                   /\ trim_truthy (stringify m) = true
                   /\ parse (stringify m) = Some m) ms ->
  concat chunks = concat (map (frame stringify) ms) ->
  feed parse throws chunks self =
    ({| buffer := []; messageHandler := true |},
     concat (map (fun m => CallMessageHandler m
                           :: (if throws m then [ConsoleError] else [])) ms)).
Proof.
  intros Hbuf Hhandler Hms Hstream.
  rewrite line_feed_concat by (rewrite Hbuf; apply not_elem_of_nil).
  rewrite Hbuf, app_nil_l, Hstream.
  assert (Hframes : concat (map (frame stringify) ms)
                    = concat (map (fun line => line ++ [newline])
                                (map stringify ms)) ++ []).
  { rewrite app_nil_r, map_map. reflexivity. }
  rewrite Hframes, lines_all.
  - cbn [fst snd]. rewrite Hhandler. f_equal. rewrite map_map. f_equal.
    clear Hstream Hframes.
    induction Hms as [|m ms (Hnl & Htrim & Hparse) Hms IH]; [reflexivity|].
    cbn [map]. rewrite IH. f_equal.
    unfold dispatch. now rewrite Htrim, Hparse, Hhandler.
  - apply Forall_map. eapply Forall_impl; [exact Hms|].
    intros m (Hnl & _). exact Hnl.
  - apply not_elem_of_nil.
Qed.

End LineFacts.

(** Two documents, the second cut in the middle. *)
Lemma newline_framing_round_trip_witness :
  let stringify := fun m : bool => if m then [116; 114; 117; 101]%N
                                   else [102; 97; 108; 115; 101]%N in
  let parse := fun line : list N =>
                 match line with
                 | [116; 114; 117; 101]%N => Some true
                 | [102; 97; 108; 115; 101]%N => Some false
                 | _ => None
                 end in
  let throws := fun _ : bool => false in
  let self := UnixSocketInput.onMessage UnixSocketInput.create in
  UnixSocketInput.feed parse throws
    [ [116; 114; 117; 101; 10; 102; 97]%N; [108; 115; 101; 10]%N ] self =
    ({| UnixSocketInput.buffer := [];
        UnixSocketInput.messageHandler := true |},
     [ UnixSocketInput.CallMessageHandler true;
       UnixSocketInput.CallMessageHandler false ]).
Proof.
  intros stringify parse throws self.
  apply (newline_framing_round_trip parse throws stringify self [true; false]).
  - reflexivity.
  - reflexivity.
  - repeat constructor; intros H; elem_cases H.
  - reflexivity.
Defined.

(** Four lines in two events, cut inside the second: a document, a blank
    line, a line that is not JSON, a document on which the handler throws;
    then the start of a fifth. *)
Lemma lines_one_by_one_witness :
  let parse := fun line : list N =>
                 match line with
                 | [123; 125]%N | [91; 93]%N => Some line
                 | _ => None
                 end in
  let throws := fun m : list N => bool_decide (m = [91; 93]%N) in
  let self := UnixSocketInput.onMessage UnixSocketInput.create in
  UnixSocketInput.feed parse throws
    [ [123; 125; 10; 32]%N; [9; 10; 33; 10; 91; 93; 10; 123]%N ] self =
    ({| UnixSocketInput.buffer := [123]%N;
        UnixSocketInput.messageHandler := true |},
     [ UnixSocketInput.CallMessageHandler [123; 125]%N;
       UnixSocketInput.ConsoleError;
       UnixSocketInput.CallMessageHandler [91; 93]%N;
       UnixSocketInput.ConsoleError ]).
Proof.
  intros parse throws self.
  apply (lines_one_by_one parse throws self
           [[123; 125]; [32; 9]; [33]; [91; 93]]%N [123]%N).
  - reflexivity.
  - repeat constructor; intros H; elem_cases H.
  - intros H. elem_cases H.
  - reflexivity.
Defined.

Lemma line_chunking_invariant_witness :
  let parse := fun line : list N => Some line in
  let throws := fun _ : list N => false in
  let self := UnixSocketInput.onMessage UnixSocketInput.create in
  let chunks := [[123]; [125; 10; 123]; [125]]%N in
  UnixSocketInput.feed parse throws chunks self =
    UnixSocketInput.handleData parse throws (concat chunks) self
  /\ UnixSocketInput.newline
       ∉ UnixSocketInput.buffer (UnixSocketInput.feed parse throws chunks self).1.
Proof.
  intros parse throws self chunks.
  apply (line_chunking_invariant parse throws self chunks).
  apply not_elem_of_nil.
Defined.

(** ** The awaited calls of the CDP client *)

Section CallFacts.
Import CDPCalls.
Variable browser : chrome.

Implicit Types (w : world) (s : Ws.socket).

Lemma find_settlement p effs e :
  CDPClient.settlements p effs = [e] ->
  List.find (CDPClient.settles p) effs = Some e.
Proof.
  unfold CDPClient.settlements.
  induction effs as [|x effs IH]; cbn [List.filter List.find]; [discriminate|].
  destruct (CDPClient.settles p x); [congruence|exact IH].
Qed.

Lemma settled_reply p id reply method :
  settled p [CDPClient.outcome p (reply_frame id reply)] =
    Some (result_of method (Some reply)).
Proof.
  unfold settled.
  destruct reply as [result|message]; cbn; now rewrite Nat.eqb_refl.
Qed.

Lemma expire_targetId tms self :
  CDPClient.targetId (CDPClient.expire tms self).1 = CDPClient.targetId self.
Proof.
  revert self. induction tms as [|tm tms IH]; intros self; [reflexivity|].
  cbn [CDPClient.expire].
  destruct (on_timeout_cases tm self) as [(q & Hq & Heq)|[Hnone Heq]];
    rewrite Heq; specialize (IH (CDPClient.on_timeout tm self).1);
    rewrite Heq in IH; cbn [fst] in IH;
    destruct (CDPClient.expire tms _) as [self2 effs2]; cbn [fst] in *;
    exact IH.
Qed.

(** The timer of a command nobody answered settles its promise. *)
Lemma settled_timeout now method params self self1 p :
  CDPClient.wf self ->
  CDPClient.send now method params self = JS.Normal (self1, p) ->
  settled p (CDPClient.tick (now + CDPClient.COMMAND_TIMEOUT) self1).2 =
    Some (result_of method None)
  /\ CDPClient.pendingCommands
       (CDPClient.tick (now + CDPClient.COMMAND_TIMEOUT) self1).1
       !! CDPClient.messageId self1 = None.
Proof.
  intros Hwf Hsend.
  destruct (send_starts now method params self self1 p Hwf Hsend)
    as [Hfollowed Harmed].
  set (tm := CDPClient.mk_timer (now + CDPClient.COMMAND_TIMEOUT)
               (CDPClient.messageId self1) method) in *.
  destruct (tick_traced (CDPClient.messageId self1) p tm eq_refl
              (now + CDPClient.COMMAND_TIMEOUT) self1 [] []
              Hfollowed Harmed) as [Hf Ha].
  cbn [app] in Hf, Ha.
  destruct Hf as (_ & _ & _ & [Hstill|Hgone]).
  - exfalso. destruct Ha as [_ Ha]. destruct (Ha Hstill) as [_ Hticks].
    specialize (Hticks (now + CDPClient.COMMAND_TIMEOUT)).
    cbn [CDPClient.due tm] in Hticks.
    assert (now + CDPClient.COMMAND_TIMEOUT < now + CDPClient.COMMAND_TIMEOUT);
      [|lia].
    apply Hticks. apply list_elem_of_here.
  - destruct Hgone as (Hnone & _ & e & Hsettle & Hcause). split; [|exact Hnone].
    unfold settled. rewrite (find_settlement _ _ _ Hsettle).
    destruct Hcause as [[-> _]|(before & fields & after & Hseen & _)].
    + reflexivity.
    + exfalso. destruct before as [|ev before]; [discriminate|].
      destruct before; discriminate.
Qed.

Lemma tick_fields now self :
  CDPClient.messageId (CDPClient.tick now self).1 = CDPClient.messageId self
  /\ CDPClient.ws (CDPClient.tick now self).1 = CDPClient.ws self
  /\ CDPClient.targetId (CDPClient.tick now self).1 = CDPClient.targetId self.
Proof.
  unfold CDPClient.tick.
  match goal with
  | |- context [CDPClient.expire ?tms ?self'] =>
      destruct (expire_table tms self') as (Hm & _ & Hws & _);
      pose proof (expire_targetId tms self') as Ht
  end.
  rewrite Hm, Hws, Ht. now split.
Qed.

(** An awaited [send] on an open socket: one frame goes out, and the caller
    gets the browser's result, the browser's error, or the timeout. *)
Lemma send_spec w method params s :
  CDPClient.wf (client w) ->
  CDPClient.ws (client w) = Some s -> Ws.readyState s = Ws.OPEN ->
  exists w',
    send browser method params w =
      (Some (result_of method
               (answer browser (CDPClient.messageId (client w) + 1) method params)),
       w')
    /\ CDPClient.wf (client w')
    /\ CDPClient.ws (client w') =
         Some {| Ws.readyState := Ws.OPEN;
                 Ws.wire :=
                   Ws.wire s
                   ++ [command (CDPClient.messageId (client w) + 1) method params] |}
    /\ CDPClient.messageId (client w') = CDPClient.messageId (client w) + 1
    /\ CDPClient.targetId (client w') = CDPClient.targetId (client w)
    /\ CDPClient.pendingCommands (client w')
         !! (CDPClient.messageId (client w) + 1) = None
    /\ clock w' =
         match answer browser (CDPClient.messageId (client w) + 1) method params with
         | Some _ => clock w
         | None => clock w + CDPClient.COMMAND_TIMEOUT
         end.
Proof.
  intros Hwf Hws Hopen.
  destruct (CDPClient.send (clock w) method params (client w))
    as [[c1 p]|e] eqn:Hsend.
  2: { exfalso. unfold CDPClient.send in Hsend. rewrite Hws in Hsend.
       destruct (decide (Ws.readyState s = Ws.OPEN)); [|contradiction].
       unfold Ws.send in Hsend. rewrite Hopen in Hsend. discriminate. }
  assert (Hc1 : CDPClient.ws c1 =
                  Some {| Ws.readyState := Ws.OPEN;
                          Ws.wire :=
                            Ws.wire s
                            ++ [command (CDPClient.messageId (client w) + 1)
                                  method params] |}
                /\ CDPClient.targetId c1 = CDPClient.targetId (client w)).
  { pose proof Hsend as Hs. unfold CDPClient.send in Hs. rewrite Hws in Hs.
    destruct (decide (Ws.readyState s = Ws.OPEN)); [|contradiction].
    unfold Ws.send in Hs. rewrite Hopen in Hs. injection Hs as <- _.
    split; reflexivity. }
  destruct Hc1 as [Hws1 Htid1].
  pose proof (wf_send _ _ _ _ _ _ Hwf Hsend) as Hwf1.
  destruct (send_Normal _ _ _ _ _ _ Hsend) as (Hp & Hm & Hpend & Hpr & Ht).
  unfold send. rewrite Hsend, Hm.
  destruct (answer browser (CDPClient.messageId (client w) + 1) method params)
    as [reply|] eqn:Hans.
  - assert (Hkey : JS.assoc "id"
                     (reply_frame (CDPClient.messageId (client w) + 1) reply)
                   = JS.Num (CDPClient.messageId (client w) + 1))
      by now destruct reply.
    assert (Hentry : CDPClient.pendingCommands c1
                       !! (CDPClient.messageId (client w) + 1) = Some p)
      by (rewrite Hpend; apply lookup_insert_eq).
    destruct (handleMessage_Obj
                (reply_frame (CDPClient.messageId (client w) + 1) reply) c1)
      as [(id' & p' & Hid' & Hp' & Hh)|[Hnone _]].
    + rewrite Hkey in Hid'. injection Hid' as <-.
      rewrite Hentry in Hp'. injection Hp' as <-.
      rewrite Hh, (settled_reply _ _ _ method).
      eexists. split; [reflexivity|]. cbn [client clock].
      split; [eapply wf_delete; [exact Hwf1|reflexivity..]|].
      split; [exact Hws1|]. split; [exact Hm|]. split; [exact Htid1|].
      split; [apply lookup_delete_eq|reflexivity].
    + exfalso. specialize (Hnone _ Hkey). congruence.
  - destruct (settled_timeout _ _ _ _ _ _ Hwf Hsend) as [Hset Hnone].
    pose proof (wf_step (CDPClient.Tick (clock w + CDPClient.COMMAND_TIMEOUT))
                  c1 Hwf1) as Hwf2.
    destruct (tick_fields (clock w + CDPClient.COMMAND_TIMEOUT) c1)
      as (Hm2 & Hws2 & Htid2).
    cbn [CDPClient.step] in Hwf2. rewrite Hm in Hnone.
    destruct (CDPClient.tick (clock w + CDPClient.COMMAND_TIMEOUT) c1)
      as [c2 effs].
    cbn [fst snd] in *. rewrite Hset.
    eexists. split; [reflexivity|]. cbn [client clock].
    split; [exact Hwf2|]. split; [congruence|]. split; [congruence|].
    split; [congruence|]. split; [exact Hnone|reflexivity].
Qed.

(** Without an open socket [send] throws at once and writes nothing. *)
Lemma send_unattached w method params :
  ~ attached w ->
  send browser method params w =
    (Some (JS.Throw (JS.Error "Not connected to Chrome")), w).
Proof.
  intros Hno. unfold send, CDPClient.send.
  destruct (CDPClient.ws (client w)) as [s|] eqn:Hws; [|reflexivity].
  destruct (decide (Ws.readyState s = Ws.OPEN)) as [Hopen|Hclosed];
    [|reflexivity].
  exfalso. apply Hno. exists s. now split.
Qed.

Lemma attach_when_attached w :
  is_Some (CDPClient.ws (client w)) ->
  attach_unless_attached browser w = (Some (JS.Normal tt), w).
Proof. intros [s Hs]. unfold attach_unless_attached. now rewrite Hs. Qed.

(** An awaited [send] always settles.  On a reachable client whose socket is
    open, the call puts one frame on the wire and its promise settles: with
    the browser's result, with the browser's error message, or, if the
    browser does not answer, after exactly the 30 seconds of the timer with
    the timeout error.  In every case the command has left the table and the
    socket is still open. *)
Theorem awaited_send_settles w method params :
  CDPClient.reachable (client w) -> attached w ->
  let id := CDPClient.messageId (client w) + 1 in
  exists w',
    send browser method params w =
      (Some (result_of method (answer browser id method params)), w')
    /\ wire w' = wire w ++ [command id method params]
    /\ attached w'
    /\ CDPClient.pendingCommands (client w') !! id = None
    /\ clock w' = match answer browser id method params with
                  | Some _ => clock w
                  | None => clock w + 30000
                  end.
Proof.
  intros Hreach (s & Hws & Hopen). cbv zeta.
  destruct (send_spec w method params s (reachable_wf _ Hreach) Hws Hopen)
    as (w' & Hsend & _ & Hws' & _ & _ & Hgone & Hclock).
  exists w'. split; [exact Hsend|].
  split; [unfold wire; now rewrite Hws, Hws'|].
  split; [eexists; split; [exact Hws'|reflexivity]|].
  split; [exact Hgone|exact Hclock].
Qed.

(** A click is a press followed by a release, and stops at the first
    failure.  On a reachable client whose socket is open, [click] sends
    [mousePressed] under the next id; if the browser answers it with a
    result, [click] sends [mouseReleased] under the id after that and ends
    as that second command does; if the press is answered with an error or
    not at all, [click] throws that error and the release is never sent. *)
Theorem click_presses_then_releases w x y :
  CDPClient.reachable (client w) -> attached w ->
  let id := CDPClient.messageId (client w) + 1 in
  let press := mouse_event "mousePressed" x y in
  let release := mouse_event "mouseReleased" x y in
  let first := answer browser id "Input.dispatchMouseEvent" press in
  let second := answer browser (id + 1) "Input.dispatchMouseEvent" release in
  exists w',
    match first with
    | Some (inl _) =>
        click browser x y w =
          (Some match result_of "Input.dispatchMouseEvent" second with
                | JS.Normal _ => JS.Normal JS.Undefined
                | JS.Throw e => JS.Throw e
                end, w')
        /\ wire w' =
             wire w ++ [ command id "Input.dispatchMouseEvent" press;
                         command (id + 1) "Input.dispatchMouseEvent" release ]
    | _ =>
        click browser x y w =
          (Some (result_of "Input.dispatchMouseEvent" first), w')
        /\ wire w' = wire w ++ [command id "Input.dispatchMouseEvent" press]
    end.
Proof.
  intros Hreach (s & Hws & Hopen). cbv zeta.
  pose proof (reachable_wf _ Hreach) as Hwf.
  destruct (send_spec w "Input.dispatchMouseEvent"
              (mouse_event "mousePressed" x y) s Hwf Hws Hopen)
    as (w1 & Hsend1 & Hwf1 & Hws1 & Hm1 & _ & _ & _).
  unfold click, bind. rewrite attach_when_attached by (rewrite Hws; eauto).
  rewrite Hsend1.
  assert (Hwire : wire w = Ws.wire s) by (unfold wire; now rewrite Hws).
  rewrite Hwire.
  destruct (answer browser (CDPClient.messageId (client w) + 1)
              "Input.dispatchMouseEvent" (mouse_event "mousePressed" x y))
    as [[result|message]|]; cbn [result_of].
  - destruct (send_spec w1 "Input.dispatchMouseEvent"
                (mouse_event "mouseReleased" x y) _ Hwf1 Hws1 eq_refl)
      as (w2 & Hsend2 & _ & Hws2 & _).
    rewrite Hm1 in Hsend2, Hws2. rewrite Hsend2. exists w2.
    split.
    + destruct (result_of "Input.dispatchMouseEvent" (answer browser _ _ _));
        reflexivity.
    + unfold wire. rewrite Hws2. cbn [Ws.wire]. now rewrite <- app_assoc.
  - exists w1. split; [reflexivity|]. unfold wire. now rewrite Hws1.
  - exists w1. split; [reflexivity|]. unfold wire. now rewrite Hws1.
Qed.

Lemma type_chars_spec (chars : list JS.value) w s :
  CDPClient.wf (client w) ->
  CDPClient.ws (client w) = Some s -> Ws.readyState s = Ws.OPEN ->
  exists r w' n,
    type_chars browser chars w = (Some r, w')
    /\ wire w' =
         Ws.wire s
         ++ take n (numbered (CDPClient.messageId (client w) + 1)
                      "Input.dispatchKeyEvent" (keystrokes chars))
    /\ ((r = JS.Normal JS.Undefined
         /\ n = length (keystrokes chars)
         /\ forall i ps,
              keystrokes chars !! i = Some ps ->
              exists v,
                answer browser (CDPClient.messageId (client w) + 1 + Z.of_nat i)
                  "Input.dispatchKeyEvent" ps = Some (inl v))
        \/ (exists e k ps,
              r = JS.Throw e /\ n = S k
              /\ keystrokes chars !! k = Some ps
              /\ result_of "Input.dispatchKeyEvent"
                   (answer browser
                      (CDPClient.messageId (client w) + 1 + Z.of_nat k)
                      "Input.dispatchKeyEvent" ps) = JS.Throw e
              /\ forall i ps',
                   (i < k)%nat -> keystrokes chars !! i = Some ps' ->
                   exists v,
                     answer browser
                       (CDPClient.messageId (client w) + 1 + Z.of_nat i)
                       "Input.dispatchKeyEvent" ps' = Some (inl v))).
Proof.
  revert w s. induction chars as [|char rest IH]; intros w s Hwf Hws Hopen.
  - exists (JS.Normal JS.Undefined), w, O. split; [reflexivity|].
    split; [unfold wire; rewrite Hws; cbn; now rewrite app_nil_r|].
    left. split; [reflexivity|]. split; [reflexivity|].
    intros i ps Hi. cbn in Hi. now rewrite lookup_nil in Hi.
  - set (id0 := CDPClient.messageId (client w) + 1) in *.
    set (down := key_event "keyDown" char).
    set (up := key_event "keyUp" char).
    assert (Hks : keystrokes (char :: rest) = down :: up :: keystrokes rest)
      by reflexivity.
    assert (Hnum : numbered id0 "Input.dispatchKeyEvent"
                     (keystrokes (char :: rest)) =
                   command id0 "Input.dispatchKeyEvent" down
                   :: command (id0 + 1) "Input.dispatchKeyEvent" up
                   :: numbered (id0 + 1 + 1) "Input.dispatchKeyEvent"
                        (keystrokes rest))
      by reflexivity.
    rewrite Hnum, Hks. clear Hnum.
    destruct (send_spec w "Input.dispatchKeyEvent" down s Hwf Hws Hopen)
      as (w1 & Hsend1 & Hwf1 & Hws1 & Hm1 & _).
    fold id0 in Hsend1, Hws1, Hm1.
    cbn [type_chars]. unfold bind at 1. fold down up. rewrite Hsend1.
    destruct (answer browser id0 "Input.dispatchKeyEvent" down)
      as [[v1|message1]|] eqn:Hans1; cbn [result_of].
    2,3: eexists _, w1, 1%nat; split; [reflexivity|];
         split; [unfold wire; now rewrite Hws1|];
         right; eexists _, O, down;
         split; [reflexivity|]; split; [reflexivity|];
         split; [reflexivity|];
         split; [rewrite Z.add_0_r, Hans1; reflexivity|];
         intros i ps' Hlt; lia.
    destruct (send_spec w1 "Input.dispatchKeyEvent" up _ Hwf1 Hws1 eq_refl)
      as (w2 & Hsend2 & Hwf2 & Hws2 & Hm2 & _).
    rewrite Hm1 in Hsend2, Hws2, Hm2. cbn [Ws.wire] in Hws2.
    unfold bind at 1. rewrite Hsend2.
    assert (Hfirst : forall i ps',
               (i < 1)%nat -> (down :: up :: keystrokes rest) !! i = Some ps' ->
               exists v, answer browser (id0 + Z.of_nat i)
                           "Input.dispatchKeyEvent" ps' = Some (inl v)).
    { intros i ps' Hlt Hi. assert (i = O) by lia. subst i.
      cbn in Hi. injection Hi as <-. rewrite Z.add_0_r. eauto. }
    destruct (answer browser (id0 + 1) "Input.dispatchKeyEvent" up)
      as [[v2|message2]|] eqn:Hans2; cbn [result_of].
    2,3: eexists _, w2, 2%nat; split; [reflexivity|];
         split; [unfold wire; rewrite Hws2; cbn [Ws.wire take];
                 now rewrite <- app_assoc|];
         right; eexists _, 1%nat, up;
         split; [reflexivity|]; split; [reflexivity|];
         split; [reflexivity|];
         split; [change (Z.of_nat 1) with 1; rewrite Hans2; reflexivity|];
         exact Hfirst.
    destruct (IH w2 _ Hwf2 Hws2 eq_refl)
      as (r & w' & n & Hrun & Hwire & Hcases).
    rewrite Hm2 in Hwire, Hcases. cbn [Ws.wire] in Hwire.
    exists r, w', (S (S n)). split; [exact Hrun|].
    split; [rewrite Hwire; cbn [take]; rewrite <- !app_assoc; reflexivity|].
    assert (Hshift : forall i ps',
               (down :: up :: keystrokes rest) !! S (S i) = Some ps' ->
               keystrokes rest !! i = Some ps'
               /\ id0 + Z.of_nat (S (S i)) = id0 + 1 + 1 + Z.of_nat i).
    { intros i ps' Hi. split; [exact Hi|lia]. }
    assert (Hhead : forall i ps',
               (i < 2)%nat -> (down :: up :: keystrokes rest) !! i = Some ps' ->
               exists v, answer browser (id0 + Z.of_nat i)
                           "Input.dispatchKeyEvent" ps' = Some (inl v)).
    { intros [|[|i]] ps' Hlt Hi; [| |lia].
      - cbn in Hi. injection Hi as <-. rewrite Z.add_0_r. eauto.
      - cbn in Hi. injection Hi as <-. change (Z.of_nat 1) with 1. eauto. }
    destruct Hcases as [(-> & -> & Hall)|(e & k & ps & -> & -> & Hk & Hfail & Hbefore)].
    + left. split; [reflexivity|]. split; [reflexivity|].
      intros [|[|i]] ps' Hi; [apply Hhead; [lia|exact Hi]..|].
      destruct (Hshift i ps' Hi) as [Hi' ->]. apply Hall, Hi'.
    + right. exists e, (S (S k)), ps.
      split; [reflexivity|]. split; [reflexivity|]. split; [exact Hk|].
      split.
      { replace (id0 + Z.of_nat (S (S k))) with (id0 + 1 + 1 + Z.of_nat k)
          by lia. exact Hfail. }
      intros [|[|i]] ps' Hlt Hi; [apply Hhead; [lia|exact Hi]..|].
      destruct (Hshift i ps' Hi) as [Hi' ->]. apply Hbefore; [lia|exact Hi'].
Qed.

(** Typing is key-down then key-up per character, in order, and stops at
    the first command that fails.  On a reachable client whose socket is
    open, [type] sends a prefix of the key events of the text under
    consecutive ids.  It returns only when every event was sent and answered
    with a result; when it throws, the error is that of the last event sent
    (the browser's error or the timeout), every event before that one was
    answered with a result, and nothing after it was sent. *)
Theorem typing_is_fail_stop
    (code_points : string -> list string) (text : JS.value)
    (chars : list JS.value) w :
  CDPClient.reachable (client w) -> attached w ->
  iterate code_points text = JS.Normal chars ->
  let id := CDPClient.messageId (client w) + 1 in
  let events := keystrokes chars in
  exists r w' n,
    type browser code_points text w = (Some r, w')
    /\ wire w' =
         wire w ++ take n (numbered id "Input.dispatchKeyEvent" events)
    /\ ((r = JS.Normal JS.Undefined
         /\ n = (2 * length chars)%nat
         /\ forall i ps,
              events !! i = Some ps ->
              exists v,
                answer browser (id + Z.of_nat i) "Input.dispatchKeyEvent" ps
                  = Some (inl v))
        \/ (exists e k ps,
              r = JS.Throw e /\ n = S k
              /\ events !! k = Some ps
              /\ result_of "Input.dispatchKeyEvent"
                   (answer browser (id + Z.of_nat k) "Input.dispatchKeyEvent" ps)
                 = JS.Throw e
              /\ forall i ps',
                   (i < k)%nat -> events !! i = Some ps' ->
                   exists v,
                     answer browser (id + Z.of_nat i)
                       "Input.dispatchKeyEvent" ps' = Some (inl v))).
Proof.
  intros Hreach (s & Hws & Hopen) Hchars. cbv zeta.
  destruct (type_chars_spec chars w s (reachable_wf _ Hreach) Hws Hopen)
    as (r & w' & n & Hrun & Hwire & Hcases).
  exists r, w', n. split.
  { unfold type, bind. rewrite attach_when_attached by (rewrite Hws; eauto).
    unfold lift. rewrite Hchars. exact Hrun. }
  split; [unfold wire at 2; rewrite Hws; exact Hwire|].
  destruct Hcases as [(Hr & Hn & Hall)|Hfail]; [left|right; exact Hfail].
  split; [exact Hr|]. split; [|exact Hall].
  rewrite Hn. unfold keystrokes. clear.
  induction chars as [|char rest IH]; [reflexivity|].
  cbn [flat_map length app]. rewrite IH. lia.
Qed.

(** [navigate] attaches only when the client holds no socket.  With a
    browser whose listing is [targets] and whose sockets open: a client
    without a socket selects the first page target of the listing; if the
    socket constructor accepts the debugger address of that target, the
    client attaches to it and sends [Page.navigate] as the first frame of the
    new socket; if the constructor refuses the address, [navigate] fails with
    the constructor's error, the target's id recorded and still no socket
    held; when the listing has no page, [navigate] throws
    [No suitable target found] and changes nothing.  A client with an open
    socket sends on that socket and stays on its target; a client that holds
    a socket which is not open (still connecting, or closing) does not
    attach again: [navigate] throws [Not connected to Chrome] and changes
    nothing. *)
Theorem navigate_attaches_lazily w url (targets : list Target.t) :
  CDPClient.reachable (client w) ->
  listing browser = JS.Normal targets ->
  opening browser = Some None ->
  let id := CDPClient.messageId (client w) + 1 in
  let params := JS.Obj [("url", url)] in
  let result := result_of "Page.navigate" (answer browser id "Page.navigate" params) in
  match CDPClient.ws (client w) with
  | None =>
      match List.find (fun t => JS.strict_eq (Target.type t) (JS.Str "page"))
              targets with
      | Some target =>
          match refused browser (Target.webSocketDebuggerUrl target) with
          | None =>
              exists w',
                navigate browser url w = (Some result, w')
                /\ CDPClient.targetId (client w') = Target.id target
                /\ wire w' = [command id "Page.navigate" params]
          | Some message =>
              navigate browser url w =
                (Some (JS.Throw (JS.SyntaxError message)),
                 {| client := CDPClient.with_targetId (Target.id target) (client w);
                    clock := clock w |})
          end
      | None =>
          navigate browser url w =
            (Some (JS.Throw (JS.Error "No suitable target found")), w)
      end
  | Some s =>
      if decide (Ws.readyState s = Ws.OPEN) then
        exists w',
          navigate browser url w = (Some result, w')
          /\ CDPClient.targetId (client w') = CDPClient.targetId (client w)
          /\ wire w' = wire w ++ [command id "Page.navigate" params]
      else
        navigate browser url w =
          (Some (JS.Throw (JS.Error "Not connected to Chrome")), w)
  end.
Proof.
  intros Hreach Hlisting Hopening. cbv zeta.
  pose proof (reachable_wf _ Hreach) as Hwf.
  destruct (CDPClient.ws (client w)) as [s|] eqn:Hws.
  - unfold navigate, bind.
    rewrite attach_when_attached by (rewrite Hws; eauto).
    destruct (decide (Ws.readyState s = Ws.OPEN)) as [Hopen|Hclosed].
    + destruct (send_spec w "Page.navigate" (JS.Obj [("url", url)]) s
                  Hwf Hws Hopen)
        as (w' & Hsend & _ & Hws' & _ & Htid & _).
      exists w'. split; [exact Hsend|]. split; [exact Htid|].
      unfold wire. now rewrite Hws, Hws'.
    + apply send_unattached. intros (s' & Hs' & Hopen').
      rewrite Hws in Hs'. injection Hs' as <-. contradiction.
  - destruct (List.find _ targets) as [target|] eqn:Hfind;
      [destruct (refused browser (Target.webSocketDebuggerUrl target))
         as [message|] eqn:Hurl|];
      unfold navigate, bind at 1, attach_unless_attached; rewrite Hws;
      unfold bind, connectToTarget, CDPClient.connectToTarget, Ws.construct;
      rewrite Hlisting; cbn [JS.truthy]; rewrite Hfind, ?Hurl;
      [reflexivity| |destruct w; reflexivity].
    rewrite Hopening. cbn [ret].
    match goal with
    | |- context [send browser _ _ ?w1] =>
        destruct (send_spec w1 "Page.navigate" (JS.Obj [("url", url)])
                    {| Ws.readyState := Ws.OPEN; Ws.wire := [] |})
          as (w' & Hsend & _ & Hws' & _ & Htid & _)
    end.
    + cbn [client]. eapply wf_same; [exact Hwf|reflexivity..].
    + reflexivity.
    + reflexivity.
    + cbn [client CDPClient.on_open CDPClient.messageId CDPClient.targetId
             CDPClient.with_ws CDPClient.with_targetId]
        in Hsend, Hws', Htid.
      exists w'. split; [exact Hsend|]. split; [exact Htid|].
      unfold wire. now rewrite Hws'.
Qed.

(** *** Every method settles *)

Lemma terminates_ret {A} (a : A) : terminates (ret a).
Proof. intros w Hwf. now exists (JS.Normal a), w. Qed.

Lemma terminates_throw {A} (e : JS.exn) : terminates (@throw A e).
Proof. intros w Hwf. now exists (JS.Throw e), w. Qed.

Lemma terminates_lift {A} (c : JS.completion A) : terminates (lift c).
Proof. intros w Hwf. now exists c, w. Qed.

Lemma terminates_bind {A B} (m : M A) (k : A -> M B) :
  terminates m -> (forall a, terminates (k a)) -> terminates (bind m k).
Proof.
  intros Hm Hk w Hwf. unfold bind.
  destruct (Hm w Hwf) as ([a|e] & w1 & -> & Hwf1).
  - apply Hk, Hwf1.
  - now exists (JS.Throw e), w1.
Qed.

Lemma terminates_send method params : terminates (send browser method params).
Proof.
  intros w Hwf.
  destruct (CDPClient.ws (client w)) as [s|] eqn:Hws.
  - destruct (decide (Ws.readyState s = Ws.OPEN)) as [Hopen|Hclosed].
    + destruct (send_spec w method params s Hwf Hws Hopen)
        as (w' & -> & Hwf' & _). eauto.
    + rewrite send_unattached; [eauto|].
      intros (s' & Hs' & Hopen'). rewrite Hws in Hs'. injection Hs' as <-.
      contradiction.
  - rewrite send_unattached; [eauto|].
    intros (s' & Hs' & _). congruence.
Qed.

Lemma terminates_connectToTarget targetId :
  responsive browser -> terminates (connectToTarget browser targetId).
Proof.
  intros [Hopening _] w Hwf. unfold connectToTarget.
  pose proof (wf_step (CDPClient.Connect (refused browser) targetId
                         (listing browser))
                (client w) Hwf) as Hwf1.
  cbn [CDPClient.step] in Hwf1.
  destruct (CDPClient.connectToTarget (refused browser) targetId
              (listing browser) (client w))
    as [c1 [[target effs]|e]]; cbn [fst] in Hwf1; [|eauto].
  destruct (opening browser) as [[message|]|]; [| |contradiction].
  - eexists _, _. split; [reflexivity|].
    apply (wf_step CDPClient.SocketClose c1 Hwf1).
  - eexists _, _. split; [reflexivity|].
    apply (wf_step CDPClient.SocketOpen c1 Hwf1).
Qed.

Lemma terminates_attach_unless_attached :
  responsive browser -> terminates (attach_unless_attached browser).
Proof.
  intros Hresp w Hwf. unfold attach_unless_attached.
  destruct (CDPClient.ws (client w)); [now exists (JS.Normal tt), w|].
  apply terminates_bind; [now apply terminates_connectToTarget| |exact Hwf].
  intros _. apply terminates_ret.
Qed.

Lemma terminates_createTab url :
  responsive browser -> terminates (createTab browser url).
Proof.
  intros [_ Hcreates] w Hwf. unfold createTab.
  destruct (creates browser url) as [r|] eqn:Hr; [eauto|].
  now apply Hcreates in Hr.
Qed.

Lemma terminates_getTabsInfo : terminates (getTabsInfo browser).
Proof.
  intros w Hwf. unfold getTabsInfo. destruct (listing browser); eauto.
Qed.

End CallFacts.

Create HintDb terminates.

#[local] Hint Resolve terminates_ret terminates_throw terminates_lift
  terminates_send terminates_connectToTarget terminates_attach_unless_attached
  terminates_createTab terminates_getTabsInfo : terminates.

(** Peels a method apart along its [await]s and branches. *)
Ltac settle :=
  repeat first
    [ progress auto with terminates
    | apply terminates_bind; [|intros ?]
    | match goal with
      | |- CDPCalls.terminates (if ?b then _ else _) => destruct b
      | |- CDPCalls.terminates (match ?x with _ => _ end) => destruct x
      end ].

Section MethodFacts.
Import CDPCalls.
Variable browser : chrome.
Hypothesis browser_responsive : responsive browser.

Lemma terminates_navigate url : terminates (navigate browser url).
Proof. unfold navigate. settle. Qed.

Lemma terminates_takeScreenshot options :
  terminates (takeScreenshot browser options).
Proof. unfold takeScreenshot. settle. Qed.

Lemma terminates_executeScript script :
  terminates (executeScript browser script).
Proof. unfold executeScript. settle. Qed.

Lemma terminates_click x y : terminates (click browser x y).
Proof. unfold click. settle. Qed.

Lemma terminates_type_chars chars : terminates (type_chars browser chars).
Proof. induction chars as [|char rest IH]; cbn [type_chars]; settle. Qed.

Lemma terminates_type code_points text :
  terminates (type browser code_points text).
Proof. unfold type. settle. apply terminates_type_chars. Qed.

End MethodFacts.

#[local] Hint Resolve terminates_navigate terminates_takeScreenshot
  terminates_executeScript terminates_click terminates_type : terminates.

(** ** The tool handlers of the host *)

Section HandlerFacts.
Import CDPCalls ToolHandlers.
Variable rt : runtime.
Variable browser : chrome.
Hypothesis browser_responsive : responsive browser.

Lemma terminates_attach args : terminates (attach browser args).
Proof. unfold attach. settle. Qed.

Lemma terminates_sleep delay : terminates (sleep rt delay).
Proof.
  intros w Hwf. unfold sleep. eexists _, _. split; [reflexivity|].
  cbn [client]. apply (wf_step (CDPClient.Tick _) _ Hwf).
Qed.

#[local] Hint Resolve terminates_attach terminates_sleep : terminates.

Lemma terminates_handleCreateTab args :
  terminates (handleCreateTab browser args).
Proof. unfold handleCreateTab. settle. Qed.

Lemma terminates_handleNavigate args :
  terminates (handleNavigate browser args).
Proof. unfold handleNavigate. settle. Qed.

Lemma terminates_handleComputer args :
  terminates (handleComputer rt browser args).
Proof. unfold handleComputer. settle. Qed.

Lemma terminates_handleReadPage args :
  terminates (handleReadPage rt browser args).
Proof. unfold handleReadPage. settle. Qed.

Lemma terminates_handleGetPageText args :
  terminates (handleGetPageText browser args).
Proof. unfold handleGetPageText. settle. Qed.

Lemma terminates_handleJavaScript args :
  terminates (handleJavaScript browser args).
Proof. unfold handleJavaScript. settle. Qed.

Lemma terminates_handleFind args : terminates (handleFind rt browser args).
Proof. unfold handleFind. settle. Qed.

Lemma terminates_handleFormInput args :
  terminates (handleFormInput rt browser args).
Proof. unfold handleFormInput. settle. Qed.

Lemma terminates_handleConsoleLogs args :
  terminates (handleConsoleLogs rt browser args).
Proof. unfold handleConsoleLogs. settle. Qed.

Lemma terminates_tabs_context args tabs :
  terminates (tabs_context browser args tabs).
Proof. unfold tabs_context. destruct tabs; settle. Qed.

Lemma same_relay_refl self : same_relay self self.
Proof. now split. Qed.

Lemma same_relay_wf self self' :
  same_relay self self' -> CDPHost.wf self -> CDPHost.wf self'.
Proof.
  intros (Hc & Hr & Hn) [Hroutes Hclients Hcounter].
  constructor; rewrite ?Hc, ?Hr, ?Hn; assumption.
Qed.

Lemma plain_settles {A} (m : M A) self w :
  terminates m -> CDPClient.wf (client w) ->
  exists r w',
    plain m self w = (Some r, self, w') /\ CDPClient.wf (client w').
Proof.
  intros Hm Hwf. unfold plain.
  destruct (Hm w Hwf) as (r & w' & -> & Hwf'). eauto.
Qed.

(** Listing the tabs never touches the debugger socket; the flag tells how
    the last listing went. *)
Lemma handleTabsContext_cases args self w :
  exists r self',
    handleTabsContext browser args self w = (Some r, self', w)
    /\ same_relay self self'
    /\ CDPHost.chromeConnected self' =
         match r with JS.Normal _ => true | JS.Throw _ => false end.
Proof.
  unfold handleTabsContext, getTabsInfo.
  destruct (listing browser) as [targets|e].
  2: { eexists _, _. split; [reflexivity|]. now split. }
  set (tabs := map _ _). clearbody tabs.
  assert (Hinner : exists r, tabs_context browser args tabs w = (Some r, w)).
  { unfold tabs_context. destruct tabs as [|tab tabs]; [|eexists; reflexivity].
    unfold bind, lift.
    destruct (JS.prop args "createIfEmpty") as [flag|e]; [|eauto].
    destruct (JS.truthy flag); [|eexists; reflexivity].
    unfold createTab.
    destruct browser_responsive as [_ Hcreates].
    destruct (creates browser JS.Undefined) as [[newTab|e]|] eqn:Hnew;
      [| eauto | now apply Hcreates in Hnew].
    destruct (JS.prop newTab "id"); eexists; reflexivity. }
  destruct Hinner as [[result|e] ->];
    eexists _, _; (split; [reflexivity|]); now split.
Qed.

Lemma handler_settles toolName args self w :
  CDPClient.wf (client w) ->
  exists r self' w',
    handler rt browser toolName args self w = (Some r, self', w')
    /\ same_relay self self'
    /\ CDPClient.wf (client w').
Proof.
  intros Hwf. unfold handler.
  destruct (String.eqb toolName "tabs_context_mcp").
  { destruct (handleTabsContext_cases args self w) as (r & self' & -> & Hsame & _).
    eauto 6. }
  repeat match goal with
         | |- context [if ?b then _ else _] => destruct b
         end;
    match goal with
    | |- context [plain ?m self w] =>
        destruct (plain_settles m self w) as (r & w' & -> & Hwf');
        [|exact Hwf|exists r, self, w'; split; [reflexivity|];
                    split; [apply same_relay_refl|exact Hwf']]
    end.
  - apply terminates_handleCreateTab.
  - apply terminates_handleNavigate.
  - apply terminates_handleComputer.
  - apply terminates_handleReadPage.
  - apply terminates_handleGetPageText.
  - apply terminates_handleJavaScript.
  - apply terminates_handleFind.
  - apply terminates_handleFormInput.
  - apply terminates_handleConsoleLogs.
  - apply terminates_throw.
Qed.

(** Every tool call is answered exactly once.  With a browser side that
    lets connection attempts and tab requests end, on a reachable host with
    a reachable client and nothing else going on: a message from a
    registered session that names a tool of the table, under an id that
    converts to a string, always reaches the end of [handleToolCall],
    whatever the arguments are and whatever the browser answers, fails to
    answer, or refuses.  Exactly one envelope for the
    message's id, a result or an error, is put on the wire of the session
    that sent the message (nothing if its socket is not open); the id is
    left without a route; the other routes and the other sessions are
    untouched. *)
Theorem tool_call_answered_once
    (s : system) (S : Z) (session : WSClient.t) (message id : JS.value)
    (toolName : string) :
  CDPHost.reachable (host s) ->
  CDPClient.reachable (client (cdp s)) ->
  CDPHost.clients (host s) !! S = Some session ->
  JS.prop message "id" = JS.Normal id ->
  JS.stringifies id = true ->
  CDPHost.known_tool (CDPHost.tool_name (JS.get message "payload"))
    = Some toolName ->
  exists s' outcome,
    serve rt browser S message s = Some (JS.Normal s')
    /\ CDPHost.wire_of S (host s') =
         CDPHost.wire_of S (host s)
         ++ (if decide (Ws.readyState (WSClient.ws session) = Ws.OPEN)
             then [CDPHost.response (clock (cdp s')) id outcome] else [])
    /\ CDPHost.requestToClient (host s') !! JS.to_String id = None
    /\ (forall reqId, reqId <> JS.to_String id ->
          CDPHost.requestToClient (host s') !! reqId
            = CDPHost.requestToClient (host s) !! reqId)
    /\ (forall c, c <> S ->
          CDPHost.clients (host s') !! c = CDPHost.clients (host s) !! c).
Proof.
  intros Hhost Hclient HS Hid Hstr Hknown.
  pose proof (reachable_wf_host _ Hhost) as Hwf.
  pose proof (reachable_wf _ Hclient) as Hwfc.
  unfold serve.
  destruct (onMessage_cases S (clock (cdp s)) message id (host s) Hwf
              (ex_intro _ _ HS) (known_handled _ _ _ Hid Hstr Hknown))
    as [(name & Hname & ->)|(Hnone & _)]; [|congruence].
  rewrite Hknown in Hname. injection Hname as <-.
  cbn [started].
  set (host1 := {| CDPHost.clients := CDPHost.clients (host s);
                   CDPHost.requestToClient :=
                     <[JS.to_String id := S]> (CDPHost.requestToClient (host s));
                   CDPHost.clientCounter := CDPHost.clientCounter (host s);
                   CDPHost.chromeConnected := CDPHost.chromeConnected (host s) |}).
  assert (Hwf1 : CDPHost.wf host1) by (apply wf_record; eauto).
  destruct (handler_settles toolName
              (CDPHost.tool_args (JS.get message "payload")) host1 (cdp s) Hwfc)
    as (r & host2 & w2 & -> & Hsame & _).
  pose proof (same_relay_wf _ _ Hsame Hwf1) as Hwf2.
  destruct Hsame as (Hc & Hr & _).
  set (outcome := match r with
                  | JS.Normal result => inl result
                  | JS.Throw e => inr (message_of e)
                  end).
  destruct (complete_delivery (clock w2) id outcome host2 S Hwf2)
    as (session' & host3 & logs & Hsession & -> & _ & Hroutes & Hwire & Hothers).
  { rewrite Hr. cbn. apply lookup_insert_eq. }
  rewrite Hc in Hsession. cbn in Hsession.
  assert (session' = session) by congruence. subst session'.
  exists {| host := host3; cdp := w2 |}, outcome.
  split; [reflexivity|]. cbn [host cdp].
  split.
  { rewrite Hwire. unfold CDPHost.wire_of. rewrite Hc. reflexivity. }
  split; [rewrite Hroutes; apply lookup_delete_eq|].
  split.
  { intros reqId Hne. rewrite Hroutes, Hr. cbn.
    rewrite lookup_delete_ne, lookup_insert_ne by congruence. reflexivity. }
  intros c Hne. rewrite (Hothers c Hne), Hc. reflexivity.
Qed.

Lemma find_head_of_filter {A} (f : A -> bool) (l : list A) (x : A) :
  List.find f l = Some x -> exists rest, List.filter f l = x :: rest.
Proof.
  induction l as [|y l IH]; cbn [List.find List.filter]; [discriminate|].
  destruct (f y); [intros [= ->]; eauto|exact IH].
Qed.

(** Listing the tabs.  [handleTabsContext] works through the HTTP endpoint
    only: the client, its socket and the clock are as before, and so are the
    sessions and routes of the host.  The flag [chromeConnected] ends up
    telling how the call went: true after a result (and while a tab request
    that never ends is pending), false after a throw, and what is thrown is
    always the [Chrome not available] error wrapping the cause.  When the
    listing has a page target, the result holds exactly the page targets of
    the listing, in order, and names the first one as active, whatever
    [createIfEmpty] says. *)
Theorem tabs_listing_sets_flag (args : JS.value) (self : CDPHost.t) (w : world) :
  exists r self',
    handleTabsContext browser args self w = (r, self', w)
    /\ same_relay self self'
    /\ match r with
       | Some (JS.Normal _) | None => CDPHost.chromeConnected self' = true
       | Some (JS.Throw e) =>
           CDPHost.chromeConnected self' = false
           /\ exists cause, e = unavailable cause
       end
    /\ forall targets target,
         listing browser = JS.Normal targets ->
         List.find (fun t => JS.strict_eq (Target.type t) (JS.Str "page")) targets
           = Some target ->
         r = Some (JS.Normal
                     (JS.Obj
                        [ ("tabs",
                           JS.Arr
                             (map (fun t => JS.Obj [ ("id", Target.id t);
                                                     ("title", Target.title t);
                                                     ("url", Target.url t) ])
                                (List.filter
                                   (fun t => JS.strict_eq (Target.type t)
                                               (JS.Str "page")) targets)));
                          ("activeTabId", Target.id target) ])).
Proof.
  unfold handleTabsContext, getTabsInfo.
  destruct (listing browser) as [targets|e].
  2: { eexists _, _. split; [reflexivity|]. split; [now split|].
       split; [split; [reflexivity|eauto]|]. intros ? ? [=]. }
  destruct (List.find (fun t => JS.strict_eq (Target.type t) (JS.Str "page"))
              targets) as [target|] eqn:Hfind.
  - destruct (find_head_of_filter _ _ _ Hfind) as [rest Hrest].
    rewrite Hrest. cbn [map tabs_context ret].
    eexists _, _. split; [reflexivity|]. split; [now split|].
    split; [reflexivity|].
    intros targets' target' [= <-] Hfind'. rewrite Hfind in Hfind'.
    injection Hfind' as <-. rewrite Hrest. reflexivity.
  - assert (Hnone : List.filter
                      (fun t => JS.strict_eq (Target.type t) (JS.Str "page"))
                      targets = []).
    { clear -Hfind. induction targets as [|t targets IH]; [reflexivity|].
      cbn [List.find List.filter] in *.
      destruct (JS.strict_eq (Target.type t) (JS.Str "page"));
        [discriminate|auto]. }
    rewrite Hnone. cbn [map tabs_context]. unfold bind, lift, createTab, ret.
    assert (Hlast : forall targets' target',
               JS.Normal targets = JS.Normal targets' ->
               List.find
                 (fun t => JS.strict_eq (Target.type t) (JS.Str "page")) targets'
                 = Some target' -> False).
    { intros targets' target' [= <-] Hfind'. congruence. }
    destruct (JS.prop args "createIfEmpty") as [flag|e].
    2: { eexists _, _. split; [reflexivity|]. split; [now split|].
         split; [split; [reflexivity|eauto]|].
         intros ? ? H1 H2. destruct (Hlast _ _ H1 H2). }
    destruct (JS.truthy flag).
    2: { eexists _, _. split; [reflexivity|]. split; [now split|].
         split; [reflexivity|].
         intros ? ? H1 H2. destruct (Hlast _ _ H1 H2). }
    destruct (creates browser JS.Undefined) as [[newTab|e]|].
    + destruct (JS.prop newTab "id") as [newId|e];
        eexists _, _; (split; [reflexivity|]); (split; [now split|]);
        (split; [first [reflexivity | split; [reflexivity|eauto]]|]);
        intros ? ? H1 H2; destruct (Hlast _ _ H1 H2).
    + eexists _, _. split; [reflexivity|]. split; [now split|].
      split; [split; [reflexivity|eauto]|].
      intros ? ? H1 H2. destruct (Hlast _ _ H1 H2).
    + eexists _, _. split; [reflexivity|]. split; [now split|].
      split; [reflexivity|].
      intros ? ? H1 H2. destruct (Hlast _ _ H1 H2).
Qed.

Lemma tool_args_prop (payload : JS.value) (k : string) :
  JS.prop (CDPHost.tool_args payload) k
    = JS.Normal (JS.get (CDPHost.tool_args payload) k).
Proof.
  unfold CDPHost.tool_args, JS.or_else.
  destruct (JS.truthy (JS.opt_get (JS.opt_get payload "params") "arguments"))
    eqn:H1.
  - now destruct (JS.opt_get (JS.opt_get payload "params") "arguments").
  - destruct (JS.truthy (JS.opt_get payload "arguments")) eqn:H2;
      [|reflexivity].
    now destruct (JS.opt_get payload "arguments").
Qed.

(** An exception in the page reaches the caller as an error.  On a
    reachable host with a reachable client whose socket is open, a
    [javascript_tool] request without [tabId], under an id that converts to
    a string, from a session whose socket is open sends one
    [Runtime.evaluate] command with the request's [text] as expression and
    [returnByValue]; when the browser answers with a result that carries
    [exceptionDetails] whose [text] converts to a string, the session
    receives the error envelope for its id with that text, not a result. *)
Theorem page_exception_reaches_caller
    (s : system) (S : Z) (session : WSClient.t) (message id : JS.value)
    (fields : list (string * JS.value)) :
  CDPHost.reachable (host s) ->
  CDPClient.reachable (client (cdp s)) ->
  attached (cdp s) ->
  CDPHost.clients (host s) !! S = Some session ->
  Ws.readyState (WSClient.ws session) = Ws.OPEN ->
  JS.prop message "id" = JS.Normal id ->
  JS.stringifies id = true ->
  CDPHost.tool_name (JS.get message "payload") = JS.Str "javascript_tool" ->
  let args := CDPHost.tool_args (JS.get message "payload") in
  JS.truthy (JS.get args "tabId") = false ->
  let cmd := CDPClient.messageId (client (cdp s)) + 1 in
  let params := JS.Obj [ ("expression", JS.get args "text");
                         ("returnByValue", JS.Bool true) ] in
  answer browser cmd "Runtime.evaluate" params = Some (inl (JS.Obj fields)) ->
  JS.truthy (JS.assoc "exceptionDetails" fields) = true ->
  JS.stringifies (JS.get (JS.assoc "exceptionDetails" fields) "text") = true ->
  exists s',
    serve rt browser S message s = Some (JS.Normal s')
    /\ wire (cdp s') = wire (cdp s) ++ [command cmd "Runtime.evaluate" params]
    /\ CDPHost.wire_of S (host s') =
         CDPHost.wire_of S (host s)
         ++ [CDPHost.envelope (clock (cdp s)) id "error"
               (JS.Str (CDPClient.error_text
                          (JS.get (JS.assoc "exceptionDetails" fields) "text")))].
Proof.
  intros Hhost Hclient (sock & Hws & Hopen) HS Hsession Hid Hstr Htool.
  intros args Htab cmd params Hanswer Hdetails Htext.
  pose proof (reachable_wf_host _ Hhost) as Hwf.
  pose proof (reachable_wf _ Hclient) as Hwfc.
  unfold serve.
  assert (Hh : CDPHost.handled message id).
  { split; [exact Hid|]. split; [exact Hstr|]. now rewrite Htool. }
  destruct (onMessage_cases S (clock (cdp s)) message id (host s) Hwf
              (ex_intro _ _ HS) Hh)
    as [(name & Hname & ->)|(Hnone & _)].
  2: { rewrite Htool in Hnone. discriminate. }
  rewrite Htool in Hname. injection Hname as <-.
  cbn [started]. fold args.
  set (host1 := {| CDPHost.clients := CDPHost.clients (host s);
                   CDPHost.requestToClient :=
                     <[JS.to_String id := S]> (CDPHost.requestToClient (host s));
                   CDPHost.clientCounter := CDPHost.clientCounter (host s);
                   CDPHost.chromeConnected := CDPHost.chromeConnected (host s) |}).
  assert (Hwf1 : CDPHost.wf host1) by (apply wf_record; eauto).
  change (handler rt browser "javascript_tool" args host1 (cdp s))
    with (plain (handleJavaScript browser args) host1 (cdp s)).
  destruct (send_spec browser (cdp s) "Runtime.evaluate" params sock
              Hwfc Hws Hopen)
    as (w2 & Hsend & _ & Hws2 & _ & _ & _ & Hclock).
  fold cmd in Hsend, Hws2, Hclock. rewrite Hanswer in Hsend, Hclock.
  cbn [result_of] in Hsend.
  assert (Hrun : handleJavaScript browser args (cdp s) =
                   (Some (JS.Throw
                            (JS.Error
                               (CDPClient.error_text
                                  (JS.get (JS.assoc "exceptionDetails" fields)
                                     "text")))), w2)).
  { unfold handleJavaScript, attach, bind at 1, bind at 1, lift.
    unfold args at 1. rewrite tool_args_prop. fold args. rewrite Htab.
    rewrite attach_when_attached by (rewrite Hws; eauto).
    unfold bind at 1, executeScript, bind at 1.
    rewrite attach_when_attached by (rewrite Hws; eauto).
    unfold bind at 1. fold params. rewrite Hsend.
    unfold bind, lift. cbn [JS.prop JS.get]. rewrite Hdetails.
    unfold throw, new_Error. cbn [JS.get] in Htext. now rewrite Htext. }
  unfold plain. rewrite Hrun. unfold message_of. cbn [JS.message_of].
  destruct (complete_delivery (clock w2) id
              (inr (CDPClient.error_text
                      (JS.get (JS.assoc "exceptionDetails" fields) "text")))
              host1 S Hwf1)
    as (session' & host3 & logs & Hsession' & -> & _ & _ & Hwire & _).
  { cbn. apply lookup_insert_eq. }
  cbn in Hsession'. assert (session' = session) by congruence. subst session'.
  eexists. split; [reflexivity|]. cbn [host cdp].
  split; [unfold wire; now rewrite Hws, Hws2|].
  rewrite Hwire, Hclock.
  destruct (decide (Ws.readyState (WSClient.ws session) = Ws.OPEN));
    [reflexivity|contradiction].
Qed.

End HandlerFacts.

(** A command the browser never answers: the caller gets the timeout thirty
    seconds later. *)
Lemma awaited_send_settles_witness :
  exists w',
    CDPCalls.send (Samples.browser_answering 0 (inl JS.Null))
      "Page.enable" (JS.Obj []) Samples.attached_world =
      (Some (JS.Throw (JS.Error "Command Page.enable timed out")), w')
    /\ CDPCalls.wire w' =
         CDPCalls.wire Samples.attached_world
         ++ [CDPCalls.command 1 "Page.enable" (JS.Obj [])]
    /\ CDPCalls.attached w'
    /\ CDPClient.pendingCommands (CDPCalls.client w') !! 1 = None
    /\ CDPCalls.clock w' = 1000 + 30000.
Proof.
  apply (awaited_send_settles (Samples.browser_answering 0 (inl JS.Null))
           Samples.attached_world "Page.enable" (JS.Obj [])).
  - eexists 9222, _. reflexivity.
  - eexists. split; reflexivity.
Defined.

(** The press is answered, the release is not: both frames are on the wire
    and the click ends with the timeout of the release. *)
Lemma click_presses_then_releases_witness :
  let browser := Samples.browser_answering 1 (inl (JS.Obj [])) in
  exists w',
    CDPCalls.click browser (JS.Num 10) (JS.Num 20) Samples.attached_world =
      (Some (JS.Throw (JS.Error "Command Input.dispatchMouseEvent timed out")),
       w')
    /\ CDPCalls.wire w' =
         CDPCalls.wire Samples.attached_world
         ++ [ CDPCalls.command 1 "Input.dispatchMouseEvent"
                (CDPCalls.mouse_event "mousePressed" (JS.Num 10) (JS.Num 20));
              CDPCalls.command (1 + 1) "Input.dispatchMouseEvent"
                (CDPCalls.mouse_event "mouseReleased" (JS.Num 10) (JS.Num 20)) ].
Proof.
  intros browser.
  apply (click_presses_then_releases browser Samples.attached_world
           (JS.Num 10) (JS.Num 20)).
  - eexists 9222, _. reflexivity.
  - eexists. split; reflexivity.
Defined.

(** Typing [hi] into a browser that answers three commands with an error
    from the first on: only the first key-down is sent. *)
Lemma typing_is_fail_stop_witness :
  let browser := Samples.browser_answering 3 (inr "Target closed") in
  let code_points := ToolHandlers.code_points Samples.ascii_runtime in
  let w := Samples.attached_world in
  let id := CDPClient.messageId (CDPCalls.client w) + 1 in
  let events := CDPCalls.keystrokes [JS.Str "h"; JS.Str "i"] in
  exists r w' n,
    CDPCalls.type browser code_points (JS.Str "hi") w = (Some r, w')
    /\ CDPCalls.wire w' =
         CDPCalls.wire w
         ++ take n (CDPCalls.numbered id "Input.dispatchKeyEvent" events)
    /\ ((r = JS.Normal JS.Undefined
         /\ n = (2 * length [JS.Str "h"; JS.Str "i"])%nat
         /\ forall i ps,
              events !! i = Some ps ->
              exists v,
                CDPCalls.answer browser (id + Z.of_nat i)
                  "Input.dispatchKeyEvent" ps = Some (inl v))
        \/ (exists e k ps,
              r = JS.Throw e /\ n = S k
              /\ events !! k = Some ps
              /\ CDPCalls.result_of "Input.dispatchKeyEvent"
                   (CDPCalls.answer browser (id + Z.of_nat k)
                      "Input.dispatchKeyEvent" ps)
                 = JS.Throw e
              /\ forall i ps',
                   (i < k)%nat -> events !! i = Some ps' ->
                   exists v,
                     CDPCalls.answer browser (id + Z.of_nat i)
                       "Input.dispatchKeyEvent" ps' = Some (inl v))).
Proof.
  intros browser code_points w id events.
  apply (typing_is_fail_stop browser code_points (JS.Str "hi")
           [JS.Str "h"; JS.Str "i"] w).
  - eexists 9222, _. reflexivity.
  - eexists. split; reflexivity.
  - reflexivity.
Defined.

(** A client that never attached navigates: it attaches to the first page of
    the listing, past the service worker, and the command is the first frame
    of the new socket. *)
Lemma navigate_attaches_lazily_witness :
  let browser :=
    Samples.browser_answering 1 (inl (JS.Obj [("frameId", JS.Str "F1")])) in
  exists w',
    CDPCalls.navigate browser (JS.Str "https://example.org/")
      Samples.detached_world =
      (Some (JS.Normal (JS.Obj [("frameId", JS.Str "F1")])), w')
    /\ CDPClient.targetId (CDPCalls.client w') = JS.Str "T1"
    /\ CDPCalls.wire w' =
         [CDPCalls.command 1 "Page.navigate"
            (JS.Obj [("url", JS.Str "https://example.org/")])].
Proof.
  intros browser.
  apply (navigate_attaches_lazily browser Samples.detached_world
           (JS.Str "https://example.org/") [Samples.worker; Samples.page]).
  - exists 9222, []. reflexivity.
  - reflexivity.
  - reflexivity.
Defined.

(** The browser is not running when a [navigate] request arrives: the
    session still gets its one envelope. *)
Lemma tool_call_answered_once_witness :
  let s :=
    {| ToolHandlers.host :=
         (CDPHost.run [CDPHost.Connection accepted] CDPHost.create).1;
       ToolHandlers.cdp := Samples.detached_world |} in
  let message := navigate_request "r1" "https://example.org/" in
  exists s' outcome,
    ToolHandlers.serve Samples.ascii_runtime Samples.browser_down 1 message s
      = Some (JS.Normal s')
    /\ CDPHost.wire_of 1 (ToolHandlers.host s') =
         CDPHost.wire_of 1 (ToolHandlers.host s)
         ++ (if decide (Ws.readyState (WSClient.ws (WSClient.create accepted))
                        = Ws.OPEN)
             then [CDPHost.response (CDPCalls.clock (ToolHandlers.cdp s'))
                     (JS.Str "r1") outcome]
             else [])
    /\ CDPHost.requestToClient (ToolHandlers.host s')
         !! JS.to_String (JS.Str "r1") = None
    /\ (forall reqId, reqId <> JS.to_String (JS.Str "r1") ->
          CDPHost.requestToClient (ToolHandlers.host s') !! reqId
            = CDPHost.requestToClient (ToolHandlers.host s) !! reqId)
    /\ (forall c, c <> 1 ->
          CDPHost.clients (ToolHandlers.host s') !! c
            = CDPHost.clients (ToolHandlers.host s) !! c).
Proof.
  intros s message.
  apply (tool_call_answered_once Samples.ascii_runtime Samples.browser_down
           ltac:(split; [discriminate|intros url; discriminate])
           s 1 (WSClient.create accepted) message (JS.Str "r1") "navigate").
  - exists [CDPHost.Connection accepted]. reflexivity.
  - exists 9222, []. reflexivity.
  - vm_compute. reflexivity.
  - reflexivity.
  - reflexivity.
  - vm_compute. reflexivity.
Defined.

(** The script throws in the page: the session gets the error envelope with
    the text of the exception. *)
Lemma page_exception_reaches_caller_witness :
  let reply :=
    JS.Obj [ ("result", JS.Obj [("type", JS.Str "object")]);
             ("exceptionDetails",
              JS.Obj [("text", JS.Str "Uncaught ReferenceError")]) ] in
  let browser := Samples.browser_answering 1 (inl reply) in
  let s :=
    {| ToolHandlers.host :=
         (CDPHost.run [CDPHost.Connection accepted] CDPHost.create).1;
       ToolHandlers.cdp := Samples.attached_world |} in
  let message := Samples.javascript_request "r2" "nothing.here" in
  exists s',
    ToolHandlers.serve Samples.ascii_runtime browser 1 message s
      = Some (JS.Normal s')
    /\ CDPCalls.wire (ToolHandlers.cdp s') =
         CDPCalls.wire (ToolHandlers.cdp s)
         ++ [CDPCalls.command 1 "Runtime.evaluate"
               (JS.Obj [ ("expression", JS.Str "nothing.here");
                         ("returnByValue", JS.Bool true) ])]
    /\ CDPHost.wire_of 1 (ToolHandlers.host s') =
         CDPHost.wire_of 1 (ToolHandlers.host s)
         ++ [CDPHost.envelope 1000 (JS.Str "r2") "error"
               (JS.Str "Uncaught ReferenceError")].
Proof.
  intros reply browser s message.
  apply (page_exception_reaches_caller Samples.ascii_runtime browser
           s 1 (WSClient.create accepted) message (JS.Str "r2")
           [ ("result", JS.Obj [("type", JS.Str "object")]);
             ("exceptionDetails",
              JS.Obj [("text", JS.Str "Uncaught ReferenceError")]) ]).
  - exists [CDPHost.Connection accepted]. reflexivity.
  - eexists 9222, _. reflexivity.
  - eexists. split; reflexivity.
  - vm_compute. reflexivity.
  - reflexivity.
  - reflexivity.
  - reflexivity.
  - reflexivity.
  - reflexivity.
  - reflexivity.
  - reflexivity.
  - reflexivity.
Defined.

(** ** The stdio server in front of the host *)

Section ParseIntFacts.
Import MCPServer.

Lemma digit_of_pretty_N_char (m : N) :
  (m < 10)%N -> digit_of (pretty_N_char m) = Some m.
Proof.
  intros Hm.
  assert (Hcases : (m = 0 \/ m = 1 \/ m = 2 \/ m = 3 \/ m = 4 \/ m = 5
                    \/ m = 6 \/ m = 7 \/ m = 8 \/ m = 9)%N) by lia.
  repeat (destruct Hcases as [->|Hcases]; [reflexivity|]).
  subst m. reflexivity.
Qed.

(** Reading back the digits [pretty_N_go] writes in front of [s]. *)
Lemma digits_pretty_N_go (x : N) (s : string) :
  (0 < x)%N -> digits None (pretty_N_go x s) = digits (Some x) s.
Proof.
  revert s. induction (N.lt_wf_0 x) as [x _ IH]. intros s Hx.
  rewrite pretty_N_go_step by exact Hx.
  assert (Hmod : (x `mod` 10 < 10)%N) by (apply N.mod_upper_bound; lia).
  destruct (decide (x `div` 10 = 0)%N) as [Hz|Hnz].
  - rewrite Hz, pretty_N_go_0. cbn [digits].
    rewrite digit_of_pretty_N_char by exact Hmod.
    unfold default. cbn [from_option].
    f_equal. f_equal. pose proof (N.div_mod x 10 ltac:(lia)). lia.
  - rewrite IH.
    + cbn [digits]. rewrite digit_of_pretty_N_char by exact Hmod.
      unfold default. cbn [from_option id].
      f_equal. f_equal. pose proof (N.div_mod x 10 ltac:(lia)). lia.
    + apply N.div_lt; lia.
    + now apply N.neq_0_lt_0.
Qed.

(** What [pretty_N_go] writes starts with a digit. *)
Lemma pretty_N_go_head (x : N) (s : string) :
  (0 < x)%N ->
  exists m rest, (m < 10)%N /\ pretty_N_go x s = String (pretty_N_char m) rest.
Proof.
  revert s. induction (N.lt_wf_0 x) as [x _ IH]. intros s Hx.
  rewrite pretty_N_go_step by exact Hx.
  destruct (decide (x `div` 10 = 0)%N) as [Hz|Hnz].
  - rewrite Hz, pretty_N_go_0. eexists _, _. split; [|reflexivity].
    apply N.mod_upper_bound. lia.
  - apply IH; [apply N.div_lt; lia|now apply N.neq_0_lt_0].
Qed.

Lemma N_of_pretty_N_char (m : N) :
  (m < 10)%N -> Ascii.N_of_ascii (pretty_N_char m) = (48 + m)%N.
Proof.
  intros Hm.
  assert (Hcases : (m = 0 \/ m = 1 \/ m = 2 \/ m = 3 \/ m = 4 \/ m = 5
                    \/ m = 6 \/ m = 7 \/ m = 8 \/ m = 9)%N) by lia.
  repeat (destruct Hcases as [->|Hcases]; [reflexivity|]).
  subst m. reflexivity.
Qed.

(** A string that starts with a digit or a minus sign has no leading white
    space. *)
Lemma skip_white_space_none c rest :
  (48 <= Ascii.N_of_ascii c <= 57 \/ Ascii.N_of_ascii c = 45)%N ->
  skip_white_space (String c rest) = String c rest.
Proof.
  intros Hc. cbn [skip_white_space]. cbv zeta.
  set (n := Ascii.N_of_ascii c) in *.
  assert (H1 : ((9 <=? n) && (n <=? 13) || (n =? 32))%N = false).
  { destruct (N.leb_spec 9 n), (N.leb_spec n 13), (N.eqb_spec n 32);
      cbn; try reflexivity; lia. }
  assert (H194 : (n =? 194)%N = false) by (apply N.eqb_neq; lia).
  assert (H225 : (n =? 225)%N = false) by (apply N.eqb_neq; lia).
  assert (H226 : (n =? 226)%N = false) by (apply N.eqb_neq; lia).
  assert (H227 : (n =? 227)%N = false) by (apply N.eqb_neq; lia).
  assert (H239 : (n =? 239)%N = false) by (apply N.eqb_neq; lia).
  rewrite H1. destruct rest as [|c2 rest2]; [reflexivity|].
  rewrite H194. cbn [andb]. destruct rest2 as [|c3 rest3]; [reflexivity|].
  rewrite H225, H226, H227, H239. reflexivity.
Qed.

(** An integer up to 2^53 in magnitude is a Number, and prints as its
    decimal numeral. *)
Lemma to_Number_safe (n : Z) : Z.abs n <= 2 ^ 53 -> JS.to_Number n = Some n.
Proof.
  intros Hn. unfold JS.to_Number.
  destruct (Z.leb_spec (Z.abs n) (2 ^ 53)); [reflexivity|lia].
Qed.

Lemma to_String_safe (n : Z) :
  Z.abs n <= 2 ^ 53 -> JS.to_String (JS.Num n) = pretty n.
Proof.
  intros Hn. cbn [JS.to_String]. unfold JS.number_text.
  rewrite to_Number_safe by exact Hn.
  destruct (Z.leb_spec (Z.abs n) (2 ^ 53)); [reflexivity|lia].
Qed.

(** [parseInt] reads a decimal numeral back as the Number nearest to it. *)
Lemma parseInt_numeral (n : Z) : parseInt (pretty n) = JS.to_Number n.
Proof.
  assert (Hpos : forall p : positive,
             parseInt (pretty_N_go (N.pos p) "") = JS.to_Number (Z.pos p)
             /\ digits None (pretty_N_go (N.pos p) "") = Some (N.pos p)).
  { intros p.
    assert (Hd : digits None (pretty_N_go (N.pos p) "") = Some (N.pos p))
      by (rewrite digits_pretty_N_go by lia; reflexivity).
    split; [|exact Hd].
    destruct (pretty_N_go_head (N.pos p) "") as (m & rest & Hm & Hhead);
      [lia|].
    unfold parseInt. rewrite Hhead in Hd |- *.
    pose proof (N_of_pretty_N_char m Hm) as Hcode.
    rewrite skip_white_space_none by (rewrite Hcode; lia).
    rewrite Hcode.
    assert (H45 : (48 + m =? 45)%N = false) by (apply N.eqb_neq; lia).
    assert (H43 : (48 + m =? 43)%N = false) by (apply N.eqb_neq; lia).
    rewrite H45, H43, Hd. reflexivity. }
  destruct n as [|p|p].
  - reflexivity.
  - apply Hpos.
  - change (pretty (Z.neg p))
      with (String (Ascii.ascii_of_N 45) (pretty_N_go (N.pos p) "")).
    unfold parseInt.
    rewrite skip_white_space_none by (right; reflexivity).
    destruct (Hpos p) as [_ Hd].
    change (Ascii.N_of_ascii (Ascii.ascii_of_N 45) =? 45)%N with true.
    cbv iota. rewrite Hd. reflexivity.
Qed.

(** [parseInt(String(n), 10)] is [n], for [n] up to 2^53 in magnitude. *)
Lemma parseInt_pretty (n : Z) :
  Z.abs n <= 2 ^ 53 -> parseInt (pretty n) = Some n.
Proof. intros Hn. rewrite parseInt_numeral. now apply to_Number_safe. Qed.

End ParseIntFacts.

Section McpFacts.
Import MCPServer.
Variable stringify : JS.value -> string.
Variable BROWSER_TOOLS : JS.value.

Implicit Types (m : list JS.value) (key : JS.value).

Lemma has_app key m1 m2 : has key (m1 ++ m2) = has key m1 || has key m2.
Proof. unfold has. apply existsb_app. Qed.

Lemma has_set key m :
  JS.strict_eq key key = true -> has key (set key m) = true.
Proof.
  intros Hrefl. unfold set. destruct (has key m) eqn:Hhas; [exact Hhas|].
  rewrite has_app. cbn. rewrite Hrefl. apply orb_true_r.
Qed.


Lemma known_tool_name (v : JS.value) (name : string) :
  CDPHost.known_tool v = Some name -> v = JS.Str name /\ JS.truthy v = true.
Proof.
  unfold CDPHost.known_tool. destruct v as [| | | |s| |]; try discriminate.
  case_bool_decide as Hin; [|discriminate]. intros [= <-].
  split; [reflexivity|]. unfold CDPHost.tools in Hin.
  elem_cases Hin; subst s; reflexivity.
Qed.

Lemma or_else_object_truthy (v : JS.value) :
  JS.truthy (JS.or_else v (JS.Obj [])) = true.
Proof. unfold JS.or_else. now destruct (JS.truthy v) eqn:Hv. Qed.


(** A tool call that finds no open connection reconnects first, provided
    the tool name it gives converts to a string.  If the new socket opens,
    the call becomes pending and, its id converting to a string, is forwarded
    on the new socket as its first frame; nothing is written to stdout yet.
    If the attempt times out, or fails while the [connected] flag is clear,
    the caller gets the JSON-RPC error -32000 under the id of its request,
    and nothing is forwarded or left pending.  If the attempt fails while
    the flag is still set (the old socket has stopped being open but its
    close event has not arrived), the error listener has cleared the timer
    and does not reject: the call never gets past its [await] and the
    request is never answered.  A tool name that does not convert (an object
    with a [toString] property of its own) makes the first log line throw:
    the promise of the call is rejected with nothing done; and an id that
    does not convert makes the construction of the envelope throw, after the
    request has become pending and with nothing forwarded. *)
Theorem mcp_reconnects_on_demand
    (now : Z) (a : attempt) (message : JS.value) (server : t) :
  (connected server = false
   \/ ~ exists s, ws server = Some s /\ Ws.readyState s = Ws.OPEN) ->
  let toolName := JS.opt_get (JS.get message "params") "name" in
  let id := JS.get message "id" in
  let conversion := JS.TypeError "Cannot convert object to primitive value" in
  let refused :=
    exists server' effs,
      handleToolCall now a message server = Some (server', effs)
      /\ stdout effs =
           [JS.Obj [ ("jsonrpc", JS.Str "2.0");
                     ("id", id);
                     ("error",
                      JS.Obj [ ("code", JS.Num (-32000));
                               ("message", JS.Str not_connected_text) ]) ]]
      /\ pendingRequests server' = pendingRequests server
      /\ wire server' = [] in
  if JS.stringifies toolName then
    match a with
    | Opens =>
        exists server' effs,
          handleToolCall now a message server = Some (server', effs)
          /\ stdout effs = []
          /\ connected server' = true
          /\ pendingRequests server' = set id (pendingRequests server)
          /\ if JS.stringifies id
             then wire server' = [bridgeMessage_of now message]
                  /\ exits effs = false
             else wire server' = [] /\ Unhandled conversion ∈ effs
    | Fails _ =>
        if connected server
        then handleToolCall now a message server = None
        else refused
    | Silent => refused
    end
  else
    handleToolCall now a message server = Some (server, [Unhandled conversion]).
Proof.
  intros Hdown. cbv zeta.
  assert (Hcond : connected server
                  && match ws server with
                     | Some s => bool_decide (Ws.readyState s = Ws.OPEN)
                     | None => false
                     end = false).
  { destruct Hdown as [->|Hno]; [reflexivity|].
    destruct (ws server) as [s|]; [|apply andb_false_r].
    case_bool_decide as Hopen; [|apply andb_false_r].
    exfalso. apply Hno. now exists s. }
  unfold handleToolCall, JS.ToString.
  destruct (JS.stringifies (JS.opt_get (JS.get message "params") "name"));
    [|reflexivity].
  rewrite Hcond.
  destruct a as [|reason|]; cbn [connectWebSocket].
  - unfold forward, JS.ToString.
    destruct (JS.stringifies (JS.get message "id")).
    + eexists _, _. split; [reflexivity|]. now repeat split.
    + eexists _, _. split; [reflexivity|].
      split; [reflexivity|]. split; [reflexivity|]. split; [reflexivity|].
      split; [reflexivity|].
      do 3 apply list_elem_of_further. apply list_elem_of_here.
  - destruct (connected server); [reflexivity|].
    eexists _, _. split; [reflexivity|]. now repeat split.
  - eexists _, _. split; [reflexivity|]. now repeat split.
Qed.

(** A tool call through the server and the host, and back.  On a connected
    server, a [tools/call] message whose id is an integer up to 2^53 in
    magnitude or a non-empty string and which names a tool of the host's
    table is forwarded in an envelope whose id is the id as a string; the
    host accepts the envelope:
    it starts that tool with the request's arguments under that id.  The
    envelope the host builds at the end of the call goes to the server's
    connection, and the server accepts it: it writes exactly one line to
    stdout.  The [id] of that line is the string form of the request's id,
    so a request with the number 7 is answered under the string ["7"].  The
    line is a JSON-RPC error (code -32000) exactly when the host sent an
    error whose message is not empty; an error with an empty message is
    reported as a result. *)
Theorem mcp_round_trip_through_host
    (server : t) (sock : Ws.socket) (a : attempt)
    (host : CDPHost.t) (S : Z) (session : WSClient.t)
    (now now' now'' : Z) (message : JS.value) (name : string)
    (outcome : JS.value + string) :
  ws server = Some sock -> Ws.readyState sock = Ws.OPEN ->
  connected server = true ->
  CDPHost.reachable host ->
  CDPHost.clients host !! S = Some session ->
  Ws.readyState (WSClient.ws session) = Ws.OPEN ->
  JS.prop message "method" = JS.Normal (JS.Str "tools/call") ->
  let id := JS.get message "id" in
  ((exists n, id = JS.Num n /\ Z.abs n <= 2 ^ 53)
   \/ (exists k, id = JS.Str k /\ k <> "")) ->
  CDPHost.known_tool (JS.opt_get (JS.get message "params") "name") = Some name ->
  let envelope := bridgeMessage_of now message in
  let args :=
    JS.or_else (JS.opt_get (JS.get message "params") "arguments") (JS.Obj []) in
  let id' := JS.Str (JS.to_String id) in
  let response := CDPHost.response now'' id' outcome in
  exists server1 effs1 host1 effs2 host2 logs line,
    handleMCPMessage BROWSER_TOOLS now a message server
      = JS.Normal (Some (server1, effs1))
    /\ stdout effs1 = []
    /\ wire server1 = wire server ++ [envelope]
    /\ CDPHost.onMessage S now' envelope host = JS.Normal (host1, effs2)
    /\ CDPHost.StartTool name args id' ∈ effs2
    /\ CDPHost.complete now'' id' outcome host1 = JS.Normal (host2, logs)
    /\ CDPHost.wire_of S host2 = CDPHost.wire_of S host ++ [response]
    /\ stdout (handleWebSocketMessage stringify (JS.Normal response) server1).2
         = [line]
    /\ JS.get line "id" = id'
    /\ match outcome with
       | inr error =>
           if decide (error = "") then
             JS.get line "error" = JS.Undefined
             /\ exists content,
                  JS.get line "result" = JS.Obj [("content", content)]
           else
             JS.get line "error" =
               JS.Obj [("code", JS.Num (-32000)); ("message", JS.Str error)]
       | inl _ =>
           JS.get line "error" = JS.Undefined
           /\ exists content,
                JS.get line "result" = JS.Obj [("content", content)]
       end.
Proof.
  intros Hws Hopen Hconn Hhost HS Hsession Hmethod.
  intros id Hid Hknown envelope args id' response.
  pose proof (reachable_wf_host _ Hhost) as Hwf.
  destruct (known_tool_name _ _ Hknown) as [Hname Htruthy].
  assert (Htn : JS.stringifies (JS.opt_get (JS.get message "params") "name")
                = true) by (rewrite Hname; reflexivity).
  assert (Hstr : JS.stringifies (JS.get message "id") = true).
  { fold id. destruct Hid as [(n & -> & _)|(k & -> & _)]; reflexivity. }
  (* the server forwards *)
  assert (Hcall : handleToolCall now a message server =
                    Some ({| ws := Some {| Ws.readyState := Ws.OPEN;
                                           Ws.wire := Ws.wire sock ++ [envelope] |};
                             connected := true;
                             pendingRequests := set id (pendingRequests server) |},
                          [ Log (ToolCall (JS.opt_get (JS.get message "params") "name"));
                            Log (SendingToWindows (JS.get envelope "payload")) ])).
  { unfold handleToolCall, forward, JS.ToString. rewrite Htn, Hstr, Hws, Hconn.
    rewrite bool_decide_eq_true_2 by exact Hopen. cbn [andb].
    unfold Ws.send. rewrite Hopen. reflexivity. }
  assert (Hentry : handleMCPMessage BROWSER_TOOLS now a message server =
                     JS.Normal
                       (Some ({| ws := Some {| Ws.readyState := Ws.OPEN;
                                               Ws.wire := Ws.wire sock ++ [envelope] |};
                                 connected := true;
                                 pendingRequests := set id (pendingRequests server) |},
                              [ Log (McpRequest (JS.Str "tools/call") id);
                                Log (ToolCall
                                       (JS.opt_get (JS.get message "params") "name"));
                                Log (SendingToWindows (JS.get envelope "payload")) ]))).
  { unfold handleMCPMessage. rewrite Hmethod, Hstr, Hcall. reflexivity. }
  (* the host accepts *)
  assert (Hidp : JS.prop envelope "id" = JS.Normal id') by reflexivity.
  assert (Htool : CDPHost.tool_name (JS.get envelope "payload")
                  = JS.opt_get (JS.get message "params") "name").
  { unfold CDPHost.tool_name, JS.or_else. cbn. now rewrite Htruthy. }
  assert (Hargs : CDPHost.tool_args (JS.get envelope "payload") = args).
  { unfold CDPHost.tool_args. cbn. fold args.
    unfold JS.or_else at 1. unfold args at 1.
    now rewrite or_else_object_truthy. }
  assert (Hh : CDPHost.handled envelope id').
  { apply (known_handled envelope id' name Hidp eq_refl).
    rewrite Htool. exact Hknown. }
  destruct (onMessage_cases S now' envelope id' host Hwf (ex_intro _ _ HS) Hh)
    as [(name' & Hname' & Hon)|(Hnone & _)].
  2: { rewrite Htool, Hknown in Hnone. discriminate. }
  rewrite Htool, Hknown in Hname'. injection Hname' as <-.
  rewrite Hargs in Hon.
  set (host1 := {| CDPHost.clients := CDPHost.clients host;
                   CDPHost.requestToClient :=
                     <[JS.to_String id' := S]> (CDPHost.requestToClient host);
                   CDPHost.clientCounter := CDPHost.clientCounter host;
                   CDPHost.chromeConnected := CDPHost.chromeConnected host |})
    in *.
  assert (Hwf1 : CDPHost.wf host1) by (apply wf_record; eauto).
  destruct (complete_delivery now'' id' outcome host1 S Hwf1)
    as (session' & host2 & logs & Hsession' & Hcomplete & _ & _ & Hwire & _).
  { cbn. apply lookup_insert_eq. }
  cbn in Hsession'. assert (session' = session) by congruence. subst session'.
  destruct (decide (Ws.readyState (WSClient.ws session) = Ws.OPEN));
    [|contradiction].
  (* the server accepts *)
  assert (Hnonempty : JS.truthy id' = true).
  { unfold id'. destruct Hid as [(n & Hn & Hsafe)|(k & Hk & Hne)];
      rewrite ?Hn, ?Hk.
    - rewrite to_String_safe by exact Hsafe. cbn.
      destruct (String.eqb_spec (pretty n) "") as [Hempty|]; [|reflexivity].
      pose proof (parseInt_pretty n Hsafe) as Hparse. rewrite Hempty in Hparse.
      discriminate.
    - cbn. now destruct (String.eqb_spec k ""). }
  assert (Hfound : has id' (set id (pendingRequests server))
                   || has_opt (numReqId_of id') (set id (pendingRequests server))
                   = true).
  { destruct Hid as [(n & Hn & Hsafe)|(k & Hk & Hne)].
    - apply orb_true_iff. right. unfold id'. rewrite Hn.
      rewrite to_String_safe by exact Hsafe.
      cbn [numReqId_of]. rewrite parseInt_pretty by exact Hsafe. cbn [has_opt].
      apply has_set. cbn. apply Z.eqb_refl.
    - apply orb_true_iff. left. unfold id'. rewrite Hk.
      cbn [JS.to_String]. apply has_set. cbn. apply String.eqb_refl. }
  set (payload := JS.get response "payload").
  assert (Hreq : JS.get payload "requestId" = id') by now destruct outcome.
  assert (Hlines : stdout (handleWebSocketMessage stringify (JS.Normal response)
                             {| ws := Some {| Ws.readyState := Ws.OPEN;
                                              Ws.wire := Ws.wire sock ++ [envelope] |};
                                connected := true;
                                pendingRequests := set id (pendingRequests server) |}).2
                   = match answer_line stringify payload with
                     | Stdout line => [line]
                     | Log _ | Unhandled _ => []
                     end).
  { unfold handleWebSocketMessage.
    assert (Hdir : JS.prop response "direction"
                   = JS.Normal (JS.Str "from-chrome")) by now destruct outcome.
    rewrite Hdir. fold payload.
    assert (Hpay : JS.truthy payload = true) by now destruct outcome.
    rewrite Hpay.
    change (JS.strict_eq (JS.Str "from-chrome") (JS.Str "from-chrome"))
      with true.
    cbn [andb]. rewrite Hreq, Hnonempty. cbn [pendingRequests andb]. rewrite Hfound.
    cbn [snd stdout omap]. now destruct (answer_line stringify payload). }
  assert (Hanswer : exists line,
             answer_line stringify payload = Stdout line
             /\ JS.get line "id" = id'
             /\ match outcome with
                | inr error =>
                    if decide (error = "") then
                      JS.get line "error" = JS.Undefined
                      /\ exists content,
                           JS.get line "result" = JS.Obj [("content", content)]
                    else
                      JS.get line "error" =
                        JS.Obj [("code", JS.Num (-32000));
                                ("message", JS.Str error)]
                | inl _ =>
                    JS.get line "error" = JS.Undefined
                    /\ exists content,
                         JS.get line "result" = JS.Obj [("content", content)]
                end).
  { unfold answer_line. rewrite Hreq. destruct outcome as [result|error].
    - assert (Herr : JS.get payload "error" = JS.Undefined) by reflexivity.
      rewrite Herr. cbn [JS.truthy].
      destruct (JS.strict_eq _ _); eexists; (split; [reflexivity|]);
        (split; [reflexivity|]); (split; [reflexivity|eauto]).
    - assert (Herr : JS.get payload "error" = JS.Str error) by reflexivity.
      rewrite Herr. cbn [JS.truthy].
      destruct (decide (error = "")) as [->|Hne].
      + cbn. eexists. split; [reflexivity|]. split; [reflexivity|].
        split; [reflexivity|eauto].
      + destruct (String.eqb_spec error "") as [|_]; [contradiction|].
        cbn [negb]. eexists. split; [reflexivity|]. split; reflexivity. }
  destruct Hanswer as (line & Hline & Hlid & Hkind).
  rewrite Hline in Hlines.
  eexists _, _, host1, _, host2, logs, line.
  split; [exact Hentry|]. split; [reflexivity|].
  split; [unfold wire; now rewrite Hws|].
  split; [exact Hon|].
  split; [apply list_elem_of_further, list_elem_of_further, list_elem_of_here|].
  split; [exact Hcomplete|]. split; [exact Hwire|].
  split; [exact Hlines|]. split; [exact Hlid|exact Hkind].
Qed.

End McpFacts.

(** The socket is closing, the flag is still set, and the new socket fails:
    the request is never answered. *)
Lemma mcp_reconnects_on_demand_witness :
  MCPServer.handleToolCall 5000 (MCPServer.Fails "connect ECONNREFUSED")
    Samples.mcp_navigate_call Samples.mcp_closing = None.
Proof.
  apply (mcp_reconnects_on_demand 5000 (MCPServer.Fails "connect ECONNREFUSED")
           Samples.mcp_navigate_call Samples.mcp_closing).
  right. intros (s & Hs & Hopen). injection Hs as <-. discriminate Hopen.
Defined.

(** Request 7 goes to the host as ["7"], and the answer comes back under the
    string ["7"]. *)
Lemma mcp_round_trip_through_host_witness :
  let stringify := fun _ : JS.value => "{}" in
  let host := (CDPHost.run [CDPHost.Connection accepted] CDPHost.create).1 in
  let result := JS.Obj [("success", JS.Bool true); ("frameId", JS.Str "F1")] in
  exists server1 effs1 line,
    MCPServer.handleMCPMessage (JS.Arr []) 5000 MCPServer.Opens
      Samples.mcp_navigate_call Samples.mcp_connected
      = JS.Normal (Some (server1, effs1))
    /\ MCPServer.wire server1 =
         [MCPServer.bridgeMessage_of 5000 Samples.mcp_navigate_call]
    /\ MCPServer.stdout
         (MCPServer.handleWebSocketMessage stringify
            (JS.Normal (CDPHost.response 5002 (JS.Str "7") (inl result)))
            server1).2 = [line]
    /\ JS.get line "id" = JS.Str "7".
Proof.
  intros stringify host result.
  destruct (mcp_round_trip_through_host stringify (JS.Arr [])
              Samples.mcp_connected
              Samples.accepted_socket MCPServer.Opens host 1
              (WSClient.create accepted) 5000 5001 5002
              Samples.mcp_navigate_call "navigate" (inl result))
    as (server1 & effs1 & host1 & effs2 & host2 & logs & line
        & Hcall & _ & Hwire & _ & _ & _ & _ & Hline & Hid & _).
  - reflexivity.
  - reflexivity.
  - reflexivity.
  - exists [CDPHost.Connection accepted]. reflexivity.
  - vm_compute. reflexivity.
  - reflexivity.
  - reflexivity.
  - left. exists 7. split; [reflexivity|cbn; lia].
  - vm_compute. reflexivity.
  - exists server1, effs1, line.
    split; [exact Hcall|]. split; [exact Hwire|]. split; [exact Hline|].
    exact Hid.
Defined.

(** ** The attachment of the client is shared by all calls *)

Section SharedAttachment.
Import CDPCalls ToolHandlers.
Variable browser : chrome.

(** The attachment outlives the call that made it.  A [navigate] call that
    names a tab of the listing, whose debugger address the socket
    constructor accepts, opens a new socket to that tab, whatever the
    client was attached to before, and sends [Page.navigate] as the first
    frame of that socket.  The client stays attached to it: the next call
    that names no tab, here a [javascript_tool] call, sends its command on
    the same socket, to the same tab, under the next id. *)
Theorem attachment_outlives_the_call
    (w : world) (targets : list Target.t) (target : Target.t)
    (args1 args2 tabId : JS.value) :
  CDPClient.reachable (client w) ->
  listing browser = JS.Normal targets ->
  opening browser = Some None ->
  JS.prop args1 "tabId" = JS.Normal tabId ->
  JS.truthy tabId = true ->
  List.find (fun t => JS.strict_eq (Target.id t) tabId) targets = Some target ->
  refused browser (Target.webSocketDebuggerUrl target) = None ->
  JS.prop args2 "tabId" = JS.Normal JS.Undefined ->
  let id := CDPClient.messageId (client w) + 1 in
  let nav :=
    command id "Page.navigate" (JS.Obj [("url", JS.get args1 "url")]) in
  let eval :=
    command (id + 1) "Runtime.evaluate"
      (JS.Obj [ ("expression", JS.get args2 "text");
                ("returnByValue", JS.Bool true) ]) in
  exists r1 w1 r2 w2,
    handleNavigate browser args1 w = (Some r1, w1)
    /\ CDPClient.targetId (client w1) = tabId
    /\ wire w1 = [nav]
    /\ handleJavaScript browser args2 w1 = (Some r2, w2)
    /\ CDPClient.targetId (client w2) = tabId
    /\ wire w2 = [nav; eval].
Proof.
  intros Hreach Hlisting Hopening Htab1 Htruthy Hfind Hurl Htab2. cbv zeta.
  pose proof (reachable_wf _ Hreach) as Hwf.
  assert (Htarget : Target.id target = tabId).
  { apply List.find_some in Hfind as [_ Heq]. now apply strict_eq_true. }
  (* the first call *)
  assert (H1 : exists r1 w1,
             handleNavigate browser args1 w = (Some r1, w1)
             /\ CDPClient.wf (client w1)
             /\ CDPClient.ws (client w1) =
                  Some {| Ws.readyState := Ws.OPEN;
                          Ws.wire :=
                            [command (CDPClient.messageId (client w) + 1)
                               "Page.navigate"
                               (JS.Obj [("url", JS.get args1 "url")])] |}
             /\ CDPClient.targetId (client w1) = tabId
             /\ CDPClient.messageId (client w1)
                  = CDPClient.messageId (client w) + 1).
  { unfold handleNavigate, bind at 1, lift. rewrite Htab1, Htruthy.
    unfold bind at 1, bind at 1, connectToTarget, CDPClient.connectToTarget,
      Ws.construct.
    rewrite Hlisting, Htruthy, Hfind, Hurl, Hopening. cbn [ret].
    unfold bind at 1, navigate, bind at 1.
    rewrite attach_when_attached by (cbn; eauto).
    match goal with
    | |- context [send browser _ _ ?w0] =>
        destruct (send_spec browser w0 "Page.navigate"
                    (JS.Obj [("url", JS.get args1 "url")])
                    {| Ws.readyState := Ws.OPEN; Ws.wire := [] |})
          as (w1 & Hsend & Hwf1 & Hws1 & Hm1 & Htid1 & _)
    end.
    - cbn [client]. eapply wf_same; [exact Hwf|reflexivity..].
    - reflexivity.
    - reflexivity.
    - cbn [client CDPClient.on_open CDPClient.messageId CDPClient.targetId
             CDPClient.with_ws CDPClient.with_targetId]
        in Hsend, Hws1, Hm1, Htid1.
      rewrite Hsend.
      destruct (result_of "Page.navigate" _) as [result|e];
        [unfold bind, lift, ret; destruct (JS.prop result "frameId")|];
        eexists _, w1; (split; [reflexivity|]); (split; [exact Hwf1|]);
        (split; [exact Hws1|]); (split; [now rewrite Htid1|exact Hm1]). }
  destruct H1 as (r1 & w1 & Hrun1 & Hwf1 & Hws1 & Htid1 & Hm1).
  (* the second call *)
  destruct (send_spec browser w1 "Runtime.evaluate"
              (JS.Obj [ ("expression", JS.get args2 "text");
                        ("returnByValue", JS.Bool true) ])
              _ Hwf1 Hws1 eq_refl)
    as (w2 & Hsend2 & _ & Hws2 & _ & Htid2 & _).
  rewrite Hm1 in Hsend2, Hws2. cbn [Ws.wire app] in Hws2.
  assert (H2 : exists r2, handleJavaScript browser args2 w1 = (Some r2, w2)).
  { unfold handleJavaScript, attach, bind at 1, bind at 1, lift.
    rewrite Htab2. cbn [JS.truthy].
    rewrite attach_when_attached by (rewrite Hws1; eauto).
    unfold bind at 1, executeScript, bind at 1.
    rewrite attach_when_attached by (rewrite Hws1; eauto).
    unfold bind at 1. rewrite Hsend2.
    destruct (result_of "Runtime.evaluate" _) as [result|e]; [|eauto].
    unfold bind, lift, ret, throw.
    destruct (JS.prop result "exceptionDetails") as [details|e]; [|eauto].
    destruct (JS.truthy details); [eauto|].
    destruct (JS.prop result "result") as [inner|e]; [|eauto].
    destruct (JS.prop inner "value"); eauto. }
  destruct H2 as [r2 Hrun2].
  exists r1, w1, r2, w2.
  split; [exact Hrun1|]. split; [exact Htid1|].
  split; [unfold wire; now rewrite Hws1|].
  split; [exact Hrun2|]. split; [now rewrite Htid2|].
  unfold wire. now rewrite Hws2.
Qed.

End SharedAttachment.

(** A call for tab [T1] on a client that never attached, then a script. *)
Lemma attachment_outlives_the_call_witness :
  let browser := Samples.browser_answering 2 (inl (JS.Obj [])) in
  let args1 :=
    JS.Obj [("tabId", JS.Str "T1"); ("url", JS.Str "https://example.org/")] in
  let args2 := JS.Obj [("text", JS.Str "document.title")] in
  let nav :=
    CDPCalls.command 1 "Page.navigate"
      (JS.Obj [("url", JS.Str "https://example.org/")]) in
  let eval :=
    CDPCalls.command 2 "Runtime.evaluate"
      (JS.Obj [ ("expression", JS.Str "document.title");
                ("returnByValue", JS.Bool true) ]) in
  exists r1 w1 r2 w2,
    ToolHandlers.handleNavigate browser args1 Samples.detached_world
      = (Some r1, w1)
    /\ CDPClient.targetId (CDPCalls.client w1) = JS.Str "T1"
    /\ CDPCalls.wire w1 = [nav]
    /\ ToolHandlers.handleJavaScript browser args2 w1 = (Some r2, w2)
    /\ CDPClient.targetId (CDPCalls.client w2) = JS.Str "T1"
    /\ CDPCalls.wire w2 = [nav; eval].
Proof.
  intros browser args1 args2 nav eval.
  apply (attachment_outlives_the_call browser Samples.detached_world
           [Samples.worker; Samples.page] Samples.page args1 args2
           (JS.Str "T1")).
  - exists 9222, []. reflexivity.
  - reflexivity.
  - reflexivity.
  - reflexivity.
  - reflexivity.
  - reflexivity.
  - reflexivity.
  - reflexivity.
Defined.

(** ** Two servers in front of one host *)

Section McpSessions.
Import MCPServer.
Variable stringify : JS.value -> string.
Variable BROWSER_TOOLS : JS.value.

Lemma mcp_forward_spec (now : Z) (a : attempt) (message : JS.value)
    (server : t) (sock : Ws.socket) :
  ws server = Some sock -> Ws.readyState sock = Ws.OPEN ->
  connected server = true ->
  JS.prop message "method" = JS.Normal (JS.Str "tools/call") ->
  JS.stringifies (JS.get message "id") = true ->
  JS.stringifies (JS.opt_get (JS.get message "params") "name") = true ->
  exists effs,
    handleMCPMessage BROWSER_TOOLS now a message server =
      JS.Normal
        (Some ({| ws := Some {| Ws.readyState := Ws.OPEN;
                                Ws.wire :=
                                  Ws.wire sock ++ [bridgeMessage_of now message] |};
                  connected := true;
                  pendingRequests :=
                    set (JS.get message "id") (pendingRequests server) |},
               effs))
    /\ stdout effs = [].
Proof.
  intros Hws Hopen Hconn Hmethod Hstr Htn.
  unfold handleMCPMessage. rewrite Hmethod, Hstr.
  unfold handleToolCall, forward, JS.ToString. rewrite Htn, Hstr, Hws, Hconn.
  rewrite bool_decide_eq_true_2 by exact Hopen. cbn [andb].
  unfold Ws.send. rewrite Hopen. eexists. split; reflexivity.
Qed.

Lemma host_accepts_envelope (host : CDPHost.t) (S now now' : Z)
    (session : WSClient.t) (message : JS.value) (name : string) :
  CDPHost.wf host ->
  CDPHost.clients host !! S = Some session ->
  CDPHost.known_tool (JS.opt_get (JS.get message "params") "name") = Some name ->
  exists effs,
    CDPHost.onMessage S now' (bridgeMessage_of now message) host =
      JS.Normal
        ({| CDPHost.clients := CDPHost.clients host;
            CDPHost.requestToClient :=
              <[JS.to_String (JS.get message "id") := S]>
                (CDPHost.requestToClient host);
            CDPHost.clientCounter := CDPHost.clientCounter host;
            CDPHost.chromeConnected := CDPHost.chromeConnected host |}, effs)
    /\ CDPHost.StartTool name
         (JS.or_else (JS.opt_get (JS.get message "params") "arguments")
                     (JS.Obj []))
         (JS.Str (JS.to_String (JS.get message "id"))) ∈ effs.
Proof.
  intros Hwf HS Hknown.
  destruct (known_tool_name _ _ Hknown) as [Hname Htruthy].
  set (envelope := bridgeMessage_of now message).
  assert (Hidp : JS.prop envelope "id"
                 = JS.Normal (JS.Str (JS.to_String (JS.get message "id"))))
    by reflexivity.
  assert (Htool : CDPHost.tool_name (JS.get envelope "payload")
                  = JS.opt_get (JS.get message "params") "name").
  { unfold CDPHost.tool_name, JS.or_else. cbn. now rewrite Htruthy. }
  assert (Hargs : CDPHost.tool_args (JS.get envelope "payload")
                  = JS.or_else (JS.opt_get (JS.get message "params") "arguments")
                               (JS.Obj [])).
  { unfold CDPHost.tool_args. cbn.
    unfold JS.or_else at 1. now rewrite or_else_object_truthy. }
  assert (Hh : CDPHost.handled envelope
                 (JS.Str (JS.to_String (JS.get message "id")))).
  { apply (known_handled envelope _ name Hidp eq_refl).
    rewrite Htool. exact Hknown. }
  destruct (onMessage_cases S now' envelope _ host Hwf (ex_intro _ _ HS) Hh)
    as [(name' & Hname' & Hon)|(Hnone & _)].
  2: { rewrite Htool, Hknown in Hnone. discriminate. }
  rewrite Htool, Hknown in Hname'. injection Hname' as <-.
  rewrite Hargs in Hon. eexists. split; [exact Hon|].
  apply list_elem_of_further, list_elem_of_further, list_elem_of_here.
Qed.

Lemma mcp_accepts_number (server : t) (n now : Z) (outcome : JS.value + string) :
  Z.abs n <= 2 ^ 53 ->
  has (JS.Num n) (pendingRequests server) = true ->
  exists line,
    stdout (handleWebSocketMessage stringify
              (JS.Normal (CDPHost.response now (JS.Str (pretty n)) outcome))
              server).2 = [line]
    /\ JS.get line "id" = JS.Str (pretty n).
Proof.
  intros Hsafe Hpending.
  set (response := CDPHost.response now (JS.Str (pretty n)) outcome).
  set (payload := JS.get response "payload").
  assert (Hreq : JS.get payload "requestId" = JS.Str (pretty n))
    by now destruct outcome.
  assert (Hdir : JS.prop response "direction"
                 = JS.Normal (JS.Str "from-chrome")) by now destruct outcome.
  assert (Hpay : JS.truthy payload = true) by now destruct outcome.
  assert (Hnonempty : JS.truthy (JS.Str (pretty n)) = true).
  { cbn. destruct (String.eqb_spec (pretty n) "") as [Hempty|]; [|reflexivity].
    pose proof (parseInt_pretty n Hsafe) as Hparse. rewrite Hempty in Hparse.
    discriminate. }
  assert (Hline : exists line,
             answer_line stringify payload = Stdout line
             /\ JS.get line "id" = JS.Str (pretty n)).
  { unfold answer_line. rewrite Hreq.
    destruct (JS.truthy (JS.get payload "error")); [eexists; now split|].
    destruct (JS.strict_eq _ _); eexists; now split. }
  destruct Hline as (line & Hline & Hid). exists line. split; [|exact Hid].
  unfold handleWebSocketMessage. rewrite Hdir. fold payload. rewrite Hpay.
  change (JS.strict_eq (JS.Str "from-chrome") (JS.Str "from-chrome")) with true.
  cbn [andb]. rewrite Hreq, Hnonempty. cbn [andb numReqId_of].
  rewrite parseInt_pretty by exact Hsafe.
  cbn [has_opt]. rewrite Hpending, orb_true_r.
  cbn [snd stdout omap]. rewrite Hline. reflexivity.
Qed.

(** Two servers, one request number.  The envelope id of a forwarded call is
    the client's request id as a string and nothing else, so two servers
    that are each sent a [tools/call] under the same number (an integer up
    to 2^53 in magnitude) put the same id on their envelopes.  When both calls are in flight at the host, the
    route of that id names the server whose envelope arrived last: the
    response to the first call is written to the connection of the second
    server and not to the first; the second server takes it for the answer
    to its own request and writes it to its client; and when the second call
    ends, its response finds no route and is dropped, the host unchanged.
    The first client is never answered, the second gets the other call's
    outcome. *)
Theorem mcp_sessions_share_request_numbers
    (host : CDPHost.t) (SA SB : Z) (sessionA sessionB : WSClient.t)
    (serverA serverB : t) (sockA sockB : Ws.socket) (a : attempt)
    (n nowA nowB now1 now2 now3 now4 : Z) (messageA messageB : JS.value)
    (nameA nameB : string) (outcomeA outcomeB : JS.value + string) :
  CDPHost.reachable host ->
  SA <> SB ->
  CDPHost.clients host !! SA = Some sessionA ->
  CDPHost.clients host !! SB = Some sessionB ->
  Ws.readyState (WSClient.ws sessionB) = Ws.OPEN ->
  ws serverA = Some sockA -> Ws.readyState sockA = Ws.OPEN ->
  connected serverA = true ->
  ws serverB = Some sockB -> Ws.readyState sockB = Ws.OPEN ->
  connected serverB = true ->
  JS.prop messageA "method" = JS.Normal (JS.Str "tools/call") ->
  JS.prop messageB "method" = JS.Normal (JS.Str "tools/call") ->
  JS.get messageA "id" = JS.Num n ->
  JS.get messageB "id" = JS.Num n ->
  Z.abs n <= 2 ^ 53 ->
  CDPHost.known_tool (JS.opt_get (JS.get messageA "params") "name") = Some nameA ->
  CDPHost.known_tool (JS.opt_get (JS.get messageB "params") "name") = Some nameB ->
  let envelopeA := bridgeMessage_of nowA messageA in
  let envelopeB := bridgeMessage_of nowB messageB in
  let id := JS.Str (pretty n) in
  exists serverA1 effsA serverB1 effsB hostA logsA hostB logsB host3 logs3
         logs4 line,
    handleMCPMessage BROWSER_TOOLS nowA a messageA serverA
      = JS.Normal (Some (serverA1, effsA))
    /\ wire serverA1 = wire serverA ++ [envelopeA]
    /\ handleMCPMessage BROWSER_TOOLS nowB a messageB serverB
         = JS.Normal (Some (serverB1, effsB))
    /\ wire serverB1 = wire serverB ++ [envelopeB]
    /\ JS.get envelopeA "id" = id /\ JS.get envelopeB "id" = id
    /\ CDPHost.onMessage SA now1 envelopeA host = JS.Normal (hostA, logsA)
    /\ CDPHost.onMessage SB now2 envelopeB hostA = JS.Normal (hostB, logsB)
    /\ CDPHost.complete now3 id outcomeA hostB = JS.Normal (host3, logs3)
    /\ CDPHost.wire_of SA host3 = CDPHost.wire_of SA host
    /\ CDPHost.wire_of SB host3 =
         CDPHost.wire_of SB host ++ [CDPHost.response now3 id outcomeA]
    /\ stdout (handleWebSocketMessage stringify
                 (JS.Normal (CDPHost.response now3 id outcomeA)) serverB1).2
         = [line]
    /\ JS.get line "id" = id
    /\ CDPHost.complete now4 id outcomeB host3 = JS.Normal (host3, logs4).
Proof.
  intros Hhost Hne HSA HSB HopenB HwsA HopenA HconnA HwsB HopenSB HconnB.
  intros HmethodA HmethodB HidA HidB Hsafe HknownA HknownB envelopeA envelopeB id.
  pose proof (reachable_wf_host _ Hhost) as Hwf.
  destruct (mcp_forward_spec nowA a messageA serverA sockA
              HwsA HopenA HconnA HmethodA) as (effsA & HforwardA & _);
    [now rewrite HidA|eapply known_tool_stringifies, HknownA|].
  destruct (mcp_forward_spec nowB a messageB serverB sockB
              HwsB HopenSB HconnB HmethodB) as (effsB & HforwardB & _);
    [now rewrite HidB|eapply known_tool_stringifies, HknownB|].
  destruct (host_accepts_envelope host SA nowA now1 sessionA messageA nameA
              Hwf HSA HknownA) as (logsA & HonA & _).
  rewrite HidA, (to_String_safe n Hsafe) in HonA.
  set (hostA := {| CDPHost.clients := CDPHost.clients host;
                   CDPHost.requestToClient :=
                     <[pretty n := SA]> (CDPHost.requestToClient host);
                   CDPHost.clientCounter := CDPHost.clientCounter host;
                   CDPHost.chromeConnected := CDPHost.chromeConnected host |})
    in *.
  assert (HwfA : CDPHost.wf hostA) by (apply wf_record; eauto).
  destruct (host_accepts_envelope hostA SB nowB now2 sessionB messageB nameB
              HwfA HSB HknownB) as (logsB & HonB & _).
  rewrite HidB, (to_String_safe n Hsafe) in HonB.
  set (hostB := {| CDPHost.clients := CDPHost.clients hostA;
                   CDPHost.requestToClient :=
                     <[pretty n := SB]> (CDPHost.requestToClient hostA);
                   CDPHost.clientCounter := CDPHost.clientCounter hostA;
                   CDPHost.chromeConnected := CDPHost.chromeConnected hostA |})
    in *.
  assert (HwfB : CDPHost.wf hostB) by (apply wf_record; eauto).
  destruct (complete_delivery now3 id outcomeA hostB SB HwfB)
    as (session' & host3 & logs3 & Hsession' & Hcomplete & _ & Hroutes
        & Hwire & Hothers).
  { cbn. apply lookup_insert_eq. }
  cbn in Hsession'. assert (session' = sessionB) by congruence. subst session'.
  destruct (decide (Ws.readyState (WSClient.ws sessionB) = Ws.OPEN));
    [|contradiction].
  pose proof (wf_complete _ _ _ _ _ _ HwfB Hcomplete) as Hwf3.
  destruct (complete_cases now4 id outcomeB host3 Hwf3)
    as [(S' & c & c' & l & Hroute & _)|(_ & logs4 & Hdropped & _)].
  { exfalso. rewrite Hroutes in Hroute. cbn in Hroute.
    rewrite lookup_delete_eq in Hroute. discriminate. }
  destruct (mcp_accepts_number
              {| ws := Some {| Ws.readyState := Ws.OPEN;
                               Ws.wire := Ws.wire sockB ++ [envelopeB] |};
                 connected := true;
                 pendingRequests :=
                   set (JS.get messageB "id") (pendingRequests serverB) |}
              n now3 outcomeA Hsafe) as (line & Hline & Hlid).
  { cbn [pendingRequests]. rewrite HidB. apply has_set. cbn. apply Z.eqb_refl. }
  eexists _, effsA, _, effsB, hostA, logsA, hostB, logsB, host3, logs3.
  exists logs4, line.
  split; [exact HforwardA|]. split; [unfold wire; now rewrite HwsA|].
  split; [exact HforwardB|]. split; [unfold wire; now rewrite HwsB|].
  split; [unfold envelopeA; cbn [bridgeMessage_of JS.get JS.assoc String.eqb
                                   Ascii.eqb Bool.eqb];
          now rewrite HidA, (to_String_safe n Hsafe)|].
  split; [unfold envelopeB; cbn [bridgeMessage_of JS.get JS.assoc String.eqb
                                   Ascii.eqb Bool.eqb];
          now rewrite HidB, (to_String_safe n Hsafe)|].
  split; [exact HonA|]. split; [exact HonB|]. split; [exact Hcomplete|].
  split.
  { unfold CDPHost.wire_of. rewrite (Hothers SA Hne). reflexivity. }
  split; [exact Hwire|]. split; [exact Hline|]. split; [exact Hlid|].
  exact Hdropped.
Qed.

End McpSessions.

(** Two servers are each sent request 7; the first call ends with a frame
    id, which the second server hands to its client. *)
Lemma mcp_sessions_share_request_numbers_witness :
  let stringify := fun _ : JS.value => "{}" in
  let host :=
    (CDPHost.run [CDPHost.Connection accepted; CDPHost.Connection accepted]
       CDPHost.create).1 in
  let outcome := inl (JS.Obj [("success", JS.Bool true)]) in
  exists serverB1 effsB host3 line,
    MCPServer.handleMCPMessage (JS.Arr []) 5001 MCPServer.Opens
      Samples.mcp_navigate_call Samples.mcp_connected
      = JS.Normal (Some (serverB1, effsB))
    /\ CDPHost.wire_of 1 host3 = CDPHost.wire_of 1 host
    /\ CDPHost.wire_of 2 host3 =
         CDPHost.wire_of 2 host ++ [CDPHost.response 5004 (JS.Str "7") outcome]
    /\ MCPServer.stdout
         (MCPServer.handleWebSocketMessage stringify
            (JS.Normal (CDPHost.response 5004 (JS.Str "7") outcome))
            serverB1).2 = [line]
    /\ JS.get line "id" = JS.Str "7".
Proof.
  intros stringify host outcome.
  destruct (mcp_sessions_share_request_numbers stringify (JS.Arr [])
              host 1 2 (WSClient.create accepted) (WSClient.create accepted)
              Samples.mcp_connected Samples.mcp_connected
              Samples.accepted_socket Samples.accepted_socket MCPServer.Opens
              7 5000 5001 5002 5003 5004 5005
              Samples.mcp_navigate_call Samples.mcp_navigate_call
              "navigate" "navigate" outcome outcome)
    as (serverA1 & effsA & serverB1 & effsB & hostA & logsA & hostB & logsB
        & host3 & logs3 & logs4 & line
        & _ & _ & HforwardB & _ & _ & _ & _ & _ & _ & HwireA & HwireB
        & Hline & Hid & _).
  - exists [CDPHost.Connection accepted; CDPHost.Connection accepted].
    reflexivity.
  - discriminate.
  - vm_compute. reflexivity.
  - vm_compute. reflexivity.
  - reflexivity.
  - reflexivity.
  - reflexivity.
  - reflexivity.
  - reflexivity.
  - reflexivity.
  - reflexivity.
  - reflexivity.
  - reflexivity.
  - reflexivity.
  - reflexivity.
  - cbn. lia.
  - vm_compute. reflexivity.
  - vm_compute. reflexivity.
  - exists serverB1, effsB, host3, line.
    split; [exact HforwardB|]. split; [exact HwireA|].
    split; [exact HwireB|]. split; [exact Hline|exact Hid].
Defined.
